(** * Conversations client of the Vonage Node SDK: transcoding and pagination

    A shallow embedding of [packages/conversations/lib/conversations.ts].
    JavaScript objects live in a store of cells and are passed by
    reference, so that the in-place edits of the source ([delete],
    property assignment) and the sharing between values are visible.
    Every operation is a computation in a state-and-exception monad over
    that store and the log of HTTP requests handed to the transport. *)

From Stdlib Require Import String Ascii ZArith DecimalString List Bool Lia.
From stdpp Require Import base option list.
Import ListNotations.
Set Warnings "-register-all,-notation-for-abbreviation".
Local Open Scope string_scope.
Local Open Scope list_scope.

(** ** Values, cells and the store *)

(** A JavaScript value: a primitive or a reference to a cell. Numbers are
    kept as integers; no operation of this module does arithmetic. *)
Inductive val : Type :=
| VUndef
| VNull
| VBool (b : bool)
| VNum (n : Z)
| VStr (s : string)
| VRef (l : nat).

(** A cell is a plain object (its own properties in insertion order) or
    an array. *)
Inductive cell : Type :=
| CObj (fs : list (string * val))
| CArr (xs : list val).

Notation heap := (list cell).

(** A parsed JSON document, the shape in which the server's answers
    arrive; the entries of an object are in insertion order. *)
Inductive tree : Type :=
| TUndef
| TNull
| TBool (b : bool)
| TNum (n : Z)
| TStr (s : string)
| TObj (fs : list (string * tree))
| TArr (xs : list tree).

(** ** Property lists *)

Section Fields.
Context {A : Type}.

(** [o[k]] on the own properties of an object. *)
Fixpoint oget (fs : list (string * A)) (k : string) : option A :=
  match fs with
  | [] => None
  | (k', v) :: r => if String.eqb k' k then Some v else oget r k
  end.

(** [o[k] = v]: overwrite in place or append. *)
Fixpoint oset (fs : list (string * A)) (k : string) (v : A)
  : list (string * A) :=
  match fs with
  | [] => [(k, v)]
  | (k', v') :: r =>
      if String.eqb k' k then (k, v) :: r else (k', v') :: oset r k v
  end.

(** [delete o[k]]. *)
Fixpoint odel (fs : list (string * A)) (k : string) : list (string * A) :=
  match fs with
  | [] => []
  | (k', v) :: r =>
      if String.eqb k' k then odel r k else (k', v) :: odel r k
  end.

Definition okeys (fs : list (string * A)) : list string := map fst fs.

Fixpoint mem (k : string) (ks : list string) : bool :=
  match ks with
  | [] => false
  | k' :: r => String.eqb k' k || mem k r
  end.

(** The entries whose key is not listed in [ks]. *)
Fixpoint without (ks : list string) (fs : list (string * A))
  : list (string * A) :=
  match fs with
  | [] => []
  | (k, v) :: r =>
      if mem k ks then without ks r else (k, v) :: without ks r
  end.

(** Assign every entry of [fs] into [acc], in order (object spread). *)
Definition spreadInto (acc fs : list (string * A)) : list (string * A) :=
  fold_left (fun a kv => oset a (fst kv) (snd kv)) fs acc.

(** Assign every entry of [fs] under its converted key, in order:
    [for (k in o) out[tf(k)] = o[k]]. *)
Definition renameKeys (tf : string -> string) (fs : list (string * A))
  : list (string * A) :=
  fold_left (fun a kv => oset a (tf (fst kv)) (snd kv)) fs [].

(** The last entry of [fs] whose converted key is [K], or [dflt]: what
    a lookup finds after the entries were assigned in order. *)
Definition lastUnder (tf : string -> string) (K : string)
  (dflt : option A) (fs : list (string * A)) : option A :=
  fold_left (fun o kv => if String.eqb (tf (fst kv)) K then Some (snd kv) else o)
    fs dflt.
End Fields.

(** ** Requests, the world and the monad *)

Inductive verb : Type := GET | POST | PUT | PATCH | DELETE.

(** What a request carries: nothing, query parameters (the own properties
    of the parameter object at the time of the call) or a JSON body (the
    object handed to the transport). *)
Inductive payload : Type :=
| NoPayload
| Query (fs : list (string * val))
| Body (v : val).

Record request : Type := Request {
  req_method : verb;
  req_url : string;
  req_payload : payload
}.

Inductive error : Type :=
| TypeError
| RangeError
| TransportError.

Inductive res (A : Type) : Type :=
| Ok (a : A)
| Throw (e : error).
Arguments Ok {A} a.
Arguments Throw {A} e.

Record world : Type := World {
  heap_of : heap;
  log : list request
}.

Definition M (A : Type) : Type := world -> world * res A.

Definition ret {A} (a : A) : M A := fun w => (w, Ok a).
Definition throw {A} (e : error) : M A := fun w => (w, Throw e).
Definition bind {A B} (c : M A) (k : A -> M B) : M B :=
  fun w =>
    match c w with
    | (w1, Ok a) => k a w1
    | (w1, Throw e) => (w1, Throw e)
    end.

Notation "'let*' x := c 'in' k" := (bind c (fun x => k))
  (at level 10, x name, c at level 100, k at level 200).

Section Traverse.
Context {A B : Type} (f : A -> M B).

(** [xs.map(f)] for an effectful [f], left to right. *)
Fixpoint traverse (xs : list A) : M (list B) :=
  match xs with
  | [] => ret []
  | x :: r => let* y := f x in let* ys := traverse r in ret (y :: ys)
  end.
End Traverse.

(** ** Store primitives *)

Definition alloc (c : cell) : M val := fun w =>
  (World (heap_of w ++ [c]) (log w), Ok (VRef (length (heap_of w)))).

(** The own properties of a value; anything but a plain object has none. *)
Definition fieldsOf (h : heap) (v : val) : list (string * val) :=
  match v with
  | VRef l => match h !! l with Some (CObj fs) => fs | _ => [] end
  | _ => []
  end.

Definition ownFields (v : val) : M (list (string * val)) := fun w =>
  (w, Ok (fieldsOf (heap_of w) v)).

Definition orUndef (o : option val) : val :=
  match o with Some v => v | None => VUndef end.

(** [v.k]: a TypeError on [undefined] and [null], [undefined] where the
    property is missing. The keys read in this module are never array
    indices or [length]. *)
Definition getProp (v : val) (k : string) : M val := fun w =>
  match v with
  | VUndef | VNull => (w, Throw TypeError)
  | _ => (w, Ok (orUndef (oget (fieldsOf (heap_of w) v) k)))
  end.

(** [v?.k]. *)
Definition optChain (v : val) (k : string) : M val :=
  match v with
  | VUndef | VNull => ret VUndef
  | _ => getProp v k
  end.

Definition truthy (v : val) : bool :=
  match v with
  | VUndef | VNull => false
  | VBool b => b
  | VNum n => negb (Z.eqb n 0)
  | VStr s => negb (String.eqb s "")
  | VRef _ => true
  end.

(** [v.k = x] in strict mode: a TypeError on a primitive. Named
    properties of arrays are not kept by this model. *)
Definition setProp (v : val) (k : string) (x : val) : M unit := fun w =>
  match v with
  | VRef l =>
      match heap_of w !! l with
      | Some (CObj fs) =>
          (World (<[l := CObj (oset fs k x)]> (heap_of w)) (log w), Ok tt)
      | _ => (w, Ok tt)
      end
  | _ => (w, Throw TypeError)
  end.

(** [delete v.k]. *)
Definition deleteProp (v : val) (k : string) : M unit := fun w =>
  match v with
  | VRef l =>
      match heap_of w !! l with
      | Some (CObj fs) =>
          (World (<[l := CObj (odel fs k)]> (heap_of w)) (log w), Ok tt)
      | _ => (w, Ok tt)
      end
  | VUndef | VNull => (w, Throw TypeError)
  | _ => (w, Ok tt)
  end.

(** ** Reading a value back as a document, and parsing one into the store *)

(** The document a value denotes, following references at most [n] deep;
    [None] when the structure is deeper than that (in particular when it
    is cyclic) or a reference dangles. *)
Fixpoint reify (n : nat) (h : heap) (v : val) : option tree :=
  match v with
  | VUndef => Some TUndef
  | VNull => Some TNull
  | VBool b => Some (TBool b)
  | VNum z => Some (TNum z)
  | VStr s => Some (TStr s)
  | VRef l =>
      match n with
      | 0 => None
      | S n' =>
          match h !! l with
          | Some (CObj fs) =>
              TObj <$> mapM (fun kv => t ← reify n' h (snd kv); Some (fst kv, t)) fs
          | Some (CArr xs) => TArr <$> mapM (reify n' h) xs
          | None => None
          end
      end
  end.

(** A value is a finite document when reading it back succeeds with as
    much fuel as the store has cells. *)
Definition denotes (w : world) (v : val) (t : tree) : Prop :=
  reify (length (heap_of w)) (heap_of w) v = Some t.

(** [JSON.parse] of a server answer: every object and array of the
    document becomes a fresh cell. *)
Fixpoint allocTree (t : tree) : M val :=
  match t with
  | TUndef => ret VUndef
  | TNull => ret VNull
  | TBool b => ret (VBool b)
  | TNum z => ret (VNum z)
  | TStr s => ret (VStr s)
  | TObj fs =>
      let* vs := traverse (fun kt => let '(_, x) := kt in allocTree x) fs in
      alloc (CObj (combine (map fst fs) vs))
  | TArr xs =>
      let* vs := traverse allocTree xs in
      alloc (CArr vs)
  end.

(** ** Documents: conversion of keys and size *)

(** The document that the deep key conversion of [t] denotes. *)
Fixpoint tmap (tf : string -> string) (t : tree) : tree :=
  match t with
  | TObj fs =>
      TObj (renameKeys tf (map (fun kt => let '(k, x) := kt in (k, tmap tf x)) fs))
  | TArr xs => TArr (map (tmap tf) xs)
  | _ => t
  end.

(** The number of objects and arrays of a document: the cells it takes. *)
Fixpoint tnodes (t : tree) : nat :=
  match t with
  | TObj fs => S (list_sum (map (fun kt => let '(_, x) := kt in tnodes x) fs))
  | TArr xs => S (list_sum (map tnodes xs))
  | _ => 0
  end.

(** ** Key conversion helpers *)

(** Modelled from the spec: [Client.transformers.omit] of the
    server-client package, whose source is not part of this development.
    It builds a new object with the own properties of its argument except
    the listed ones; an absent argument yields the empty object (section 7
    of the specification: missing fields degrade gracefully). *)
Definition omit (ks : list string) (v : val) : M val := fun w =>
  alloc (CObj (without ks (fieldsOf (heap_of w) v))) w.

(** Modelled from the spec: the recursion of
    [Client.transformers.camelCaseObjectKeys] and [snakeCaseObjectKeys]
    with [deep = true] (section 4.1: field names are converted
    recursively). Every object and array met is rebuilt as a new cell, the
    keys of objects converted by [tf]; primitives are kept. The fuel stands
    for the call stack: a structure nested deeper raises a RangeError. *)
Fixpoint transformRec (tf : string -> string) (fuel : nat) (v : val)
  : M val :=
  match v with
  | VRef l =>
      match fuel with
      | 0 => throw RangeError
      | S n => fun w =>
          match heap_of w !! l with
          | Some (CObj fs) =>
              (let* vs := traverse (transformRec tf n) (map snd fs) in
               alloc (CObj (renameKeys tf (combine (map fst fs) vs)))) w
          | Some (CArr xs) =>
              (let* vs := traverse (transformRec tf n) xs in
               alloc (CArr vs)) w
          | None => (w, Ok VUndef)
          end
      end
  | _ => ret v
  end.

(** Modelled from the spec: [transformObjectKeys(tf, o, deep)]. The
    result is always a new object; without [deep] only the top-level keys
    are converted and the property values are shared with the argument. A
    finite structure never needs more fuel than the store has cells. *)
Definition transformObjectKeys (tf : string -> string) (v : val)
  (deep : bool) : M val := fun w =>
  match v with
  | VRef l =>
      match heap_of w !! l with
      | Some (CObj fs) =>
          if deep then transformRec tf (length (heap_of w)) v w
          else alloc (CObj (renameKeys tf fs)) w
      | _ => alloc (CObj []) w
      end
  | _ => alloc (CObj []) w
  end.

(** [xs.map(f)] on a value: a TypeError unless the value is an array. *)
Definition arrayMap (f : val -> M val) (v : val) : M (list val) := fun w =>
  match v with
  | VRef l =>
      match heap_of w !! l with
      | Some (CArr xs) => traverse f xs w
      | _ => (w, Throw TypeError)
      end
  | _ => (w, Throw TypeError)
  end.

(** The elements [yield*] draws from a value: those of an array; other
    values are not iterated by this module. *)
Definition iterate (v : val) : M (list val) := fun w =>
  match v with
  | VRef l =>
      match heap_of w !! l with
      | Some (CArr xs) => (w, Ok xs)
      | _ => (w, Throw TypeError)
      end
  | _ => (w, Throw TypeError)
  end.

(** ** lodash on ASCII names *)

(** A model of lodash's [words], [camelCase] and [snakeCase] for property
    names made of ASCII letters, digits and separators, without runs of
    capitals. It instantiates the conversion functions in the examples;
    the theorems hold for any conversion functions. *)
Inductive charClass : Type := CLower | CUpper | CDigit | CSep.

Definition classify (c : ascii) : charClass :=
  let n := nat_of_ascii c in
  if (97 <=? n)%nat && (n <=? 122)%nat then CLower
  else if (65 <=? n)%nat && (n <=? 90)%nat then CUpper
  else if (48 <=? n)%nat && (n <=? 57)%nat then CDigit
  else CSep.

Definition lowerChar (c : ascii) : ascii :=
  match classify c with
  | CUpper => ascii_of_nat (nat_of_ascii c + 32)
  | _ => c
  end.

Definition upperChar (c : ascii) : ascii :=
  match classify c with
  | CLower => ascii_of_nat (nat_of_ascii c - 32)
  | _ => c
  end.

Fixpoint lowerString (s : string) : string :=
  match s with
  | EmptyString => EmptyString
  | String c r => String (lowerChar c) (lowerString r)
  end.

Definition capitalize (s : string) : string :=
  match s with
  | EmptyString => EmptyString
  | String c r => String (upperChar c) r
  end.

Definition wordBoundary (prev cur : charClass) : bool :=
  match prev, cur with
  | CLower, CUpper => true
  | CDigit, (CLower | CUpper) => true
  | (CLower | CUpper), CDigit => true
  | _, _ => false
  end.

Definition flushWord (cur : string) : list string :=
  match cur with
  | EmptyString => []
  | _ => [cur]
  end.

Fixpoint wordsFrom (prev : charClass) (cur : string) (s : string)
  : list string :=
  match s with
  | EmptyString => flushWord cur
  | String c r =>
      match classify c with
      | CSep => flushWord cur ++ wordsFrom CSep EmptyString r
      | k =>
          if wordBoundary prev k
          then flushWord cur ++ wordsFrom k (String c EmptyString) r
          else wordsFrom k (cur ++ String c EmptyString) r
      end
  end.

Definition words (s : string) : list string := wordsFrom CSep EmptyString s.

Definition asciiSnakeCase (s : string) : string :=
  String.concat "_" (map lowerString (words s)).

Definition asciiCamelCase (s : string) : string :=
  match map lowerString (words s) with
  | [] => EmptyString
  | w :: ws => String.concat EmptyString (w :: map capitalize ws)
  end.

Section Conversations.

(** lodash's [camelCase] and [snakeCase] on property names. *)
Variables camelCase snakeCase : string -> string.

(** [this.config.apiHost]. *)
Variable apiHost : string.

(** [new URL(href).searchParams.get('cursor')]: [None] for a string that
    is not a URL, [Some None] when the query has no [cursor]. *)
Variable parseCursor : string -> option (option string).

(** The remote server: its answer to the last request of the log. *)
Variable server : list request -> res tree.

(** [String(n)] for a number [n], a built-in of the language. *)
Variable numberText : Z -> string.

Definition camelCaseObjectKeys := transformObjectKeys camelCase.
Definition snakeCaseObjectKeys := transformObjectKeys snakeCase.

(** ** The transcoding layer *)

Definition apiToConversation (response : val) : M val :=
  let* props := getProp response "properties" in
  let* customData := optChain props "custom_data" in
  let* _d := deleteProp response "_links" in
  let* conversation := camelCaseObjectKeys response true in
  let* cprops := optChain conversation "properties" in
  let* ccd := optChain cprops "customData" in
  let* _s :=
    (if truthy ccd && truthy customData then
       let* p := getProp conversation "properties" in
       setProp p "customData" customData
     else ret tt) in
  ret conversation.

Definition serverOwned : list string :=
  ["id"; "sequenceNumber"; "timestamp"; "state"].

Definition conversationToApi (conversation : val) : M val :=
  let* props := getProp conversation "properties" in
  let* customData := optChain props "customData" in
  let* kept := omit serverOwned conversation in
  let* apiConversation := snakeCaseObjectKeys kept true in
  let* aprops := optChain apiConversation "properties" in
  let* acd := optChain aprops "custom_data" in
  let* _s :=
    (if truthy acd && truthy customData then
       let* p := getProp apiConversation "properties" in
       setProp p "custom_data" customData
     else ret tt) in
  ret apiConversation.

Definition apiToMember (response : val) : M val :=
  let* kept := omit ["_embedded"; "_links"] response in
  let* top := camelCaseObjectKeys kept true in
  let* topFields := ownFields top in
  let* embedded := getProp response "_embedded" in
  let* wireUser := optChain embedded "user" in
  let* keptUser := omit ["_links"] wireUser in
  let* camelUser := camelCaseObjectKeys keptUser true in
  let* userFields := ownFields camelUser in
  let* user := alloc (CObj (spreadInto [] userFields)) in
  alloc (CObj (oset (spreadInto [] topFields) "user" user)).

Definition memberOmitted : list string :=
  ["id"; "timestamp"; "conversationId"; "initiator"; "invitedBy"].

Definition memberToApi (member : val) : M val :=
  let* kept := omit memberOmitted member in
  let* snake := snakeCaseObjectKeys kept true in
  let* snakeFields := ownFields snake in
  let* mu := getProp member "user" in
  let* uid := getProp mu "id" in
  let* mu' := getProp member "user" in
  let* uname := getProp mu' "name" in
  let* user := alloc (CObj [("id", uid); ("name", uname)]) in
  let* inviting := getProp member "invitedBy" in
  alloc (CObj (oset (oset (spreadInto [] snakeFields) "user" user)
                 "member_id_inviting" inviting)).

(** ** The transport *)

(** Modelled from the spec: the request methods of [Client]
    ([sendGetRequest], [sendPostRequest], ...), whose source is not part
    of this development. One call is one round trip: the request is
    logged, the server answers, and the parsed answer ([resp.data]) is
    returned; a failure propagates unmodified. *)
Definition send (m : verb) (u : string) (p : payload) : M val := fun w =>
  let lg := log w ++ [Request m u p] in
  match server lg with
  | Ok t => allocTree t (World (heap_of w) lg)
  | Throw e => (World (heap_of w) lg, Throw e)
  end.

(** ** Pages *)

Definition getConversationPage (filter : val) : M val :=
  let* q := snakeCaseObjectKeys filter false in
  let* qfs := ownFields q in
  let* data := send GET (apiHost ++ "/v1/conversations") (Query qfs) in
  let* embedded := getProp data "_embedded" in
  let* wireItems := optChain embedded "conversations" in
  let* items :=
    (if truthy wireItems then arrayMap apiToConversation wireItems
     else ret []) in
  let* conversations := alloc (CArr items) in
  let* pageSize := getProp data "page_size" in
  let* links := getProp data "_links" in
  alloc (CObj [("conversations", conversations); ("pageSize", pageSize);
               ("links", links)]).

Definition getMemberPage (conversationId : string) (filter : val)
  : M val :=
  let* q := snakeCaseObjectKeys filter false in
  let* qfs := ownFields q in
  let* data :=
    send GET (apiHost ++ "/v1/conversations/" ++ conversationId ++ "/members")
      (Query qfs) in
  let* embedded := getProp data "_embedded" in
  let* wireItems := optChain embedded "members" in
  let* items :=
    (if truthy wireItems then arrayMap apiToMember wireItems
     else ret []) in
  let* members := alloc (CArr items) in
  let* pageSize := getProp data "page_size" in
  let* links := getProp data "_links" in
  alloc (CObj [("members", members); ("pageSize", pageSize);
               ("links", links)]).

(** ** Single-item operations *)

Definition createConversation (conversation : val) : M val :=
  let* body := conversationToApi conversation in
  let* data := send POST (apiHost ++ "/v1/conversations") (Body body) in
  apiToConversation data.

Definition getConversation (conversationId : string) : M val :=
  let* data :=
    send GET (apiHost ++ "/v1/conversations/" ++ conversationId)
      NoPayload in
  apiToConversation data.

(** [`${v}`]: the string a value converts to inside a template literal.
    An array is its elements joined by commas, where [undefined] and
    [null] elements give the empty string and an array met again inside
    itself gives the empty string; an object of the store is
    ["[object Object]"]. The text of a number is [numberText]. With as
    much fuel as the store has cells, plus one, the fuel never runs
    out. *)
Fixpoint textOf (fuel : nat) (h : heap) (seen : list nat) (v : val) : string :=
  match v with
  | VStr s => s
  | VUndef => "undefined"
  | VNull => "null"
  | VBool true => "true"
  | VBool false => "false"
  | VNum n => numberText n
  | VRef l =>
      match h !! l with
      | Some (CArr xs) =>
          match fuel with
          | 0 => ""
          | S fuel' =>
              if existsb (Nat.eqb l) seen then ""
              else
                String.concat ","
                  (map (fun x =>
                          match x with
                          | VUndef | VNull => ""
                          | _ => textOf fuel' h (l :: seen) x
                          end) xs)
          end
      | _ => "[object Object]"
      end
  end.

Definition idText (h : heap) (v : val) : string :=
  textOf (S (length h)) h [] v.

Definition templateText (v : val) : M string := fun w =>
  (w, Ok (idText (heap_of w) v)).

Definition updateConversation (conversation : val) : M val :=
  let* id := getProp conversation "id" in
  let* text := templateText id in
  let* body := conversationToApi conversation in
  let* data :=
    send PUT (apiHost ++ "/v1/conversations/" ++ text) (Body body) in
  apiToConversation data.

Definition deleteConversation (conversationId : string) : M val :=
  let* _r :=
    send DELETE (apiHost ++ "/v1/conversations/" ++ conversationId)
      NoPayload in
  ret VUndef.

Definition memberUrl (conversationId memberId : string) : string :=
  apiHost ++ "/v1/conversations/" ++ conversationId ++ "/members/"
    ++ memberId.

Definition createMember (conversationId : string) (member : val)
  : M val :=
  let* body := memberToApi member in
  let* data :=
    send POST
      (apiHost ++ "/v1/conversations/" ++ conversationId ++ "/members")
      (Body body) in
  apiToMember data.

Definition getMember (conversationId memberId : string) : M val :=
  let* data := send GET (memberUrl conversationId memberId) NoPayload in
  apiToMember data.

Definition getMe (conversationId : string) : M val :=
  getMember conversationId "me".

Definition updateMember (conversationId memberId : string) (params : val)
  : M val :=
  let* data :=
    send PATCH (memberUrl conversationId memberId) (Body params) in
  apiToMember data.

(** ** Listing as a generator *)

(** Where the body of the generator stands between two steps: about to
    fetch a page, delivering the items of the page just fetched, or
    finished. *)
Inductive gen_state : Type :=
| GFetch (params : val)
| GItems (params resp : val) (items : list val)
| GDone.

Inductive event : Type :=
| EYield (v : val)
| ESilent
| EReturn.

(** [next = resp.links?.next
      ? new URL(resp.links?.next?.href).searchParams.get('cursor')
      : null]. An href that is not a string is not a URL. *)
Definition nextCursor (resp : val) : M val :=
  let* links := getProp resp "links" in
  let* nx := optChain links "next" in
  if truthy nx then
    let* href := optChain nx "href" in
    match href with
    | VStr s =>
        match parseCursor s with
        | Some (Some c) => ret (VStr c)
        | Some None => ret VNull
        | None => throw TypeError
        end
    | _ => throw TypeError
    end
  else ret VNull.

(** One step of the [do ... while (next)] loop, for the page fetcher
    [fetchPage] and the page property [key] holding the items. *)
Definition gen_step (fetchPage : val -> M val) (key : string)
  (s : gen_state) : M (event * gen_state) :=
  match s with
  | GFetch params =>
      let* resp := fetchPage params in
      let* found := getProp resp key in
      let* items := (if truthy found then iterate found else ret []) in
      ret (ESilent, GItems params resp items)
  | GItems params resp (x :: rest) =>
      ret (EYield x, GItems params resp rest)
  | GItems params resp [] =>
      let* next := nextCursor resp in
      let* _s :=
        setProp params "cursor" (if truthy next then next else VStr "") in
      if truthy next then ret (ESilent, GFetch params)
      else ret (EReturn, GDone)
  | GDone => ret (EReturn, GDone)
  end.

(** Drive a generator to its end, collecting what it yields; [None]
    while it has not finished within [fuel] steps. *)
Fixpoint drain (fetchPage : val -> M val) (key : string) (fuel : nat)
  (s : gen_state) : M (option (list val)) :=
  match fuel with
  | 0 => ret None
  | S n =>
      let* es := gen_step fetchPage key s in
      match es with
      | (EReturn, _) => ret (Some [])
      | (EYield v, s') =>
          let* r := drain fetchPage key n s' in
          ret (option_map (cons v) r)
      | (ESilent, s') => drain fetchPage key n s'
      end
  end.

(** The call itself binds the parameter, with [{}] as default. *)
Definition startListing (params : val) : M gen_state :=
  match params with
  | VUndef => let* p := alloc (CObj []) in ret (GFetch p)
  | _ => ret (GFetch params)
  end.

Definition listAllConversations (params : val) : M gen_state :=
  startListing params.
Definition listAllConversations_step : gen_state -> M (event * gen_state) :=
  gen_step getConversationPage "conversations".

Definition listAllMembers (conversationId : string) (params : val)
  : M gen_state :=
  startListing params.
Definition listAllMembers_step (conversationId : string)
  : gen_state -> M (event * gen_state) :=
  gen_step (getMemberPage conversationId) "members".

(** [for await (const c of listAllConversations(params)) out.push(c)]:
    everything the sequence yields, when it ends within [fuel] steps. *)
Definition collectAllConversations (fuel : nat) (params : val)
  : M (option (list val)) :=
  let* g := listAllConversations params in
  drain getConversationPage "conversations" fuel g.

Definition collectAllMembers (fuel : nat) (conversationId : string)
  (params : val) : M (option (list val)) :=
  let* g := listAllMembers conversationId params in
  drain (getMemberPage conversationId) "members" fuel g.

End Conversations.

(** ** The cursor of a link *)

(** A model of [new URL(href).searchParams.get('cursor')] for the links
    the server sends: absolute http(s) URLs whose query needs no
    unescaping and that carry no fragment. It instantiates [parseCursor]
    in the examples. *)
Fixpoint afterFirst (c : ascii) (s : string) : option string :=
  match s with
  | EmptyString => None
  | String a r => if Ascii.eqb a c then Some r else afterFirst c r
  end.

Fixpoint splitOn (c : ascii) (cur : string) (s : string) : list string :=
  match s with
  | EmptyString => [cur]
  | String a r =>
      if Ascii.eqb a c then cur :: splitOn c EmptyString r
      else splitOn c (cur ++ String a EmptyString) r
  end.

Fixpoint findParam (name : string) (pairs : list string) : option string :=
  match pairs with
  | [] => None
  | pr :: rest =>
      if String.prefix (name ++ "=") pr
      then Some (String.substring (S (String.length name))
                   (String.length pr - S (String.length name)) pr)
      else findParam name rest
  end.

Definition queryCursor (href : string) : option (option string) :=
  if String.prefix "http://" href || String.prefix "https://" href then
    match afterFirst "?" href with
    | None => Some None
    | Some q => Some (findParam "cursor" (splitOn "&" EmptyString q))
    end
  else None.

(** ** Fixtures of the test suite *)

Definition exampleHost : string := "https://api.nexmo.com".

Definition exampleCustomData : tree :=
  TObj [("foo", TStr "bar"); ("fizzBuzz", TNum 123); ("baz_bat", TBool true)].

(** [conversationResponse] of the tests. *)
Definition exampleConversationResponse : tree :=
  TObj [("id", TStr "CON-00000000-0000-0000-0000-000000000001");
        ("name", TStr "New Conversation");
        ("display_name", TStr "New Conversation");
        ("image_url", TStr "https://example.com/image.png");
        ("state", TStr "ACTIVE");
        ("sequence_number", TNum 0);
        ("timestamp", TObj [("created", TStr "2024-01-17T13:45:56.000Z");
                            ("updated", TStr "2024-01-17T13:45:56.000Z")]);
        ("properties", TObj [("ttl", TNum 86400); ("type", TStr "public");
                             ("custom_sort_key", TStr "foo");
                             ("custom_data", exampleCustomData)]);
        ("_links", TObj [("self", TObj [("href",
            TStr "https://api.nexmo.com/v1/conversations/undefined")])])].

(** [conversation] of the tests. *)
Definition exampleConversation : tree :=
  TObj [("id", TStr "CON-00000000-0000-0000-0000-000000000001");
        ("name", TStr "New Conversation");
        ("displayName", TStr "New Conversation");
        ("imageUrl", TStr "https://example.com/image.png");
        ("state", TStr "ACTIVE");
        ("sequenceNumber", TNum 0);
        ("properties", TObj [("ttl", TNum 86400); ("type", TStr "public");
                             ("customSortKey", TStr "foo");
                             ("customData", exampleCustomData)]);
        ("timestamp", TObj [("created", TStr "2024-01-17T13:45:56.000Z");
                            ("updated", TStr "2024-01-17T13:45:56.000Z")])].

(** [member] of the tests. *)
Definition exampleMember : tree :=
  TObj [("id", TStr "MEM-00000000-0000-0000-0000-000000000001");
        ("state", TStr "JOINED");
        ("user", TObj [("id", TStr "USR-00000000-0000-0000-0000-000000000001");
                       ("name", TStr "Alice Smith");
                       ("displayName", TStr "Alice")]);
        ("channel", TObj [("type", TStr "phone"); ("number", TStr "447700900000")]);
        ("media", TObj [("audioSettings", TObj [("enabled", TBool true);
                                                ("earmuffed", TBool false);
                                                ("muted", TBool false)]);
                        ("audio", TBool true)]);
        ("knockingId", TStr "MEM-00000000-0000-0000-0000-000000000003");
        ("invitedBy", TStr "USR-00000000-0000-0000-0000-000000000003")].

(** [memberResponse] of the tests, without its initiator and media. *)
Definition exampleMemberResponse : tree :=
  TObj [("id", TStr "MEM-00000000-0000-0000-0000-000000000001");
        ("state", TStr "JOINED");
        ("_embedded", TObj [("user",
            TObj [("id", TStr "USR-00000000-0000-0000-0000-000000000001");
                  ("name", TStr "Alice Smith");
                  ("display_name", TStr "Alice")])]);
        ("knocking_id", TStr "MEM-00000000-0000-0000-0000-000000000003");
        ("invited_by", TStr "USR-00000000-0000-0000-0000-000000000003")].

(** Update parameters as the documentation of [updateMember] gives them. *)
Definition exampleUpdate : tree :=
  TObj [("state", TStr "LEFT");
        ("from", TStr "USR-00000000-0000-0000-0000-000000000001")].

(** The text of the integers, in decimal. It instantiates [numberText] in
    the examples, whose identifiers are strings. *)
Definition decimalText (n : Z) : string := NilZero.string_of_int (Z.to_int n).

(** A store holding just the document [t], and the value denoting it. *)
Definition storeOf (t : tree) : world := fst (allocTree t (World [] [])).
Definition rootOf (t : tree) : val :=
  match snd (allocTree t (World [] [])) with
  | Ok v => v
  | Throw _ => VUndef
  end.

(** Stub servers: one that always answers [t], one that answers the first
    request with [p1] and the second with [p2]. *)
Definition answering (t : tree) : list request -> res tree := fun _ => Ok t.

Definition answeringPages (p1 p2 : tree) : list request -> res tree :=
  fun lg =>
    match lg with
    | [_] => Ok p1
    | [_; _] => Ok p2
    | _ => Throw TransportError
    end.

(** ** Vocabulary of the statements *)

(** The store of [w'] extends that of [w] by new cells and the log is the
    same: nothing that existed was written to, nothing was sent. *)
Definition grows (w w' : world) : Prop :=
  heap_of w `prefix_of` heap_of w' /\ log w' = log w.

(** A computation that only ever allocates. *)
Definition allocOnly {A} (c : M A) : Prop :=
  forall w w' r, c w = (w', r) -> grows w w'.

(** The own properties [fs] denote the entries [tfs], key by key. *)
Definition fieldsDenote (n : nat) (h : heap) (fs : list (string * val))
  (tfs : list (string * tree)) : Prop :=
  Forall2 (fun kv kt => fst kv = fst kt /\ reify n h (snd kv) = Some (snd kt))
    fs tfs.

(** A value that does not refer to any of the first [n] cells. *)
Definition freshFrom (n : nat) (v : val) : Prop :=
  match v with
  | VRef l => n <= l
  | _ => True
  end.

(** A value that is a reference (an object or an array, not a primitive). *)
Definition isRef (v : val) : bool :=
  match v with
  | VRef _ => true
  | _ => false
  end.

(** The stores agree on every cell of [h] except possibly [r]. *)
Definition sameExcept (r : nat) (h h' : heap) : Prop :=
  length h <= length h' /\
  forall l, l <> r -> l < length h -> h' !! l = h !! l.

(** What one call of the deep conversion achieves on a value denoting
    [t]: it returns a new value denoting [tmap tf t]. *)
Definition convertsAt (tf : string -> string) (n fuel : nat) (w : world)
  (v : val) (t : tree) : Prop :=
  exists w' v',
    transformRec tf fuel v w = (w', Ok v')
    /\ grows w w'
    /\ reify n (heap_of w') v' = Some (tmap tf t)
    /\ freshFrom (length (heap_of w)) v'
    /\ isRef v' = isRef v.

(** A computation that leaves the world as it found it. *)
Definition readOnly {A} (c : M A) : Prop :=
  forall w w' r, c w = (w', r) -> w' = w.

(** The cell [c] at [l] once [delete v._links] has run. *)
Definition afterDeleteLinks (v : val) (l : nat) (c : cell) : cell :=
  match v, c with
  | VRef r, CObj fs => if Nat.eqb l r then CObj (odel fs "_links") else c
  | _, _ => c
  end.

(** [k] is the only key of the object [tfs] that [tf] converts to [tf k]
    (and the object has no key twice). *)
Definition keyedAlone (tf : string -> string) (k : string)
  (tfs : list (string * tree)) : Prop :=
  List.NoDup (okeys tfs)
  /\ forall k', In k' (okeys tfs) -> tf k' = tf k -> k' = k.

(** What the tail of a conversation transcoder did between [w] and [w']
    to the converted object at [lo]: nothing, or it stored [cd] under
    [K2] in the object held under [K1]. *)
Definition reapplied (w w' : world) (lo : nat) (K1 K2 : string) (cd : val)
  : Prop :=
  (w' = w
   /\ truthy (orUndef (oget (fieldsOf (heap_of w)
                (orUndef (oget (fieldsOf (heap_of w) (VRef lo)) K1))) K2))
      && truthy cd = false)
  \/ (exists lp pfs,
        truthy cd = true
        /\ oget (fieldsOf (heap_of w) (VRef lo)) K1 = Some (VRef lp)
        /\ heap_of w !! lp = Some (CObj pfs)
        /\ truthy (orUndef (oget pfs K2)) = true
        /\ w' = World (<[lp := CObj (oset pfs K2 cd)]> (heap_of w)) (log w)).

(** [obj.K1.K2] is the value [x], and [x] denotes the document [t]. *)
Definition holdsAt (w : world) (obj : val) (K1 K2 : string) (x : val)
  (t : tree) : Prop :=
  exists p,
    oget (fieldsOf (heap_of w) obj) K1 = Some p
    /\ oget (fieldsOf (heap_of w) p) K2 = Some x
    /\ denotes w x t.

(** A computation that sends nothing. *)
Definition keepsLog {A} (c : M A) : Prop :=
  forall w w' r, c w = (w', r) -> log w' = log w.

(** A page envelope without the array of items under [_embedded.key]:
    [_embedded] is missing, or it is there without [key]. *)
Definition missingItems (key : string) (tfs : list (string * tree)) : Prop :=
  oget tfs "_embedded" = None
  \/ exists efs, oget tfs "_embedded" = Some (TObj efs) /\ oget efs key = None.

(** The value of a primitive leaf of a document. *)
Definition primVal (t : tree) : val :=
  match t with
  | TNull => VNull
  | TBool b => VBool b
  | TNum n => VNum n
  | TStr s => VStr s
  | _ => VUndef
  end.

(** An item all of whose properties are primitives, and its cell. *)
Definition flat (item : list (string * tree)) : Prop :=
  Forall (fun kt => tnodes (snd kt) = 0) item.

Definition primFields (item : list (string * tree)) : list (string * val) :=
  map (fun kt => let '(k, t) := kt in (k, primVal t)) item.

(** The envelope of a page of conversations, section 6 of the
    specification. *)
Definition conversationPage (items : list tree) (links : list (string * tree))
  : tree :=
  TObj [("page_size", TNum 10);
        ("_embedded", TObj [("conversations", TArr items)]);
        ("_links", TObj links)].

Definition linkTo (href : string) : tree := TObj [("href", TStr href)].

(** [keyedAlone], decided. *)
Fixpoint distinct (ks : list string) : bool :=
  match ks with
  | [] => true
  | k :: r => negb (mem k r) && distinct r
  end.

Definition keyedAloneb (tf : string -> string) (k : string)
  (tfs : list (string * tree)) : bool :=
  distinct (okeys tfs)
  && forallb (fun k' => implb (String.eqb (tf k') (tf k)) (String.eqb k' k))
       (okeys tfs).

(** The entries of a document that is an object. *)
Definition entries (t : tree) : list (string * tree) :=
  match t with
  | TObj fs => fs
  | _ => []
  end.

(** ** Vocabulary of the further statements *)

(** The document under [K1.K2] of an object, if there is one. *)
Definition fieldAt (K1 K2 : string) (tfs : list (string * tree)) : option tree :=
  match oget tfs K1 with
  | Some (TObj pfs) => oget pfs K2
  | _ => None
  end.

(** [o.k] read on a document: [undefined] where the property is missing. *)
Definition tprop (tfs : list (string * tree)) (k : string) : tree :=
  match oget tfs k with
  | Some t => t
  | None => TUndef
  end.

(** The links of a page: [self], and [next] unless the page is the last. *)
Definition pageLinks (self : string) (next : option string)
  : list (string * tree) :=
  ("self", linkTo self)
  :: match next with
     | Some href => [("next", linkTo href)]
     | None => []
     end.

(** The conversation made from a wire item with primitive properties. *)
Definition converted (camelCase : string -> string) (item : list (string * tree))
  : cell :=
  CObj (renameKeys camelCase (odel (primFields item) "_links")).

(** A page that is not the last, as the server sends it: its items, the
    href of its next link and the cursor that href carries. *)
Record wirePage : Type := WirePage {
  page_items : list (list (string * tree));
  page_href : string;
  page_cursor : string
}.

(** The page requests of a listing that starts from the filter [fs] and
    is handed the cursors [cursors] one after the other. *)
Definition pageRequests (url : string) (snakeCase : string -> string)
  (fs : list (string * val)) (cursors : list string) : list request :=
  Request GET url (Query (renameKeys snakeCase fs))
  :: map (fun c => Request GET url
                     (Query (renameKeys snakeCase (oset fs "cursor" (VStr c)))))
       cursors.

(** The values a cell holds. *)
Definition cellVals (c : cell) : list val :=
  match c with
  | CObj fs => map snd fs
  | CArr xs => xs
  end.

(** From [a] on, the cells of the store refer to cells from [a] on only. *)
Definition closedFrom (a : nat) (h : heap) : Prop :=
  forall l c, a <= l -> h !! l = Some c -> Forall (freshFrom a) (cellVals c).

(** The cells below [a] are kept. *)
Definition keptBelow (a : nat) (w w' : world) : Prop :=
  forall l c, l < a -> heap_of w !! l = Some c -> heap_of w' !! l = Some c.

(** A computation that leaves every cell of the store as it found it. *)
Definition keepsStore {A} (c : M A) : Prop :=
  forall w l x, heap_of w !! l = Some x -> heap_of (fst (c w)) !! l = Some x.

(** The stores agree on the cells from [a] to [b]. *)
Definition agreeOn (a b : nat) (h h' : heap) : Prop :=
  forall l, a <= l -> l < b -> h' !! l = h !! l.

(** The value [v] denotes [t] by the cells from [a] to [b] alone, with
    fuel [m]. *)
Definition localTo (a b m : nat) (h : heap) (v : val) (t : tree) : Prop :=
  forall h', agreeOn a b h h' -> forall n, m <= n -> reify n h' v = Some t.

(** The successive runs of [f] that make up [traverse f xs]. *)
Inductive runs {A B : Type} (f : A -> M B)
  : world -> world -> list A -> list B -> Prop :=
| runs_nil w : runs f w w [] []
| runs_cons w w1 w' x v xs vs :
    f x w = (w1, Ok v) -> runs f w1 w' xs vs -> runs f w w' (x :: xs) (v :: vs).

(** [t] with the document [y] put under [K1.K2]. *)
Definition withPath (K1 K2 : string) (y : tree) (t : tree) : tree :=
  match t with
  | TObj fs =>
      match oget fs K1 with
      | Some (TObj pfs) => TObj (oset fs K1 (TObj (oset pfs K2 y)))
      | _ => t
      end
  | _ => t
  end.

(** [t] with the document [o], if there is one, put under [K1.K2]. *)
Definition keepAt (K1 K2 : string) (o : option tree) (t : tree) : tree :=
  match o with
  | Some y => withPath K1 K2 y t
  | None => t
  end.

(** Entries related key by key, by a relation that sees the key. *)
Definition keyedRel (Q : string -> val -> tree -> Prop)
  (fs : list (string * val)) (tfs : list (string * tree)) : Prop :=
  Forall2 (fun kv kt => fst kv = fst kt /\ Q (fst kv) (snd kv) (snd kt)) fs tfs.

(** Every key of [t] is distinct from its siblings and comes back from
    [there] through [back]. *)
Fixpoint roundTripsb (back there : string -> string) (t : tree) : bool :=
  match t with
  | TObj fs =>
      distinct (okeys fs)
      && forallb (fun kt => let '(k, x) := kt in
                            String.eqb (back (there k)) k
                            && roundTripsb back there x) fs
  | TArr xs => forallb (roundTripsb back there) xs
  | _ => true
  end.

(** [t] with the document under [K1.K2], if there is one, blanked. *)
Definition blankAt (K1 K2 : string) (t : tree) : tree :=
  match fieldAt K1 K2 (entries t) with
  | Some _ => withPath K1 K2 TNull t
  | None => t
  end.

(** An entry under its converted key, its value converted by [h]. *)
Definition rekey {A B : Type} (g : string -> string) (h : A -> B)
  (kv : string * A) : string * B :=
  (g (fst kv), h (snd kv)).

(** Stub servers: one that fails every request with [e], one that
    answers the requests in turn. *)
Definition failing (e : error) : list request -> res tree := fun _ => Throw e.

Definition answeringInTurn (answers : list tree) : list request -> res tree :=
  fun lg =>
    match lg with
    | [] => Throw TransportError
    | _ :: r =>
        match answers !! length r with
        | Some t => Ok t
        | None => Throw TransportError
        end
    end.

(** The conversation [apiToConversation] makes of a wire item. *)
Definition conversationOf (camelCase : string -> string)
  (item : list (string * tree)) : tree :=
  keepAt "properties" "customData" (fieldAt "properties" "custom_data" item)
    (tmap camelCase (TObj (odel item "_links"))).

(** * Properties *)

(** ** Induction on documents *)

Lemma tree_nested_ind (P : tree -> Prop) :
  P TUndef -> P TNull -> (forall b, P (TBool b)) -> (forall n, P (TNum n)) ->
  (forall s, P (TStr s)) ->
  (forall fs, Forall (fun kt => P (snd kt)) fs -> P (TObj fs)) ->
  (forall xs, Forall P xs -> P (TArr xs)) ->
  forall t, P t.
Proof.
  intros Hundef Hnull Hbool Hnum Hstr Hobj Harr.
  fix IH 1.
  intros [| | b | n | s | fs | xs];
    [apply Hundef | apply Hnull | apply Hbool | apply Hnum | apply Hstr | | ].
  - apply Hobj. induction fs as [|[k x] r IHr]; constructor; [apply IH | exact IHr].
  - apply Harr. induction xs as [|x r IHr]; constructor; [apply IH | exact IHr].
Qed.

(** ** Property lists: lookups after updates *)

Section FieldLemmas.
Context {A : Type}.
Implicit Types (fs acc : list (string * A)) (k : string) (v : A).

Lemma oget_oset_eq fs k v : oget (oset fs k v) k = Some v.
Proof.
  induction fs as [|[k' v'] r IH]; simpl.
  - now rewrite String.eqb_refl.
  - destruct (String.eqb k' k) eqn:E; simpl.
    + now rewrite String.eqb_refl.
    + now rewrite E.
Qed.

Lemma oget_oset_ne fs k k' v : k <> k' -> oget (oset fs k v) k' = oget fs k'.
Proof.
  intros Hne. induction fs as [|[k0 v0] r IH]; simpl.
  - destruct (String.eqb k k') eqn:E; [apply String.eqb_eq in E; contradiction | reflexivity].
  - destruct (String.eqb k0 k) eqn:E; simpl.
    + apply String.eqb_eq in E. subst k0.
      destruct (String.eqb k k') eqn:E'; [apply String.eqb_eq in E'; contradiction | reflexivity].
    + destruct (String.eqb k0 k'); [reflexivity | exact IH].
Qed.

Lemma okeys_oset fs k v k' :
  In k' (okeys (oset fs k v)) <-> k' = k \/ In k' (okeys fs).
Proof.
  unfold okeys. induction fs as [|[k0 v0] r IH]; simpl.
  - intuition.
  - destruct (String.eqb k0 k) eqn:E; simpl.
    + apply String.eqb_eq in E. subst. intuition.
    + rewrite IH. intuition.
Qed.

Lemma oget_None fs k : oget fs k = None <-> ~ In k (okeys fs).
Proof.
  unfold okeys. induction fs as [|[k0 v0] r IH]; simpl.
  - intuition.
  - destruct (String.eqb k0 k) eqn:E.
    + apply String.eqb_eq in E. subst. split; [discriminate | intuition].
    + apply String.eqb_neq in E. rewrite IH. intuition.
Qed.

Lemma oget_Some_In fs k v : oget fs k = Some v -> In k (okeys fs).
Proof.
  intros H. destruct (in_dec string_dec k (okeys fs)) as [|Hn]; [assumption|].
  apply oget_None in Hn. congruence.
Qed.

Lemma mem_In k ks : mem k ks = true <-> In k ks.
Proof.
  induction ks as [|k0 r IH]; simpl.
  - split; [discriminate | tauto].
  - rewrite orb_true_iff, IH, String.eqb_eq. tauto.
Qed.

Lemma okeys_without ks fs k :
  In k (okeys (without ks fs)) <-> In k (okeys fs) /\ ~ In k ks.
Proof.
  unfold okeys. induction fs as [|[k0 v0] r IH]; simpl.
  - tauto.
  - destruct (mem k0 ks) eqn:E.
    + apply mem_In in E. rewrite IH. split.
      * tauto.
      * intros [[->|H] Hn]; [contradiction | tauto].
    + simpl. rewrite IH.
      assert (~ In k0 ks) by (rewrite <- mem_In; congruence).
      split.
      * intros [->|H']; tauto.
      * tauto.
Qed.

Lemma oget_without ks fs k :
  oget (without ks fs) k = if mem k ks then None else oget fs k.
Proof.
  induction fs as [|[k0 v0] r IH]; simpl.
  - now destruct (mem k ks).
  - destruct (mem k0 ks) eqn:E; simpl.
    + rewrite IH. destruct (String.eqb k0 k) eqn:E'.
      * apply String.eqb_eq in E'. subst. now rewrite E.
      * reflexivity.
    + destruct (String.eqb k0 k) eqn:E'.
      * apply String.eqb_eq in E'. subst. now rewrite E.
      * exact IH.
Qed.

Lemma oget_odel_eq fs k : oget (odel fs k) k = None.
Proof.
  induction fs as [|[k0 v0] r IH]; simpl; [reflexivity|].
  destruct (String.eqb k0 k) eqn:E; simpl; [assumption|].
  now rewrite E.
Qed.

Lemma oget_odel_ne fs k k' : k <> k' -> oget (odel fs k) k' = oget fs k'.
Proof.
  intros Hne. induction fs as [|[k0 v0] r IH]; simpl; [reflexivity|].
  destruct (String.eqb k0 k) eqn:E; simpl.
  - apply String.eqb_eq in E. subst k0.
    destruct (String.eqb k k') eqn:E'; [apply String.eqb_eq in E'; contradiction | assumption].
  - destruct (String.eqb k0 k'); [reflexivity | assumption].
Qed.

Lemma okeys_odel fs k k' :
  In k' (okeys (odel fs k)) <-> In k' (okeys fs) /\ k' <> k.
Proof.
  unfold okeys. induction fs as [|[k0 v0] r IH]; simpl.
  - tauto.
  - destruct (String.eqb k0 k) eqn:E; simpl.
    + apply String.eqb_eq in E. subst k0. rewrite IH. split.
      * tauto.
      * intros [[->|H] Hn]; [congruence | tauto].
    + apply String.eqb_neq in E. rewrite IH. split.
      * intros [->|H]; tauto.
      * tauto.
Qed.

Lemma oget_fold_oset tf fs : forall acc K,
  oget (fold_left (fun a kv => oset a (tf (fst kv)) (snd kv)) fs acc) K
  = lastUnder tf K (oget acc K) fs.
Proof.
  unfold lastUnder.
  induction fs as [|[k0 v0] r IH]; intros acc K; simpl; [reflexivity|].
  rewrite IH. f_equal.
  destruct (String.eqb (tf k0) K) eqn:E.
  - apply String.eqb_eq in E. subst. apply oget_oset_eq.
  - apply String.eqb_neq in E. now apply oget_oset_ne.
Qed.

Lemma okeys_fold_oset tf fs : forall acc k,
  In k (okeys (fold_left (fun a kv => oset a (tf (fst kv)) (snd kv)) fs acc))
  <-> In k (okeys acc) \/ In k (map tf (okeys fs)).
Proof.
  induction fs as [|[k0 v0] r IH]; intros acc k; simpl.
  - tauto.
  - rewrite IH, okeys_oset. simpl. intuition congruence.
Qed.

Lemma lastUnder_skip tf K dflt fs :
  (forall k, In k (okeys fs) -> tf k <> K) ->
  lastUnder tf K dflt fs = dflt.
Proof.
  unfold lastUnder. revert dflt.
  induction fs as [|[k0 v0] r IH]; intros dflt H; simpl; [reflexivity|].
  rewrite IH.
  - destruct (String.eqb (tf k0) K) eqn:E; [|reflexivity].
    apply String.eqb_eq in E. exfalso. apply (H k0); simpl; auto.
  - intros k Hk. apply H. simpl. auto.
Qed.

(** When [k0] is the only key of [fs] converted to [tf k0], the entry
    found under [tf k0] after conversion is the one found under [k0]. *)
Lemma lastUnder_unique tf fs k0 v dflt :
  List.NoDup (okeys fs) ->
  oget fs k0 = Some v ->
  (forall k, In k (okeys fs) -> tf k = tf k0 -> k = k0) ->
  lastUnder tf (tf k0) dflt fs = Some v.
Proof.
  revert dflt. induction fs as [|[k1 v1] r IH]; intros dflt Hnd Hget Hu; simpl in *.
  - discriminate.
  - inversion Hnd as [|? ? Hnotin Hnd']; subst.
    destruct (String.eqb k1 k0) eqn:E.
    + apply String.eqb_eq in E. subst k1. inversion Hget; subst.
      unfold lastUnder. simpl. rewrite String.eqb_refl.
      apply lastUnder_skip. intros k Hk Heq.
      assert (k = k0) by (apply Hu; auto). subst. contradiction.
    + unfold lastUnder. simpl.
      apply IH; auto.
Qed.

Lemma oget_renameKeys tf fs K :
  oget (renameKeys tf fs) K = lastUnder tf K None fs.
Proof. unfold renameKeys. now rewrite oget_fold_oset. Qed.

Lemma okeys_renameKeys tf fs k :
  In k (okeys (renameKeys tf fs)) <-> In k (map tf (okeys fs)).
Proof. unfold renameKeys. rewrite okeys_fold_oset. simpl. tauto. Qed.

Lemma okeys_spreadInto acc fs k :
  In k (okeys (spreadInto acc fs)) <-> In k (okeys acc) \/ In k (okeys fs).
Proof.
  unfold spreadInto.
  rewrite (okeys_fold_oset (fun x => x)). now rewrite map_id.
Qed.
End FieldLemmas.

Ltac conjs := repeat match goal with |- _ /\ _ => split end.

(** ** The monad *)

Lemma bind_run {A B} (c : M A) (k : A -> M B) w w1 a :
  c w = (w1, Ok a) -> bind c k w = k a w1.
Proof. intros H. unfold bind. now rewrite H. Qed.



(** ** Growth of the store *)

Lemma grows_refl w : grows w w.
Proof. split; reflexivity. Qed.

Lemma grows_trans w1 w2 w3 : grows w1 w2 -> grows w2 w3 -> grows w1 w3.
Proof. intros [H1 L1] [H2 L2]. split; [etransitivity; eassumption | congruence]. Qed.

Lemma grows_lookup w w' l c :
  grows w w' -> heap_of w !! l = Some c -> heap_of w' !! l = Some c.
Proof. intros [H _] Hl. eapply prefix_lookup_Some; eassumption. Qed.

Lemma grows_length w w' : grows w w' -> length (heap_of w) <= length (heap_of w').
Proof. intros [H _]. now apply prefix_length. Qed.

Lemma grows_lookup_lt w w' l :
  grows w w' -> l < length (heap_of w) -> heap_of w' !! l = heap_of w !! l.
Proof.
  intros [[k Hk] _] Hl. rewrite Hk. now apply lookup_app_l.
Qed.


Lemma allocOnly_ret {A} (a : A) : allocOnly (ret a).
Proof. intros w w' r H. inversion H; subst. apply grows_refl. Qed.

Lemma allocOnly_throw {A} e : allocOnly (@throw A e).
Proof. intros w w' r H. inversion H; subst. apply grows_refl. Qed.

Lemma allocOnly_bind {A B} (c : M A) (k : A -> M B) :
  allocOnly c -> (forall a, allocOnly (k a)) -> allocOnly (bind c k).
Proof.
  intros Hc Hk w w' r. unfold bind.
  destruct (c w) as [w1 [a|e]] eqn:E; intros H.
  - eapply grows_trans; [eapply Hc; eassumption | eapply Hk; eassumption].
  - inversion H; subst. eapply Hc; eassumption.
Qed.

Lemma allocOnly_alloc c : allocOnly (alloc c).
Proof.
  intros w w' r H. inversion H; subst. split; simpl; [|reflexivity].
  now apply prefix_app_r.
Qed.

Lemma allocOnly_getProp v k : allocOnly (getProp v k).
Proof.
  intros w w' r. unfold getProp.
  destruct v; intros H; inversion H; subst; apply grows_refl.
Qed.

Lemma allocOnly_optChain v k : allocOnly (optChain v k).
Proof.
  destruct v; simpl; try apply allocOnly_ret; apply allocOnly_getProp.
Qed.

Lemma allocOnly_ownFields v : allocOnly (ownFields v).
Proof. intros w w' r H. inversion H; subst. apply grows_refl. Qed.

Lemma allocOnly_iterate v : allocOnly (iterate v).
Proof.
  intros w w' r. unfold iterate.
  destruct v; try (intros H; inversion H; subst; apply grows_refl).
  destruct (heap_of w !! l) as [[|]|]; intros H; inversion H; subst; apply grows_refl.
Qed.

Lemma allocOnly_traverse {A B} (f : A -> M B) xs :
  (forall x, allocOnly (f x)) -> allocOnly (traverse f xs).
Proof.
  intros Hf. induction xs as [|x r IH]; simpl.
  - apply allocOnly_ret.
  - apply allocOnly_bind; [apply Hf|]. intros y.
    apply allocOnly_bind; [apply IH|]. intros ys. apply allocOnly_ret.
Qed.


Lemma allocOnly_omit ks v : allocOnly (omit ks v).
Proof. intros w w' r H. eapply allocOnly_alloc. exact H. Qed.

Lemma allocOnly_transformRec tf fuel : forall v, allocOnly (transformRec tf fuel v).
Proof.
  induction fuel as [|n IH]; intros v; destruct v; simpl;
    try apply allocOnly_ret; try apply allocOnly_throw.
  intros w w' r.
  destruct (heap_of w !! l) as [[fs|xs]|]; intros H.
  - revert H. apply allocOnly_bind; [now apply allocOnly_traverse|].
    intros vs. apply allocOnly_alloc.
  - revert H. apply allocOnly_bind; [now apply allocOnly_traverse|].
    intros vs. apply allocOnly_alloc.
  - inversion H; subst. apply grows_refl.
Qed.

Lemma allocOnly_transformObjectKeys tf v deep :
  allocOnly (transformObjectKeys tf v deep).
Proof.
  intros w w' r. unfold transformObjectKeys.
  destruct v; try apply allocOnly_alloc.
  destruct (heap_of w !! l) as [[fs|xs]|]; try apply allocOnly_alloc.
  destruct deep; [apply allocOnly_transformRec | apply allocOnly_alloc].
Qed.

Lemma allocOnly_allocTree : forall t, allocOnly (allocTree t).
Proof.
  induction t as [| | b | n | s | fs IH | xs IH] using tree_nested_ind; simpl;
    try apply allocOnly_ret.
  - apply allocOnly_bind; [|intros; apply allocOnly_alloc].
    induction IH as [|[k x] r Hx _ IHr]; simpl.
    + apply allocOnly_ret.
    + apply allocOnly_bind; [exact Hx|]. intros y.
      apply allocOnly_bind; [exact IHr|]. intros ys. apply allocOnly_ret.
  - apply allocOnly_bind; [|intros; apply allocOnly_alloc].
    induction IH as [|x r Hx _ IHr]; simpl.
    + apply allocOnly_ret.
    + apply allocOnly_bind; [exact Hx|]. intros y.
      apply allocOnly_bind; [exact IHr|]. intros ys. apply allocOnly_ret.
Qed.

(** ** Reading values back *)

Lemma mapM_fields_denote n h fs tfs :
  mapM (fun kv => t ← reify n h (snd kv); Some (fst kv, t)) fs = Some tfs
  <-> fieldsDenote n h fs tfs.
Proof.
  rewrite mapM_Some. unfold fieldsDenote. split; intros H.
  - eapply Forall2_impl; [exact H|]. intros [k v] [k' t'] E. simpl in *.
    destruct (reify n h v); simpl in E; inversion E; subst. auto.
  - eapply Forall2_impl; [exact H|]. intros [k v] [k' t'] [E1 E2]. simpl in *.
    subst. now rewrite E2.
Qed.

Lemma reify_obj_intro n h l fs tfs :
  h !! l = Some (CObj fs) -> fieldsDenote n h fs tfs ->
  reify (S n) h (VRef l) = Some (TObj tfs).
Proof.
  intros Hl Hf. simpl. rewrite Hl.
  apply mapM_fields_denote in Hf. now rewrite Hf.
Qed.

Lemma reify_arr_intro n h l xs ts :
  h !! l = Some (CArr xs) -> Forall2 (fun x t => reify n h x = Some t) xs ts ->
  reify (S n) h (VRef l) = Some (TArr ts).
Proof.
  intros Hl Hf. simpl. rewrite Hl.
  apply mapM_Some in Hf. now rewrite Hf.
Qed.

Lemma reify_ref_inv n h l t :
  reify n h (VRef l) = Some t ->
  exists n', n = S n' /\
    ((exists fs tfs, h !! l = Some (CObj fs) /\ fieldsDenote n' h fs tfs
                     /\ t = TObj tfs)
     \/ (exists xs ts, h !! l = Some (CArr xs)
                       /\ Forall2 (fun x t => reify n' h x = Some t) xs ts
                       /\ t = TArr ts)).
Proof.
  destruct n as [|n']; simpl; [discriminate|].
  intros H. exists n'. split; [reflexivity|].
  destruct (h !! l) as [[fs|xs]|]; [| |discriminate].
  - left. apply fmap_Some in H as (tfs & Hm & ->).
    apply mapM_fields_denote in Hm. eauto.
  - right. apply fmap_Some in H as (ts & Hm & ->).
    apply mapM_Some in Hm. eauto.
Qed.

Lemma reify_prim_inv n h v t :
  isRef v = false -> reify n h v = Some t -> tnodes t = 0 /\ forall tf, tmap tf t = t.
Proof.
  destruct n, v; simpl; try discriminate; intros _ H; inversion H; subst;
    (split; [reflexivity | intros; reflexivity]).
Qed.

Lemma reify_obj_is_ref n h v tfs :
  reify n h v = Some (TObj tfs) -> exists l, v = VRef l.
Proof. destruct n, v; simpl; try discriminate; eauto. Qed.

(** Reading back is stable under more fuel and under any change of the
    store that keeps the cells it had. *)
Lemma reify_transport h h' :
  (forall l c, h !! l = Some c -> h' !! l = Some c) ->
  forall n m v t, n <= m -> reify n h v = Some t -> reify m h' v = Some t.
Proof.
  intros Hsub. induction n as [|n IH]; intros m v t Hle H.
  - destruct v; simpl in *; try discriminate; destruct m; exact H.
  - destruct v as [| | | | |l]; try (destruct m; exact H).
    apply reify_ref_inv in H as (n' & E & H). inversion E; subst n'.
    destruct m as [|m]; [lia|].
    destruct H as [(fs & tfs & Hl & Hf & ->)|(xs & ts & Hl & Hf & ->)].
    + eapply reify_obj_intro; [apply Hsub; exact Hl|].
      eapply Forall2_impl; [exact Hf|]. intros kv kt [E1 E2].
      split; [assumption|]. apply IH; [lia | assumption].
    + eapply reify_arr_intro; [apply Hsub; exact Hl|].
      eapply Forall2_impl; [exact Hf|]. intros x t' E2.
      apply IH; [lia | assumption].
Qed.

Lemma reify_mono n m h v t :
  n <= m -> reify n h v = Some t -> reify m h v = Some t.
Proof. apply reify_transport. auto. Qed.

Lemma reify_grows n w w' v t :
  grows w w' -> reify n (heap_of w) v = Some t -> reify n (heap_of w') v = Some t.
Proof.
  intros Hg. apply reify_transport; [|lia].
  intros l c. now apply grows_lookup.
Qed.

Lemma reify_fuel_det n m h v t t' :
  reify n h v = Some t -> reify m h v = Some t' -> t = t'.
Proof.
  intros H1 H2.
  apply (reify_mono n (Nat.max n m)) in H1; [|lia].
  apply (reify_mono m (Nat.max n m)) in H2; [|lia].
  congruence.
Qed.

Lemma denotes_grows w w' v t : grows w w' -> denotes w v t -> denotes w' v t.
Proof.
  unfold denotes. intros Hg H.
  eapply reify_transport; [| |exact H].
  - intros l c. now apply grows_lookup.
  - now apply grows_length.
Qed.

Lemma fieldsDenote_oget n h fs tfs k :
  fieldsDenote n h fs tfs ->
  match oget tfs k with
  | Some t => exists v, oget fs k = Some v /\ reify n h v = Some t
  | None => oget fs k = None
  end.
Proof.
  induction 1 as [|[k1 v1] [k2 t2] r tr [E1 E2] _ IH]; simpl in *; [reflexivity|].
  subst k2. destruct (String.eqb k1 k); [eauto | exact IH].
Qed.

Lemma fieldsDenote_keys n h fs tfs :
  fieldsDenote n h fs tfs -> okeys fs = okeys tfs.
Proof.
  unfold okeys. induction 1 as [|[k1 v1] [k2 t2] r tr [E1 E2] _ IH]; simpl in *;
    [reflexivity | congruence].
Qed.

Lemma fieldsDenote_oset n h fs tfs k v t :
  fieldsDenote n h fs tfs -> reify n h v = Some t ->
  fieldsDenote n h (oset fs k v) (oset tfs k t).
Proof.
  intros H Hv.
  induction H as [|[k1 v1] [k2 t2] r tr [E1 E2] Hr IH]; simpl in *.
  - constructor; [auto | constructor].
  - subst k2. destruct (String.eqb k1 k).
    + constructor; auto.
    + constructor; auto.
Qed.

Lemma fieldsDenote_odel n h fs tfs k :
  fieldsDenote n h fs tfs -> fieldsDenote n h (odel fs k) (odel tfs k).
Proof.
  induction 1 as [|[k1 v1] [k2 t2] r tr [E1 E2] _ IH]; simpl in *.
  - constructor.
  - subst k2. destruct (String.eqb k1 k); [assumption | constructor; auto].
Qed.

Lemma fieldsDenote_without n h fs tfs ks :
  fieldsDenote n h fs tfs -> fieldsDenote n h (without ks fs) (without ks tfs).
Proof.
  induction 1 as [|[k1 v1] [k2 t2] r tr [E1 E2] _ IH]; simpl in *.
  - constructor.
  - subst k2. destruct (mem k1 ks); [assumption | constructor; auto].
Qed.

Lemma fieldsDenote_fold n h tf fs tfs :
  fieldsDenote n h fs tfs -> forall acc tacc,
  fieldsDenote n h acc tacc ->
  fieldsDenote n h
    (fold_left (fun a kv => oset a (tf (fst kv)) (snd kv)) fs acc)
    (fold_left (fun a kv => oset a (tf (fst kv)) (snd kv)) tfs tacc).
Proof.
  induction 1 as [|[k1 v1] [k2 t2] r tr [E1 E2] _ IH]; intros acc tacc Ha; simpl in *.
  - assumption.
  - subst k2. apply IH. now apply fieldsDenote_oset.
Qed.

Lemma fieldsDenote_renameKeys n h tf fs tfs :
  fieldsDenote n h fs tfs ->
  fieldsDenote n h (renameKeys tf fs) (renameKeys tf tfs).
Proof. intros H. apply fieldsDenote_fold; [assumption | constructor]. Qed.

Lemma fieldsDenote_transport h h' n m fs tfs :
  (forall l c, h !! l = Some c -> h' !! l = Some c) -> n <= m ->
  fieldsDenote n h fs tfs -> fieldsDenote m h' fs tfs.
Proof.
  intros Hsub Hle H. eapply Forall2_impl; [exact H|].
  intros kv kt [E1 E2]. split; [assumption|].
  eapply reify_transport; eassumption.
Qed.

(** A cell that lies inside a document is smaller than the document, so a
    change of the cell at the root does not reach it. *)
Lemma reify_sameExcept r h h' m tr :
  reify m h (VRef r) = Some tr -> sameExcept r h h' ->
  forall n v t, reify n h v = Some t -> tnodes t < tnodes tr ->
  reify n h' v = Some t.
Proof.
  intros Hr [Hlen Hsame]. induction n as [|n IH]; intros v t H Hlt.
  - destruct v; simpl in *; try discriminate; assumption.
  - destruct v as [| | | | |l]; try exact H.
    destruct (Nat.eq_dec l r) as [->|Hne].
    { rewrite (reify_fuel_det _ _ _ _ _ _ H Hr) in Hlt. lia. }
    apply reify_ref_inv in H as (n' & E & H). inversion E; subst n'.
    destruct H as [(fs & tfs & Hl & Hf & ->)|(xs & ts & Hl & Hf & ->)].
    + eapply reify_obj_intro.
      * rewrite Hsame; [exact Hl | exact Hne |]. eapply lookup_lt_Some; eassumption.
      * simpl in Hlt. clear Hl.
        induction Hf as [|[k1 v1] [k2 t2] rf rt [E1 E2] _ IHf]; simpl in *.
        -- constructor.
        -- constructor.
           ++ split; [assumption|]. apply IH; [assumption | simpl; lia].
           ++ apply IHf. lia.
    + eapply reify_arr_intro.
      * rewrite Hsame; [exact Hl | exact Hne |]. eapply lookup_lt_Some; eassumption.
      * simpl in Hlt. clear Hl.
        induction Hf as [|v1 t2 rf rt E2 _ IHf]; simpl in *.
        -- constructor.
        -- constructor.
           ++ apply IH; [assumption | lia].
           ++ apply IHf. lia.
Qed.

(** ** The deep key conversion denotes [tmap] *)

Lemma transformRec_prim tf fuel v :
  isRef v = false -> transformRec tf fuel v = ret v.
Proof. destruct fuel, v; simpl; try discriminate; reflexivity. Qed.

Lemma lookup_alloc (h : heap) (c : cell) : (h ++ [c]) !! length h = Some c.
Proof. now apply list_lookup_middle. Qed.

Lemma grows_alloc w c : grows w (World (heap_of w ++ [c]) (log w)).
Proof. split; simpl; [now apply prefix_app_r | reflexivity]. Qed.

Section TransformDenote.
Variable tf : string -> string.

Lemma traverse_converts n fuel :
  (forall v w t, reify n (heap_of w) v = Some t -> convertsAt tf n fuel w v t) ->
  forall xs ts w,
    Forall2 (fun x t => reify n (heap_of w) x = Some t) xs ts ->
    exists w' vs,
      traverse (transformRec tf fuel) xs w = (w', Ok vs)
      /\ grows w w'
      /\ Forall2 (fun v' t => reify n (heap_of w') v' = Some (tmap tf t)) vs ts
      /\ Forall (freshFrom (length (heap_of w))) vs
      /\ Forall2 (fun x v' => isRef v' = isRef x) xs vs.
Proof.
  intros IH xs. induction xs as [|x r IHr]; intros ts w H.
  - inversion H; subst. exists w, []. simpl.
    conjs; try constructor; try reflexivity; apply grows_refl.
  - inversion H as [|? t ? tr Hx Hr]; subst.
    destruct (IH x w t Hx) as (w1 & v' & Hrun & Hg1 & Hd & Hfr & Href).
    assert (Hr1 : Forall2 (fun x t => reify n (heap_of w1) x = Some t) r tr).
    { eapply Forall2_impl; [exact Hr|]. intros ? ? E. eapply reify_grows; eassumption. }
    destruct (IHr tr w1 Hr1) as (w2 & vs & Hrun2 & Hg2 & Hd2 & Hfr2 & Href2).
    exists w2, (v' :: vs). simpl.
    rewrite (bind_run _ _ _ _ _ Hrun), (bind_run _ _ _ _ _ Hrun2).
    conjs.
    + reflexivity.
    + eapply grows_trans; eassumption.
    + constructor; [eapply reify_grows; eassumption | assumption].
    + constructor; [assumption|].
      eapply Forall_impl; [exact Hfr2|]. intros [] Hv; simpl in *; auto.
      apply grows_length in Hg1. lia.
    + constructor; assumption.
Qed.

Lemma combine_denote n h (fs : list (string * val)) : forall tfs vs,
  okeys fs = okeys tfs ->
  Forall2 (fun v' t => reify n h v' = Some (tmap tf t)) vs (map snd tfs) ->
  fieldsDenote n h (combine (map fst fs) vs)
    (map (fun kt => let '(k, x) := kt in (k, tmap tf x)) tfs).
Proof.
  unfold okeys.
  induction fs as [|[k v] r IH]; intros [|[k' t'] tr] vs Hk H; simpl in *;
    try discriminate.
  - constructor.
  - inversion H as [|v' ? vr ? Hv Hvr]; subst. inversion Hk; subst.
    constructor; [split; [reflexivity | assumption]|].
    now apply IH.
Qed.

Lemma convertsAt_prim n fuel w v t :
  isRef v = false -> reify n (heap_of w) v = Some t -> convertsAt tf n fuel w v t.
Proof.
  intros Hp H. exists w, v. rewrite transformRec_prim by assumption.
  conjs.
  - reflexivity.
  - apply grows_refl.
  - destruct (reify_prim_inv _ _ _ _ Hp H) as [_ E]. now rewrite E.
  - destruct v; simpl; auto; discriminate.
  - reflexivity.
Qed.

Lemma transformRec_converts : forall n fuel v w t,
  n <= fuel -> reify n (heap_of w) v = Some t -> convertsAt tf n fuel w v t.
Proof.
  induction n as [|n IH]; intros fuel v w t Hle H.
  - destruct v; try (now apply convertsAt_prim); discriminate.
  - destruct v as [| | | | |l]; try (now apply convertsAt_prim).
    destruct fuel as [|fuel]; [lia|].
    apply reify_ref_inv in H as (n' & E & H). inversion E; subst n'.
    assert (IH' : forall v w t, reify n (heap_of w) v = Some t ->
                                convertsAt tf n fuel w v t).
    { intros. apply IH; [lia | assumption]. }
    destruct H as [(fs & tfs & Hl & Hf & ->)|(xs & ts & Hl & Hf & ->)].
    + assert (Hvals : Forall2 (fun x t => reify n (heap_of w) x = Some t)
                        (map snd fs) (map snd tfs)).
      { clear Hl. induction Hf as [|[] [] ? ? [? ?] ? ?]; simpl; constructor; auto. }
      destruct (traverse_converts n fuel IH' _ _ w Hvals)
        as (w1 & vs & Hrun & Hg & Hd & Hfr & Href).
      set (c := CObj (renameKeys tf (combine (map fst fs) vs))).
      exists (World (heap_of w1 ++ [c]) (log w1)), (VRef (length (heap_of w1))).
      split; [|split; [|split; [|split]]].
      * simpl. rewrite Hl. rewrite (bind_run _ _ _ _ _ Hrun). reflexivity.
      * eapply grows_trans; [exact Hg | apply grows_alloc].
      * simpl heap_of. eapply reify_obj_intro; [apply lookup_alloc|].
        apply fieldsDenote_renameKeys. apply combine_denote.
        -- eapply fieldsDenote_keys; eassumption.
        -- eapply Forall2_impl; [exact Hd|]. intros ? ? E'.
           eapply (reify_grows _ w1 (World _ _)); [apply grows_alloc | exact E'].
      * simpl. now apply grows_length.
      * reflexivity.
    + destruct (traverse_converts n fuel IH' _ _ w Hf)
        as (w1 & vs & Hrun & Hg & Hd & Hfr & Href).
      set (c := CArr vs).
      exists (World (heap_of w1 ++ [c]) (log w1)), (VRef (length (heap_of w1))).
      split; [|split; [|split; [|split]]].
      * simpl. rewrite Hl. rewrite (bind_run _ _ _ _ _ Hrun). reflexivity.
      * eapply grows_trans; [exact Hg | apply grows_alloc].
      * simpl heap_of. simpl tmap. eapply reify_arr_intro; [apply lookup_alloc|].
        apply Forall2_fmap_r.
        eapply Forall2_impl; [exact Hd|]. intros ? ? E'.
        eapply (reify_grows _ w1 (World _ _)); [apply grows_alloc | exact E'].
      * simpl. now apply grows_length.
      * reflexivity.
Qed.
End TransformDenote.

(** ** Parsing a document into the store *)

Lemma allocTree_denotes : forall t w,
  exists w' v,
    allocTree t w = (w', Ok v)
    /\ grows w w'
    /\ length (heap_of w') = length (heap_of w) + tnodes t
    /\ reify (tnodes t) (heap_of w') v = Some t.
Proof.
  induction t as [| | b | n | s | fs IH | xs IH] using tree_nested_ind; intros w.
  1-5: (eexists w, _; simpl; conjs;
        [reflexivity | apply grows_refl | simpl; lia | reflexivity]).
  - assert (Hfs : forall w, exists w' vs,
      traverse (fun kt => let '(_, x) := kt in allocTree x) fs w = (w', Ok vs)
      /\ grows w w'
      /\ length (heap_of w') = length (heap_of w)
                               + list_sum (map (fun kt => let '(_, x) := kt in tnodes x) fs)
      /\ fieldsDenote (list_sum (map (fun kt => let '(_, x) := kt in tnodes x) fs))
           (heap_of w') (combine (map fst fs) vs) fs).
    { clear w. induction IH as [|[k x] r Hx _ IHr]; intros w; simpl.
      - exists w, []. conjs; [reflexivity | apply grows_refl | lia | constructor].
      - destruct (Hx w) as (w1 & v & Hrun & Hg1 & Hlen1 & Hd1).
        destruct (IHr w1) as (w2 & vs & Hrun2 & Hg2 & Hlen2 & Hd2).
        exists w2, (v :: vs).
        rewrite (bind_run _ _ _ _ _ Hrun), (bind_run _ _ _ _ _ Hrun2).
        conjs.
        + reflexivity.
        + eapply grows_trans; eassumption.
        + simpl in *. lia.
        + simpl in *. constructor.
          * split; [reflexivity|]. simpl.
            eapply reify_transport; [| |exact Hd1]; [|lia].
            intros l c. now apply grows_lookup.
          * eapply fieldsDenote_transport; [| |exact Hd2]; [auto | lia]. }
    destruct (Hfs w) as (w1 & vs & Hrun & Hg & Hlen & Hd).
    set (c := CObj (combine (map fst fs) vs)).
    exists (World (heap_of w1 ++ [c]) (log w1)), (VRef (length (heap_of w1))).
    conjs.
    + simpl. rewrite (bind_run _ _ _ _ _ Hrun). reflexivity.
    + eapply grows_trans; [exact Hg | apply grows_alloc].
    + simpl. rewrite length_app. simpl. lia.
    + simpl tnodes. simpl heap_of. eapply reify_obj_intro; [apply lookup_alloc|].
      eapply fieldsDenote_transport; [| |exact Hd]; [|lia].
      intros l c' Hl. now apply lookup_app_l_Some.
  - assert (Hxs : forall w, exists w' vs,
      traverse allocTree xs w = (w', Ok vs)
      /\ grows w w'
      /\ length (heap_of w') = length (heap_of w) + list_sum (map tnodes xs)
      /\ Forall2 (fun v t => reify (list_sum (map tnodes xs)) (heap_of w') v = Some t)
           vs xs).
    { clear w. induction IH as [|x r Hx _ IHr]; intros w; simpl.
      - exists w, []. conjs; [reflexivity | apply grows_refl | lia | constructor].
      - destruct (Hx w) as (w1 & v & Hrun & Hg1 & Hlen1 & Hd1).
        destruct (IHr w1) as (w2 & vs & Hrun2 & Hg2 & Hlen2 & Hd2).
        exists w2, (v :: vs).
        rewrite (bind_run _ _ _ _ _ Hrun), (bind_run _ _ _ _ _ Hrun2).
        conjs.
        + reflexivity.
        + eapply grows_trans; eassumption.
        + simpl in *. lia.
        + constructor.
          * eapply reify_transport; [| |exact Hd1]; [|lia].
            intros l c. now apply grows_lookup.
          * eapply Forall2_impl; [exact Hd2|]. intros ? ? E.
            eapply reify_mono; [|exact E]. lia. }
    destruct (Hxs w) as (w1 & vs & Hrun & Hg & Hlen & Hd).
    set (c := CArr vs).
    exists (World (heap_of w1 ++ [c]) (log w1)), (VRef (length (heap_of w1))).
    conjs.
    + simpl. rewrite (bind_run _ _ _ _ _ Hrun). reflexivity.
    + eapply grows_trans; [exact Hg | apply grows_alloc].
    + simpl. rewrite length_app. simpl. lia.
    + simpl tnodes. simpl heap_of. eapply reify_arr_intro; [apply lookup_alloc|].
      eapply Forall2_impl; [exact Hd|]. intros ? ? E.
      eapply reify_transport; [| |exact E]; [|lia].
      intros l c' Hl. now apply lookup_app_l_Some.
Qed.

(** ** Frames: what the transcoders may write to *)

Lemma bind_cases {A B} (c : M A) (k : A -> M B) w w' r :
  bind c k w = (w', r) ->
  (exists w1 a, c w = (w1, Ok a) /\ k a w1 = (w', r))
  \/ (exists e, c w = (w', Throw e) /\ r = Throw e).
Proof.
  unfold bind. destruct (c w) as [w1 [a|e]]; intros H.
  - left. now exists w1, a.
  - right. inversion H; subst. now exists e.
Qed.

Ltac run_bind H :=
  let w := fresh "w" in
  let a := fresh "a" in
  let E := fresh "E" in
  let e := fresh "e" in
  apply bind_cases in H;
  destruct H as [(w & a & E & H) | (e & E & H)].

Lemma readOnly_getProp v k : readOnly (getProp v k).
Proof. intros w w' r. unfold getProp. destruct v; intros H; now inversion H. Qed.

Lemma readOnly_optChain v k : readOnly (optChain v k).
Proof.
  destruct v; simpl; try apply readOnly_getProp; intros w w' r H; now inversion H.
Qed.

Lemma readOnly_ownFields v : readOnly (ownFields v).
Proof. intros w w' r H. now inversion H. Qed.

Lemma optChain_ok v k w : optChain v k w = (w, Ok (orUndef (oget (fieldsOf (heap_of w) v) k))).
Proof. destruct v; reflexivity. Qed.

Lemma getProp_ok v k w :
  v <> VUndef -> v <> VNull ->
  getProp v k w = (w, Ok (orUndef (oget (fieldsOf (heap_of w) v) k))).
Proof. destruct v; try reflexivity; congruence. Qed.

Lemma getProp_ref l k w :
  getProp (VRef l) k w = (w, Ok (orUndef (oget (fieldsOf (heap_of w) (VRef l)) k))).
Proof. reflexivity. Qed.

Lemma grows_insert_fresh w0 w l c :
  grows w0 w -> length (heap_of w0) <= l ->
  grows w0 (World (<[l := c]> (heap_of w)) (log w)).
Proof.
  intros [[k Hk] Hlog] Hl. split; simpl; [|assumption].
  rewrite Hk. rewrite insert_app_r_alt by assumption. now apply prefix_app_r.
Qed.

Lemma setProp_fresh_grows w0 w p k x w' r :
  grows w0 w -> freshFrom (length (heap_of w0)) p ->
  setProp p k x w = (w', r) -> grows w0 w'.
Proof.
  intros Hg Hf. unfold setProp.
  destruct p as [| | | | |l]; try (intros H; inversion H; subst; assumption).
  destruct (heap_of w !! l) as [[fs|xs]|]; intros H; inversion H; subst;
    try assumption.
  now apply grows_insert_fresh.
Qed.

Lemma Forall_oset {A} (P : A -> Prop) fs k v :
  Forall (fun kv => P (snd kv)) fs -> P v ->
  Forall (fun kv => P (snd kv)) (oset fs k v).
Proof.
  intros H Hv. induction H as [|[k1 v1] r H1 Hr IH]; simpl.
  - constructor; [assumption | constructor].
  - destruct (String.eqb k1 k); constructor; auto.
Qed.

Lemma Forall_renameKeys {A} (P : A -> Prop) tf fs :
  Forall (fun kv => P (snd kv)) fs ->
  Forall (fun kv => P (snd kv)) (renameKeys tf fs).
Proof.
  unfold renameKeys. generalize (@nil (string * A)) (Forall_nil_2 (fun kv : string * A => P (snd kv))).
  induction fs as [|[k v] r IH]; intros acc Hacc H; simpl.
  - assumption.
  - inversion H; subst. apply IH; [|assumption]. now apply Forall_oset.
Qed.

Lemma Forall_oget {A} (P : A -> Prop) (fs : list (string * A)) k v :
  Forall (fun kv => P (snd kv)) fs -> oget fs k = Some v -> P v.
Proof.
  induction 1 as [|[k1 v1] r H1 Hr IH]; simpl; [discriminate|].
  destruct (String.eqb k1 k); [intros E; inversion E; subst; assumption | exact IH].
Qed.

Lemma transformRec_fresh tf fuel v w w' v' :
  transformRec tf fuel v w = (w', Ok v') -> freshFrom (length (heap_of w)) v'.
Proof.
  destruct v as [| | | | |l];
    try (rewrite transformRec_prim by reflexivity; intros H; inversion H; exact I).
  destruct fuel as [|n]; simpl; [discriminate|].
  destruct (heap_of w !! l) as [[fs|xs]|]; intros H.
  - run_bind H; [|discriminate].
    apply allocOnly_traverse in E; [|intros; apply allocOnly_transformRec].
    inversion H; subst. simpl. now apply grows_length.
  - run_bind H; [|discriminate].
    apply allocOnly_traverse in E; [|intros; apply allocOnly_transformRec].
    inversion H; subst. simpl. now apply grows_length.
  - inversion H; subst. exact I.
Qed.

Lemma traverse_fresh tf fuel xs : forall w w' vs,
  traverse (transformRec tf fuel) xs w = (w', Ok vs) ->
  Forall (freshFrom (length (heap_of w))) vs.
Proof.
  induction xs as [|x r IH]; intros w w' vs H; simpl in H.
  - inversion H; subst. constructor.
  - run_bind H; [|discriminate]. run_bind H; [|discriminate].
    inversion H; subst. constructor.
    + eapply transformRec_fresh; eassumption.
    + apply IH in E0. eapply Forall_impl; [exact E0|].
      intros [] Hv; simpl in *; auto.
      apply allocOnly_transformRec, grows_length in E. lia.
Qed.

Lemma Forall_combine_snd {A} (P : A -> Prop) (ks : list string) vs :
  Forall P vs -> Forall (fun kv => P (snd kv)) (combine ks vs).
Proof.
  intros H. revert ks. induction H as [|v r Hv Hr IH]; intros [|k ks]; simpl;
    constructor; auto.
Qed.

(** After a deep conversion every property of the result is a primitive
    or a cell made by the conversion itself: nothing is shared with the
    argument. *)
Lemma transformObjectKeys_deep_fresh tf v w w' v' :
  transformObjectKeys tf v true w = (w', Ok v') ->
  freshFrom (length (heap_of w)) v'
  /\ Forall (fun kv => freshFrom (length (heap_of w)) (snd kv))
       (fieldsOf (heap_of w') v').
Proof.
  unfold transformObjectKeys.
  assert (Hempty : forall c, c = CObj [] ->
    alloc c w = (w', Ok v') ->
    freshFrom (length (heap_of w)) v'
    /\ Forall (fun kv => freshFrom (length (heap_of w)) (snd kv))
         (fieldsOf (heap_of w') v')).
  { intros c -> H. inversion H; subst. simpl. split; [lia|].
    rewrite lookup_alloc. constructor. }
  destruct v as [| | | | |l]; try (now apply Hempty).
  destruct (heap_of w !! l) as [[fs|xs]|] eqn:Hl; try (now apply Hempty).
  destruct (length (heap_of w)) as [|n] eqn:Hlen.
  { apply lookup_lt_Some in Hl. lia. }
  simpl. rewrite Hl. intros H.
  run_bind H; [|discriminate].
  pose proof (traverse_fresh _ _ _ _ _ _ E) as Hfr.
  apply allocOnly_traverse in E; [|intros; apply allocOnly_transformRec].
  inversion H; subst. simpl. rewrite lookup_alloc.
  rewrite <- Hlen. split; [now apply grows_length|].
  rewrite Hlen in Hfr |- *.
  apply Forall_renameKeys. now apply Forall_combine_snd.
Qed.

(** The common tail of the two conversation transcoders: re-applying the
    caller's map writes to a cell the conversion made. *)
Lemma reapply_grows w0 w obj cd K1 K2 w' r :
  grows w0 w ->
  Forall (fun kv => freshFrom (length (heap_of w0)) (snd kv))
    (fieldsOf (heap_of w) obj) ->
  (let* cprops := optChain obj K1 in
   let* ccd := optChain cprops K2 in
   let* _s :=
     (if truthy ccd && truthy cd then
        let* p := getProp obj K1 in
        setProp p K2 cd
      else ret tt) in
   ret obj) w = (w', r) ->
  grows w0 w'.
Proof.
  intros Hg Hfr H.
  run_bind H; [|apply readOnly_optChain in E; now subst].
  pose proof (readOnly_optChain _ _ _ _ _ E); subst w1.
  run_bind H; [|apply readOnly_optChain in E0; now subst].
  pose proof (readOnly_optChain _ _ _ _ _ E0); subst w1.
  assert (Hs : forall w2 r2,
    (if truthy a0 && truthy cd then
       let* p := getProp obj K1 in setProp p K2 cd
     else ret tt) w = (w2, r2) -> grows w0 w2).
  { intros w2 r2. destruct (truthy a0 && truthy cd).
    - intros H2. run_bind H2; [|apply readOnly_getProp in E1; now subst].
      pose proof (readOnly_getProp _ _ _ _ _ E1); subst w1.
      eapply setProp_fresh_grows; [exact Hg | | exact H2].
      unfold getProp in E1. destruct obj as [| | | | |l]; try discriminate;
        inversion E1; subst; simpl; try exact I.
      simpl in Hfr.
      destruct (oget _ K1) as [x|] eqn:Eo; simpl; [|exact I].
      eapply (Forall_oget (freshFrom (length (heap_of w0)))); eassumption.
    - intros H2. inversion H2; subst. assumption. }
  run_bind H.
  - inversion H; subst. eapply Hs; eassumption.
  - eapply Hs; eassumption.
Qed.

Section TranscoderFrames.
Variables camelCase snakeCase : string -> string.

Lemma conversationToApi_grows v w w' r :
  conversationToApi snakeCase v w = (w', r) -> grows w w'.
Proof.
  unfold conversationToApi. intros H.
  run_bind H; [|apply readOnly_getProp in E; subst; apply grows_refl].
  apply readOnly_getProp in E; subst w0.
  run_bind H; [|apply readOnly_optChain in E; subst; apply grows_refl].
  apply readOnly_optChain in E; subst w0.
  run_bind H; [|apply allocOnly_omit in E; assumption].
  pose proof (allocOnly_omit _ _ _ _ _ E) as Hg1.
  run_bind H; [|apply allocOnly_transformObjectKeys in E0; eapply grows_trans; eassumption].
  pose proof (allocOnly_transformObjectKeys _ _ _ _ _ _ E0) as Hg2.
  apply transformObjectKeys_deep_fresh in E0 as [_ Hfr].
  eapply reapply_grows; [| |exact H].
  - eapply grows_trans; eassumption.
  - eapply Forall_impl; [exact Hfr|]. intros [k [| | | | |l]] Hl; simpl in *; auto.
    apply grows_length in Hg1. lia.
Qed.

Lemma allocOnly_apiToMember v : allocOnly (apiToMember camelCase v).
Proof.
  unfold apiToMember.
  repeat (first
    [ apply allocOnly_bind; [|intros ?]
    | apply allocOnly_omit
    | apply allocOnly_transformObjectKeys
    | apply allocOnly_ownFields
    | apply allocOnly_getProp
    | apply allocOnly_optChain
    | apply allocOnly_alloc ]).
Qed.

Lemma allocOnly_memberToApi v : allocOnly (memberToApi snakeCase v).
Proof.
  unfold memberToApi.
  repeat (first
    [ apply allocOnly_bind; [|intros ?]
    | apply allocOnly_omit
    | apply allocOnly_transformObjectKeys
    | apply allocOnly_ownFields
    | apply allocOnly_getProp
    | apply allocOnly_optChain
    | apply allocOnly_alloc ]).
Qed.

Lemma deleteProp_frame v k w w' r :
  deleteProp v k w = (w', r) ->
  log w' = log w /\ length (heap_of w') = length (heap_of w)
  /\ forall l c, heap_of w !! l = Some c ->
       heap_of w' !! l
       = Some (match v, c with
               | VRef r, CObj fs => if Nat.eqb l r then CObj (odel fs k) else c
               | _, _ => c
               end).
Proof.
  unfold deleteProp.
  destruct v as [| | | | |l0];
    try (intros H; inversion H; subst; conjs; try reflexivity;
         intros l c Hl; rewrite Hl; now destruct c).
  destruct (heap_of w !! l0) as [[fs|xs]|] eqn:Hl0; intros H; inversion H; subst;
    simpl; conjs; try reflexivity.
  - apply length_insert.
  - intros l c Hl. destruct (Nat.eqb l l0) eqn:E.
    + apply Nat.eqb_eq in E. subst l0.
      rewrite list_lookup_insert_eq by (eapply lookup_lt_Some; eassumption).
      rewrite Hl0 in Hl. inversion Hl; subst. reflexivity.
    + apply Nat.eqb_neq in E.
      rewrite list_lookup_insert_ne by congruence.
      rewrite Hl. now destruct c.
  - intros l c Hl. rewrite Hl. destruct c; [|reflexivity].
    destruct (Nat.eqb l l0) eqn:E; [|reflexivity].
    apply Nat.eqb_eq in E. subst. congruence.
  - intros l c Hl. rewrite Hl. destruct c; [|reflexivity].
    destruct (Nat.eqb l l0) eqn:E; [|reflexivity].
    apply Nat.eqb_eq in E. subst. congruence.
Qed.

Lemma apiToConversation_frame v w w' r :
  apiToConversation camelCase v w = (w', r) ->
  log w' = log w
  /\ forall l c, heap_of w !! l = Some c ->
       heap_of w' !! l = Some (afterDeleteLinks v l c).
Proof.
  unfold apiToConversation. intros H.
  assert (Hnull : forall l c, (v = VUndef \/ v = VNull) ->
            heap_of w !! l = Some c ->
            heap_of w !! l = Some (afterDeleteLinks v l c)).
  { intros l c [->| ->] Hl; exact Hl. }
  run_bind H.
  2:{ pose proof (readOnly_getProp _ _ _ _ _ E); subst w'.
      split; [reflexivity|]. intros l c. apply Hnull.
      unfold getProp in E. destruct v; try discriminate; auto. }
  apply readOnly_getProp in E; subst w0.
  run_bind H; [|rewrite optChain_ok in E; discriminate].
  apply readOnly_optChain in E; subst w0.
  run_bind H.
  2:{ pose proof E as E'. unfold deleteProp in E'.
      destruct v; try discriminate;
        try (inversion E'; subst; split; [reflexivity|]; intros l c; apply Hnull; auto).
      destruct (heap_of w !! l) as [[|]|]; discriminate. }
  destruct (deleteProp_frame _ _ _ _ _ E) as (Hlog & Hlen & Hcells).
  assert (Hg : grows w0 w').
  { run_bind H; [|apply allocOnly_transformObjectKeys in E0; assumption].
    pose proof (allocOnly_transformObjectKeys _ _ _ _ _ _ E0) as Hg2.
    apply transformObjectKeys_deep_fresh in E0 as [_ Hfr].
    eapply reapply_grows; [exact Hg2 | exact Hfr | exact H]. }
  split; [rewrite (proj2 Hg); assumption|].
  intros l c Hl. eapply grows_lookup; [exact Hg|].
  rewrite (Hcells l c Hl). reflexivity.
Qed.

(** C5, as amended: three of the four transcoders never write to a cell
    that existed before the call (they only allocate new ones and send
    nothing); [apiToConversation] changes exactly one existing cell, the
    response object passed to it, from which it deletes [_links], and
    leaves every other cell as it was. *)
Theorem transcoders_frame (response conversation wireMember member : val)
  (w : world) :
  grows w (fst (conversationToApi snakeCase conversation w))
  /\ grows w (fst (apiToMember camelCase wireMember w))
  /\ grows w (fst (memberToApi snakeCase member w))
  /\ log (fst (apiToConversation camelCase response w)) = log w
  /\ forall l c, heap_of w !! l = Some c ->
       heap_of (fst (apiToConversation camelCase response w)) !! l
       = Some (afterDeleteLinks response l c).
Proof.
  conjs.
  - destruct (conversationToApi snakeCase conversation w) as [w' r] eqn:E.
    eapply conversationToApi_grows; exact E.
  - destruct (apiToMember camelCase wireMember w) as [w' r] eqn:E.
    eapply allocOnly_apiToMember; exact E.
  - destruct (memberToApi snakeCase member w) as [w' r] eqn:E.
    eapply allocOnly_memberToApi; exact E.
  - destruct (apiToConversation camelCase response w) as [w' r] eqn:E.
    apply apiToConversation_frame in E. apply E.
  - destruct (apiToConversation camelCase response w) as [w' r] eqn:E.
    apply apiToConversation_frame in E. apply E.
Qed.
End TranscoderFrames.

(** C5, as stated, fails: the response object handed to
    [apiToConversation] has lost its [_links] property after the call. *)
Lemma apiToConversation_mutates_response :
  let w := World [CObj [("href", VStr "https://api.nexmo.com/v1/conversations/CON-1")];
                  CObj [("id", VStr "CON-1"); ("display_name", VStr "Hello");
                        ("_links", VRef 0)]] [] in
  let w' := fst (apiToConversation asciiCamelCase (VRef 1) w) in
  heap_of w !! 1 = Some (CObj [("id", VStr "CON-1"); ("display_name", VStr "Hello");
                               ("_links", VRef 0)])
  /\ heap_of w' !! 1 = Some (CObj [("id", VStr "CON-1"); ("display_name", VStr "Hello")])
  /\ heap_of w' !! 1 <> heap_of w !! 1.
Proof.
  vm_compute. conjs; try reflexivity. discriminate.
Qed.

(** ** Sizes of sub-documents *)

Lemma tnodes_oget_lt (tfs : list (string * tree)) k t :
  oget tfs k = Some t -> tnodes t < tnodes (TObj tfs).
Proof.
  simpl. induction tfs as [|[k1 t1] r IH]; simpl; [discriminate|].
  destruct (String.eqb k1 k).
  - intros E. inversion E; subst. lia.
  - intros E. apply IH in E. lia.
Qed.

Lemma tnodes_odel_le (tfs : list (string * tree)) k :
  tnodes (TObj (odel tfs k)) <= tnodes (TObj tfs).
Proof.
  simpl. induction tfs as [|[k1 t1] r IH]; simpl; [lia|].
  destruct (String.eqb k1 k); simpl; lia.
Qed.

Lemma fieldsDenote_oget_val n h fs tfs k v :
  fieldsDenote n h fs tfs -> oget fs k = Some v ->
  exists t, oget tfs k = Some t /\ reify n h v = Some t.
Proof.
  induction 1 as [|[k1 v1] [k2 t2] r tr [E1 E2] _ IH]; simpl in *; [discriminate|].
  subst k2. destruct (String.eqb k1 k); [|exact IH].
  intros E. inversion E; subst. eauto.
Qed.

Lemma fieldsDenote_sameExcept r h h' m tr n fs tfs :
  reify m h (VRef r) = Some tr -> sameExcept r h h' ->
  fieldsDenote n h fs tfs -> tnodes (TObj tfs) <= tnodes tr ->
  fieldsDenote n h' fs tfs.
Proof.
  intros Hr Hs Hf. simpl.
  induction Hf as [|[k1 v1] [k2 t2] rf rt [E1 E2] _ IH]; simpl in *; intros Hle.
  - constructor.
  - constructor.
    + split; [assumption|]. simpl.
      eapply reify_sameExcept; [exact Hr | exact Hs | exact E2 | lia].
    + apply IH. lia.
Qed.

(** A finite document does not contain the cell at its own root. *)
Lemma reify_no_self n h lo t K lp :
  reify n h (VRef lo) = Some t ->
  oget (fieldsOf h (VRef lo)) K = Some (VRef lp) -> lp <> lo.
Proof.
  intros H Hk ->.
  pose proof H as H0.
  apply reify_ref_inv in H as (n' & -> & [(fs & tfs & Hl & Hf & ->)|(xs & ts & Hl & Hf & ->)]);
    simpl in Hk; rewrite Hl in Hk; [|discriminate].
  destruct (fieldsDenote_oget_val _ _ _ _ _ _ Hf Hk) as (t & Ht & Hr).
  apply tnodes_oget_lt in Ht.
  rewrite (reify_fuel_det _ _ _ _ _ _ Hr H0) in Ht. lia.
Qed.

(** ** The transcoders return: runs on finite documents *)

Lemma denotes_obj_inv w v tfs :
  denotes w v (TObj tfs) ->
  exists l fs n, v = VRef l /\ length (heap_of w) = S n
                 /\ heap_of w !! l = Some (CObj fs)
                 /\ fieldsDenote n (heap_of w) fs tfs.
Proof.
  unfold denotes. intros H.
  destruct (reify_obj_is_ref _ _ _ _ H) as [l ->].
  apply reify_ref_inv in H as (n & Hn & [(fs & tfs' & Hl & Hf & E)|(xs & ts & Hl & Hf & E)]);
    inversion E; subst.
  exists l, fs, n. auto.
Qed.

Lemma denotes_obj_intro w l fs tfs n :
  heap_of w !! l = Some (CObj fs) -> fieldsDenote n (heap_of w) fs tfs ->
  n < length (heap_of w) -> denotes w (VRef l) (TObj tfs).
Proof.
  intros Hl Hf Hn. unfold denotes.
  eapply (reify_mono (S n)); [lia|]. eapply reify_obj_intro; eassumption.
Qed.

Lemma deleteProp_denotes w l tfs k :
  denotes w (VRef l) (TObj tfs) ->
  exists fs,
    heap_of w !! l = Some (CObj fs)
    /\ deleteProp (VRef l) k w
       = (World (<[l := CObj (odel fs k)]> (heap_of w)) (log w), Ok tt)
    /\ denotes (World (<[l := CObj (odel fs k)]> (heap_of w)) (log w)) (VRef l)
         (TObj (odel tfs k))
    /\ sameExcept l (heap_of w) (<[l := CObj (odel fs k)]> (heap_of w)).
Proof.
  intros H. pose proof H as H0.
  apply denotes_obj_inv in H as (l' & fs & n & E & Hlen & Hl & Hf).
  inversion E; subst l'. exists fs.
  assert (Hs : sameExcept l (heap_of w) (<[l := CObj (odel fs k)]> (heap_of w))).
  { split; [rewrite length_insert; lia|].
    intros l0 Hne _. now apply list_lookup_insert_ne. }
  conjs.
  - assumption.
  - unfold deleteProp. now rewrite Hl.
  - eapply (denotes_obj_intro _ _ _ _ n); simpl.
    + apply list_lookup_insert_eq. eapply lookup_lt_Some; eassumption.
    + eapply fieldsDenote_sameExcept; [exact H0 | exact Hs | | apply tnodes_odel_le].
      now apply fieldsDenote_odel.
    + rewrite length_insert. lia.
  - assumption.
Qed.

Lemma transformObjectKeys_denotes tf v w tfs :
  denotes w v (TObj tfs) ->
  exists w' lo,
    transformObjectKeys tf v true w = (w', Ok (VRef lo))
    /\ grows w w'
    /\ length (heap_of w) <= lo
    /\ denotes w' (VRef lo) (tmap tf (TObj tfs)).
Proof.
  intros H. pose proof H as H0.
  apply denotes_obj_inv in H as (l & fs & n & -> & Hlen & Hl & Hf).
  destruct (transformRec_converts tf _ (length (heap_of w)) _ w _ (le_n _) H0)
    as (w' & v' & Hrun & Hg & Hd & Hfr & Href).
  destruct v' as [| | | | |lo]; try discriminate.
  exists w', lo. conjs.
  - unfold transformObjectKeys. now rewrite Hl.
  - assumption.
  - exact Hfr.
  - unfold denotes. eapply reify_mono; [|exact Hd]. now apply grows_length.
Qed.

Lemma truthy_fields h v k :
  truthy (orUndef (oget (fieldsOf h v) k)) = true ->
  exists l fs, v = VRef l /\ h !! l = Some (CObj fs)
               /\ truthy (orUndef (oget fs k)) = true.
Proof.
  destruct v as [| | | | |l]; simpl; try discriminate.
  destruct (h !! l) as [[fs|xs]|] eqn:Hl; simpl; try discriminate.
  intros H. exists l, fs. conjs; [reflexivity | exact Hl | exact H].
Qed.

(** The common tail of the two conversation transcoders always returns
    the converted object; it writes the caller's map into the converted
    properties exactly when both are present. *)
Lemma reapply_run w lo cd K1 K2 :
  exists w',
    (let* cprops := optChain (VRef lo) K1 in
     let* ccd := optChain cprops K2 in
     let* _s :=
       (if truthy ccd && truthy cd then
          let* p := getProp (VRef lo) K1 in
          setProp p K2 cd
        else ret tt) in
     ret (VRef lo)) w = (w', Ok (VRef lo))
    /\ reapplied w w' lo K1 K2 cd.
Proof.
  rewrite (bind_run _ _ _ _ _ (optChain_ok _ _ _)).
  rewrite (bind_run _ _ _ _ _ (optChain_ok _ _ _)).
  set (cprops := orUndef (oget (fieldsOf (heap_of w) (VRef lo)) K1)).
  destruct (truthy (orUndef (oget (fieldsOf (heap_of w) cprops) K2))) eqn:Hc;
    [destruct (truthy cd) eqn:Hcd|]; simpl andb; cbv iota.
  - destruct (truthy_fields _ _ _ Hc) as (lp & pfs & Ep & Hlp & Ht).
    exists (World (<[lp := CObj (oset pfs K2 cd)]> (heap_of w)) (log w)).
    split.
    + unfold bind. rewrite getProp_ref. fold cprops. rewrite Ep.
      unfold setProp. now rewrite Hlp.
    + right. exists lp, pfs. conjs; try reflexivity; try assumption.
      unfold cprops in Ep.
      destruct (oget (fieldsOf (heap_of w) (VRef lo)) K1) as [x|]; simpl in Ep;
        [congruence | discriminate].
  - exists w. split; [reflexivity|]. left. split; [reflexivity|].
    fold cprops. now rewrite Hc, Hcd.
  - exists w. split; [reflexivity|]. left. split; [reflexivity|].
    fold cprops. now rewrite Hc.
Qed.

Lemma omit_run ks v w :
  omit ks v w
  = (World (heap_of w ++ [CObj (without ks (fieldsOf (heap_of w) v))]) (log w),
     Ok (VRef (length (heap_of w)))).
Proof. reflexivity. Qed.

Lemma omit_denotes ks w l tfs :
  denotes w (VRef l) (TObj tfs) ->
  denotes (World (heap_of w ++ [CObj (without ks (fieldsOf (heap_of w) (VRef l)))]) (log w))
    (VRef (length (heap_of w))) (TObj (without ks tfs)).
Proof.
  intros H. apply denotes_obj_inv in H as (l' & fs & n & E & Hlen & Hl & Hf).
  inversion E; subst l'. simpl fieldsOf. rewrite Hl.
  eapply (denotes_obj_intro _ _ _ _ n); simpl.
  - apply lookup_alloc.
  - eapply fieldsDenote_transport; [| |apply fieldsDenote_without; exact Hf]; [|lia].
    intros l0 c Hl0. now apply lookup_app_l_Some.
  - rewrite length_app. simpl. lia.
Qed.

Section TranscoderRuns.
Variables camelCase snakeCase : string -> string.

Lemma apiToConversation_run w l tfs :
  denotes w (VRef l) (TObj tfs) ->
  exists fs w2 lo w',
    heap_of w !! l = Some (CObj fs)
    /\ transformObjectKeys camelCase (VRef l) true
         (World (<[l := CObj (odel fs "_links")]> (heap_of w)) (log w))
       = (w2, Ok (VRef lo))
    /\ grows (World (<[l := CObj (odel fs "_links")]> (heap_of w)) (log w)) w2
    /\ denotes w2 (VRef lo) (tmap camelCase (TObj (odel tfs "_links")))
    /\ apiToConversation camelCase (VRef l) w = (w', Ok (VRef lo))
    /\ reapplied w2 w' lo "properties" "customData"
         (orUndef (oget (fieldsOf (heap_of w) (orUndef (oget fs "properties")))
                     "custom_data")).
Proof.
  intros H.
  destruct (deleteProp_denotes w l tfs "_links" H) as (fs & Hl & Hdel & Hd1 & Hs).
  destruct (transformObjectKeys_denotes camelCase _ _ _ Hd1)
    as (w2 & lo & Hrun & Hg & Hlo & Hd2).
  set (cd := orUndef (oget (fieldsOf (heap_of w) (orUndef (oget fs "properties")))
                        "custom_data")).
  destruct (reapply_run w2 lo cd "properties" "customData") as (w' & Htail & Hre).
  exists fs, w2, lo, w'. conjs; try assumption.
  unfold apiToConversation.
  rewrite (bind_run _ _ _ _ _ (getProp_ref _ _ _)).
  rewrite (bind_run _ _ _ _ _ (optChain_ok _ _ _)).
  rewrite (bind_run _ _ _ _ _ Hdel).
  unfold camelCaseObjectKeys. rewrite (bind_run _ _ _ _ _ Hrun).
  simpl fieldsOf. rewrite Hl. exact Htail.
Qed.

Lemma conversationToApi_run w l tfs :
  denotes w (VRef l) (TObj tfs) ->
  exists fs w2 lo w',
    heap_of w !! l = Some (CObj fs)
    /\ transformObjectKeys snakeCase (VRef (length (heap_of w))) true
         (World (heap_of w ++ [CObj (without serverOwned fs)]) (log w))
       = (w2, Ok (VRef lo))
    /\ grows w w2
    /\ denotes w2 (VRef lo) (tmap snakeCase (TObj (without serverOwned tfs)))
    /\ conversationToApi snakeCase (VRef l) w = (w', Ok (VRef lo))
    /\ reapplied w2 w' lo "properties" "custom_data"
         (orUndef (oget (fieldsOf (heap_of w) (orUndef (oget fs "properties")))
                     "customData")).
Proof.
  intros H.
  pose proof (omit_denotes serverOwned w l tfs H) as Hd1.
  destruct (denotes_obj_inv _ _ _ H) as (l' & fs & n & E & Hlen & Hl & Hf).
  inversion E; subst l'.
  simpl fieldsOf in Hd1. rewrite Hl in Hd1.
  destruct (transformObjectKeys_denotes snakeCase _ _ _ Hd1)
    as (w2 & lo & Hrun & Hg & Hlo & Hd2).
  set (cd := orUndef (oget (fieldsOf (heap_of w) (orUndef (oget fs "properties")))
                        "customData")).
  destruct (reapply_run w2 lo cd "properties" "custom_data") as (w' & Htail & Hre).
  exists fs, w2, lo, w'. conjs; try assumption.
  - eapply grows_trans; [apply (grows_alloc w)|exact Hg].
  - unfold conversationToApi.
    rewrite (bind_run _ _ _ _ _ (getProp_ref _ _ _)).
    rewrite (bind_run _ _ _ _ _ (optChain_ok _ _ _)).
    rewrite (bind_run _ _ _ _ _ (omit_run _ _ _)).
    assert (Hfo : fieldsOf (heap_of w) (VRef l) = fs) by (simpl; now rewrite Hl).
    unfold snakeCaseObjectKeys. rewrite !Hfo.
    rewrite (bind_run _ _ _ _ _ Hrun). exact Htail.
Qed.
End TranscoderRuns.

(** ** The caller's map survives the conversion of its siblings *)

Lemma oget_map_vals {A B} (f : A -> B) (fs : list (string * A)) k :
  oget (map (fun kt => let '(k, x) := kt in (k, f x)) fs) k = f <$> oget fs k.
Proof.
  induction fs as [|[k1 v1] r IH]; simpl; [reflexivity|].
  destruct (String.eqb k1 k); [reflexivity | exact IH].
Qed.

Lemma okeys_map_vals {A B} (f : A -> B) (fs : list (string * A)) :
  okeys (map (fun kt => let '(k, x) := kt in (k, f x)) fs) = okeys fs.
Proof.
  unfold okeys. induction fs as [|[k1 v1] r IH]; simpl; [reflexivity | now rewrite IH].
Qed.

Lemma NoDup_odel {A} (fs : list (string * A)) k :
  List.NoDup (okeys fs) -> List.NoDup (okeys (odel fs k)).
Proof.
  induction fs as [|[k1 v1] r IH]; simpl; intros H; [constructor|].
  inversion H as [|? ? Hn Hr]; subst.
  destruct (String.eqb k1 k); [auto|]. simpl. constructor; [|auto].
  intros Hin. apply okeys_odel in Hin. tauto.
Qed.

Lemma NoDup_without {A} (fs : list (string * A)) ks :
  List.NoDup (okeys fs) -> List.NoDup (okeys (without ks fs)).
Proof.
  induction fs as [|[k1 v1] r IH]; simpl; intros H; [constructor|].
  inversion H as [|? ? Hn Hr]; subst.
  destruct (mem k1 ks); [auto|]. simpl. constructor; [|auto].
  intros Hin. apply okeys_without in Hin. tauto.
Qed.

Lemma keyedAlone_odel tf k tfs k' :
  keyedAlone tf k tfs -> keyedAlone tf k (odel tfs k').
Proof.
  intros [Hnd Hu]. split; [now apply NoDup_odel|].
  intros k0 Hin. apply Hu. apply okeys_odel in Hin. tauto.
Qed.

Lemma keyedAlone_without tf k tfs ks :
  keyedAlone tf k tfs -> keyedAlone tf k (without ks tfs).
Proof.
  intros [Hnd Hu]. split; [now apply NoDup_without|].
  intros k0 Hin. apply Hu. apply okeys_without in Hin. tauto.
Qed.

Lemma tmap_fields_oget tf tfs k t :
  keyedAlone tf k tfs -> oget tfs k = Some t ->
  oget (renameKeys tf (map (fun kt => let '(k, x) := kt in (k, tmap tf x)) tfs)) (tf k)
  = Some (tmap tf t).
Proof.
  intros [Hnd Hu] Hget. rewrite oget_renameKeys.
  apply lastUnder_unique.
  - now rewrite okeys_map_vals.
  - rewrite oget_map_vals, Hget. reflexivity.
  - rewrite okeys_map_vals. exact Hu.
Qed.

(** In the converted object, the path [k1.k2] of the source is found
    under the converted keys, in cells of its own. *)
Lemma converted_path tf w lo t1fs k1 pfs k2 cdt :
  denotes w (VRef lo) (tmap tf (TObj t1fs)) ->
  oget t1fs k1 = Some (TObj pfs) -> oget pfs k2 = Some (TObj cdt) ->
  keyedAlone tf k1 t1fs -> keyedAlone tf k2 pfs ->
  exists lp pfs' y,
    oget (fieldsOf (heap_of w) (VRef lo)) (tf k1) = Some (VRef lp)
    /\ heap_of w !! lp = Some (CObj pfs')
    /\ oget pfs' (tf k2) = Some (VRef y)
    /\ lp <> lo.
Proof.
  intros Hd H1 H2 Ha1 Ha2. pose proof Hd as Hd0.
  simpl tmap in Hd.
  apply denotes_obj_inv in Hd as (l' & fs & n & E & Hlen & Hl & Hf).
  inversion E; subst l'.
  pose proof (fieldsDenote_oget _ _ _ _ (tf k1) Hf) as Hp.
  rewrite (tmap_fields_oget _ _ _ _ Ha1 H1) in Hp.
  destruct Hp as (vp & Hvp & Hrp). simpl tmap in Hrp.
  destruct (reify_obj_is_ref _ _ _ _ Hrp) as [lp ->].
  apply reify_ref_inv in Hrp
    as (n' & Hn' & [(pfs' & tp & Hlp & Hfp & Etp)|(xs & ts & _ & _ & Etp)]);
    [|discriminate].
  inversion Etp; subst tp.
  pose proof (fieldsDenote_oget _ _ _ _ (tf k2) Hfp) as Hc.
  rewrite (tmap_fields_oget _ _ _ _ Ha2 H2) in Hc.
  destruct Hc as (vc & Hvc & Hrc). simpl tmap in Hrc.
  destruct (reify_obj_is_ref _ _ _ _ Hrc) as [y ->].
  exists lp, pfs', y. simpl fieldsOf. rewrite Hl. conjs; try assumption.
  eapply reify_no_self; [exact Hd0|]. simpl. rewrite Hl. exact Hvp.
Qed.

Lemma reapply_sets tf w w' lo t1fs k1 pfs k2 cdt cdv :
  denotes w (VRef lo) (tmap tf (TObj t1fs)) ->
  oget t1fs k1 = Some (TObj pfs) -> oget pfs k2 = Some (TObj cdt) ->
  keyedAlone tf k1 t1fs -> keyedAlone tf k2 pfs ->
  truthy cdv = true ->
  reapplied w w' lo (tf k1) (tf k2) cdv ->
  exists lp pfs',
    oget (fieldsOf (heap_of w) (VRef lo)) (tf k1) = Some (VRef lp)
    /\ heap_of w !! lp = Some (CObj pfs')
    /\ w' = World (<[lp := CObj (oset pfs' (tf k2) cdv)]> (heap_of w)) (log w)
    /\ oget (fieldsOf (heap_of w') (VRef lo)) (tf k1) = Some (VRef lp)
    /\ oget (fieldsOf (heap_of w') (VRef lp)) (tf k2) = Some cdv.
Proof.
  intros Hd H1 H2 Ha1 Ha2 Hcd Hre.
  destruct (converted_path _ _ _ _ _ _ _ _ Hd H1 H2 Ha1 Ha2)
    as (lp & pfs' & y & Hp & Hlp & Hy & Hne).
  destruct Hre as [[_ Hno]|(lp2 & pfs2 & _ & Hp2 & Hlp2 & _ & ->)].
  { exfalso. rewrite Hp in Hno. simpl in Hno. rewrite Hlp, Hy, Hcd in Hno.
    discriminate. }
  rewrite Hp in Hp2. inversion Hp2; subst lp2.
  rewrite Hlp in Hlp2. inversion Hlp2; subst pfs2.
  exists lp, pfs'. conjs; try assumption; try reflexivity.
  - simpl heap_of. simpl fieldsOf in *.
    rewrite list_lookup_insert_ne by congruence. exact Hp.
  - simpl. rewrite list_lookup_insert_eq by (eapply lookup_lt_Some; eassumption).
    apply oget_oset_eq.
Qed.

(** The map an object holds under [k1.k2], as a value of the store. *)
Lemma wire_path w l fs tfs k1 pfs k2 cdt :
  denotes w (VRef l) (TObj tfs) -> heap_of w !! l = Some (CObj fs) ->
  oget tfs k1 = Some (TObj pfs) -> oget pfs k2 = Some (TObj cdt) ->
  exists lp c n,
    oget fs k1 = Some (VRef lp)
    /\ oget (fieldsOf (heap_of w) (VRef lp)) k2 = Some (VRef c)
    /\ reify n (heap_of w) (VRef c) = Some (TObj cdt)
    /\ n < length (heap_of w)
    /\ tnodes (TObj cdt) < tnodes (TObj tfs).
Proof.
  intros Hd Hl H1 H2.
  apply denotes_obj_inv in Hd as (l' & fs' & n & E & Hlen & Hl' & Hf).
  inversion E; subst l'. rewrite Hl in Hl'. inversion Hl'; subst fs'.
  pose proof (fieldsDenote_oget _ _ _ _ k1 Hf) as Hp. rewrite H1 in Hp.
  destruct Hp as (vp & Hvp & Hrp).
  destruct (reify_obj_is_ref _ _ _ _ Hrp) as [lp ->].
  apply reify_ref_inv in Hrp
    as (n' & Hn' & [(pfs' & tp & Hlp & Hfp & Etp)|(xs & ts & _ & _ & Etp)]);
    [|discriminate].
  inversion Etp; subst tp.
  pose proof (fieldsDenote_oget _ _ _ _ k2 Hfp) as Hc. rewrite H2 in Hc.
  destruct Hc as (vc & Hvc & Hrc).
  destruct (reify_obj_is_ref _ _ _ _ Hrc) as [c ->].
  exists lp, c, n'. simpl. rewrite Hlp. conjs.
  - exact Hvp.
  - exact Hvc.
  - exact Hrc.
  - lia.
  - apply tnodes_oget_lt in H1, H2. simpl in *. lia.
Qed.

Section CustomData.
Variables camelCase snakeCase : string -> string.

Lemma apiToConversation_customData w response tfs pfs cd :
  denotes w response (TObj tfs) ->
  oget tfs "properties" = Some (TObj pfs) ->
  oget pfs "custom_data" = Some (TObj cd) ->
  camelCase "properties" = "properties" ->
  camelCase "custom_data" = "customData" ->
  keyedAlone camelCase "properties" tfs ->
  keyedAlone camelCase "custom_data" pfs ->
  exists w' conversation x,
    apiToConversation camelCase response w = (w', Ok conversation)
    /\ holdsAt w response "properties" "custom_data" x (TObj cd)
    /\ holdsAt w' conversation "properties" "customData" x (TObj cd).
Proof.
  intros Hd H1 H2 Ec1 Ec2 Ha1 Ha2.
  destruct (denotes_obj_inv _ _ _ Hd) as (l & fs0 & n0 & -> & Hlen & Hl0 & Hf0).
  destruct (apiToConversation_run camelCase w l tfs Hd)
    as (fs & w2 & lo & w' & Hl & Hrun & Hg & Hd2 & Hfull & Hre).
  destruct (wire_path _ _ _ _ _ _ _ _ Hd Hl H1 H2)
    as (lp0 & c & n & Hp0 & Hc0 & Hrc & Hn & Hlt).
  rewrite Hp0 in Hre. cbn [orUndef] in Hre. rewrite Hc0 in Hre. cbn [orUndef] in Hre.
  rewrite <- Ec1, <- Ec2 in Hre.
  assert (H1' : oget (odel tfs "_links") "properties" = Some (TObj pfs)).
  { rewrite oget_odel_ne by discriminate. exact H1. }
  destruct (reapply_sets camelCase _ _ _ _ _ _ _ _ (VRef c) Hd2 H1' H2
              (keyedAlone_odel _ _ _ _ Ha1) Ha2 eq_refl Hre)
    as (lp & pfs' & Hp & Hlp & Ew & Hp' & Hc').
  rewrite Ec1 in Hp, Hp'. rewrite Ec2 in Hc', Ew. subst w'.
  exists (World (<[lp := CObj (oset pfs' "customData" (VRef c))]> (heap_of w2))
            (log w2)), (VRef lo), (VRef c).
  split; [exact Hfull|]. split.
  - exists (VRef lp0). simpl fieldsOf at 1. rewrite Hl. conjs; try assumption.
    unfold denotes. eapply reify_mono; [|exact Hrc]. lia.
  - exists (VRef lp). conjs; try assumption.
    unfold denotes. simpl heap_of.
    assert (Hfresh : length (heap_of w) <= lp).
    { apply transformObjectKeys_deep_fresh in Hrun as [_ Hfr].
      simpl heap_of in Hfr. rewrite length_insert in Hfr.
      apply (Forall_oget _ _ _ _ Hfr Hp). }
    assert (Hs : sameExcept l (heap_of w)
                   (<[lp := CObj (oset pfs' "customData" (VRef c))]>
                      (heap_of w2))).
    { split.
      - rewrite length_insert. apply grows_length in Hg. simpl in Hg.
        rewrite length_insert in Hg. exact Hg.
      - intros l1 Hne Hlt1.
        rewrite list_lookup_insert_ne by lia.
        rewrite (grows_lookup_lt _ _ _ Hg) by (simpl; rewrite length_insert; exact Hlt1).
        simpl. now apply list_lookup_insert_ne. }
    eapply reify_mono; [|eapply reify_sameExcept; [exact Hd | exact Hs | exact Hrc | exact Hlt]].
    destruct Hs as [Hlen' _]. lia.
Qed.

Lemma conversationToApi_customData w conversation tfs pfs cd :
  denotes w conversation (TObj tfs) ->
  oget tfs "properties" = Some (TObj pfs) ->
  oget pfs "customData" = Some (TObj cd) ->
  snakeCase "properties" = "properties" ->
  snakeCase "customData" = "custom_data" ->
  keyedAlone snakeCase "properties" tfs ->
  keyedAlone snakeCase "customData" pfs ->
  exists w' request x,
    conversationToApi snakeCase conversation w = (w', Ok request)
    /\ holdsAt w conversation "properties" "customData" x (TObj cd)
    /\ holdsAt w' request "properties" "custom_data" x (TObj cd).
Proof.
  intros Hd H1 H2 Ec1 Ec2 Ha1 Ha2.
  destruct (denotes_obj_inv _ _ _ Hd) as (l & fs0 & n0 & -> & Hlen & Hl0 & Hf0).
  destruct (conversationToApi_run snakeCase w l tfs Hd)
    as (fs & w2 & lo & w' & Hl & Hrun & Hg & Hd2 & Hfull & Hre).
  destruct (wire_path _ _ _ _ _ _ _ _ Hd Hl H1 H2)
    as (lp0 & c & n & Hp0 & Hc0 & Hrc & Hn & Hlt).
  rewrite Hp0 in Hre. cbn [orUndef] in Hre. rewrite Hc0 in Hre. cbn [orUndef] in Hre.
  rewrite <- Ec1, <- Ec2 in Hre.
  assert (H1' : oget (without serverOwned tfs) "properties" = Some (TObj pfs)).
  { rewrite oget_without. exact H1. }
  destruct (reapply_sets snakeCase _ _ _ _ _ _ _ _ (VRef c) Hd2 H1' H2
              (keyedAlone_without _ _ _ _ Ha1) Ha2 eq_refl Hre)
    as (lp & pfs' & Hp & Hlp & Ew & Hp' & Hc').
  rewrite Ec1 in Hp'. rewrite Ec2 in Hc'.
  exists w', (VRef lo), (VRef c).
  assert (Hd0 : denotes w (VRef c) (TObj cd)).
  { unfold denotes. eapply reify_mono; [|exact Hrc]. lia. }
  split; [exact Hfull|]. split.
  - exists (VRef lp0). simpl fieldsOf at 1. rewrite Hl. conjs; assumption.
  - exists (VRef lp). conjs; try assumption.
    eapply denotes_grows; [|exact Hd0].
    eapply conversationToApi_grows. exact Hfull.
Qed.

(** C1: the conversation returned by [apiToConversation] holds, under
    [properties.customData], the very map the wire response holds under
    [properties.custom_data], and that map still denotes the same
    document, whatever the conversion did to the sibling fields; and
    [conversationToApi] puts the caller's [properties.customData] map,
    unchanged, under [properties.custom_data] of the request. The wire
    and domain names of the two fields are each other's conversion, and
    no other field of the object is converted to the same name. *)
Theorem customData_fidelity :
  (forall w response tfs pfs cd,
     denotes w response (TObj tfs) ->
     oget tfs "properties" = Some (TObj pfs) ->
     oget pfs "custom_data" = Some (TObj cd) ->
     camelCase "properties" = "properties" ->
     camelCase "custom_data" = "customData" ->
     keyedAlone camelCase "properties" tfs ->
     keyedAlone camelCase "custom_data" pfs ->
     exists w' conversation x,
       apiToConversation camelCase response w = (w', Ok conversation)
       /\ holdsAt w response "properties" "custom_data" x (TObj cd)
       /\ holdsAt w' conversation "properties" "customData" x (TObj cd))
  /\ (forall w conversation tfs pfs cd,
       denotes w conversation (TObj tfs) ->
       oget tfs "properties" = Some (TObj pfs) ->
       oget pfs "customData" = Some (TObj cd) ->
       snakeCase "properties" = "properties" ->
       snakeCase "customData" = "custom_data" ->
       keyedAlone snakeCase "properties" tfs ->
       keyedAlone snakeCase "customData" pfs ->
       exists w' request x,
         conversationToApi snakeCase conversation w = (w', Ok request)
         /\ holdsAt w conversation "properties" "customData" x (TObj cd)
         /\ holdsAt w' request "properties" "custom_data" x (TObj cd)).
Proof.
  split.
  - apply apiToConversation_customData.
  - apply conversationToApi_customData.
Qed.
End CustomData.

(** ** What reaches the request *)

Lemma reapplied_fields w w' lo t K1 K2 cd :
  denotes w (VRef lo) t -> reapplied w w' lo K1 K2 cd ->
  fieldsOf (heap_of w') (VRef lo) = fieldsOf (heap_of w) (VRef lo).
Proof.
  intros Hd [[-> _]|(lp & pfs & _ & Hp & Hlp & _ & ->)]; [reflexivity|].
  simpl. rewrite list_lookup_insert_ne; [reflexivity|].
  eapply reify_no_self; eassumption.
Qed.

Section RequestFields.
Variable snakeCase : string -> string.

Lemma conversationToApi_keys w conversation tfs :
  denotes w conversation (TObj tfs) ->
  exists w' request,
    conversationToApi snakeCase conversation w = (w', Ok request)
    /\ forall k, In k (okeys (fieldsOf (heap_of w') request)) ->
         exists k0, In k0 (okeys tfs) /\ ~ In k0 serverOwned /\ k = snakeCase k0.
Proof.
  intros Hd.
  destruct (denotes_obj_inv _ _ _ Hd) as (l & fs0 & n0 & -> & Hlen & Hl0 & Hf0).
  destruct (conversationToApi_run snakeCase w l tfs Hd)
    as (fs & w2 & lo & w' & Hl & Hrun & Hg & Hd2 & Hfull & Hre).
  exists w', (VRef lo). split; [exact Hfull|].
  intros k Hk. rewrite (reapplied_fields _ _ _ _ _ _ _ Hd2 Hre) in Hk.
  simpl tmap in Hd2.
  apply denotes_obj_inv in Hd2 as (l' & fs' & n & E & _ & Hl' & Hf').
  inversion E; subst l'. simpl in Hk. rewrite Hl' in Hk.
  rewrite (fieldsDenote_keys _ _ _ _ Hf') in Hk.
  apply okeys_renameKeys in Hk. rewrite okeys_map_vals in Hk.
  apply in_map_iff in Hk as (k0 & <- & Hk0).
  apply okeys_without in Hk0 as [Hin Hnot].
  exists k0. auto.
Qed.

End RequestFields.

Lemma grows_fieldsOf_denoted w w' n v t :
  grows w w' -> reify n (heap_of w) v = Some t ->
  fieldsOf (heap_of w') v = fieldsOf (heap_of w) v.
Proof.
  intros Hg H. destruct v as [| | | | |l]; try reflexivity.
  apply reify_ref_inv in H
    as (n' & _ & [(fs & tfs & Hl & _ & _)|(xs & ts & Hl & _ & _)]);
    simpl; rewrite Hl, (grows_lookup _ _ _ _ Hg Hl); reflexivity.
Qed.

Section MemberRequest.
Variable snakeCase : string -> string.

Lemma memberToApi_run w member tfs mu :
  denotes w member (TObj tfs) ->
  oget (fieldsOf (heap_of w) member) "user" = Some mu ->
  mu <> VUndef -> mu <> VNull ->
  exists w' body u,
    memberToApi snakeCase member w = (w', Ok body)
    /\ grows w w'
    /\ oget (fieldsOf (heap_of w') body) "user" = Some (VRef u)
    /\ heap_of w' !! u
       = Some (CObj [("id", orUndef (oget (fieldsOf (heap_of w) mu) "id"));
                     ("name", orUndef (oget (fieldsOf (heap_of w) mu) "name"))])
    /\ oget (fieldsOf (heap_of w') body) "member_id_inviting"
       = Some (orUndef (oget (fieldsOf (heap_of w) member) "invitedBy")).
Proof.
  intros Hd Hu Hn1 Hn2.
  destruct (denotes_obj_inv _ _ _ Hd) as (l & fs & n & -> & Hlen & Hl & Hf).
  pose proof (omit_denotes memberOmitted w l tfs Hd) as Hd1.
  destruct (transformObjectKeys_denotes snakeCase _ _ _ Hd1)
    as (w2 & lo & Hrun & Hg & Hlo & Hd2).
  assert (Hg2 : grows w w2) by (eapply grows_trans; [apply (grows_alloc w)|exact Hg]).
  assert (Hfs2 : fieldsOf (heap_of w2) (VRef l) = fieldsOf (heap_of w) (VRef l)).
  { eapply grows_fieldsOf_denoted; [exact Hg2 | exact Hd]. }
  destruct (fieldsDenote_oget_val _ _ _ _ "user" mu Hf) as (tu & _ & Hru).
  { simpl in Hu. now rewrite Hl in Hu. }
  assert (Hmu2 : fieldsOf (heap_of w2) mu = fieldsOf (heap_of w) mu).
  { eapply grows_fieldsOf_denoted; [exact Hg2 | exact Hru]. }
  set (uid := orUndef (oget (fieldsOf (heap_of w) mu) "id")).
  set (uname := orUndef (oget (fieldsOf (heap_of w) mu) "name")).
  set (inv := orUndef (oget (fieldsOf (heap_of w) (VRef l)) "invitedBy")).
  set (ucell := CObj [("id", uid); ("name", uname)]).
  set (bfs := oset (oset (spreadInto [] (fieldsOf (heap_of w2) (VRef lo))) "user"
                      (VRef (length (heap_of w2)))) "member_id_inviting" inv).
  exists (World ((heap_of w2 ++ [ucell]) ++ [CObj bfs]) (log w2)),
    (VRef (length (heap_of w2 ++ [ucell]))), (length (heap_of w2)).
  assert (Hw3 : grows w2 (World (heap_of w2 ++ [ucell]) (log w2))) by apply grows_alloc.
  conjs.
  - unfold memberToApi.
    rewrite (bind_run _ _ _ _ _ (omit_run _ _ _)).
    unfold snakeCaseObjectKeys. rewrite (bind_run _ _ _ _ _ Hrun).
    unfold bind at 1. unfold ownFields at 1.
    rewrite (bind_run _ _ _ _ _ (getProp_ref _ _ _)).
    rewrite Hfs2, Hu. cbn [orUndef].
    rewrite (bind_run _ _ _ _ _ (getProp_ok mu "id" w2 Hn1 Hn2)).
    rewrite (bind_run _ _ _ _ _ (getProp_ref _ _ _)).
    rewrite Hfs2, Hu. cbn [orUndef].
    rewrite (bind_run _ _ _ _ _ (getProp_ok mu "name" w2 Hn1 Hn2)).
    rewrite Hmu2. fold uid uname ucell.
    unfold bind at 1. unfold alloc at 1.
    rewrite (bind_run _ _ _ _ _ (getProp_ref _ _ _)).
    rewrite (grows_fieldsOf_denoted w2 _ _ _ _ Hw3
               (reify_grows _ _ _ _ _ Hg2 Hd)).
    rewrite Hfs2. reflexivity.
  - eapply grows_trans; [exact Hg2|]. eapply grows_trans; [exact Hw3|].
    apply (grows_alloc (World (heap_of w2 ++ [ucell]) (log w2))).
  - simpl fieldsOf. rewrite lookup_alloc. unfold bfs.
    rewrite oget_oset_ne by discriminate. apply oget_oset_eq.
  - simpl heap_of. rewrite lookup_app_l by (rewrite length_app; simpl; lia).
    apply lookup_alloc.
  - simpl fieldsOf. rewrite lookup_alloc. unfold bfs. apply oget_oset_eq.
Qed.
End MemberRequest.

(** ** A wire member without its user *)

Lemma reify_undef n h : reify n h VUndef = Some TUndef.
Proof. now destruct n. Qed.

Lemma reify_leaf_inv n h v t :
  reify n h v = Some t ->
  (t = TUndef -> v = VUndef) /\ (t = TNull -> v = VNull).
Proof.
  intros H. destruct v as [| | | | |l];
    try (destruct n; simpl in H; inversion H; subst; split; intros E;
         try reflexivity; discriminate).
  apply reify_ref_inv in H
    as (n' & _ & [(fs & tfs & _ & _ & ->)|(xs & ts & _ & _ & ->)]);
    split; discriminate.
Qed.

Lemma field_denoted n h v t k :
  reify n h v = Some t ->
  exists t', reify (pred n) h (orUndef (oget (fieldsOf h v) k)) = Some t'.
Proof.
  intros H. destruct v as [| | | | |l];
    try (exists TUndef; apply reify_undef).
  apply reify_ref_inv in H
    as (n' & -> & [(fs & tfs & Hl & Hf & _)|(xs & ts & Hl & _ & _)]);
    simpl; rewrite Hl.
  - pose proof (fieldsDenote_oget _ _ _ _ k Hf) as Hk.
    destruct (oget tfs k) as [t'|].
    + destruct Hk as (v & -> & Hv). now exists t'.
    + rewrite Hk. exists TUndef. apply reify_undef.
  - exists TUndef. apply reify_undef.
Qed.

Lemma fields_denoted n h v t :
  reify n h v = Some t ->
  exists tfs, fieldsDenote (pred n) h (fieldsOf h v) tfs.
Proof.
  intros H. destruct v as [| | | | |l]; try (exists []; constructor).
  apply reify_ref_inv in H
    as (n' & -> & [(fs & tfs & Hl & Hf & _)|(xs & ts & Hl & _ & _)]);
    simpl; rewrite Hl.
  - now exists tfs.
  - exists []. constructor.
Qed.

Section WireMember.
Variable camelCase : string -> string.

(** [apiToMember] returns on every finite document, with or without
    [_embedded] and [_embedded.user]. *)
Lemma apiToMember_returns w response tfs :
  denotes w response (TObj tfs) ->
  exists w' member, apiToMember camelCase response w = (w', Ok member).
Proof.
  intros Hd.
  destruct (denotes_obj_inv _ _ _ Hd) as (l & fs & n & -> & Hlen & Hl & Hf).
  pose proof (omit_denotes ["_embedded"; "_links"] w l tfs Hd) as Hd1.
  destruct (transformObjectKeys_denotes camelCase _ _ _ Hd1)
    as (w2 & lo & Hrun & Hg & Hlo & Hd2).
  assert (Hg2 : grows w w2) by (eapply grows_trans; [apply (grows_alloc w)|exact Hg]).
  assert (Hr2 : reify (length (heap_of w)) (heap_of w2) (VRef l) = Some (TObj tfs)).
  { eapply reify_grows; [exact Hg2 | exact Hd]. }
  destruct (field_denoted _ _ _ _ "_embedded" Hr2) as (te & Hte).
  set (embedded := orUndef (oget (fieldsOf (heap_of w2) (VRef l)) "_embedded")) in *.
  destruct (field_denoted _ _ _ _ "user" Hte) as (tu & Htu).
  set (wireUser := orUndef (oget (fieldsOf (heap_of w2) embedded) "user")) in *.
  destruct (fields_denoted _ _ _ _ Htu) as (ufs & Hufs).
  set (w3 := World (heap_of w2 ++ [CObj (without ["_links"] (fieldsOf (heap_of w2) wireUser))])
               (log w2)).
  assert (Hd3 : denotes w3 (VRef (length (heap_of w2))) (TObj (without ["_links"] ufs))).
  { eapply (denotes_obj_intro _ _ _ _ (pred (pred (pred (length (heap_of w)))))).
    - apply lookup_alloc.
    - eapply fieldsDenote_transport; [| |apply fieldsDenote_without; exact Hufs]; [|lia].
      intros l0 c Hl0. now apply lookup_app_l_Some.
    - simpl. rewrite length_app. simpl. apply grows_length in Hg2. lia. }
  destruct (transformObjectKeys_denotes camelCase _ _ _ Hd3)
    as (w4 & lu & Hrun4 & _ & _ & _).
  eexists _, _. unfold apiToMember.
  rewrite (bind_run _ _ _ _ _ (omit_run _ _ _)).
  unfold camelCaseObjectKeys. rewrite (bind_run _ _ _ _ _ Hrun).
  unfold bind at 1. unfold ownFields at 1.
  rewrite (bind_run _ _ _ _ _ (getProp_ref _ _ _)).
  rewrite (bind_run _ _ _ _ _ (optChain_ok _ _ _)).
  rewrite (bind_run _ _ _ _ _ (omit_run _ _ _)).
  fold embedded wireUser w3.
  rewrite (bind_run _ _ _ _ _ Hrun4).
  reflexivity.
Qed.
End WireMember.

(** ** A member without a user *)

Section MemberWithoutUser.
Variable snakeCase : string -> string.

(** C4 fails on the code: [memberToApi] reads [member.user.id] without a
    guard, so on every member (a finite document) whose [user] is
    missing, [undefined] or [null] it raises a TypeError instead of
    returning a request. The member of the documented call
    [createMember(CONVERSATION_ID, { name: 'My Member' })] is one. *)
Theorem memberToApi_raises_without_user w member tfs :
  denotes w member (TObj tfs) ->
  oget tfs "user" = None \/ oget tfs "user" = Some TUndef
  \/ oget tfs "user" = Some TNull ->
  snd (memberToApi snakeCase member w) = Throw TypeError.
Proof.
  intros Hd Hu.
  destruct (denotes_obj_inv _ _ _ Hd) as (l & fs & n & -> & Hlen & Hl & Hf).
  pose proof (omit_denotes memberOmitted w l tfs Hd) as Hd1.
  destruct (transformObjectKeys_denotes snakeCase _ _ _ Hd1)
    as (w2 & lo & Hrun & Hg & Hlo & Hd2).
  assert (Hg2 : grows w w2) by (eapply grows_trans; [apply (grows_alloc w)|exact Hg]).
  assert (Hfs2 : fieldsOf (heap_of w2) (VRef l) = fs).
  { rewrite (grows_fieldsOf_denoted _ _ _ _ _ Hg2 Hd). simpl. now rewrite Hl. }
  assert (Hmu : orUndef (oget fs "user") = VUndef \/ orUndef (oget fs "user") = VNull).
  { pose proof (fieldsDenote_oget _ _ _ _ "user" Hf) as Hk.
    destruct Hu as [Hu|[Hu|Hu]]; rewrite Hu in Hk.
    - left. now rewrite Hk.
    - destruct Hk as (v & -> & Hv). left.
      now apply (reify_leaf_inv _ _ _ _ Hv).
    - destruct Hk as (v & -> & Hv). right.
      now apply (reify_leaf_inv _ _ _ _ Hv). }
  unfold memberToApi.
  rewrite (bind_run _ _ _ _ _ (omit_run _ _ _)).
  unfold snakeCaseObjectKeys. rewrite (bind_run _ _ _ _ _ Hrun).
  unfold bind at 1. unfold ownFields at 1.
  rewrite (bind_run _ _ _ _ _ (getProp_ref _ _ _)).
  rewrite Hfs2.
  destruct Hmu as [-> | ->]; reflexivity.
Qed.
End MemberWithoutUser.

Section TranscodersReturn.
Variables camelCase snakeCase : string -> string.

(** On a finite document three of the transcoders always return, and
    [memberToApi] returns when the member has a user. *)
Lemma transcoders_return w v tfs :
  denotes w v (TObj tfs) ->
  (exists w' r, apiToConversation camelCase v w = (w', Ok r))
  /\ (exists w' r, conversationToApi snakeCase v w = (w', Ok r))
  /\ (exists w' r, apiToMember camelCase v w = (w', Ok r))
  /\ (forall mu, oget (fieldsOf (heap_of w) v) "user" = Some mu ->
        mu <> VUndef -> mu <> VNull ->
        exists w' r, memberToApi snakeCase v w = (w', Ok r)).
Proof.
  intros Hd.
  destruct (denotes_obj_inv _ _ _ Hd) as (l & fs & n & E & _).
  conjs.
  - subst v.
    destruct (apiToConversation_run camelCase w l tfs Hd)
      as (? & ? & lo & w' & _ & _ & _ & _ & Hrun & _).
    now exists w', (VRef lo).
  - subst v.
    destruct (conversationToApi_run snakeCase w l tfs Hd)
      as (? & ? & lo & w' & _ & _ & _ & _ & Hrun & _).
    now exists w', (VRef lo).
  - now apply (apiToMember_returns camelCase w v tfs).
  - intros mu Hu Hn1 Hn2.
    destruct (memberToApi_run snakeCase w v tfs mu Hd Hu Hn1 Hn2)
      as (w' & body & _ & Hrun & _).
    now exists w', body.
Qed.
End TranscodersReturn.

(** ** Round trips *)

Lemma prefix_fieldsOf (h h' : heap) v k x :
  h `prefix_of` h' -> oget (fieldsOf h v) k = Some x ->
  fieldsOf h' v = fieldsOf h v.
Proof.
  intros Hp. destruct v as [| | | | |l]; simpl; try discriminate.
  destruct (h !! l) as [c|] eqn:Hl; [|discriminate].
  intros _. now rewrite (prefix_lookup_Some _ _ _ _ Hl Hp).
Qed.

Lemma templateText_run numberText v w :
  templateText numberText v w = (w, Ok (idText numberText (heap_of w) v)).
Proof. reflexivity. Qed.

Section RoundTrips.
Variables camelCase snakeCase : string -> string.
Variable apiHost : string.
Variable server : list request -> res tree.
Variable numberText : Z -> string.

Lemma send_frame m u p w w' r :
  send server m u p w = (w', r) ->
  log w' = log w ++ [Request m u p] /\ heap_of w `prefix_of` heap_of w'.
Proof.
  unfold send. destruct (server (log w ++ [Request m u p])) as [t|e]; intros H.
  - apply allocOnly_allocTree in H as [Hp Hl]. simpl in *. auto.
  - inversion H; subst. simpl. split; reflexivity.
Qed.

Lemma apiToMember_after_send m u p w :
  let w' := fst ((let* data := send server m u p in apiToMember camelCase data) w) in
  log w' = log w ++ [Request m u p] /\ heap_of w `prefix_of` heap_of w'.
Proof.
  simpl. unfold bind.
  destruct (send server m u p w) as [w1 [d|e]] eqn:E;
    apply send_frame in E as [Hl Hp].
  - destruct (apiToMember camelCase d w1) as [w2 r] eqn:E2.
    apply allocOnly_apiToMember in E2 as [Hp2 Hl2]. simpl.
    split; [congruence | etransitivity; eassumption].
  - simpl. auto.
Qed.

Lemma apiToConversation_after_send m u p w :
  log (fst ((let* data := send server m u p in apiToConversation camelCase data) w))
  = log w ++ [Request m u p].
Proof.
  unfold bind.
  destruct (send server m u p w) as [w1 [d|e]] eqn:E;
    apply send_frame in E as [Hl Hp].
  - destruct (apiToConversation camelCase d w1) as [w2 r] eqn:E2.
    apply apiToConversation_frame in E2 as [Hl2 _]. simpl. congruence.
  - simpl. auto.
Qed.

(** C10: the request [createMember] sends carries, under [user], an
    object with exactly the two properties [id] and [name], holding the
    values of [member.user.id] and [member.user.name]; nothing else of
    the member's user is sent. The member is a finite document with a
    user. *)
Theorem createMember_sends_user_id_and_name conversationId w member tfs mu :
  denotes w member (TObj tfs) ->
  oget (fieldsOf (heap_of w) member) "user" = Some mu ->
  mu <> VUndef -> mu <> VNull ->
  let w' := fst (createMember camelCase snakeCase apiHost server
                   conversationId member w) in
  exists body u,
    log w' = log w ++ [Request POST
                         (apiHost ++ "/v1/conversations/" ++ conversationId ++ "/members")
                         (Body body)]
    /\ oget (fieldsOf (heap_of w') body) "user" = Some (VRef u)
    /\ heap_of w' !! u
       = Some (CObj [("id", orUndef (oget (fieldsOf (heap_of w) mu) "id"));
                     ("name", orUndef (oget (fieldsOf (heap_of w) mu) "name"))]).
Proof.
  intros Hd Hu Hn1 Hn2 w'.
  destruct (memberToApi_run snakeCase w member tfs mu Hd Hu Hn1 Hn2)
    as (w1 & body & u & Hrun & Hg & Hbu & Hcell & _).
  exists body, u. subst w'. unfold createMember.
  rewrite (bind_run _ _ _ _ _ Hrun).
  destruct (apiToMember_after_send POST
              (apiHost ++ "/v1/conversations/" ++ conversationId ++ "/members")
              (Body body) w1) as [Hlog Hp].
  conjs.
  - rewrite Hlog. now rewrite (proj2 Hg).
  - rewrite (prefix_fieldsOf _ _ _ _ _ Hp Hbu). exact Hbu.
  - eapply prefix_lookup_Some; eassumption.
Qed.

Lemma conversationToApi_nonnull v w w1 body :
  conversationToApi snakeCase v w = (w1, Ok body) -> v <> VUndef /\ v <> VNull.
Proof. destruct v; try discriminate; split; discriminate. Qed.

Lemma bind_throws {A B} (c : M A) (k : A -> M B) w w1 e :
  c w = (w1, Throw e) -> bind c k w = (w1, Throw e).
Proof. intros H. unfold bind. now rewrite H. Qed.

(** C6, as amended: every single-item operation hands at most one
    request to the transport, and exactly one unless building the
    request raises first. The three reads and the delete send one
    request without body; [updateMember] sends one request whose body
    is its [params] argument itself, passed on without any transcoding.
    [createConversation] and [updateConversation] send the object built
    by [conversationToApi], and [createMember] the object built by
    [memberToApi]; when that transcoder raises, the operation raises the
    same error and nothing is sent. The address of [updateConversation]
    ends in the text of [conversation.id], read before the body is
    built. *)
Theorem single_item_operations_one_round_trip
  (conversationId memberId : string) (conversation member params : val)
  (w : world) :
  log (fst (getConversation camelCase apiHost server conversationId w))
  = log w ++ [Request GET (apiHost ++ "/v1/conversations/" ++ conversationId) NoPayload]
  /\ log (fst (deleteConversation apiHost server conversationId w))
     = log w ++ [Request DELETE (apiHost ++ "/v1/conversations/" ++ conversationId)
                   NoPayload]
  /\ log (fst (getMember camelCase apiHost server conversationId memberId w))
     = log w ++ [Request GET (memberUrl apiHost conversationId memberId) NoPayload]
  /\ log (fst (updateMember camelCase apiHost server conversationId memberId params w))
     = log w ++ [Request PATCH (memberUrl apiHost conversationId memberId)
                   (Body params)]
  /\ match conversationToApi snakeCase conversation w with
     | (w1, Ok body) =>
         log (fst (createConversation camelCase snakeCase apiHost server conversation w))
         = log w ++ [Request POST (apiHost ++ "/v1/conversations") (Body body)]
     | (w1, Throw e) =>
         createConversation camelCase snakeCase apiHost server conversation w
         = (w1, Throw e)
         /\ log w1 = log w
     end
  /\ match conversationToApi snakeCase conversation w with
     | (w1, Ok body) =>
         log (fst (updateConversation camelCase snakeCase apiHost server numberText
                     conversation w))
         = log w ++ [Request PUT
                       (apiHost ++ "/v1/conversations/"
                          ++ idText numberText (heap_of w)
                               (orUndef (oget (fieldsOf (heap_of w) conversation) "id")))
                       (Body body)]
     | (w1, Throw e) =>
         updateConversation camelCase snakeCase apiHost server numberText conversation w
         = (w1, Throw e)
         /\ log w1 = log w
     end
  /\ match memberToApi snakeCase member w with
     | (w1, Ok body) =>
         log (fst (createMember camelCase snakeCase apiHost server
                     conversationId member w))
         = log w ++ [Request POST
                       (apiHost ++ "/v1/conversations/" ++ conversationId ++ "/members")
                       (Body body)]
     | (w1, Throw e) =>
         createMember camelCase snakeCase apiHost server conversationId member w
         = (w1, Throw e)
         /\ log w1 = log w
     end.
Proof.
  conjs.
  - apply apiToConversation_after_send.
  - unfold deleteConversation, bind.
    destruct (send server DELETE _ NoPayload w) as [w1 [d|e]] eqn:E;
      apply send_frame in E as [Hl _]; exact Hl.
  - apply apiToMember_after_send.
  - apply apiToMember_after_send.
  - destruct (conversationToApi snakeCase conversation w) as [w1 [body|e]] eqn:Hrun.
    + unfold createConversation. rewrite (bind_run _ _ _ _ _ Hrun).
      rewrite apiToConversation_after_send.
      now rewrite (proj2 (conversationToApi_grows _ _ _ _ _ Hrun)).
    + split; [|exact (proj2 (conversationToApi_grows _ _ _ _ _ Hrun))].
      unfold createConversation. now apply bind_throws.
  - destruct (conversationToApi snakeCase conversation w) as [w1 [body|e]] eqn:Hrun.
    + unfold updateConversation.
      destruct (conversationToApi_nonnull _ _ _ _ Hrun) as [Hn1 Hn2].
      rewrite (bind_run _ _ _ _ _ (getProp_ok _ _ _ Hn1 Hn2)).
      rewrite (bind_run _ _ _ _ _ (templateText_run _ _ _)).
      rewrite (bind_run _ _ _ _ _ Hrun).
      rewrite apiToConversation_after_send.
      now rewrite (proj2 (conversationToApi_grows _ _ _ _ _ Hrun)).
    + split; [|exact (proj2 (conversationToApi_grows _ _ _ _ _ Hrun))].
      unfold updateConversation.
      destruct conversation as [| | b | n | s | l];
        [ change (conversationToApi snakeCase VUndef w) with (w, @Throw val TypeError)
            in Hrun; inversion Hrun; subst; reflexivity
        | change (conversationToApi snakeCase VNull w) with (w, @Throw val TypeError)
            in Hrun; inversion Hrun; subst; reflexivity
        | | | | ];
        (erewrite bind_run by reflexivity;
         erewrite bind_run by reflexivity;
         apply bind_throws; exact Hrun).
  - destruct (memberToApi snakeCase member w) as [w1 [body|e]] eqn:Hrun.
    + unfold createMember. rewrite (bind_run _ _ _ _ _ Hrun).
      rewrite (proj1 (apiToMember_after_send _ _ _ _)).
      now rewrite (proj2 (allocOnly_memberToApi _ _ _ _ _ Hrun)).
    + split; [|exact (proj2 (allocOnly_memberToApi _ _ _ _ _ Hrun))].
      unfold createMember. now apply bind_throws.
Qed.

(** C8: [getMe] is [getMember] on the identifier [me]: the same
    computation, hence the same single request (a GET of the member
    path ending in [/me], without body) and the same result. *)
Theorem getMe_is_getMember_me (conversationId : string) (w : world) :
  getMe camelCase apiHost server conversationId w
  = getMember camelCase apiHost server conversationId "me" w
  /\ log (fst (getMe camelCase apiHost server conversationId w))
     = log w ++ [Request GET
                   (apiHost ++ "/v1/conversations/" ++ conversationId ++ "/members/me")
                   NoPayload].
Proof.
  split; [reflexivity|].
  unfold getMe, getMember. apply apiToMember_after_send.
Qed.
End RoundTrips.

(** ** Pages *)

Lemma keepsLog_allocOnly {A} (c : M A) : allocOnly c -> keepsLog c.
Proof. intros H w w' r E. apply (H _ _ _ E). Qed.

Lemma keepsLog_bind {A B} (c : M A) (k : A -> M B) :
  keepsLog c -> (forall a, keepsLog (k a)) -> keepsLog (bind c k).
Proof.
  intros Hc Hk w w' r. unfold bind.
  destruct (c w) as [w1 [a|e]] eqn:E; intros H.
  - rewrite (Hk _ _ _ _ H). eapply Hc; eassumption.
  - inversion H; subst. eapply Hc; eassumption.
Qed.

Lemma keepsLog_traverse {A B} (f : A -> M B) xs :
  (forall x, keepsLog (f x)) -> keepsLog (traverse f xs).
Proof.
  intros Hf. induction xs as [|x r IH]; simpl.
  - apply keepsLog_allocOnly, allocOnly_ret.
  - apply keepsLog_bind; [apply Hf|]. intros y.
    apply keepsLog_bind; [apply IH|]. intros ys.
    apply keepsLog_allocOnly, allocOnly_ret.
Qed.

Lemma keepsLog_arrayMap f v : (forall x, keepsLog (f x)) -> keepsLog (arrayMap f v).
Proof.
  intros Hf w w' r. unfold arrayMap.
  destruct v as [| | | | |l]; try (intros H; now inversion H).
  destruct (heap_of w !! l) as [[fs|xs]|]; try (intros H; now inversion H).
  apply keepsLog_traverse. exact Hf.
Qed.

Lemma keepsLog_apiToConversation camelCase v : keepsLog (apiToConversation camelCase v).
Proof. intros w w' r H. now apply apiToConversation_frame in H. Qed.

Lemma shallow_run tf v w :
  transformObjectKeys tf v false w
  = (World (heap_of w ++ [CObj (renameKeys tf (fieldsOf (heap_of w) v))]) (log w),
     Ok (VRef (length (heap_of w)))).
Proof.
  unfold transformObjectKeys. destruct v as [| | | | |l]; try reflexivity.
  simpl. destruct (heap_of w !! l) as [[fs|xs]|]; reflexivity.
Qed.

Lemma missing_items n h data tfs key :
  reify n h data = Some (TObj tfs) -> missingItems key tfs ->
  orUndef (oget (fieldsOf h (orUndef (oget (fieldsOf h data) "_embedded"))) key)
  = VUndef.
Proof.
  intros Hd Hm.
  destruct (reify_obj_is_ref _ _ _ _ Hd) as [l ->].
  apply reify_ref_inv in Hd
    as (n' & -> & [(fs & tfs' & Hl & Hf & E)|(xs & ts & _ & _ & E)]); [|discriminate].
  inversion E; subst tfs'. simpl fieldsOf at 2. rewrite Hl.
  pose proof (fieldsDenote_oget _ _ _ _ "_embedded" Hf) as He.
  destruct Hm as [Hm|(efs & Hm & Hk)]; rewrite Hm in He.
  - rewrite He. reflexivity.
  - destruct He as (ve & Hve & Hre). rewrite Hve. cbn [orUndef].
    destruct (reify_obj_is_ref _ _ _ _ Hre) as [le ->].
    apply reify_ref_inv in Hre
      as (n'' & -> & [(efs' & te & Hle & Hfe & E')|(xs & ts & _ & _ & E')]);
      [|discriminate].
    inversion E'; subst te. simpl. rewrite Hle.
    pose proof (fieldsDenote_oget _ _ _ _ key Hfe) as Hk'. rewrite Hk in Hk'.
    now rewrite Hk'.
Qed.

Section Pages.
Variables camelCase snakeCase : string -> string.
Variable apiHost : string.
Variable server : list request -> res tree.

(** The part of a page fetch that follows the round trip, on an
    envelope without items. *)
Lemma page_without_items (f : val -> M val) key pageKey w l tfs n :
  reify n (heap_of w) (VRef l) = Some (TObj tfs) -> missingItems key tfs ->
  exists pageSize links,
    (let* embedded := getProp (VRef l) "_embedded" in
     let* wireItems := optChain embedded key in
     let* items := (if truthy wireItems then arrayMap f wireItems else ret []) in
     let* arr := alloc (CArr items) in
     let* pageSize := getProp (VRef l) "page_size" in
     let* links := getProp (VRef l) "_links" in
     alloc (CObj [(pageKey, arr); ("pageSize", pageSize); ("links", links)])) w
    = (World ((heap_of w ++ [CArr []])
                ++ [CObj [(pageKey, VRef (length (heap_of w)));
                          ("pageSize", pageSize); ("links", links)]])
         (log w),
       Ok (VRef (length (heap_of w ++ [CArr []])))).
Proof.
  intros Hd Hm. eexists _, _.
  rewrite (bind_run _ _ _ _ _ (getProp_ref _ _ _)).
  rewrite (bind_run _ _ _ _ _ (optChain_ok _ _ _)).
  rewrite (missing_items _ _ _ _ _ Hd Hm). cbn [truthy].
  reflexivity.
Qed.

Lemma fetched_envelope url q w tfs :
  server (log w ++ [Request GET url q]) = Ok (TObj tfs) ->
  exists w1 l,
    send server GET url q w = (w1, Ok (VRef l))
    /\ heap_of w `prefix_of` heap_of w1
    /\ reify (tnodes (TObj tfs)) (heap_of w1) (VRef l) = Some (TObj tfs).
Proof.
  intros Hs. unfold send. rewrite Hs.
  destruct (allocTree_denotes (TObj tfs) (World (heap_of w) (log w ++ [Request GET url q])))
    as (w1 & v & Hrun & Hg & _ & Hd).
  destruct (reify_obj_is_ref _ _ _ _ Hd) as [l ->].
  exists w1, l. conjs; [exact Hrun | apply Hg | exact Hd].
Qed.

(** C7: when the envelope of a page response lacks the array of items
    (no [_embedded], or [_embedded] without [conversations], resp.
    [members]), [getConversationPage] and [getMemberPage] return a page
    whose item list is the empty array. *)
Theorem malformed_envelope_is_empty_page :
  (forall filter w tfs,
     server (log w ++ [Request GET (apiHost ++ "/v1/conversations")
                         (Query (renameKeys snakeCase (fieldsOf (heap_of w) filter)))])
     = Ok (TObj tfs) ->
     missingItems "conversations" tfs ->
     exists w' page items,
       getConversationPage camelCase snakeCase apiHost server filter w = (w', Ok page)
       /\ oget (fieldsOf (heap_of w') page) "conversations" = Some (VRef items)
       /\ heap_of w' !! items = Some (CArr []))
  /\ (forall conversationId filter w tfs,
        server (log w ++ [Request GET
                            (apiHost ++ "/v1/conversations/" ++ conversationId ++ "/members")
                            (Query (renameKeys snakeCase (fieldsOf (heap_of w) filter)))])
        = Ok (TObj tfs) ->
        missingItems "members" tfs ->
        exists w' page items,
          getMemberPage camelCase snakeCase apiHost server conversationId filter w
          = (w', Ok page)
          /\ oget (fieldsOf (heap_of w') page) "members" = Some (VRef items)
          /\ heap_of w' !! items = Some (CArr [])).
Proof.
  split.
  - intros filter w tfs Hs Hm.
    set (w0 := World (heap_of w ++ [CObj (renameKeys snakeCase (fieldsOf (heap_of w) filter))])
                 (log w)).
    destruct (fetched_envelope (apiHost ++ "/v1/conversations")
                (Query (renameKeys snakeCase (fieldsOf (heap_of w) filter))) w0 tfs Hs)
      as (w1 & l & Hsend & _ & Hd).
    destruct (page_without_items (apiToConversation camelCase) "conversations"
                "conversations" w1 l tfs _ Hd Hm) as (ps & lk & Htail).
    eexists _, _, (length (heap_of w1)). split; [|split].
    + unfold getConversationPage, snakeCaseObjectKeys.
      rewrite (bind_run _ _ _ _ _ (shallow_run _ _ _)).
      unfold bind at 1. unfold ownFields at 1. fold w0.
      simpl fieldsOf. rewrite lookup_alloc.
      rewrite (bind_run _ _ _ _ _ Hsend). exact Htail.
    + simpl fieldsOf. rewrite lookup_alloc. reflexivity.
    + simpl heap_of. rewrite lookup_app_l by (rewrite length_app; simpl; lia).
      apply lookup_alloc.
  - intros conversationId filter w tfs Hs Hm.
    set (w0 := World (heap_of w ++ [CObj (renameKeys snakeCase (fieldsOf (heap_of w) filter))])
                 (log w)).
    destruct (fetched_envelope
                (apiHost ++ "/v1/conversations/" ++ conversationId ++ "/members")
                (Query (renameKeys snakeCase (fieldsOf (heap_of w) filter))) w0 tfs Hs)
      as (w1 & l & Hsend & _ & Hd).
    destruct (page_without_items (apiToMember camelCase) "members"
                "members" w1 l tfs _ Hd Hm) as (ps & lk & Htail).
    eexists _, _, (length (heap_of w1)). split; [|split].
    + unfold getMemberPage, snakeCaseObjectKeys.
      rewrite (bind_run _ _ _ _ _ (shallow_run _ _ _)).
      unfold bind at 1. unfold ownFields at 1. fold w0.
      simpl fieldsOf. rewrite lookup_alloc.
      rewrite (bind_run _ _ _ _ _ Hsend). exact Htail.
    + simpl fieldsOf. rewrite lookup_alloc. reflexivity.
    + simpl heap_of. rewrite lookup_app_l by (rewrite length_app; simpl; lia).
      apply lookup_alloc.
Qed.
End Pages.

(** ** The listing loop *)

Ltac solve_keepsLog :=
  repeat first
    [ apply keepsLog_apiToConversation
    | apply keepsLog_allocOnly, allocOnly_apiToMember
    | apply keepsLog_arrayMap; intros ?
    | match goal with |- keepsLog (if ?b then _ else _) => destruct b end
    | apply keepsLog_bind; [|intros ?]
    | apply keepsLog_allocOnly
    | apply allocOnly_getProp
    | apply allocOnly_optChain
    | apply allocOnly_alloc
    | apply allocOnly_ret ].

Section Listing.
Variables camelCase snakeCase : string -> string.
Variable apiHost : string.
Variable parseCursor : string -> option (option string).
Variable server : list request -> res tree.

Lemma log_after_send {A} m u p (k : val -> M A) w :
  (forall d, keepsLog (k d)) ->
  log (fst (bind (send server m u p) k w)) = log w ++ [Request m u p].
Proof.
  intros Hk. unfold bind.
  destruct (send server m u p w) as [w1 [d|e]] eqn:E;
    apply send_frame in E as [Hl _].
  - destruct (k d w1) as [w2 r] eqn:E2. simpl.
    rewrite (Hk _ _ _ _ E2). exact Hl.
  - exact Hl.
Qed.

Lemma getConversationPage_log filter w :
  log (fst (getConversationPage camelCase snakeCase apiHost server filter w))
  = log w ++ [Request GET (apiHost ++ "/v1/conversations")
                (Query (renameKeys snakeCase (fieldsOf (heap_of w) filter)))].
Proof.
  unfold getConversationPage, snakeCaseObjectKeys.
  rewrite (bind_run _ _ _ _ _ (shallow_run _ _ _)).
  unfold bind at 1. unfold ownFields at 1.
  simpl fieldsOf. rewrite lookup_alloc.
  rewrite log_after_send; [reflexivity|].
  intros d. solve_keepsLog.
Qed.

Lemma getMemberPage_log conversationId filter w :
  log (fst (getMemberPage camelCase snakeCase apiHost server conversationId filter w))
  = log w ++ [Request GET
                (apiHost ++ "/v1/conversations/" ++ conversationId ++ "/members")
                (Query (renameKeys snakeCase (fieldsOf (heap_of w) filter)))].
Proof.
  unfold getMemberPage, snakeCaseObjectKeys.
  rewrite (bind_run _ _ _ _ _ (shallow_run _ _ _)).
  unfold bind at 1. unfold ownFields at 1.
  simpl fieldsOf. rewrite lookup_alloc.
  rewrite log_after_send; [reflexivity|].
  intros d. solve_keepsLog.
Qed.

Lemma nextCursor_link resp links nx s w :
  oget (fieldsOf (heap_of w) resp) "links" = Some links ->
  oget (fieldsOf (heap_of w) links) "next" = Some nx ->
  truthy nx = true ->
  oget (fieldsOf (heap_of w) nx) "href" = Some (VStr s) ->
  nextCursor parseCursor resp w
  = (w, match parseCursor s with
        | Some (Some c) => Ok (VStr c)
        | Some None => Ok VNull
        | None => Throw TypeError
        end).
Proof.
  intros Hl Hn Ht Hh. unfold nextCursor.
  assert (Hr : exists l, resp = VRef l).
  { destruct resp; simpl in Hl; try discriminate. eauto. }
  destruct Hr as [l ->].
  rewrite (bind_run _ _ _ _ _ (getProp_ref _ _ _)). rewrite Hl. cbn [orUndef].
  rewrite (bind_run _ _ _ _ _ (optChain_ok _ _ _)). rewrite Hn. cbn [orUndef].
  rewrite Ht.
  rewrite (bind_run _ _ _ _ _ (optChain_ok _ _ _)). rewrite Hh. cbn [orUndef].
  destruct (parseCursor s) as [[c|]|]; reflexivity.
Qed.

Lemma nextCursor_last resp links w :
  oget (fieldsOf (heap_of w) resp) "links" = Some links ->
  truthy (orUndef (oget (fieldsOf (heap_of w) links) "next")) = false ->
  nextCursor parseCursor resp w = (w, Ok VNull).
Proof.
  intros Hl Hn. unfold nextCursor.
  assert (Hr : exists l, resp = VRef l).
  { destruct resp; simpl in Hl; try discriminate. eauto. }
  destruct Hr as [l ->].
  rewrite (bind_run _ _ _ _ _ (getProp_ref _ _ _)). rewrite Hl. cbn [orUndef].
  rewrite (bind_run _ _ _ _ _ (optChain_ok _ _ _)). now rewrite Hn.
Qed.

Lemma step_after_items fetchPage key p fs resp next w :
  heap_of w !! p = Some (CObj fs) ->
  nextCursor parseCursor resp w = (w, Ok next) ->
  gen_step parseCursor fetchPage key (GItems (VRef p) resp []) w
  = (World (<[p := CObj (oset fs "cursor" (if truthy next then next else VStr ""))]>
              (heap_of w)) (log w),
     Ok (if truthy next then (ESilent, GFetch (VRef p)) else (EReturn, GDone))).
Proof.
  intros Hp Hn. simpl. rewrite (bind_run _ _ _ _ _ Hn).
  unfold bind at 1. unfold setProp at 1. rewrite Hp.
  destruct (truthy next); reflexivity.
Qed.

End Listing.

(** ** Pages of items with primitive properties, and draining *)

Lemma allocTree_flat_fields item w :
  flat item ->
  traverse (fun kt : string * tree => let '(_, x) := kt in allocTree x) item w
  = (w, Ok (map snd (primFields item))).
Proof.
  induction 1 as [|[k t] r Ht Hr IH]; simpl; [reflexivity|].
  assert (Hp : allocTree t w = (w, Ok (primVal t))).
  { destruct t; simpl in Ht; try discriminate; reflexivity. }
  rewrite (bind_run _ _ _ _ _ Hp), (bind_run _ _ _ _ _ IH). reflexivity.
Qed.

Lemma combine_primFields item :
  combine (map fst item) (map snd (primFields item)) = primFields item.
Proof.
  induction item as [|[k t] r IH]; simpl; [reflexivity | now rewrite IH].
Qed.

Lemma allocTree_flat item w :
  flat item ->
  allocTree (TObj item) w
  = (World (heap_of w ++ [CObj (primFields item)]) (log w),
     Ok (VRef (length (heap_of w)))).
Proof.
  intros H. simpl. rewrite (bind_run _ _ _ _ _ (allocTree_flat_fields item w H)).
  now rewrite combine_primFields.
Qed.

Lemma primFields_prims item :
  Forall (fun kv : string * val => isRef (snd kv) = false) (primFields item).
Proof.
  induction item as [|[k t] r IH]; simpl; constructor; [|exact IH].
  destruct t; reflexivity.
Qed.

Lemma Forall_odel {A} (P : string * A -> Prop) fs k :
  Forall P fs -> Forall P (odel fs k).
Proof.
  induction 1 as [|[k1 v1] r H1 Hr IH]; simpl; [constructor|].
  destruct (String.eqb k1 k); [assumption | constructor; assumption].
Qed.

Lemma transformRec_prims tf n fs w :
  Forall (fun kv : string * val => isRef (snd kv) = false) fs ->
  traverse (transformRec tf n) (map snd fs) w = (w, Ok (map snd fs)).
Proof.
  induction 1 as [|[k v] r Hv Hr IH]; simpl; [reflexivity|].
  rewrite (transformRec_prim _ _ _ Hv).
  unfold bind at 1. unfold ret at 1.
  rewrite (bind_run _ _ _ _ _ IH). reflexivity.
Qed.

Lemma combine_fst_snd {A B} (l : list (A * B)) :
  combine (map fst l) (map snd l) = l.
Proof. induction l as [|[a b] r IH]; simpl; [reflexivity | now rewrite IH]. Qed.

Lemma prims_oget_fields h (fs : list (string * val)) k K :
  Forall (fun kv : string * val => isRef (snd kv) = false) fs ->
  oget (fieldsOf h (orUndef (oget fs k))) K = None.
Proof.
  intros H. destruct (oget fs k) as [v|] eqn:E; [|reflexivity].
  apply (Forall_oget (fun v => isRef v = false) _ _ _ H) in E.
  destruct v; try reflexivity; discriminate.
Qed.

Lemma apiToConversation_flat camelCase w l item :
  heap_of w !! l = Some (CObj (primFields item)) ->
  apiToConversation camelCase (VRef l) w
  = (World (<[l := CObj (odel (primFields item) "_links")]> (heap_of w)
              ++ [CObj (renameKeys camelCase (odel (primFields item) "_links"))])
       (log w),
     Ok (VRef (length (heap_of w)))).
Proof.
  intros Hl.
  assert (Hlt : l < length (heap_of w)) by (eapply lookup_lt_Some; eassumption).
  set (fs := odel (primFields item) "_links").
  assert (Hfs : Forall (fun kv : string * val => isRef (snd kv) = false) fs).
  { apply Forall_odel, primFields_prims. }
  remember (World (<[l := CObj fs]> (heap_of w)) (log w)) as w1 eqn:Ew1.
  assert (Hl1 : heap_of w1 !! l = Some (CObj fs)).
  { subst w1. simpl. now apply list_lookup_insert_eq. }
  assert (Hrun : transformObjectKeys camelCase (VRef l) true w1
                 = (World (heap_of w1 ++ [CObj (renameKeys camelCase fs)]) (log w1),
                    Ok (VRef (length (heap_of w1))))).
  { unfold transformObjectKeys. rewrite Hl1.
    destruct (length (heap_of w1)) as [|n] eqn:Hn.
    { apply lookup_lt_Some in Hl1. lia. }
    simpl transformRec. rewrite Hl1.
    rewrite (bind_run _ _ _ _ _ (transformRec_prims _ _ _ _ Hfs)).
    rewrite combine_fst_snd. unfold alloc. now rewrite Hn. }
  unfold apiToConversation.
  rewrite (bind_run _ _ _ _ _ (getProp_ref _ _ _)).
  rewrite (bind_run _ _ _ _ _ (optChain_ok _ _ _)).
  assert (Hdel : deleteProp (VRef l) "_links" w = (w1, Ok tt)).
  { unfold deleteProp. rewrite Hl. now subst w1. }
  rewrite (bind_run _ _ _ _ _ Hdel).
  unfold camelCaseObjectKeys. rewrite (bind_run _ _ _ _ _ Hrun).
  rewrite (bind_run _ _ _ _ _ (optChain_ok _ _ _)).
  rewrite (bind_run _ _ _ _ _ (optChain_ok _ _ _)).
  simpl fieldsOf at 2. rewrite lookup_alloc.
  rewrite (prims_oget_fields _ _ _ _
             (Forall_renameKeys (fun v => isRef v = false) camelCase _ Hfs)).
  cbn [orUndef truthy andb].
  unfold bind, ret. subst w1. simpl. now rewrite length_insert.
Qed.

Section Draining.
Variable parseCursor : string -> option (option string).
Variable fetchPage : val -> M val.
Variable key : string.

Lemma drain_silent n s s' w w1 :
  gen_step parseCursor fetchPage key s w = (w1, Ok (ESilent, s')) ->
  drain parseCursor fetchPage key (S n) s w = drain parseCursor fetchPage key n s' w1.
Proof. intros H. simpl. now rewrite (bind_run _ _ _ _ _ H). Qed.

Lemma drain_yield n s s' v w w1 w2 r :
  gen_step parseCursor fetchPage key s w = (w1, Ok (EYield v, s')) ->
  drain parseCursor fetchPage key n s' w1 = (w2, Ok r) ->
  drain parseCursor fetchPage key (S n) s w = (w2, Ok (option_map (cons v) r)).
Proof.
  intros H H2. simpl. rewrite (bind_run _ _ _ _ _ H).
  now rewrite (bind_run _ _ _ _ _ H2).
Qed.

Lemma drain_return n s s' w w1 :
  gen_step parseCursor fetchPage key s w = (w1, Ok (EReturn, s')) ->
  drain parseCursor fetchPage key (S n) s w = (w1, Ok (Some [])).
Proof. intros H. simpl. now rewrite (bind_run _ _ _ _ _ H). Qed.
End Draining.

(** ** The statements on the fixtures of the test suite *)

Lemma distinct_NoDup ks : distinct ks = true -> List.NoDup ks.
Proof.
  induction ks as [|k r IH]; simpl; intros H; constructor.
  - apply andb_true_iff in H as [H _]. rewrite <- mem_In.
    now destruct (mem k r).
  - apply andb_true_iff in H as [_ H]. now apply IH.
Qed.

Lemma keyedAloneb_sound tf k tfs : keyedAloneb tf k tfs = true -> keyedAlone tf k tfs.
Proof.
  unfold keyedAloneb, keyedAlone. intros H.
  apply andb_true_iff in H as [Hd Hf]. split; [now apply distinct_NoDup|].
  intros k' Hin Heq. rewrite forallb_forall in Hf.
  specialize (Hf k' Hin). apply String.eqb_eq in Heq. rewrite Heq in Hf.
  now apply String.eqb_eq.
Qed.

Lemma customData_fidelity_witness :
  (exists w' conversation x,
     apiToConversation asciiCamelCase (rootOf exampleConversationResponse)
       (storeOf exampleConversationResponse) = (w', Ok conversation)
     /\ holdsAt (storeOf exampleConversationResponse)
          (rootOf exampleConversationResponse) "properties" "custom_data" x
          exampleCustomData
     /\ holdsAt w' conversation "properties" "customData" x exampleCustomData)
  /\ (exists w' request x,
        conversationToApi asciiSnakeCase (rootOf exampleConversation)
          (storeOf exampleConversation) = (w', Ok request)
        /\ holdsAt (storeOf exampleConversation) (rootOf exampleConversation)
             "properties" "customData" x exampleCustomData
        /\ holdsAt w' request "properties" "custom_data" x exampleCustomData).
Proof.
  split.
  - eapply (proj1 (customData_fidelity asciiCamelCase asciiSnakeCase)).
    + unfold denotes. vm_compute. reflexivity.
    + reflexivity.
    + reflexivity.
    + reflexivity.
    + reflexivity.
    + apply keyedAloneb_sound. vm_compute. reflexivity.
    + apply keyedAloneb_sound. vm_compute. reflexivity.
  - eapply (proj2 (customData_fidelity asciiCamelCase asciiSnakeCase)).
    + unfold denotes. vm_compute. reflexivity.
    + reflexivity.
    + reflexivity.
    + reflexivity.
    + reflexivity.
    + apply keyedAloneb_sound. vm_compute. reflexivity.
    + apply keyedAloneb_sound. vm_compute. reflexivity.
Defined.

Lemma memberToApi_raises_without_user_witness :
  snd (memberToApi asciiSnakeCase (VRef 0)
         (World [CObj [("name", VStr "My Member")]] []))
  = Throw TypeError.
Proof.
  apply (memberToApi_raises_without_user asciiSnakeCase
           (World [CObj [("name", VStr "My Member")]] []) (VRef 0)
           [("name", TStr "My Member")]).
  - unfold denotes. vm_compute. reflexivity.
  - left. reflexivity.
Defined.

(** C6, as stated, fails: on update parameters as the documentation of
    [updateMember] passes them, the body sent is the [params] object
    itself, unchanged, whereas the domain-to-wire transcoding of the
    same object does not exist: [memberToApi] raises on it. *)
Lemma updateMember_body_not_transcoded :
  let w := storeOf exampleUpdate in
  let params := rootOf exampleUpdate in
  let w' := fst (updateMember asciiCamelCase exampleHost
                   (answering exampleMemberResponse)
                   "CON-1" "MEM-1" params w) in
  log w' = [Request PATCH "https://api.nexmo.com/v1/conversations/CON-1/members/MEM-1"
              (Body params)]
  /\ denotes w params exampleUpdate
  /\ denotes w' params exampleUpdate
  /\ snd (memberToApi asciiSnakeCase params w) = Throw TypeError.
Proof.
  vm_compute. conjs; reflexivity.
Qed.

Lemma single_item_operations_one_round_trip_witness :
  (exists body,
     log (fst (createConversation asciiCamelCase asciiSnakeCase exampleHost
                 (answering exampleConversationResponse)
                 (rootOf exampleConversation) (storeOf exampleConversation)))
     = [Request POST (exampleHost ++ "/v1/conversations") (Body body)]
     /\ log (fst (updateConversation asciiCamelCase asciiSnakeCase exampleHost
                    (answering exampleConversationResponse) decimalText
                    (rootOf exampleConversation) (storeOf exampleConversation)))
        = [Request PUT
             "https://api.nexmo.com/v1/conversations/CON-00000000-0000-0000-0000-000000000001"
             (Body body)])
  /\ log (fst (updateMember asciiCamelCase exampleHost
                 (answering exampleMemberResponse) "CON-1" "MEM-1"
                 (rootOf exampleUpdate) (storeOf exampleUpdate)))
     = [Request PATCH (memberUrl exampleHost "CON-1" "MEM-1")
          (Body (rootOf exampleUpdate))]
  /\ createMember asciiCamelCase asciiSnakeCase exampleHost
       (answering exampleMemberResponse) "CON-1" (VRef 0)
       (World [CObj [("name", VStr "My Member")]] [])
     = (World [CObj [("name", VStr "My Member")]; CObj [("name", VStr "My Member")];
               CObj [("name", VStr "My Member")]] [],
        Throw TypeError).
Proof.
  pose proof (single_item_operations_one_round_trip asciiCamelCase asciiSnakeCase
                exampleHost (answering exampleConversationResponse) decimalText
                "CON-1" "MEM-1" (rootOf exampleConversation) (rootOf exampleMember)
                (rootOf exampleConversation) (storeOf exampleConversation))
    as (_ & _ & _ & _ & H5 & H6 & _).
  pose proof (single_item_operations_one_round_trip asciiCamelCase asciiSnakeCase
                exampleHost (answering exampleMemberResponse) decimalText
                "CON-1" "MEM-1" (rootOf exampleConversation) (VRef 0)
                (rootOf exampleUpdate) (storeOf exampleUpdate))
    as (_ & _ & _ & H4 & _).
  pose proof (single_item_operations_one_round_trip asciiCamelCase asciiSnakeCase
                exampleHost (answering exampleMemberResponse) decimalText
                "CON-1" "MEM-1" VUndef (VRef 0) VUndef
                (World [CObj [("name", VStr "My Member")]] []))
    as (_ & _ & _ & _ & _ & _ & H7).
  split; [|split].
  - exists (VRef 7). split; [exact H5 | exact H6].
  - exact H4.
  - exact (proj1 H7).
Defined.

Lemma malformed_envelope_is_empty_page_witness :
  (exists w' page items,
     getConversationPage asciiCamelCase asciiSnakeCase exampleHost
       (answering (TObj [("page_size", TNum 10);
                         ("_links", TObj [("self", linkTo "/v1/conversations")])]))
       VUndef (World [] []) = (w', Ok page)
     /\ oget (fieldsOf (heap_of w') page) "conversations" = Some (VRef items)
     /\ heap_of w' !! items = Some (CArr []))
  /\ (exists w' page items,
        getMemberPage asciiCamelCase asciiSnakeCase exampleHost
          (answering (TObj [("page_size", TNum 10); ("_embedded", TObj [])]))
          "CON-1" VUndef (World [] []) = (w', Ok page)
        /\ oget (fieldsOf (heap_of w') page) "members" = Some (VRef items)
        /\ heap_of w' !! items = Some (CArr [])).
Proof.
  split.
  - eapply (proj1 (malformed_envelope_is_empty_page asciiCamelCase asciiSnakeCase
                     exampleHost _)).
    + reflexivity.
    + left. reflexivity.
  - eapply (proj2 (malformed_envelope_is_empty_page asciiCamelCase asciiSnakeCase
                     exampleHost _)).
    + reflexivity.
    + right. eexists. split; reflexivity.
Defined.


Lemma createMember_sends_user_id_and_name_witness :
  let w' := fst (createMember asciiCamelCase asciiSnakeCase exampleHost
                   (answering exampleMemberResponse) "CON-1"
                   (rootOf exampleMember) (storeOf exampleMember)) in
  exists body u,
    log w' = [Request POST "https://api.nexmo.com/v1/conversations/CON-1/members"
                (Body body)]
    /\ oget (fieldsOf (heap_of w') body) "user" = Some (VRef u)
    /\ heap_of w' !! u
       = Some (CObj [("id", VStr "USR-00000000-0000-0000-0000-000000000001");
                     ("name", VStr "Alice Smith")]).
Proof.
  apply (createMember_sends_user_id_and_name asciiCamelCase asciiSnakeCase
           exampleHost (answering exampleMemberResponse) "CON-1"
           (storeOf exampleMember) (rootOf exampleMember) (entries exampleMember)
           (VRef 0)).
  - unfold denotes. vm_compute. reflexivity.
  - vm_compute. reflexivity.
  - discriminate.
  - discriminate.
Defined.

(** * Further properties *)

Lemma absent_path n h v tfs K1 K2 :
  reify n h v = Some (TObj tfs) -> fieldAt K1 K2 tfs = None ->
  orUndef (oget (fieldsOf h (orUndef (oget (fieldsOf h v) K1))) K2) = VUndef.
Proof.
  intros Hd Hm. unfold fieldAt in Hm.
  destruct (reify_obj_is_ref _ _ _ _ Hd) as [l ->].
  apply reify_ref_inv in Hd
    as (n' & -> & [(fs & tfs' & Hl & Hf & E)|(xs & ts & _ & _ & E)]); [|discriminate].
  inversion E; subst tfs'. simpl fieldsOf at 2. rewrite Hl.
  pose proof (fieldsDenote_oget _ _ _ _ K1 Hf) as He.
  destruct (oget tfs K1) as [t1|]; [|now rewrite He].
  destruct He as (v1 & -> & Hr1). cbn [orUndef].
  destruct v1 as [| | | | |l1]; try reflexivity.
  apply reify_ref_inv in Hr1
    as (n'' & -> & [(pfs' & pfs & Hl1 & Hf1 & ->)|(xs & ts & Hl1 & _ & ->)]);
    simpl; rewrite Hl1; [|reflexivity].
  pose proof (fieldsDenote_oget _ _ _ _ K2 Hf1) as Hk. rewrite Hm in Hk.
  now rewrite Hk.
Qed.

Lemma reapplied_undef w w' lo K1 K2 : reapplied w w' lo K1 K2 VUndef -> w' = w.
Proof. intros [[-> _]|(lp & pfs & Ht & _)]; [reflexivity | discriminate]. Qed.

(** ** Objects whose keys are distinct *)

Lemma oset_fresh {A} (fs : list (string * A)) k v :
  ~ In k (okeys fs) -> oset fs k v = fs ++ [(k, v)].
Proof.
  induction fs as [|[k1 v1] r IH]; simpl; intros Hn; [reflexivity|].
  destruct (String.eqb k1 k) eqn:E.
  - apply String.eqb_eq in E. tauto.
  - rewrite IH; [reflexivity | tauto].
Qed.

Lemma NoDup_oset {A} (fs : list (string * A)) k v :
  List.NoDup (okeys fs) -> List.NoDup (okeys (oset fs k v)).
Proof.
  induction fs as [|[k1 v1] r IH]; simpl; intros H.
  - constructor; [simpl; tauto | constructor].
  - inversion H as [|? ? Hn Hr]; subst.
    destruct (String.eqb k1 k) eqn:E; simpl.
    + apply String.eqb_eq in E. subst k1. constructor; assumption.
    + constructor; [|auto]. intros Hin. apply okeys_oset in Hin as [->|Hin].
      * rewrite String.eqb_refl in E. discriminate.
      * tauto.
Qed.

Lemma NoDup_fold_oset {A} (tf : string -> string) (fs : list (string * A)) :
  forall acc, List.NoDup (okeys acc) ->
  List.NoDup (okeys (fold_left (fun a kv => oset a (tf (fst kv)) (snd kv)) fs acc)).
Proof.
  induction fs as [|[k v] r IH]; intros acc H; simpl; [assumption|].
  apply IH. now apply NoDup_oset.
Qed.

Lemma NoDup_renameKeys {A} (tf : string -> string) (fs : list (string * A)) :
  List.NoDup (okeys (renameKeys tf fs)).
Proof. apply NoDup_fold_oset. constructor. Qed.

Lemma spreadInto_app {A} (fs : list (string * A)) : forall acc,
  List.NoDup (okeys acc ++ okeys fs) -> spreadInto acc fs = acc ++ fs.
Proof.
  unfold spreadInto.
  induction fs as [|[k v] r IH]; intros acc H; simpl.
  - now rewrite app_nil_r.
  - assert (Hk : ~ In k (okeys acc)).
    { apply NoDup_remove_2 in H. intros Hin. apply H. apply in_or_app. now left. }
    rewrite (oset_fresh _ _ _ Hk). rewrite IH.
    + now rewrite <- app_assoc.
    + unfold okeys in *. rewrite map_app. simpl. rewrite <- app_assoc. exact H.
Qed.

Lemma spreadInto_distinct {A} (fs : list (string * A)) :
  List.NoDup (okeys fs) -> spreadInto [] fs = fs.
Proof. intros H. now apply (spreadInto_app fs []). Qed.

Lemma fieldsDenote_spread n h fs tfs :
  fieldsDenote n h fs tfs -> List.NoDup (okeys tfs) ->
  fieldsDenote n h (spreadInto [] fs) tfs.
Proof.
  intros H Hnd.
  rewrite spreadInto_distinct by (now rewrite (fieldsDenote_keys _ _ _ _ H)).
  exact H.
Qed.

Lemma fieldsDenote_tprop n h fs tfs k :
  fieldsDenote n h fs tfs -> reify n h (orUndef (oget fs k)) = Some (tprop tfs k).
Proof.
  intros H. pose proof (fieldsDenote_oget _ _ _ _ k H) as Hk. unfold tprop.
  destruct (oget tfs k) as [t|].
  - destruct Hk as (v & -> & Hv). exact Hv.
  - rewrite Hk. apply reify_undef.
Qed.

(** An object document held in the store, with its cell. *)
Lemma denotes_field_obj w n fs tfs k pfs :
  fieldsDenote n (heap_of w) fs tfs -> n < length (heap_of w) ->
  oget tfs k = Some (TObj pfs) ->
  exists lp fs' n',
    oget fs k = Some (VRef lp)
    /\ heap_of w !! lp = Some (CObj fs')
    /\ fieldsDenote n' (heap_of w) fs' pfs
    /\ S n' = n
    /\ denotes w (VRef lp) (TObj pfs).
Proof.
  intros Hf Hn Hk.
  pose proof (fieldsDenote_oget _ _ _ _ k Hf) as Hp. rewrite Hk in Hp.
  destruct Hp as (vp & Hvp & Hrp).
  destruct (reify_obj_is_ref _ _ _ _ Hrp) as [lp ->].
  pose proof Hrp as Hrp0.
  apply reify_ref_inv in Hrp
    as (n' & Hn' & [(fs' & tp & Hlp & Hfp & Etp)|(xs & ts & _ & _ & Etp)]);
    [|discriminate].
  inversion Etp; subst tp.
  exists lp, fs', n'. conjs; auto.
  unfold denotes. eapply reify_mono; [|exact Hrp0]. lia.
Qed.

Section MemberDocuments.
Variables camelCase snakeCase : string -> string.

Lemma apiToMember_run w response tfs efs ufs :
  denotes w response (TObj tfs) ->
  oget tfs "_embedded" = Some (TObj efs) ->
  oget efs "user" = Some (TObj ufs) ->
  exists w' member,
    apiToMember camelCase response w = (w', Ok member)
    /\ freshFrom (length (heap_of w)) member
    /\ denotes w' member
         (TObj (oset (entries (tmap camelCase
                                 (TObj (without ["_embedded"; "_links"] tfs))))
                  "user" (tmap camelCase (TObj (without ["_links"] ufs))))).
Proof.
  intros Hd He Hu.
  destruct (denotes_obj_inv _ _ _ Hd) as (l & fs & n & -> & Hlen & Hl & Hf).
  pose proof (omit_denotes ["_embedded"; "_links"] w l tfs Hd) as Hd1.
  destruct (transformObjectKeys_denotes camelCase _ _ _ Hd1)
    as (w2 & lo & Hrun & Hg & Hlo & Hd2).
  assert (Hg2 : grows w w2) by (eapply grows_trans; [apply (grows_alloc w)|exact Hg]).
  destruct (denotes_field_obj w n fs tfs "_embedded" efs Hf ltac:(lia) He)
    as (le & efs' & n1 & Hve & Hle & Hfe & Hn1 & Hde).
  destruct (denotes_field_obj w n1 efs' efs "user" ufs Hfe ltac:(lia) Hu)
    as (lu0 & ufs' & n2 & Hvu & Hlu0 & Hfu & Hn2 & Hdu).
  assert (Hfs2 : fieldsOf (heap_of w2) (VRef l) = fs).
  { simpl. now rewrite (grows_lookup _ _ _ _ Hg2 Hl). }
  assert (Hes2 : fieldsOf (heap_of w2) (VRef le) = efs').
  { simpl. now rewrite (grows_lookup _ _ _ _ Hg2 Hle). }
  pose proof (omit_denotes ["_links"] w2 lu0 ufs (denotes_grows _ _ _ _ Hg2 Hdu)) as Hd3.
  set (w3 := World (heap_of w2 ++ [CObj (without ["_links"] (fieldsOf (heap_of w2) (VRef lu0)))])
               (log w2)) in *.
  destruct (transformObjectKeys_denotes camelCase _ _ _ Hd3)
    as (w4 & lu & Hrun4 & Hg4 & Hlu & Hd4).
  assert (Hg34 : grows w2 w4) by (eapply grows_trans; [apply (grows_alloc w2)|exact Hg4]).
  set (topFields := fieldsOf (heap_of w2) (VRef lo)).
  set (userFields := fieldsOf (heap_of w4) (VRef lu)).
  set (ucell := CObj (spreadInto [] userFields)).
  set (mcell := CObj (oset (spreadInto [] topFields) "user" (VRef (length (heap_of w4))))).
  exists (World ((heap_of w4 ++ [ucell]) ++ [mcell]) (log w4)),
    (VRef (length (heap_of w4 ++ [ucell]))).
  conjs.
  - unfold apiToMember.
    rewrite (bind_run _ _ _ _ _ (omit_run _ _ _)).
    unfold camelCaseObjectKeys. rewrite (bind_run _ _ _ _ _ Hrun).
    unfold bind at 1. unfold ownFields at 1.
    rewrite (bind_run _ _ _ _ _ (getProp_ref _ _ _)).
    rewrite (bind_run _ _ _ _ _ (optChain_ok _ _ _)).
    rewrite Hfs2, Hve. cbn [orUndef]. rewrite Hes2, Hvu. cbn [orUndef].
    rewrite (bind_run _ _ _ _ _ (omit_run _ _ _)).
    fold w3. rewrite (bind_run _ _ _ _ _ Hrun4).
    reflexivity.
  - simpl. rewrite length_app. simpl.
    apply grows_length in Hg2, Hg34. lia.
  - simpl tmap in Hd2. simpl tmap in Hd4.
    apply denotes_obj_inv in Hd2 as (lo' & tfs2 & m2 & E2 & Hlen2 & Hlo2 & Hf2).
    inversion E2; subst lo'.
    apply denotes_obj_inv in Hd4 as (lu' & ufs4 & m4 & E4 & Hlen4 & Hlu4 & Hf4).
    inversion E4; subst lu'.
    assert (Htop : topFields = tfs2) by (unfold topFields; simpl; now rewrite Hlo2).
    assert (Husr : userFields = ufs4) by (unfold userFields; simpl; now rewrite Hlu4).
    eapply (denotes_obj_intro _ _ _ _ (length (heap_of w4 ++ [ucell]))).
    + simpl. apply lookup_alloc.
    + simpl heap_of. simpl entries.
      apply fieldsDenote_oset.
      * rewrite Htop. apply fieldsDenote_spread; [|apply NoDup_renameKeys].
        eapply fieldsDenote_transport; [| |exact Hf2].
        -- intros l0 c Hl0. apply lookup_app_l_Some, lookup_app_l_Some.
           eapply grows_lookup; eassumption.
        -- rewrite length_app. simpl. apply grows_length in Hg34. lia.
      * eapply (reify_mono (S m4)); [rewrite length_app; simpl; lia|].
        eapply reify_obj_intro.
        -- apply lookup_app_l_Some. apply lookup_alloc.
        -- unfold ucell. rewrite Husr. apply fieldsDenote_spread; [|apply NoDup_renameKeys].
           eapply fieldsDenote_transport; [| |exact Hf4]; [|lia].
           intros l0 c Hl0. now apply lookup_app_l_Some, lookup_app_l_Some.
    + simpl. rewrite !length_app. simpl. lia.
Qed.

Lemma memberToApi_document_run w member tfs ufs :
  denotes w member (TObj tfs) ->
  oget tfs "user" = Some (TObj ufs) ->
  exists w' body,
    memberToApi snakeCase member w = (w', Ok body)
    /\ freshFrom (length (heap_of w)) body
    /\ denotes w' body
         (TObj (oset (oset (entries (tmap snakeCase (TObj (without memberOmitted tfs))))
                        "user" (TObj [("id", tprop ufs "id"); ("name", tprop ufs "name")]))
                  "member_id_inviting" (tprop tfs "invitedBy"))).
Proof.
  intros Hd Hu.
  destruct (denotes_obj_inv _ _ _ Hd) as (l & fs & n & -> & Hlen & Hl & Hf).
  pose proof (omit_denotes memberOmitted w l tfs Hd) as Hd1.
  destruct (transformObjectKeys_denotes snakeCase _ _ _ Hd1)
    as (w2 & lo & Hrun & Hg & Hlo & Hd2).
  assert (Hg2 : grows w w2) by (eapply grows_trans; [apply (grows_alloc w)|exact Hg]).
  destruct (denotes_field_obj w n fs tfs "user" ufs Hf ltac:(lia) Hu)
    as (lu & ufs' & n1 & Hvu & Hlu & Hfu & Hn1 & Hdu).
  assert (Hfs2 : fieldsOf (heap_of w2) (VRef l) = fs).
  { simpl. now rewrite (grows_lookup _ _ _ _ Hg2 Hl). }
  assert (Hus2 : fieldsOf (heap_of w2) (VRef lu) = ufs').
  { simpl. now rewrite (grows_lookup _ _ _ _ Hg2 Hlu). }
  set (uid := orUndef (oget ufs' "id")).
  set (uname := orUndef (oget ufs' "name")).
  set (inv := orUndef (oget fs "invitedBy")).
  set (ucell := CObj [("id", uid); ("name", uname)]).
  set (bfs := oset (oset (spreadInto [] (fieldsOf (heap_of w2) (VRef lo))) "user"
                      (VRef (length (heap_of w2)))) "member_id_inviting" inv).
  exists (World ((heap_of w2 ++ [ucell]) ++ [CObj bfs]) (log w2)),
    (VRef (length (heap_of w2 ++ [ucell]))).
  assert (Hsub : forall l0 c, heap_of w !! l0 = Some c ->
            ((heap_of w2 ++ [ucell]) ++ [CObj bfs]) !! l0 = Some c).
  { intros l0 c Hl0. apply lookup_app_l_Some, lookup_app_l_Some.
    eapply grows_lookup; eassumption. }
  assert (Hsub2 : forall l0 c, heap_of w2 !! l0 = Some c ->
            ((heap_of w2 ++ [ucell]) ++ [CObj bfs]) !! l0 = Some c).
  { intros l0 c Hl0. now apply lookup_app_l_Some, lookup_app_l_Some. }
  conjs.
  - unfold memberToApi.
    rewrite (bind_run _ _ _ _ _ (omit_run _ _ _)).
    unfold snakeCaseObjectKeys. rewrite (bind_run _ _ _ _ _ Hrun).
    unfold bind at 1. unfold ownFields at 1.
    rewrite (bind_run _ _ _ _ _ (getProp_ref _ _ _)).
    rewrite Hfs2, Hvu. cbn [orUndef].
    rewrite (bind_run _ _ _ _ _ (getProp_ref _ _ _)).
    rewrite (bind_run _ _ _ _ _ (getProp_ref _ _ _)).
    rewrite Hfs2, Hvu. cbn [orUndef].
    rewrite (bind_run _ _ _ _ _ (getProp_ref _ _ _)).
    rewrite Hus2. fold uid uname ucell.
    unfold bind at 1. unfold alloc at 1.
    rewrite (bind_run _ _ _ _ _ (getProp_ref _ _ _)).
    assert (Hfs3 : fieldsOf (heap_of w2 ++ [ucell]) (VRef l) = fs).
    { simpl. rewrite (lookup_app_l_Some _ _ _ _ (grows_lookup _ _ _ _ Hg2 Hl)).
      reflexivity. }
    simpl heap_of. rewrite Hfs3. reflexivity.
  - simpl. rewrite length_app. simpl. apply grows_length in Hg2. lia.
  - simpl tmap in Hd2.
    apply denotes_obj_inv in Hd2 as (lo' & tfs2 & m2 & E2 & Hlen2 & Hlo2 & Hf2).
    inversion E2; subst lo'.
    eapply (denotes_obj_intro _ _ _ _ (length (heap_of w2 ++ [ucell]))).
    + simpl. apply lookup_alloc.
    + simpl heap_of. simpl entries.
      set (h6 := (heap_of w2 ++ [ucell]) ++ [CObj bfs]) in *. unfold bfs.
      apply fieldsDenote_oset; [apply fieldsDenote_oset|].
      * simpl fieldsOf. rewrite Hlo2.
        apply fieldsDenote_spread; [|apply NoDup_renameKeys].
        eapply fieldsDenote_transport; [exact Hsub2 | |exact Hf2].
        rewrite length_app. simpl. lia.
      * eapply (reify_mono (S n1)).
        { rewrite length_app. simpl. apply grows_length in Hg2. lia. }
        eapply reify_obj_intro.
        -- unfold h6. apply lookup_app_l_Some. apply lookup_alloc.
        -- unfold ucell. repeat constructor; simpl.
           ++ eapply reify_transport; [exact Hsub | |apply fieldsDenote_tprop; exact Hfu]. lia.
           ++ eapply reify_transport; [exact Hsub | |apply fieldsDenote_tprop; exact Hfu]. lia.
      * eapply reify_transport; [exact Hsub | |apply fieldsDenote_tprop; exact Hf].
        rewrite length_app. simpl. apply grows_length in Hg2. lia.
    + simpl. rewrite !length_app. simpl. lia.
Qed.

(** X4: what [apiToMember] returns. For a wire member that denotes the
    object [tfs] and embeds a user object, it returns a new object that
    denotes [tfs] without [_embedded] and [_links] with every key
    converted, and under [user] the embedded user without its [_links]
    with every key converted. The response it was given denotes [tfs] as
    before. *)
Theorem apiToMember_document w response tfs efs ufs :
  denotes w response (TObj tfs) ->
  oget tfs "_embedded" = Some (TObj efs) ->
  oget efs "user" = Some (TObj ufs) ->
  exists w' member,
    apiToMember camelCase response w = (w', Ok member)
    /\ freshFrom (length (heap_of w)) member
    /\ denotes w' member
         (TObj (oset (entries (tmap camelCase
                                 (TObj (without ["_embedded"; "_links"] tfs))))
                  "user" (tmap camelCase (TObj (without ["_links"] ufs)))))
    /\ denotes w' response (TObj tfs).
Proof.
  intros Hd He Hu.
  destruct (apiToMember_run w response tfs efs ufs Hd He Hu)
    as (w' & member & Hrun & Hfresh & Hdoc).
  exists w', member. conjs; try assumption.
  eapply denotes_grows; [|exact Hd]. eapply allocOnly_apiToMember. exact Hrun.
Qed.

(** X5: what [memberToApi] returns. For a member that denotes the object
    [tfs] and has a user object, it returns a new object that denotes
    [tfs] without the fields the request does not carry, every key
    converted, then [user] set to just the [id] and [name] of the user
    and [member_id_inviting] set to [invitedBy] ([undefined] where they
    are missing). The member it was given denotes [tfs] as before. *)
Theorem memberToApi_document w member tfs ufs :
  denotes w member (TObj tfs) ->
  oget tfs "user" = Some (TObj ufs) ->
  exists w' body,
    memberToApi snakeCase member w = (w', Ok body)
    /\ freshFrom (length (heap_of w)) body
    /\ denotes w' body
         (TObj (oset (oset (entries (tmap snakeCase (TObj (without memberOmitted tfs))))
                        "user"
                        (TObj [("id", tprop ufs "id"); ("name", tprop ufs "name")]))
                  "member_id_inviting" (tprop tfs "invitedBy")))
    /\ denotes w' member (TObj tfs).
Proof.
  intros Hd Hu.
  destruct (memberToApi_document_run w member tfs ufs Hd Hu)
    as (w' & body & Hrun & Hfresh & Hdoc).
  exists w', body. conjs; try assumption.
  eapply denotes_grows; [|exact Hd]. eapply allocOnly_memberToApi. exact Hrun.
Qed.
End MemberDocuments.

Lemma reify_str_inv n h v s : reify n h v = Some (TStr s) -> v = VStr s.
Proof.
  intros H. destruct v as [| | | | |l];
    try (destruct n; simpl in H; inversion H; subst; reflexivity).
  apply reify_ref_inv in H
    as (n' & _ & [(fs & tfs & _ & _ & E)|(xs & ts & _ & _ & E)]); discriminate.
Qed.

Section Operations.
Variables camelCase snakeCase : string -> string.
Variable apiHost : string.
Variable parseCursor : string -> option (option string).
Variable server : list request -> res tree.
Variable numberText : Z -> string.

Lemma send_fails m u p w e :
  server (log w ++ [Request m u p]) = Throw e ->
  send server m u p w = (World (heap_of w) (log w ++ [Request m u p]), Throw e).
Proof. intros H. unfold send. now rewrite H. Qed.

Lemma bind_fails {A B} (c : M A) (k : A -> M B) w w1 e :
  c w = (w1, Throw e) -> bind c k w = (w1, Throw e).
Proof. intros H. unfold bind. now rewrite H. Qed.

Lemma getConversationPage_fails filter w e :
  (forall rq, server (log w ++ [rq]) = Throw e) ->
  snd (getConversationPage camelCase snakeCase apiHost server filter w) = Throw e.
Proof.
  intros Hs. unfold getConversationPage, snakeCaseObjectKeys.
  rewrite (bind_run _ _ _ _ _ (shallow_run _ _ _)).
  unfold bind at 1. unfold ownFields at 1.
  erewrite bind_fails; [reflexivity|]. apply send_fails. apply Hs.
Qed.

Lemma getMemberPage_fails conversationId filter w e :
  (forall rq, server (log w ++ [rq]) = Throw e) ->
  snd (getMemberPage camelCase snakeCase apiHost server conversationId filter w) = Throw e.
Proof.
  intros Hs. unfold getMemberPage, snakeCaseObjectKeys.
  rewrite (bind_run _ _ _ _ _ (shallow_run _ _ _)).
  unfold bind at 1. unfold ownFields at 1.
  erewrite bind_fails; [reflexivity|]. apply send_fails. apply Hs.
Qed.

(** X8: a failure of the transport is the failure of the operation.
    When the server fails the next request with [e], every operation,
    both page fetches and the first step of both listings fail with [e];
    nothing catches or replaces the error. *)
Theorem transport_failure_propagates (e : error)
  (conversationId memberId : string) (conversation member params filter : val)
  (w : world) :
  (forall rq, server (log w ++ [rq]) = Throw e) ->
  snd (getConversation camelCase apiHost server conversationId w) = Throw e
  /\ snd (deleteConversation apiHost server conversationId w) = Throw e
  /\ snd (getMember camelCase apiHost server conversationId memberId w) = Throw e
  /\ snd (getMe camelCase apiHost server conversationId w) = Throw e
  /\ snd (updateMember camelCase apiHost server conversationId memberId params w)
     = Throw e
  /\ snd (getConversationPage camelCase snakeCase apiHost server filter w) = Throw e
  /\ snd (getMemberPage camelCase snakeCase apiHost server conversationId filter w)
     = Throw e
  /\ snd (listAllConversations_step camelCase snakeCase apiHost parseCursor server
            (GFetch filter) w) = Throw e
  /\ snd (listAllMembers_step camelCase snakeCase apiHost parseCursor server
            conversationId (GFetch filter) w) = Throw e
  /\ (forall w1 body,
        conversationToApi snakeCase conversation w = (w1, Ok body) ->
        snd (createConversation camelCase snakeCase apiHost server conversation w)
        = Throw e
        /\ snd (updateConversation camelCase snakeCase apiHost server numberText conversation w)
           = Throw e)
  /\ (forall w1 body,
        memberToApi snakeCase member w = (w1, Ok body) ->
        snd (createMember camelCase snakeCase apiHost server conversationId member w)
        = Throw e).
Proof.
  intros Hs.
  assert (Hone : forall m u p (k : val -> M val),
            snd (bind (send server m u p) k w) = Throw e).
  { intros. erewrite bind_fails; [reflexivity|]. apply send_fails, Hs. }
  conjs; try apply Hone.
  - now apply getConversationPage_fails.
  - now apply getMemberPage_fails.
  - unfold listAllConversations_step, gen_step.
    pose proof (getConversationPage_fails filter w e Hs) as H.
    destruct (getConversationPage camelCase snakeCase apiHost server filter w)
      as [w1 r] eqn:E. simpl in H. subst r.
    now rewrite (bind_fails _ _ _ _ _ E).
  - unfold listAllMembers_step, gen_step.
    pose proof (getMemberPage_fails conversationId filter w e Hs) as H.
    destruct (getMemberPage camelCase snakeCase apiHost server conversationId filter w)
      as [w1 r] eqn:E. simpl in H. subst r.
    now rewrite (bind_fails _ _ _ _ _ E).
  - intros w1 body Hrun.
    assert (Hlog : log w1 = log w).
    { apply (conversationToApi_grows _ _ _ _ _ Hrun). }
    assert (Hs1 : forall m u p (k : val -> M val),
              snd (bind (send server m u p) k w1) = Throw e).
    { intros. erewrite bind_fails; [reflexivity|]. apply send_fails.
      rewrite Hlog. apply Hs. }
    split.
    + unfold createConversation. rewrite (bind_run _ _ _ _ _ Hrun). apply Hs1.
    + unfold updateConversation.
      destruct (conversationToApi_nonnull _ _ _ _ _ Hrun) as [Hn1 Hn2].
      rewrite (bind_run _ _ _ _ _ (getProp_ok _ _ _ Hn1 Hn2)).
      rewrite (bind_run _ _ _ _ _ (templateText_run _ _ _)).
      rewrite (bind_run _ _ _ _ _ Hrun). apply Hs1.
  - intros w1 body Hrun.
    assert (Hlog : log w1 = log w).
    { apply (allocOnly_memberToApi _ _ _ _ _ Hrun). }
    unfold createMember. rewrite (bind_run _ _ _ _ _ Hrun).
    erewrite bind_fails; [reflexivity|]. apply send_fails.
    rewrite Hlog. apply Hs.
Qed.

(** Between two fetches the listing sends nothing. *)
Lemma keepsLog_nextCursor resp : keepsLog (nextCursor parseCursor resp).
Proof.
  unfold nextCursor.
  apply keepsLog_bind; [apply keepsLog_allocOnly, allocOnly_getProp|]. intros links.
  apply keepsLog_bind; [apply keepsLog_allocOnly, allocOnly_optChain|]. intros nx.
  destruct (truthy nx); [|apply keepsLog_allocOnly, allocOnly_ret].
  apply keepsLog_bind; [apply keepsLog_allocOnly, allocOnly_optChain|]. intros href.
  destruct href; try (apply keepsLog_allocOnly, allocOnly_throw).
  destruct (parseCursor s) as [[c|]|];
    first [apply keepsLog_allocOnly, allocOnly_ret
          | apply keepsLog_allocOnly, allocOnly_throw].
Qed.

Lemma keepsLog_setProp v k x : keepsLog (setProp v k x).
Proof.
  intros w w' r. unfold setProp.
  destruct v as [| | | | |l]; try (intros H; now inversion H).
  destruct (heap_of w !! l) as [[fs|xs]|]; intros H; now inversion H.
Qed.

Lemma keepsLog_iterate v : keepsLog (iterate v).
Proof. apply keepsLog_allocOnly, allocOnly_iterate. Qed.

Lemma log_bind_keeps {A B} (c : M A) (k : A -> M B) w :
  (forall a, keepsLog (k a)) -> log (fst (bind c k w)) = log (fst (c w)).
Proof.
  intros Hk. unfold bind. destruct (c w) as [w1 [a|e]] eqn:E; simpl; [|reflexivity].
  destruct (k a w1) as [w2 r] eqn:E2. simpl. exact (Hk _ _ _ _ E2).
Qed.

Lemma gen_step_log fetchPage key s w :
  log (fst (gen_step parseCursor fetchPage key s w))
  = match s with
    | GFetch params => log (fst (fetchPage params w))
    | _ => log w
    end.
Proof.
  destruct s as [params|params resp [|x rest]|]; simpl; try reflexivity.
  - rewrite log_bind_keeps; [reflexivity|]. intros resp.
    apply keepsLog_bind; [apply keepsLog_allocOnly, allocOnly_getProp|]. intros found.
    apply keepsLog_bind.
    + destruct (truthy found); [apply keepsLog_iterate|apply keepsLog_allocOnly, allocOnly_ret].
    + intros items. apply keepsLog_allocOnly, allocOnly_ret.
  - assert (Hk : keepsLog
      (let* next := nextCursor parseCursor resp in
       let* _s := setProp params "cursor" (if truthy next then next else VStr "") in
       if truthy next then ret (ESilent, GFetch params) else ret (EReturn, GDone))).
    { apply keepsLog_bind; [apply keepsLog_nextCursor|]. intros next.
      apply keepsLog_bind; [apply keepsLog_setProp|]. intros _.
      destruct (truthy next); apply keepsLog_allocOnly, allocOnly_ret. }
    match goal with |- log (fst (?c w)) = _ => destruct (c w) as [w1 r] eqn:E end.
    simpl. exact (Hk _ _ _ E).
Qed.

(** X10: the listings fetch on demand. A step of
    [listAllConversations] or [listAllMembers] sends a request only when
    it stands before a fetch, and then exactly the one page request with
    the filter as it is at that moment; handing over an item of a
    fetched page sends nothing and leaves the store alone. *)
Theorem listing_fetches_on_demand (conversationId : string) (s : gen_state)
  (w : world) :
  let stepC := listAllConversations_step camelCase snakeCase apiHost parseCursor server in
  let stepM := listAllMembers_step camelCase snakeCase apiHost parseCursor server
                 conversationId in
  match s with
  | GFetch params =>
      log (fst (stepC s w))
      = log w ++ [Request GET (apiHost ++ "/v1/conversations")
                    (Query (renameKeys snakeCase (fieldsOf (heap_of w) params)))]
      /\ log (fst (stepM s w))
         = log w ++ [Request GET
                       (apiHost ++ "/v1/conversations/" ++ conversationId ++ "/members")
                       (Query (renameKeys snakeCase (fieldsOf (heap_of w) params)))]
  | GItems params resp (x :: rest) =>
      stepC s w = (w, Ok (EYield x, GItems params resp rest))
      /\ stepM s w = (w, Ok (EYield x, GItems params resp rest))
  | _ => log (fst (stepC s w)) = log w /\ log (fst (stepM s w)) = log w
  end.
Proof.
  intros stepC stepM. subst stepC stepM.
  unfold listAllConversations_step, listAllMembers_step.
  destruct s as [params|params resp [|x rest]|].
  - rewrite !gen_step_log. split.
    + apply getConversationPage_log.
    + apply getMemberPage_log.
  - rewrite !gen_step_log. split; reflexivity.
  - split; reflexivity.
  - split; reflexivity.
Qed.

(** X11: a next link without a cursor. When the page just delivered
    has a next link whose address carries no [cursor] parameter, both
    listings set the cursor of the filter to the empty string and end;
    when the address is not a URL at all, they fail with a TypeError
    and the filter is left as it was. *)
Theorem unusable_next_link_ends_listing (conversationId : string)
  (p : nat) (fs : list (string * val)) (resp links nx : val) (s : string)
  (w : world) :
  heap_of w !! p = Some (CObj fs) ->
  oget (fieldsOf (heap_of w) resp) "links" = Some links ->
  oget (fieldsOf (heap_of w) links) "next" = Some nx ->
  truthy nx = true ->
  oget (fieldsOf (heap_of w) nx) "href" = Some (VStr s) ->
  let stepC := listAllConversations_step camelCase snakeCase apiHost parseCursor server in
  let stepM := listAllMembers_step camelCase snakeCase apiHost parseCursor server
                 conversationId in
  (parseCursor s = Some None ->
   let w' := World (<[p := CObj (oset fs "cursor" (VStr ""))]> (heap_of w)) (log w) in
   stepC (GItems (VRef p) resp []) w = (w', Ok (EReturn, GDone))
   /\ stepM (GItems (VRef p) resp []) w = (w', Ok (EReturn, GDone)))
  /\ (parseCursor s = None ->
      stepC (GItems (VRef p) resp []) w = (w, Throw TypeError)
      /\ stepM (GItems (VRef p) resp []) w = (w, Throw TypeError)).
Proof.
  intros Hp Hl Hn Ht Hh stepC stepM.
  pose proof (nextCursor_link parseCursor resp links nx s w Hl Hn Ht Hh) as Hnext.
  split; intros Hc; rewrite Hc in Hnext.
  - intros w'. split;
      exact (step_after_items parseCursor _ _ p fs resp VNull w Hp Hnext).
  - subst stepC stepM. unfold listAllConversations_step, listAllMembers_step.
    simpl gen_step. rewrite (bind_fails _ _ _ _ _ Hnext). split; reflexivity.
Qed.

(** X13: where [updateConversation] sends its request. The address
    ends in the [id] of the conversation, read before the transcoding
    drops it from the body; a conversation without [id] is sent to
    [.../undefined], without any check. *)
Theorem updateConversation_puts_to_id w conversation tfs :
  denotes w conversation (TObj tfs) ->
  (forall k0, In k0 (okeys tfs) -> ~ In k0 serverOwned -> snakeCase k0 <> "id") ->
  exists w1 body,
    conversationToApi snakeCase conversation w = (w1, Ok body)
    /\ oget (fieldsOf (heap_of w1) body) "id" = None
    /\ (forall i, tprop tfs "id" = TStr i ->
          log (fst (updateConversation camelCase snakeCase apiHost server numberText conversation w))
          = log w ++ [Request PUT (apiHost ++ "/v1/conversations/" ++ i) (Body body)])
    /\ (tprop tfs "id" = TUndef ->
          log (fst (updateConversation camelCase snakeCase apiHost server numberText conversation w))
          = log w ++ [Request PUT (apiHost ++ "/v1/conversations/undefined")
                        (Body body)]).
Proof.
  intros Hd Hsep.
  destruct (conversationToApi_keys snakeCase w conversation tfs Hd)
    as (w1 & body & Hrun & Hkeys).
  exists w1, body.
  assert (Hlog : log (fst (updateConversation camelCase snakeCase apiHost server numberText
                             conversation w))
                 = log w ++ [Request PUT
                               (apiHost ++ "/v1/conversations/"
                                  ++ idText numberText (heap_of w)
                                       (orUndef (oget (fieldsOf (heap_of w) conversation)
                                                        "id")))
                               (Body body)]).
  { unfold updateConversation.
    destruct (conversationToApi_nonnull _ _ _ _ _ Hrun) as [Hn1 Hn2].
    rewrite (bind_run _ _ _ _ _ (getProp_ok _ _ _ Hn1 Hn2)).
    rewrite (bind_run _ _ _ _ _ (templateText_run _ _ _)).
    rewrite (bind_run _ _ _ _ _ Hrun).
    rewrite apiToConversation_after_send.
    now rewrite (proj2 (conversationToApi_grows _ _ _ _ _ Hrun)). }
  destruct (denotes_obj_inv _ _ _ Hd) as (l & fs & n & -> & Hlen & Hl & Hf).
  pose proof (fieldsDenote_tprop _ _ _ _ "id" Hf) as Hid.
  simpl fieldsOf in Hlog. rewrite Hl in Hlog.
  conjs.
  - exact Hrun.
  - apply oget_None. intros Hin.
    destruct (Hkeys _ Hin) as (k0 & Hk0 & Hnot & E).
    symmetry in E. exact (Hsep k0 Hk0 Hnot E).
  - intros i Hi. rewrite Hi in Hid. apply reify_str_inv in Hid.
    now rewrite Hid in Hlog.
  - intros Hi. rewrite Hi in Hid.
    rewrite (proj1 (reify_leaf_inv _ _ _ _ Hid) eq_refl) in Hlog. exact Hlog.
Qed.
End Operations.

Lemma allocTree_flat_items items : forall w,
  Forall flat items ->
  exists w',
    traverse allocTree (map TObj items) w
    = (w', Ok (map VRef (seq (length (heap_of w)) (length items))))
    /\ log w' = log w
    /\ length (heap_of w') = length (heap_of w) + length items
    /\ (forall l c, heap_of w !! l = Some c -> heap_of w' !! l = Some c)
    /\ (forall j item, items !! j = Some item ->
          heap_of w' !! (length (heap_of w) + j) = Some (CObj (primFields item))).
Proof.
  induction items as [|item r IH]; intros w Hf.
  - exists w. simpl. conjs; auto.
    intros j item Hj. rewrite lookup_nil in Hj. discriminate.
  - inversion Hf as [|? ? Hi Hr]; subst.
    set (w1 := World (heap_of w ++ [CObj (primFields item)]) (log w)).
    destruct (IH w1 Hr) as (w' & Hrun & Hlog & Hlen & Hkeep & Hcells).
    exists w'. simpl map. simpl traverse.
    rewrite (bind_run _ _ _ _ _ (allocTree_flat item w Hi)). fold w1.
    rewrite (bind_run _ _ _ _ _ Hrun).
    assert (Hl1 : length (heap_of w1) = S (length (heap_of w))).
    { simpl. rewrite length_app. simpl. lia. }
    conjs.
    + unfold ret. rewrite Hl1. reflexivity.
    + exact Hlog.
    + rewrite Hlen, Hl1. simpl. lia.
    + intros l c Hl. apply Hkeep. simpl. now apply lookup_app_l_Some.
    + intros [|j] it Hj; simpl in Hj.
      * inversion Hj; subst it. rewrite Nat.add_0_r.
        apply Hkeep. simpl. apply lookup_alloc.
      * specialize (Hcells j it Hj). rewrite Hl1 in Hcells.
        replace (length (heap_of w) + S j) with (S (length (heap_of w)) + j) by lia.
        exact Hcells.
Qed.

Section FlatItems.
Variable camelCase : string -> string.

Lemma convert_flat_items items : forall a w,
  (forall j item, items !! j = Some item ->
     heap_of w !! (a + j) = Some (CObj (primFields item))) ->
  a + length items <= length (heap_of w) ->
  exists w',
    traverse (apiToConversation camelCase) (map VRef (seq a (length items))) w
    = (w', Ok (map VRef (seq (length (heap_of w)) (length items))))
    /\ log w' = log w
    /\ length (heap_of w') = length (heap_of w) + length items
    /\ (forall l c, heap_of w !! l = Some c -> l < a \/ a + length items <= l ->
          heap_of w' !! l = Some c)
    /\ (forall j item, items !! j = Some item ->
          heap_of w' !! (length (heap_of w) + j) = Some (converted camelCase item)).
Proof.
  induction items as [|item r IH]; intros a w Hcells Hlen.
  - exists w. simpl. conjs; auto.
    intros j item Hj. rewrite lookup_nil in Hj. discriminate.
  - simpl length in *.
    pose proof (Hcells 0 item eq_refl) as H0. rewrite Nat.add_0_r in H0.
    pose proof (apiToConversation_flat camelCase w a item H0) as Hrun1.
    set (w1 := World (<[a := CObj (odel (primFields item) "_links")]> (heap_of w)
                        ++ [CObj (renameKeys camelCase (odel (primFields item) "_links"))])
                 (log w)) in *.
    assert (Hl1 : length (heap_of w1) = S (length (heap_of w))).
    { simpl. rewrite length_app, length_insert. simpl. lia. }
    assert (Hother : forall l c, heap_of w !! l = Some c -> l <> a ->
              heap_of w1 !! l = Some c).
    { intros l c Hl Hne. simpl. apply lookup_app_l_Some.
      rewrite list_lookup_insert_ne by congruence. exact Hl. }
    destruct (IH (S a) w1) as (w' & Hrun & Hlog & Hlen' & Hkeep & Hconv).
    { intros j it Hj. apply Hother; [|lia].
      replace (S a + j) with (a + S j) by lia. now apply Hcells. }
    { rewrite Hl1. lia. }
    exists w'. simpl seq. simpl map. simpl traverse.
    rewrite (bind_run _ _ _ _ _ Hrun1). rewrite (bind_run _ _ _ _ _ Hrun).
    conjs.
    + unfold ret. rewrite Hl1. reflexivity.
    + exact Hlog.
    + rewrite Hlen', Hl1. lia.
    + intros l c Hl Hout. apply Hkeep; [apply Hother; [exact Hl | lia] | lia].
    + intros [|j] it Hj; simpl in Hj.
      * inversion Hj; subst it. rewrite Nat.add_0_r.
        apply Hkeep; [|lia]. simpl.
        replace (length (heap_of w))
          with (length (<[a := CObj (odel (primFields item) "_links")]> (heap_of w)))
          by apply length_insert.
        apply lookup_alloc.
      * specialize (Hconv j it Hj). rewrite Hl1 in Hconv.
        replace (length (heap_of w) + S j) with (S (length (heap_of w)) + j) by lia.
        exact Hconv.
Qed.
End FlatItems.

Section DrainItems.
Variable parseCursor : string -> option (option string).
Variable fetchPage : val -> M val.
Variable key : string.

Lemma drain_items params resp vs : forall n w w' r,
  drain parseCursor fetchPage key n (GItems params resp []) w = (w', Ok r) ->
  drain parseCursor fetchPage key (length vs + n) (GItems params resp vs) w
  = (w', Ok (option_map (app vs) r)).
Proof.
  induction vs as [|v rest IH]; intros n w w' r H; cbn [length Nat.add].
  - simpl. rewrite H. destruct r; reflexivity.
  - rewrite (drain_yield parseCursor fetchPage key (length rest + n)
               (GItems params resp (v :: rest)) (GItems params resp rest) v w w w'
               (option_map (app rest) r) eq_refl (IH _ _ _ _ H)).
    destruct r; reflexivity.
Qed.
End DrainItems.

Ltac lookup_cell :=
  simpl heap_of; repeat first [apply lookup_alloc | apply lookup_app_l_Some].

Section Fetch.
Variables camelCase snakeCase : string -> string.
Variable apiHost : string.
Variable parseCursor : string -> option (option string).
Variable server : list request -> res tree.

Local Arguments apiToConversation : simpl never.
Local Arguments bind {A B} c k w /.
Local Arguments ret {A} a w /.
Local Arguments throw {A} e w /.
Local Arguments alloc c w /.
Local Arguments getProp v k w /.
Local Arguments optChain v k w /.
Local Arguments setProp v k x w /.
Local Arguments ownFields v w /.
Local Arguments iterate v w /.
Local Arguments arrayMap f v w /.
Local Arguments send server m u p w /.
Local Arguments transformObjectKeys tf v deep w /.
Local Arguments getConversationPage camelCase snakeCase apiHost server filter w /.
Local Arguments nextCursor parseCursor resp w /.

Lemma parse_flat_page items self next w :
  Forall flat items ->
  exists w1 data emb arr a0 lk ls ln,
    allocTree (conversationPage (map TObj items) (pageLinks self next)) w
    = (w1, Ok (VRef data))
    /\ log w1 = log w
    /\ (forall l c, heap_of w !! l = Some c -> heap_of w1 !! l = Some c)
    /\ length (heap_of w) <= a0
    /\ heap_of w1 !! data
       = Some (CObj [("page_size", VNum 10); ("_embedded", VRef emb);
                     ("_links", VRef lk)])
    /\ heap_of w1 !! emb = Some (CObj [("conversations", VRef arr)])
    /\ heap_of w1 !! arr = Some (CArr (map VRef (seq a0 (length items))))
    /\ (forall j item, items !! j = Some item ->
          heap_of w1 !! (a0 + j) = Some (CObj (primFields item)))
    /\ heap_of w1 !! lk
       = Some (CObj (("self", VRef ls)
                     :: match next with
                        | Some _ => [("next", VRef ln)]
                        | None => []
                        end))
    /\ a0 + length items <= arr
    /\ a0 + length items <= data
    /\ a0 + length items <= lk
    /\ a0 + length items <= ls
    /\ heap_of w1 !! ls = Some (CObj [("href", VStr self)])
    /\ (forall href, next = Some href ->
          a0 + length items <= ln
          /\ heap_of w1 !! ln = Some (CObj [("href", VStr href)])).
Proof.
  intros Hflat.
  destruct (allocTree_flat_items items w Hflat)
    as (wA & HrunA & HlogA & HlenA & HkeepA & HcellsA).
  unfold conversationPage, pageLinks, linkTo. cbn. rewrite HrunA.
  destruct next as [href|]; cbn.
  - eexists _, _, _, _, (length (heap_of w)), _, _, _.
    split; [reflexivity|]. simpl heap_of. simpl log. conjs.
    + exact HlogA.
    + intros l c Hl. repeat apply lookup_app_l_Some. now apply HkeepA.
    + lia.
    + lookup_cell.
    + lookup_cell.
    + lookup_cell.
    + intros j item Hj. repeat apply lookup_app_l_Some. now apply HcellsA.
    + lookup_cell.
    + rewrite <- HlenA. reflexivity.
    + rewrite !length_app. simpl. lia.
    + rewrite !length_app. simpl. lia.
    + rewrite !length_app. simpl. lia.
    + lookup_cell.
    + intros href0 E. inversion E; subst href0. split; [|lookup_cell].
      rewrite !length_app. simpl. lia.
  - eexists _, _, _, _, (length (heap_of w)), _, _, 0.
    split; [reflexivity|]. simpl heap_of. simpl log. conjs.
    + exact HlogA.
    + intros l c Hl. repeat apply lookup_app_l_Some. now apply HkeepA.
    + lia.
    + lookup_cell.
    + lookup_cell.
    + lookup_cell.
    + intros j item Hj. repeat apply lookup_app_l_Some. now apply HcellsA.
    + lookup_cell.
    + rewrite <- HlenA. reflexivity.
    + rewrite !length_app. simpl. lia.
    + rewrite !length_app. simpl. lia.
    + rewrite !length_app. simpl. lia.
    + lookup_cell.
    + intros href0 E. discriminate.
Qed.

Lemma getConversationPage_flat p fs items self next w :
  heap_of w !! p = Some (CObj fs) ->
  Forall flat items ->
  (forall rq, server (log w ++ [rq])
     = Ok (conversationPage (map TObj items) (pageLinks self next))) ->
  exists w2 resp carr c0 lk ls ln,
    getConversationPage camelCase snakeCase apiHost server (VRef p) w
    = (w2, Ok (VRef resp))
    /\ length (heap_of w) <= c0
    /\ (forall l c, heap_of w !! l = Some c -> heap_of w2 !! l = Some c)
    /\ heap_of w2 !! resp
       = Some (CObj [("conversations", VRef carr); ("pageSize", VNum 10);
                     ("links", VRef lk)])
    /\ heap_of w2 !! carr = Some (CArr (map VRef (seq c0 (length items))))
    /\ (forall j item, items !! j = Some item ->
          heap_of w2 !! (c0 + j) = Some (converted camelCase item))
    /\ heap_of w2 !! lk
       = Some (CObj (("self", VRef ls)
                     :: match next with
                        | Some _ => [("next", VRef ln)]
                        | None => []
                        end))
    /\ heap_of w2 !! ls = Some (CObj [("href", VStr self)])
    /\ (forall href, next = Some href ->
          heap_of w2 !! ln = Some (CObj [("href", VStr href)])).
Proof.
  intros Hp Hflat Hs.
  set (q := renameKeys snakeCase fs).
  set (w0 := World (heap_of w ++ [CObj q]) (log w)).
  set (rq := Request GET (apiHost ++ "/v1/conversations") (Query q)).
  destruct (parse_flat_page items self next (World (heap_of w0) (log w0 ++ [rq])) Hflat)
    as (w1 & data & emb & arr & a0 & lk & ls & ln & Hparse & Hlog1 & Hkeep1 & Ha0
        & Hdata & Hemb & Harr & Hitems & Hlk & Harr_le & Hdata_le & Hlk_le & Hls_le
        & Hls & Hln).
  simpl heap_of in Hkeep1, Ha0, Hitems.
  rewrite length_app in Ha0. simpl in Ha0.
  assert (Hsend : send server GET (apiHost ++ "/v1/conversations") (Query q) w0
                  = (w1, Ok (VRef data))).
  { unfold send. simpl log. rewrite Hs. exact Hparse. }
  assert (Hbound : a0 + length items <= length (heap_of w1)).
  { apply lookup_lt_Some in Harr. lia. }
  destruct (convert_flat_items camelCase items a0 w1 Hitems Hbound)
    as (w2 & Hconv & Hlog2 & Hlen2 & Hkeep2 & Hcells2).
  set (pcell := CObj [("conversations", VRef (length (heap_of w2)));
                      ("pageSize", VNum 10); ("links", VRef lk)]).
  exists (World ((heap_of w2 ++ [CArr (map VRef (seq (length (heap_of w1)) (length items)))])
                   ++ [pcell]) (log w2)),
    (length (heap_of w2 ++ [CArr (map VRef (seq (length (heap_of w1)) (length items)))])),
    (length (heap_of w2)), (length (heap_of w1)), lk, ls, ln.
  assert (Hdata2 : heap_of w2 !! data
                   = Some (CObj [("page_size", VNum 10); ("_embedded", VRef emb);
                                 ("_links", VRef lk)])).
  { apply Hkeep2; [exact Hdata | lia]. }
  conjs.
  - unfold getConversationPage, snakeCaseObjectKeys.
    rewrite (bind_run _ _ _ _ _ (shallow_run _ _ _)).
    simpl fieldsOf at 1. rewrite Hp. fold q w0.
    unfold bind at 1. unfold ownFields at 1.
    simpl fieldsOf. rewrite lookup_alloc. fold w0.
    rewrite (bind_run _ _ _ _ _ Hsend).
    rewrite (bind_run _ _ _ _ _ (getProp_ref _ _ _)).
    simpl fieldsOf. rewrite Hdata. cbn [oget orUndef String.eqb Ascii.eqb Bool.eqb].
    rewrite (bind_run _ _ _ _ _ (optChain_ok _ _ _)).
    simpl fieldsOf. rewrite Hemb. cbn [oget orUndef String.eqb Ascii.eqb Bool.eqb truthy].
    unfold arrayMap at 1. unfold bind at 1. rewrite Harr. rewrite Hconv.
    unfold bind at 1. unfold alloc at 1.
    rewrite (bind_run _ _ _ _ _ (getProp_ref _ _ _)).
    simpl fieldsOf.
    rewrite (lookup_app_l_Some _ _ _ _ Hdata2).
    cbn [oget orUndef String.eqb Ascii.eqb Bool.eqb].
    rewrite (bind_run _ _ _ _ _ (getProp_ref _ _ _)).
    simpl fieldsOf.
    rewrite (lookup_app_l_Some _ _ _ _ Hdata2).
    cbn [oget orUndef String.eqb Ascii.eqb Bool.eqb].
    reflexivity.
  - apply lookup_lt_Some in Harr. lia.
  - intros l c Hl. simpl. apply lookup_app_l_Some, lookup_app_l_Some.
    assert (Hl1 : heap_of w1 !! l = Some c).
    { apply Hkeep1. now apply lookup_app_l_Some. }
    apply Hkeep2; [exact Hl1|]. left. apply lookup_lt_Some in Hl. lia.
  - simpl. apply lookup_alloc.
  - simpl. apply lookup_app_l_Some, lookup_alloc.
  - intros j item Hj. simpl. apply lookup_app_l_Some, lookup_app_l_Some.
    now apply Hcells2.
  - simpl. apply lookup_app_l_Some, lookup_app_l_Some.
    apply Hkeep2; [exact Hlk | lia].
  - simpl. apply lookup_app_l_Some, lookup_app_l_Some.
    apply Hkeep2; [exact Hls | lia].
  - intros href E. simpl. apply lookup_app_l_Some, lookup_app_l_Some.
    destruct (Hln href E) as [Hle Hc]. apply Hkeep2; [exact Hc | lia].
Qed.
End Fetch.

Lemma oset_oset {A} (fs : list (string * A)) k a b :
  oset (oset fs k a) k b = oset fs k b.
Proof.
  induction fs as [|[k1 v1] r IH]; simpl.
  - now rewrite String.eqb_refl.
  - destruct (String.eqb k1 k) eqn:E; simpl.
    + now rewrite String.eqb_refl.
    + now rewrite E, IH.
Qed.

Lemma Forall2_seq {A} (P : nat -> A -> Prop) (xs : list A) : forall c0,
  (forall j x, xs !! j = Some x -> P (c0 + j) x) ->
  Forall2 P (seq c0 (length xs)) xs.
Proof.
  induction xs as [|x r IH]; intros c0 H; simpl; constructor.
  - specialize (H 0 x eq_refl). now rewrite Nat.add_0_r in H.
  - apply IH. intros j y Hj. specialize (H (S j) y Hj).
    now replace (S c0 + j) with (c0 + S j) by lia.
Qed.

Lemma kept_length (h h' : heap) :
  (forall l c, h !! l = Some c -> h' !! l = Some c) -> length h <= length h'.
Proof.
  intros H. destruct (le_lt_dec (length h) (length h')) as [Hle|Hlt]; [exact Hle|].
  destruct (lookup_lt_is_Some_2 h (length h') Hlt) as [c Hc].
  apply H, lookup_lt_Some in Hc. lia.
Qed.

Section AllPages.
Variables camelCase snakeCase : string -> string.
Variable apiHost : string.
Variable parseCursor : string -> option (option string).
Variable server : list request -> res tree.

Local Notation fetch := (getConversationPage camelCase snakeCase apiHost server).
Local Notation url := (apiHost ++ "/v1/conversations")%string.

Lemma fetch_step p fs items self next w :
  heap_of w !! p = Some (CObj fs) ->
  Forall flat items ->
  (forall rq, server (log w ++ [rq])
     = Ok (conversationPage (map TObj items) (pageLinks self next))) ->
  exists w1 resp c0,
    gen_step parseCursor fetch "conversations" (GFetch (VRef p)) w
    = (w1, Ok (ESilent, GItems (VRef p) (VRef resp)
                 (map VRef (seq c0 (length items)))))
    /\ length (heap_of w) <= c0
    /\ log w1 = log w ++ [Request GET url (Query (renameKeys snakeCase fs))]
    /\ (forall l c, heap_of w !! l = Some c -> heap_of w1 !! l = Some c)
    /\ (forall j item, items !! j = Some item ->
          heap_of w1 !! (c0 + j) = Some (converted camelCase item))
    /\ nextCursor parseCursor (VRef resp) w1
       = (w1, match next with
              | None => Ok VNull
              | Some href =>
                  match parseCursor href with
                  | Some (Some c) => Ok (VStr c)
                  | Some None => Ok VNull
                  | None => Throw TypeError
                  end
              end).
Proof.
  intros Hp Hflat Hs.
  destruct (getConversationPage_flat camelCase snakeCase apiHost server
              p fs items self next w Hp Hflat Hs)
    as (w2 & resp & carr & c0 & lk & ls & ln & Hrun & Hc0 & Hkeep & Hresp & Hcarr
        & Hcells & Hlk & Hls & Hln).
  exists w2, resp, c0. conjs.
  - unfold gen_step. rewrite (bind_run _ _ _ _ _ Hrun).
    rewrite (bind_run _ _ _ _ _ (getProp_ref _ _ _)).
    simpl fieldsOf. rewrite Hresp.
    cbn [oget orUndef String.eqb Ascii.eqb Bool.eqb truthy].
    unfold iterate at 1. unfold bind at 1. rewrite Hcarr. reflexivity.
  - exact Hc0.
  - pose proof (getConversationPage_log camelCase snakeCase apiHost server (VRef p) w)
      as Hlog.
    rewrite Hrun in Hlog. simpl in Hlog. rewrite Hp in Hlog. exact Hlog.
  - exact Hkeep.
  - exact Hcells.
  - assert (Hl : oget (fieldsOf (heap_of w2) (VRef resp)) "links" = Some (VRef lk)).
    { simpl. rewrite Hresp. reflexivity. }
    destruct next as [href|].
    + pose proof (Hln href eq_refl) as Hn.
      eapply (nextCursor_link parseCursor (VRef resp) (VRef lk) (VRef ln) href w2 Hl).
      * simpl. rewrite Hlk. reflexivity.
      * reflexivity.
      * simpl. rewrite Hn. reflexivity.
    + apply (nextCursor_last parseCursor (VRef resp) (VRef lk) w2 Hl).
      simpl. rewrite Hlk. reflexivity.
Qed.

Lemma drain_pages (self : string) (p : nat) (lastItems : list (list (string * tree))) :
  Forall flat lastItems ->
  forall (pages : list wirePage) (fs : list (string * val)) (w : world),
  heap_of w !! p = Some (CObj fs) ->
  Forall (fun pg => Forall flat (page_items pg)
                    /\ parseCursor (page_href pg) = Some (Some (page_cursor pg))
                    /\ page_cursor pg <> "") pages ->
  (forall i pg rqs, pages !! i = Some pg -> length rqs = S i ->
     server (log w ++ rqs)
     = Ok (conversationPage (map TObj (page_items pg))
             (pageLinks self (Some (page_href pg))))) ->
  (forall rqs, length rqs = S (length pages) ->
     server (log w ++ rqs)
     = Ok (conversationPage (map TObj lastItems) (pageLinks self None))) ->
  exists fuel w' cs,
    drain parseCursor fetch "conversations" fuel (GFetch (VRef p)) w
    = (w', Ok (Some (map VRef cs)))
    /\ Forall2 (fun c item => length (heap_of w) <= c
                              /\ heap_of w' !! c = Some (converted camelCase item))
         cs (concat (map page_items pages) ++ lastItems)
    /\ log w' = log w ++ pageRequests url snakeCase fs (map page_cursor pages)
    /\ heap_of w' !! p = Some (CObj (oset fs "cursor" (VStr "")))
    /\ (forall l c, l <> p -> heap_of w !! l = Some c -> heap_of w' !! l = Some c).
Proof.
  intros Hlast pages.
  induction pages as [|pg rest IH]; intros fs w Hp Hpages Hsrv Hend.
  - destruct (fetch_step p fs lastItems self None w Hp Hlast) as
      (w1 & resp & c0 & Hstep & Hc0 & Hlog & Hkeep & Hcells & Hnext).
    { intros rq. apply Hend. reflexivity. }
    pose proof (step_after_items parseCursor fetch "conversations" p fs (VRef resp)
                  VNull w1 (Hkeep _ _ Hp) Hnext) as Hfin.
    cbn [truthy] in Hfin.
    set (w2 := World (<[p := CObj (oset fs "cursor" (VStr ""))]> (heap_of w1)) (log w1))
      in *.
    pose proof (drain_return parseCursor fetch "conversations" 0 _ _ _ _ Hfin) as D.
    apply (drain_items parseCursor fetch "conversations" (VRef p) (VRef resp)
             (map VRef (seq c0 (length lastItems)))) in D.
    rewrite <- (drain_silent _ _ _ _ _ _ _ _ Hstep) in D.
    cbn [option_map] in D. rewrite app_nil_r in D.
    assert (Hplt : p < length (heap_of w)) by (eapply lookup_lt_Some; eassumption).
    eexists _, w2, (seq c0 (length lastItems)). conjs.
    + exact D.
    + simpl. apply Forall2_seq. intros j item Hj. split; [lia|].
      unfold w2. simpl. rewrite list_lookup_insert_ne by lia. now apply Hcells.
    + unfold w2. simpl. exact Hlog.
    + unfold w2. simpl. apply list_lookup_insert_eq.
      eapply lookup_lt_Some. apply Hkeep. exact Hp.
    + intros l c Hne Hl. unfold w2. simpl.
      rewrite list_lookup_insert_ne by congruence. now apply Hkeep.
  - inversion Hpages as [|? ? (Hflat & Hcur & Hne) Hrest]; subst.
    destruct (fetch_step p fs (page_items pg) self (Some (page_href pg)) w Hp Hflat) as
      (w1 & resp & c0 & Hstep & Hc0 & Hlog & Hkeep & Hcells & Hnext).
    { intros rq. apply (Hsrv 0 pg [rq]); reflexivity. }
    rewrite Hcur in Hnext.
    pose proof (step_after_items parseCursor fetch "conversations" p fs (VRef resp)
                  (VStr (page_cursor pg)) w1 (Hkeep _ _ Hp) Hnext) as Hfin.
    assert (Htr : truthy (VStr (page_cursor pg)) = true).
    { simpl. destruct (String.eqb (page_cursor pg) "") eqn:E; [|reflexivity].
      apply String.eqb_eq in E. contradiction. }
    rewrite Htr in Hfin.
    set (fs' := oset fs "cursor" (VStr (page_cursor pg))) in *.
    set (w2 := World (<[p := CObj fs']> (heap_of w1)) (log w1)) in *.
    assert (Hplt : p < length (heap_of w)) by (eapply lookup_lt_Some; eassumption).
    assert (Hp1 : p < length (heap_of w1)).
    { eapply lookup_lt_Some. apply Hkeep. exact Hp. }
    destruct (IH fs' w2) as (fuel & w' & cs & D & Hcs & Hlog' & Hp' & Hframe).
    { unfold w2. simpl. now apply list_lookup_insert_eq. }
    { exact Hrest. }
    { intros i pg' rqs Hi Hlen. unfold w2. simpl log. rewrite Hlog.
      rewrite <- app_assoc. apply (Hsrv (S i) pg'); [exact Hi|].
      simpl. now rewrite Hlen. }
    { intros rqs Hlen. unfold w2. simpl log. rewrite Hlog.
      rewrite <- app_assoc. apply Hend. simpl. now rewrite Hlen. }
    rewrite <- (drain_silent _ _ _ _ _ _ _ _ Hfin) in D.
    apply (drain_items parseCursor fetch "conversations" (VRef p) (VRef resp)
             (map VRef (seq c0 (length (page_items pg))))) in D.
    rewrite <- (drain_silent _ _ _ _ _ _ _ _ Hstep) in D.
    cbn [option_map] in D. rewrite <- map_app in D.
    eexists _, w', (seq c0 (length (page_items pg)) ++ cs). conjs.
    + exact D.
    + simpl. rewrite <- app_assoc. apply Forall2_app.
      * apply Forall2_seq. intros j item Hj. split; [lia|].
        apply Hframe; [lia|]. unfold w2. simpl.
        rewrite list_lookup_insert_ne by lia. now apply Hcells.
      * eapply Forall2_impl; [exact Hcs|]. intros c item [Hle Hc].
        split; [|exact Hc]. unfold w2 in Hle. simpl in Hle.
        rewrite length_insert in Hle. apply kept_length in Hkeep. lia.
    + rewrite Hlog'. unfold w2. simpl log. rewrite Hlog. rewrite <- app_assoc.
      unfold pageRequests. simpl. do 3 f_equal.
      apply map_ext. intros c. unfold fs'. now rewrite oset_oset.
    + rewrite Hp'. unfold fs'. now rewrite oset_oset.
    + intros l c Hl Hlc. apply Hframe; [exact Hl|]. unfold w2. simpl.
      rewrite list_lookup_insert_ne by congruence. now apply Hkeep.
Qed.

(** X12: [listAllConversations] over any number of pages. When the
    server answers the successive page requests with pages of items
    with primitive properties, each but the last with a next link
    carrying a non-empty cursor, the listing delivers the converted
    items of all pages in order and ends; it sends one request per
    page, the first with the filter as given and each later one with
    the cursor of the page before; the filter ends with the cursor
    [''] and no other existing object is changed. *)
Theorem all_pages_listed_in_order (pages : list wirePage)
  (lastItems : list (list (string * tree))) (self : string)
  (p : nat) (fs : list (string * val)) (w : world) :
  heap_of w !! p = Some (CObj fs) ->
  Forall (fun pg => Forall flat (page_items pg)
                    /\ parseCursor (page_href pg) = Some (Some (page_cursor pg))
                    /\ page_cursor pg <> "") pages ->
  Forall flat lastItems ->
  (forall i pg rqs, pages !! i = Some pg -> length rqs = S i ->
     server (log w ++ rqs)
     = Ok (conversationPage (map TObj (page_items pg))
             (pageLinks self (Some (page_href pg))))) ->
  (forall rqs, length rqs = S (length pages) ->
     server (log w ++ rqs)
     = Ok (conversationPage (map TObj lastItems) (pageLinks self None))) ->
  exists fuel w' cs,
    collectAllConversations camelCase snakeCase apiHost parseCursor server fuel
      (VRef p) w
    = (w', Ok (Some (map VRef cs)))
    /\ Forall2 (fun c item => heap_of w' !! c = Some (converted camelCase item))
         cs (concat (map page_items pages) ++ lastItems)
    /\ log w'
       = log w ++ pageRequests (apiHost ++ "/v1/conversations") snakeCase fs
                    (map page_cursor pages)
    /\ heap_of w' !! p = Some (CObj (oset fs "cursor" (VStr "")))
    /\ (forall l c, l <> p -> heap_of w !! l = Some c -> heap_of w' !! l = Some c).
Proof.
  intros Hp Hpages Hlast Hsrv Hend.
  destruct (drain_pages self p lastItems Hlast pages fs w Hp Hpages Hsrv Hend)
    as (fuel & w' & cs & D & Hcs & Hlog & Hp' & Hframe).
  exists fuel, w', cs. conjs; try assumption.
  eapply Forall2_impl; [exact Hcs|]. intros c item [_ Hc]. exact Hc.
Qed.
End AllPages.

Lemma closedFrom_alloc a h c :
  closedFrom a h -> Forall (freshFrom a) (cellVals c) -> closedFrom a (h ++ [c]).
Proof.
  intros Hc Hv l c' Hl Hlk.
  destruct (lt_dec l (length h)) as [Hlt|Hge].
  - rewrite lookup_app_l in Hlk by assumption. eapply Hc; eassumption.
  - assert (l = length h).
    { apply lookup_lt_Some in Hlk. rewrite length_app in Hlk. simpl in Hlk. lia. }
    subst l. rewrite lookup_alloc in Hlk. inversion Hlk; subst. exact Hv.
Qed.

Lemma Forall_fresh_combine a (ks : list string) vs :
  Forall (freshFrom a) vs -> Forall (freshFrom a) (map snd (combine ks vs)).
Proof.
  intros H. revert ks. induction H as [|v r Hv Hr IH]; intros [|k ks]; simpl;
    constructor; auto.
Qed.

Lemma allocTree_closed a : forall t w w' v,
  a <= length (heap_of w) -> closedFrom a (heap_of w) ->
  allocTree t w = (w', Ok v) ->
  freshFrom a v /\ closedFrom a (heap_of w').
Proof.
  induction t as [| | b | n | s | fs IH | xs IH] using tree_nested_ind;
    intros w w' v Ha Hc H;
    try (simpl in H; inversion H; subst; split; [exact I | exact Hc]).
  - simpl in H. run_bind H; [|discriminate].
    assert (Hfs : forall w w1 vs, a <= length (heap_of w) -> closedFrom a (heap_of w) ->
      traverse (fun kt : string * tree => let '(_, x) := kt in allocTree x) fs w = (w1, Ok vs) ->
      Forall (freshFrom a) vs /\ closedFrom a (heap_of w1) /\ a <= length (heap_of w1)).
    { clear - IH. induction IH as [|[k x] r Hx _ IHr]; intros w w1 vs Ha Hc H; simpl in H.
      - inversion H; subst. auto.
      - run_bind H; [|discriminate]. run_bind H; [|discriminate].
        inversion H; subst.
        destruct (Hx _ _ _ Ha Hc E) as [Hv Hc0].
        assert (Ha0 : a <= length (heap_of w0)).
        { apply allocOnly_allocTree, grows_length in E. lia. }
        destruct (IHr _ _ _ Ha0 Hc0 E0) as (Hvs & Hc1 & Ha1).
        conjs; [constructor; assumption | assumption | assumption]. }
    destruct (Hfs _ _ _ Ha Hc E) as (Hvs & Hc0 & Ha0).
    inversion H; subst. simpl. split; [exact Ha0|].
    apply closedFrom_alloc; [exact Hc0|]. simpl. now apply Forall_fresh_combine.
  - simpl in H. run_bind H; [|discriminate].
    assert (Hxs : forall w w1 vs, a <= length (heap_of w) -> closedFrom a (heap_of w) ->
      traverse allocTree xs w = (w1, Ok vs) ->
      Forall (freshFrom a) vs /\ closedFrom a (heap_of w1) /\ a <= length (heap_of w1)).
    { clear - IH. induction IH as [|x r Hx _ IHr]; intros w w1 vs Ha Hc H; simpl in H.
      - inversion H; subst. auto.
      - run_bind H; [|discriminate]. run_bind H; [|discriminate].
        inversion H; subst.
        destruct (Hx _ _ _ Ha Hc E) as [Hv Hc0].
        assert (Ha0 : a <= length (heap_of w0)).
        { apply allocOnly_allocTree, grows_length in E. lia. }
        destruct (IHr _ _ _ Ha0 Hc0 E0) as (Hvs & Hc1 & Ha1).
        conjs; [constructor; assumption | assumption | assumption]. }
    destruct (Hxs _ _ _ Ha Hc E) as (Hvs & Hc0 & Ha0).
    inversion H; subst. simpl. split; [exact Ha0|].
    apply closedFrom_alloc; [exact Hc0|]. exact Hvs.
Qed.

Lemma keptBelow_refl a w : keptBelow a w w.
Proof. intros l c _ H. exact H. Qed.

Lemma keptBelow_trans a w1 w2 w3 :
  keptBelow a w1 w2 -> keptBelow a w2 w3 -> keptBelow a w1 w3.
Proof. intros H1 H2 l c Hl H. apply H2; [exact Hl|]. now apply H1. Qed.

Lemma keptBelow_grows a w w' : grows w w' -> keptBelow a w w'.
Proof. intros Hg l c _ H. eapply grows_lookup; eassumption. Qed.

(** A field of a cell that is closed is fresh. *)
Lemma closed_field a h v k :
  closedFrom a h -> freshFrom a v -> freshFrom a (orUndef (oget (fieldsOf h v) k)).
Proof.
  intros Hc Hv. destruct v as [| | | | |l]; try exact I. simpl in *.
  destruct (h !! l) as [[fs|xs]|] eqn:Hl; try exact I.
  specialize (Hc l _ Hv Hl). simpl in Hc.
  destruct (oget fs k) as [x|] eqn:E; [|exact I]. simpl.
  clear Hl. induction fs as [|[k1 v1] r IH]; simpl in *; [discriminate|].
  inversion Hc; subst. destruct (String.eqb k1 k).
  - inversion E; subst. assumption.
  - now apply IH.
Qed.

Lemma getProp_closed a v k w w' x :
  getProp v k w = (w', Ok x) -> closedFrom a (heap_of w) -> freshFrom a v ->
  freshFrom a x.
Proof.
  intros H Hc Hv.
  assert (E : x = orUndef (oget (fieldsOf (heap_of w) v) k)).
  { unfold getProp in H. destruct v; now inversion H. }
  subst x. now apply closed_field.
Qed.

Section Frames.
Variables camelCase snakeCase : string -> string.
Variable apiHost : string.
Variable server : list request -> res tree.

Lemma apiToConversation_keptBelow a v w w' r :
  freshFrom a v -> apiToConversation camelCase v w = (w', r) -> keptBelow a w w'.
Proof.
  intros Hv H l c Hl Hc.
  apply apiToConversation_frame in H as [_ H].
  rewrite (H l c Hc). f_equal. unfold afterDeleteLinks.
  destruct v as [| | | | |r0]; try reflexivity. destruct c; [|reflexivity].
  simpl in Hv. destruct (Nat.eqb l r0) eqn:E; [|reflexivity].
  apply Nat.eqb_eq in E. lia.
Qed.

Lemma traverse_keptBelow a xs : forall w w' r,
  Forall (freshFrom a) xs ->
  traverse (apiToConversation camelCase) xs w = (w', r) -> keptBelow a w w'.
Proof.
  induction xs as [|x rest IH]; intros w w' r Hxs H; simpl in H.
  - inversion H; subst. apply keptBelow_refl.
  - inversion Hxs; subst.
    run_bind H; [|eapply apiToConversation_keptBelow; eassumption].
    apply (keptBelow_trans a w w0 w').
    + eapply apiToConversation_keptBelow; eassumption.
    + run_bind H.
      * inversion H; subst. eapply IH; eassumption.
      * eapply IH; eassumption.
Qed.

Lemma send_closed m u p w w' v :
  send server m u p w = (w', Ok v) ->
  freshFrom (length (heap_of w)) v /\ closedFrom (length (heap_of w)) (heap_of w').
Proof.
  unfold send. destruct (server (log w ++ [Request m u p])) as [t|e]; [|discriminate].
  intros H. eapply (allocTree_closed (length (heap_of w))) in H; [exact H | simpl; lia |].
  intros l c Hl Hc. simpl in Hc. apply lookup_lt_Some in Hc. lia.
Qed.

Lemma send_kept m u p w w' r :
  send server m u p w = (w', r) -> keptBelow (length (heap_of w)) w w'.
Proof.
  intros H l c _ Hc. apply send_frame in H as [_ Hp].
  eapply prefix_lookup_Some; eassumption.
Qed.

Lemma sent_then_converted_kept m u p w :
  keptBelow (length (heap_of w)) w
    (fst ((let* data := send server m u p in apiToConversation camelCase data) w)).
Proof.
  destruct ((let* data := send server m u p in apiToConversation camelCase data) w)
    as [w' r] eqn:H. simpl.
  run_bind H; [|eapply send_kept; eassumption].
  eapply keptBelow_trans; [eapply send_kept; eassumption|].
  destruct (send_closed _ _ _ _ _ _ E) as [Hv _].
  intros l c Hl Hc. eapply apiToConversation_keptBelow; eassumption.
Qed.

Lemma getConversationPage_kept filter w :
  keptBelow (length (heap_of w)) w
    (fst (getConversationPage camelCase snakeCase apiHost server filter w)).
Proof.
  destruct (getConversationPage camelCase snakeCase apiHost server filter w)
    as [w' r] eqn:H. simpl.
  unfold getConversationPage, snakeCaseObjectKeys in H.
  rewrite (bind_run _ _ _ _ _ (shallow_run _ _ _)) in H.
  unfold bind at 1 in H. unfold ownFields at 1 in H.
  set (w0 := World (heap_of w ++ [CObj (renameKeys snakeCase (fieldsOf (heap_of w) filter))])
               (log w)) in *.
  assert (K0 : keptBelow (length (heap_of w)) w w0).
  { apply keptBelow_grows, grows_alloc. }
  assert (Hlen0 : length (heap_of w0) = S (length (heap_of w))).
  { simpl. rewrite length_app. simpl. lia. }
  run_bind H.
  2:{ eapply keptBelow_trans; [exact K0|].
      intros l c Hl Hc. eapply send_kept; [exact E | lia | exact Hc]. }
  destruct (send_closed _ _ _ _ _ _ E) as [Hdata Hclosed].
  assert (K1 : keptBelow (length (heap_of w)) w w1).
  { eapply keptBelow_trans; [exact K0|].
    intros l c Hl Hc. eapply send_kept; [exact E | lia | exact Hc]. }
  clear E K0.
  run_bind H; [|apply readOnly_getProp in E; now subst].
  pose proof (readOnly_getProp _ _ _ _ _ E); subst w2.
  assert (Hemb : freshFrom (length (heap_of w0)) a0).
  { eapply getProp_closed; eassumption. }
  clear E.
  run_bind H; [|apply readOnly_optChain in E; now subst].
  pose proof (readOnly_optChain _ _ _ _ _ E); subst w2.
  assert (Hitems : freshFrom (length (heap_of w0)) a1).
  { rewrite optChain_ok in E. inversion E; subst. now apply closed_field. }
  clear E.
  assert (K2 : forall w2 r2,
    (if truthy a1 then arrayMap (apiToConversation camelCase) a1 else ret []) w1
    = (w2, r2) -> keptBelow (length (heap_of w)) w1 w2).
  { intros w2 r2 E. destruct (truthy a1).
    - unfold arrayMap in E. destruct a1 as [| | | | |la];
        try (inversion E; subst; apply keptBelow_refl).
      destruct (heap_of w1 !! la) as [[fs|xs]|] eqn:Hla;
        try (inversion E; subst; apply keptBelow_refl).
      simpl in Hitems. pose proof (Hclosed la _ Hitems Hla) as Hxs. simpl in Hxs.
      intros l c Hl Hc.
      eapply (traverse_keptBelow (length (heap_of w0))); [exact Hxs | exact E | lia | exact Hc].
    - inversion E; subst. apply keptBelow_refl. }
  run_bind H.
  2:{ eapply keptBelow_trans; [exact K1 | eapply K2; exact E]. }
  assert (K3 : keptBelow (length (heap_of w)) w w2).
  { eapply keptBelow_trans; [exact K1 | eapply K2; exact E]. }
  clear E K2.
  assert (Htail : allocOnly
    (let* conversations := alloc (CArr a2) in
     let* pageSize := getProp a "page_size" in
     let* links := getProp a "_links" in
     alloc (CObj [("conversations", conversations); ("pageSize", pageSize);
                  ("links", links)]))).
  { repeat (first [ apply allocOnly_bind; [|intros ?]
                  | apply allocOnly_alloc | apply allocOnly_getProp ]). }
  eapply keptBelow_trans; [exact K3|]. apply keptBelow_grows. eapply Htail. exact H.
Qed.

Lemma getMemberPage_kept conversationId filter w :
  keptBelow (length (heap_of w)) w
    (fst (getMemberPage camelCase snakeCase apiHost server conversationId filter w)).
Proof.
  destruct (getMemberPage camelCase snakeCase apiHost server conversationId filter w)
    as [w' r] eqn:H. simpl.
  unfold getMemberPage, snakeCaseObjectKeys in H.
  rewrite (bind_run _ _ _ _ _ (shallow_run _ _ _)) in H.
  unfold bind at 1 in H. unfold ownFields at 1 in H.
  set (w0 := World (heap_of w ++ [CObj (renameKeys snakeCase (fieldsOf (heap_of w) filter))])
               (log w)) in *.
  assert (K0 : keptBelow (length (heap_of w)) w w0).
  { apply keptBelow_grows, grows_alloc. }
  assert (Hlen0 : length (heap_of w0) = S (length (heap_of w))).
  { simpl. rewrite length_app. simpl. lia. }
  assert (Ksend : forall w1 r1, send server GET
            (apiHost ++ "/v1/conversations/" ++ conversationId ++ "/members")
            (Query (fieldsOf (heap_of w0) (VRef (length (heap_of w))))) w0 = (w1, r1) ->
            keptBelow (length (heap_of w)) w w1).
  { intros w1 r1 E. eapply keptBelow_trans; [exact K0|].
    intros l c Hl Hc. eapply send_kept; [exact E | lia | exact Hc]. }
  run_bind H; [|eapply Ksend; exact E].
  eapply keptBelow_trans; [eapply Ksend; exact E|].
  apply keptBelow_grows.
  assert (Htail : allocOnly
    (let* embedded := getProp a "_embedded" in
     let* wireItems := optChain embedded "members" in
     let* items :=
       (if truthy wireItems then arrayMap (apiToMember camelCase) wireItems
        else ret []) in
     let* members := alloc (CArr items) in
     let* pageSize := getProp a "page_size" in
     let* links := getProp a "_links" in
     alloc (CObj [("members", members); ("pageSize", pageSize); ("links", links)]))).
  { apply allocOnly_bind; [apply allocOnly_getProp|]. intros embedded.
    apply allocOnly_bind; [apply allocOnly_optChain|]. intros wireItems.
    apply allocOnly_bind.
    - destruct (truthy wireItems); [|apply allocOnly_ret].
      intros w2 w3 r3. unfold arrayMap.
      destruct wireItems as [| | | | |la];
        try (intros E2; inversion E2; subst; apply grows_refl).
      destruct (heap_of w2 !! la) as [[fs|xs]|];
        try (intros E2; inversion E2; subst; apply grows_refl).
      apply allocOnly_traverse. intros x. apply allocOnly_apiToMember.
    - intros items.
      repeat (first [ apply allocOnly_bind; [|intros ?]
                    | apply allocOnly_alloc | apply allocOnly_getProp ]). }
  eapply Htail. exact H.
Qed.
End Frames.

Lemma keepsStore_kept {A} (c : M A) :
  (forall w, keptBelow (length (heap_of w)) w (fst (c w))) -> keepsStore c.
Proof.
  intros H w l x Hl. apply (H w); [|exact Hl]. eapply lookup_lt_Some; eassumption.
Qed.

Section StoreKept.
Variables camelCase snakeCase : string -> string.
Variable apiHost : string.
Variable server : list request -> res tree.
Variable numberText : Z -> string.

(** X9: no single-item operation and no page fetch changes an object
    that exists when it is called: every cell of the store is found
    unchanged afterwards, whatever the server answers. (Only the
    listings write to an object of the caller, their filter.) *)
Theorem operations_keep_the_store (conversationId memberId : string)
  (conversation member params filter : val) :
  keepsStore (getConversationPage camelCase snakeCase apiHost server filter)
  /\ keepsStore (getMemberPage camelCase snakeCase apiHost server conversationId filter)
  /\ keepsStore (getConversation camelCase apiHost server conversationId)
  /\ keepsStore (createConversation camelCase snakeCase apiHost server conversation)
  /\ keepsStore (updateConversation camelCase snakeCase apiHost server numberText conversation)
  /\ keepsStore (deleteConversation apiHost server conversationId)
  /\ keepsStore (createMember camelCase snakeCase apiHost server conversationId member)
  /\ keepsStore (getMember camelCase apiHost server conversationId memberId)
  /\ keepsStore (getMe camelCase apiHost server conversationId)
  /\ keepsStore (updateMember camelCase apiHost server conversationId memberId params).
Proof.
  assert (Hconv : forall m u p, keepsStore
            (let* data := send server m u p in apiToConversation camelCase data)).
  { intros m u p. apply keepsStore_kept. intros w. apply sent_then_converted_kept. }
  assert (Hmem : forall m u p, keepsStore
            (let* data := send server m u p in apiToMember camelCase data)).
  { intros m u p w l x Hl.
    destruct (apiToMember_after_send camelCase server m u p w) as [_ Hp].
    eapply prefix_lookup_Some; eassumption. }
  conjs.
  - apply keepsStore_kept. intros w. apply getConversationPage_kept.
  - apply keepsStore_kept. intros w. apply getMemberPage_kept.
  - apply Hconv.
  - intros w l x Hl. unfold createConversation.
    destruct (conversationToApi snakeCase conversation w) as [w1 [body|e]] eqn:E;
      pose proof (conversationToApi_grows _ _ _ _ _ E) as Hg.
    + rewrite (bind_run _ _ _ _ _ E). apply Hconv.
      eapply grows_lookup; eassumption.
    + unfold bind. rewrite E. simpl. eapply grows_lookup; eassumption.
  - intros w l x Hl. unfold updateConversation. unfold bind at 1.
    destruct (getProp conversation "id" w) as [w0 [id|e]] eqn:Eid;
      pose proof (readOnly_getProp _ _ _ _ _ Eid); subst w0; [|exact Hl].
    rewrite (bind_run _ _ _ _ _ (templateText_run _ _ _)).
    destruct (conversationToApi snakeCase conversation w) as [w1 [body|e]] eqn:E;
      pose proof (conversationToApi_grows _ _ _ _ _ E) as Hg.
    + rewrite (bind_run _ _ _ _ _ E). apply Hconv.
      eapply grows_lookup; eassumption.
    + unfold bind. rewrite E. simpl. eapply grows_lookup; eassumption.
  - intros w l x Hl. unfold deleteConversation, bind.
    destruct (send server DELETE _ NoPayload w) as [w1 [d|e]] eqn:E;
      apply send_frame in E as [_ Hp]; simpl;
      eapply prefix_lookup_Some; eassumption.
  - intros w l x Hl. unfold createMember.
    destruct (memberToApi snakeCase member w) as [w1 [body|e]] eqn:E;
      pose proof (allocOnly_memberToApi _ _ _ _ _ E) as Hg.
    + rewrite (bind_run _ _ _ _ _ E). apply Hmem.
      eapply grows_lookup; eassumption.
    + unfold bind. rewrite E. simpl. eapply grows_lookup; eassumption.
  - apply Hmem.
  - apply Hmem.
  - apply Hmem.
Qed.
End StoreKept.

Lemma traverse_runs {A B} (f : A -> M B) xs : forall w w' vs,
  traverse f xs w = (w', Ok vs) -> runs f w w' xs vs.
Proof.
  induction xs as [|x r IH]; intros w w' vs H; simpl in H.
  - inversion H; subst. constructor.
  - run_bind H; [|discriminate]. run_bind H; [|discriminate].
    inversion H; subst. econstructor; [eassumption|]. now apply IH.
Qed.

Lemma runs_grows {A B} (f : A -> M B) w w' xs vs :
  (forall x, allocOnly (f x)) -> runs f w w' xs vs -> grows w w'.
Proof.
  intros Hf. induction 1 as [w|w w1 w' x v xs vs Hx _ IH].
  - apply grows_refl.
  - eapply grows_trans; [eapply Hf; exact Hx | exact IH].
Qed.

Lemma runs_split {A B} (f : A -> M B) xs1 x xs2 : forall w w' vs,
  runs f w w' (xs1 ++ x :: xs2) vs ->
  exists vs1 v vs2 wj wj',
    vs = vs1 ++ v :: vs2 /\ length vs1 = length xs1
    /\ runs f w wj xs1 vs1 /\ f x wj = (wj', Ok v) /\ runs f wj' w' xs2 vs2.
Proof.
  induction xs1 as [|x1 r IH]; intros w w' vs H; simpl in H.
  - inversion H; subst. exists [], v, vs0, w, w1. conjs; auto. constructor.
  - inversion H; subst.
    destruct (IH _ _ _ H6) as (vs1 & v0 & vs2 & wj & wj' & -> & Hlen & H1 & Hx & H2).
    exists (v :: vs1), v0, vs2, wj, wj'. conjs; auto.
    + simpl. now rewrite Hlen.
    + econstructor; eassumption.
Qed.

(** ** Locality *)

Lemma reify_prim_any n h v t :
  isRef v = false -> reify n h v = Some t -> forall n' h', reify n' h' v = Some t.
Proof.
  intros Hp H n' h'. destruct v; try discriminate; destruct n, n'; exact H.
Qed.

Lemma localTo_prim a b m n h v t :
  isRef v = false -> reify n h v = Some t -> localTo a b m h v t.
Proof. intros Hp H h' _ n' _. eapply reify_prim_any; eassumption. Qed.

Lemma localTo_weaken a b m a' b' m' h v t :
  a' <= a -> b <= b' -> m <= m' -> localTo a b m h v t -> localTo a' b' m' h v t.
Proof.
  intros Ha Hb Hm H h' Hag n Hn. apply H; [|lia].
  intros l Hl1 Hl2. apply Hag; lia.
Qed.

Lemma localTo_agree a b m h h2 v t :
  agreeOn a b h h2 -> localTo a b m h v t -> localTo a b m h2 v t.
Proof.
  intros Hag H h' Hag' n Hn. apply H; [|exact Hn].
  intros l Hl1 Hl2. rewrite (Hag' l Hl1 Hl2). now apply Hag.
Qed.

Lemma agreeOn_grows a b w w' :
  grows w w' -> b <= length (heap_of w) -> agreeOn a b (heap_of w) (heap_of w').
Proof. intros Hg Hb l _ Hl. apply (grows_lookup_lt _ _ _ Hg). lia. Qed.

Section Locality.
Variable tf : string -> string.

Lemma runs_local n fuel :
  (forall v w t w' v',
     reify n (heap_of w) v = Some t ->
     transformRec tf fuel v w = (w', Ok v') ->
     localTo (length (heap_of w)) (length (heap_of w')) n (heap_of w') v' (tmap tf t)) ->
  forall w w' xs vs, runs (transformRec tf fuel) w w' xs vs ->
  forall ts, Forall2 (fun x t => reify n (heap_of w) x = Some t) xs ts ->
  Forall2 (fun v' t => localTo (length (heap_of w)) (length (heap_of w')) n
                         (heap_of w') v' (tmap tf t)) vs ts.
Proof.
  intros IH w w' xs vs Hr.
  induction Hr as [w|w w1 w' x v xs vs Hx Hr IHr]; intros ts Hts.
  - inversion Hts; subst. constructor.
  - inversion Hts as [|? t ? tr Ht Htr]; subst.
    pose proof (allocOnly_transformRec _ _ _ _ _ _ Hx) as Hg1.
    pose proof (runs_grows _ _ _ _ _ (allocOnly_transformRec tf fuel) Hr) as Hg2.
    constructor.
    + eapply localTo_weaken; [reflexivity | apply (grows_length _ _ Hg2) | reflexivity |].
      eapply localTo_agree; [|eapply IH; eassumption].
      apply agreeOn_grows; [exact Hg2 | reflexivity].
    + eapply Forall2_impl; [apply IHr|].
      * eapply Forall2_impl; [exact Htr|]. intros ? ? E. eapply reify_grows; eassumption.
      * intros v' t' Hl. eapply localTo_weaken; [| | |exact Hl];
          [apply (grows_length _ _ Hg1) | reflexivity | reflexivity].
Qed.

Lemma local_values n h' (vs : list val) (ts : list tree) a b h m :
  agreeOn a b h h' -> n <= m ->
  Forall2 (fun v' t => localTo a b n h v' (tmap tf t)) vs ts ->
  Forall2 (fun v' t => reify m h' v' = Some (tmap tf t)) vs ts.
Proof.
  intros Hag Hm H. eapply Forall2_impl; [exact H|].
  intros v t Hl. now apply Hl.
Qed.

Lemma fieldsDenote_values n h (fs : list (string * val)) tfs :
  fieldsDenote n h fs tfs ->
  Forall2 (fun x t => reify n h x = Some t) (map snd fs) (map snd tfs).
Proof. induction 1 as [|[] [] ? ? [? ?] ? ?]; simpl; constructor; auto. Qed.

Lemma transformRec_local : forall n fuel v w t w' v',
  n <= fuel -> reify n (heap_of w) v = Some t ->
  transformRec tf fuel v w = (w', Ok v') ->
  localTo (length (heap_of w)) (length (heap_of w')) n (heap_of w') v' (tmap tf t).
Proof.
  assert (Hprim : forall n fuel v w t w' v',
            isRef v = false -> reify n (heap_of w) v = Some t ->
            transformRec tf fuel v w = (w', Ok v') ->
            localTo (length (heap_of w)) (length (heap_of w')) n (heap_of w') v'
              (tmap tf t)).
  { intros n fuel v w t w' v' Hp H Hrun.
    rewrite transformRec_prim in Hrun by assumption.
    unfold ret in Hrun. inversion Hrun; subst.
    destruct (reify_prim_inv _ _ _ _ Hp H) as [_ E]. rewrite E.
    eapply localTo_prim; eassumption. }
  induction n as [|n IH]; intros fuel v w t w' v' Hle H Hrun.
  - destruct v; try (refine (Hprim _ _ _ _ _ _ _ _ H Hrun); reflexivity).
    simpl in H. discriminate.
  - destruct v as [| | | | |l];
      try (refine (Hprim _ _ _ _ _ _ _ _ H Hrun); reflexivity).
    destruct fuel as [|fuel]; [lia|].
    apply reify_ref_inv in H as (n' & E & H). inversion E; subst n'.
    assert (IH' : forall v w t w' v',
              reify n (heap_of w) v = Some t ->
              transformRec tf fuel v w = (w', Ok v') ->
              localTo (length (heap_of w)) (length (heap_of w')) n (heap_of w') v'
                (tmap tf t)).
    { intros. eapply (IH fuel); [lia | eassumption | eassumption]. }
    simpl in Hrun.
    destruct H as [(fs & tfs & Hl & Hf & ->)|(xs & ts & Hl & Hf & ->)];
      rewrite Hl in Hrun; run_bind Hrun; try discriminate; inversion Hrun; subst;
      pose proof (allocOnly_traverse _ _ (allocOnly_transformRec tf fuel) _ _ _ E0) as Hg;
      apply traverse_runs in E0.
    + pose proof (runs_local n fuel IH' _ _ _ _ E0 _ (fieldsDenote_values _ _ _ _ Hf))
        as Hloc.
      intros h' Hag m Hm. destruct m as [|m]; [lia|].
      simpl heap_of in *. rewrite length_app in Hag. simpl in Hag.
      eapply reify_obj_intro.
      * rewrite (Hag (length (heap_of w0))); [apply lookup_alloc | | lia].
        now apply grows_length.
      * apply fieldsDenote_renameKeys. apply combine_denote.
        -- eapply fieldsDenote_keys; eassumption.
        -- eapply local_values; [| |exact Hloc]; [|lia].
           intros l0 Hl1 Hl2. rewrite (Hag l0) by lia.
           now apply lookup_app_l.
    + pose proof (runs_local n fuel IH' _ _ _ _ E0 _ Hf) as Hloc.
      intros h' Hag m Hm. destruct m as [|m]; [lia|].
      simpl heap_of in *. rewrite length_app in Hag. simpl in Hag.
      simpl tmap. eapply reify_arr_intro.
      * rewrite (Hag (length (heap_of w0))); [apply lookup_alloc | | lia].
        now apply grows_length.
      * apply Forall2_fmap_r.
        eapply local_values; [| |exact Hloc]; [|lia].
        intros l0 Hl1 Hl2. rewrite (Hag l0) by lia.
        now apply lookup_app_l.
Qed.
End Locality.

(** ** Field lists: replacing one entry *)

Lemma oset_same {A} (fs : list (string * A)) k v :
  oget fs k = Some v -> oset fs k v = fs.
Proof.
  induction fs as [|[k1 v1] r IH]; simpl; [discriminate|].
  destruct (String.eqb k1 k) eqn:E.
  - intros H. inversion H; subst. apply String.eqb_eq in E. now subst.
  - intros H. now rewrite IH.
Qed.

Lemma oget_split {A} (fs : list (string * A)) k v :
  oget fs k = Some v ->
  exists fs1 fs2, fs = fs1 ++ (k, v) :: fs2 /\ ~ In k (okeys fs1).
Proof.
  induction fs as [|[k1 v1] r IH]; simpl; [discriminate|].
  destruct (String.eqb k1 k) eqn:E.
  - intros H. inversion H; subst. apply String.eqb_eq in E. subst.
    exists [], r. split; [reflexivity | simpl; tauto].
  - intros H. destruct (IH H) as (fs1 & fs2 & -> & Hn).
    exists ((k1, v1) :: fs1), fs2. split; [reflexivity|].
    simpl. intros [->|Hin]; [|tauto]. rewrite String.eqb_refl in E. discriminate.
Qed.

Lemma oget_app_fresh {A} (fs1 fs2 : list (string * A)) k :
  ~ In k (okeys fs1) -> oget (fs1 ++ fs2) k = oget fs2 k.
Proof.
  induction fs1 as [|[k1 v1] r IH]; simpl; intros Hn; [reflexivity|].
  destruct (String.eqb k1 k) eqn:E.
  - apply String.eqb_eq in E. tauto.
  - apply IH. tauto.
Qed.

Lemma combine_app_eq {A B} (l1 : list A) : forall (l1' : list B) l2 l2',
  length l1 = length l1' ->
  combine (l1 ++ l2) (l1' ++ l2') = combine l1 l1' ++ combine l2 l2'.
Proof.
  induction l1 as [|a r IH]; intros [|b r'] l2 l2' H; simpl in *; try discriminate.
  - reflexivity.
  - f_equal. apply IH. lia.
Qed.

Lemma okeys_combine {A} (ks : list string) : forall (vs : list A),
  length vs = length ks -> okeys (combine ks vs) = ks.
Proof.
  unfold okeys. induction ks as [|k r IH]; intros [|v vs] H; simpl in *;
    try discriminate; [reflexivity|]. f_equal. apply IH. lia.
Qed.

Lemma runs_length {A B} (f : A -> M B) w w' xs vs :
  runs f w w' xs vs -> length vs = length xs.
Proof. induction 1; simpl; congruence. Qed.

Lemma keyedRel_oset Q fs tfs k v t :
  keyedRel Q fs tfs -> Q k v t -> keyedRel Q (oset fs k v) (oset tfs k t).
Proof.
  intros H Hv.
  induction H as [|[k1 v1] [k2 t2] r tr [E1 E2] Hr IH]; simpl in *.
  - constructor; [auto | constructor].
  - subst k2. destruct (String.eqb k1 k); constructor; auto.
Qed.

Lemma keyedRel_renameKeys Q tf fs tfs :
  Forall2 (fun kv kt => fst kv = fst kt /\ Q (tf (fst kv)) (snd kv) (snd kt)) fs tfs ->
  keyedRel Q (renameKeys tf fs) (renameKeys tf tfs).
Proof.
  unfold renameKeys. intros H.
  assert (G : forall acc tacc, keyedRel Q acc tacc ->
    keyedRel Q (fold_left (fun a kv => oset a (tf (fst kv)) (snd kv)) fs acc)
      (fold_left (fun a kv => oset a (tf (fst kv)) (snd kv)) tfs tacc)).
  { induction H as [|[k1 v1] [k2 t2] r tr [E1 E2] _ IH]; intros acc tacc Ha; simpl in *.
    - assumption.
    - subst k2. apply IH. now apply keyedRel_oset. }
  apply G. constructor.
Qed.

Lemma keyedRel_denote n h K fs tfs :
  keyedRel (fun k v t => k = K \/ reify n h v = Some t) fs tfs ->
  ~ In K (okeys fs) -> fieldsDenote n h fs tfs.
Proof.
  unfold okeys.
  induction 1 as [|[k1 v1] [k2 t2] r tr [E1 E2] _ IH]; simpl in *; intros Hn.
  - constructor.
  - constructor; [|apply IH; intros Hin; apply Hn; right; exact Hin].
    split; [assumption|]. simpl.
    destruct E2 as [E2|E2].
    + exfalso. apply Hn. left. exact E2.
    + exact E2.
Qed.

Lemma fieldsDenote_override n h K fs tfs v t :
  keyedRel (fun k v t => k = K \/ reify n h v = Some t) fs tfs ->
  List.NoDup (okeys fs) -> oget fs K = Some v -> reify n h v = Some t ->
  fieldsDenote n h fs (oset tfs K t).
Proof.
  intros H. induction H as [|[k1 v1] [k2 t2] r tr [E1 E2] Hr IH];
    simpl in *; intros Hnd Hget Hv; [discriminate|].
  subst k2. inversion Hnd as [|? ? Hnin Hnd']; subst.
  destruct (String.eqb k1 K) eqn:E.
  - apply String.eqb_eq in E. subst k1. inversion Hget; subst v1.
    constructor; [split; [reflexivity | assumption]|].
    eapply keyedRel_denote; [exact Hr | exact Hnin].
  - constructor; [|now apply IH]. split; [reflexivity|].
    destruct E2 as [->|E2]; [|assumption].
    rewrite String.eqb_refl in E. discriminate.
Qed.

Lemma reify_ref_node n h l t : reify n h (VRef l) = Some t -> 0 < tnodes t.
Proof.
  intros H. apply reify_ref_inv in H
    as (n' & _ & [(fs & tfs & _ & _ & ->)|(xs & ts & _ & _ & ->)]); simpl; lia.
Qed.

Lemma reify_node_ref n h v t :
  reify n h v = Some t -> 0 < tnodes t -> exists l, v = VRef l.
Proof.
  intros H Hp. destruct v as [| | | | |l]; eauto;
    (eapply reify_prim_inv in H as [E _]; [lia | reflexivity]).
Qed.

Lemma tnodes_tmap_pos tf t : 0 < tnodes t -> 0 < tnodes (tmap tf t).
Proof. destruct t; simpl; lia. Qed.

(** In the converted object, the path [k1.k2] of the source is found
    under the converted keys and holds the conversion of what the source
    holds there. *)
Lemma converted_field tf w lo t1fs k1 pfs k2 y :
  denotes w (VRef lo) (tmap tf (TObj t1fs)) ->
  oget t1fs k1 = Some (TObj pfs) -> oget pfs k2 = Some y ->
  keyedAlone tf k1 t1fs -> keyedAlone tf k2 pfs ->
  exists lp pfs' vc n,
    oget (fieldsOf (heap_of w) (VRef lo)) (tf k1) = Some (VRef lp)
    /\ heap_of w !! lp = Some (CObj pfs')
    /\ oget pfs' (tf k2) = Some vc
    /\ reify n (heap_of w) vc = Some (tmap tf y).
Proof.
  intros Hd H1 H2 Ha1 Ha2.
  simpl tmap in Hd.
  apply denotes_obj_inv in Hd as (l' & fs & n & E & Hlen & Hl & Hf).
  inversion E; subst l'.
  pose proof (fieldsDenote_oget _ _ _ _ (tf k1) Hf) as Hp.
  rewrite (tmap_fields_oget _ _ _ _ Ha1 H1) in Hp.
  destruct Hp as (vp & Hvp & Hrp). simpl tmap in Hrp.
  destruct (reify_obj_is_ref _ _ _ _ Hrp) as [lp ->].
  apply reify_ref_inv in Hrp
    as (n' & Hn' & [(pfs' & tp & Hlp & Hfp & Etp)|(xs & ts & _ & _ & Etp)]);
    [|discriminate].
  inversion Etp; subst tp.
  pose proof (fieldsDenote_oget _ _ _ _ (tf k2) Hfp) as Hc.
  rewrite (tmap_fields_oget _ _ _ _ Ha2 H2) in Hc.
  destruct Hc as (vc & Hvc & Hrc).
  exists lp, pfs', vc, n'. simpl fieldsOf. rewrite Hl. auto.
Qed.

Lemma tmap_obj tf tfs :
  tmap tf (TObj tfs)
  = TObj (renameKeys tf (map (fun kt => let '(k, x) := kt in (k, tmap tf x)) tfs)).
Proof. reflexivity. Qed.

Lemma withPath_obj K1 K2 y fs pfs :
  oget fs K1 = Some (TObj pfs) ->
  withPath K1 K2 y (TObj fs) = TObj (oset fs K1 (TObj (oset pfs K2 y))).
Proof. intros H. unfold withPath. now rewrite H. Qed.

Section ReapplyDocument.
Variable tf : string -> string.
Variables K1 K2 : string.

Lemma reapply_document w0 l0 tfs w2 lo w' cdv :
  denotes w0 (VRef l0) (TObj tfs) ->
  transformObjectKeys tf (VRef l0) true w0 = (w2, Ok (VRef lo)) ->
  cdv = orUndef (oget (fieldsOf (heap_of w0)
                         (orUndef (oget (fieldsOf (heap_of w0) (VRef l0)) K1))) K2) ->
  reapplied w2 w' lo (tf K1) (tf K2) cdv ->
  keyedAlone tf K1 tfs ->
  (forall pfs, oget tfs K1 = Some (TObj pfs) -> In K2 (okeys pfs) ->
     keyedAlone tf K2 pfs) ->
  denotes w' (VRef lo)
    (keepAt (tf K1) (tf K2) (fieldAt K1 K2 tfs) (tmap tf (TObj tfs))).
Proof.
  intros Hd Hrun Hcd Hre Ka1 Ka2.
  destruct (transformObjectKeys_denotes tf _ _ _ Hd) as (w2' & lo' & Hrun' & Hg & Hlo & Hd2).
  rewrite Hrun in Hrun'. inversion Hrun'; subst w2' lo'. clear Hrun'.
  destruct (fieldAt K1 K2 tfs) as [y|] eqn:Hy.
  2:{ pose proof (absent_path _ _ _ _ K1 K2 Hd Hy) as Hv. rewrite Hv in Hcd.
      subst cdv. apply reapplied_undef in Hre. subst. exact Hd2. }
  unfold fieldAt in Hy.
  destruct (oget tfs K1) as [[| | | | |pfs|]|] eqn:H1; try discriminate.
  specialize (Ka2 pfs eq_refl (oget_Some_In _ _ _ Hy)).
  pose proof (tmap_fields_oget tf _ _ _ Ka1 H1) as Hc1.
  pose proof (tmap_fields_oget tf _ _ _ Ka2 Hy) as Hc2.
  rewrite tmap_obj in Hc1.
  unfold keepAt. rewrite tmap_obj. rewrite (withPath_obj _ _ _ _ _ Hc1).
  set (cfs := renameKeys tf (map (fun kt => let '(k, x) := kt in (k, tmap tf x)) tfs)) in *.
  set (cpfs := renameKeys tf (map (fun kt => let '(k, x) := kt in (k, tmap tf x)) pfs)) in *.
  destruct (denotes_obj_inv _ _ _ Hd) as (l & fs0 & n0 & E & Hlen & Hl0 & Hf0).
  inversion E; subst l. clear E.
  destruct (denotes_field_obj w0 n0 fs0 tfs K1 pfs Hf0 ltac:(lia) H1)
    as (lp0 & pfs0 & n1 & Hv1 & Hlp0 & Hfp & Hn1 & Hdp).
  pose proof (fieldsDenote_oget _ _ _ _ K2 Hfp) as Hcv. rewrite Hy in Hcv.
  destruct Hcv as (cv & Hcv & Hrcv).
  assert (Ecd : cdv = cv).
  { subst cdv. simpl fieldsOf. rewrite Hl0, Hv1. simpl. now rewrite Hlp0, Hcv. }
  subst cdv. rename Ecd into Hcd. rewrite Hcd in Hre. clear Hcd.
  destruct Hre as [[-> Hno]|(lp & pfs' & Htr & Hp & Hlp & Htr2 & ->)].
  - (* nothing was written: the value is a primitive *)
    destruct (converted_field tf w2 lo tfs K1 pfs K2 y Hd2 H1 Hy Ka1 Ka2)
      as (lp & pfs' & vc & nc & Hp & Hlp & Hvc & Hrc).
    rewrite Hp in Hno. simpl in Hno. rewrite Hlp, Hvc in Hno. simpl in Hno.
    assert (Ey : tmap tf y = y).
    { destruct (isRef cv) eqn:Eref.
      - destruct cv as [| | | | |lc]; try discriminate.
        pose proof (reify_ref_node _ _ _ _ Hrcv) as Hpos.
        destruct (reify_node_ref _ _ _ _ Hrc (tnodes_tmap_pos tf y Hpos)) as [l' ->].
        discriminate.
      - apply (reify_prim_inv _ _ _ _ Eref Hrcv). }
    rewrite Ey in Hc2. rewrite (oset_same _ _ _ Hc2). rewrite (oset_same _ _ _ Hc1).
    exact Hd2.
  - (* the caller's value was written into the converted properties *)
    unfold transformObjectKeys in Hrun. rewrite Hl0, Hlen in Hrun.
    simpl transformRec in Hrun. rewrite Hl0 in Hrun.
    run_bind Hrun; [|discriminate]. inversion Hrun; subst w2 lo. clear Hrun.
    rename w into w1. rename a into vs.
    simpl fieldsOf in Hp. rewrite lookup_alloc in Hp.
    destruct (oget_split _ _ _ Hv1) as (fs1 & fs2 & Efs & Hnin). subst fs0.
    rewrite map_app in E. simpl map in E.
    apply traverse_runs in E.
    pose proof (runs_length _ _ _ _ _ E) as Hvlen.
    destruct (runs_split _ _ _ _ _ _ _ E)
      as (vs1 & v & vs2 & wj & wj' & Evs & Hlen1 & R1 & Rj & R2).
    subst vs. rewrite length_map in Hlen1.
    pose proof (runs_grows _ _ _ _ _ (allocOnly_transformRec tf n0) R1) as G1.
    pose proof (runs_grows _ _ _ _ _ (allocOnly_transformRec tf n0) R2) as G2.
    set (F := renameKeys tf (combine (map fst (fs1 ++ (K1, VRef lp0) :: fs2))
                               (vs1 ++ v :: vs2))) in *.
    assert (EC : combine (map fst (fs1 ++ (K1, VRef lp0) :: fs2)) (vs1 ++ v :: vs2)
                 = combine (map fst fs1) vs1 ++ (K1, v) :: combine (map fst fs2) vs2).
    { rewrite map_app. simpl. rewrite combine_app_eq; [reflexivity|].
      now rewrite length_map. }
    assert (Hkeys : okeys (combine (map fst (fs1 ++ (K1, VRef lp0) :: fs2))
                             (vs1 ++ v :: vs2)) = okeys tfs).
    { rewrite okeys_combine.
      - apply (fieldsDenote_keys _ _ _ _ Hf0).
      - rewrite Hvlen, length_map, !length_app. simpl. now rewrite !length_map. }
    assert (Ev : v = VRef lp).
    { unfold F in Hp. rewrite oget_renameKeys in Hp.
      rewrite (lastUnder_unique tf _ K1 v) in Hp.
      - now inversion Hp.
      - rewrite Hkeys. apply Ka1.
      - rewrite EC. rewrite oget_app_fresh.
        + simpl. now rewrite String.eqb_refl.
        + rewrite okeys_combine; [exact Hnin|]. now rewrite length_map.
      - rewrite Hkeys. apply Ka1. }
    subst v.
    (* the run that converted the properties *)
    assert (Hlpj : heap_of wj !! lp0 = Some (CObj pfs0)).
    { eapply grows_lookup; eassumption. }
    rewrite <- Hn1 in Rj. simpl transformRec in Rj. rewrite Hlpj in Rj.
    run_bind Rj; [|discriminate].
    rename w into wj1. rename a into vs'.
    unfold alloc in Rj. inversion Rj as [[Ewj Elp]]. clear Rj. subst wj'.
    set (P := renameKeys tf (combine (map fst pfs0) vs')) in *.
    pose proof (allocOnly_traverse _ _ (allocOnly_transformRec tf n1) _ _ _ E0) as Gj.
    apply traverse_runs in E0.
    assert (Gj' : grows wj1 w1).
    { eapply grows_trans; [apply (grows_alloc wj1 (CObj P)) | exact G2]. }
    assert (G01 : grows w0 w1).
    { eapply grows_trans; [exact G1|]. eapply grows_trans; [exact Gj | exact Gj']. }
    pose proof (grows_length _ _ G1) as L1.
    pose proof (grows_length _ _ Gj) as L2.
    pose proof (grows_length _ _ G2) as L3.
    simpl in L3. rewrite length_app in L3. simpl in L3.
    assert (HlpP : heap_of w1 !! lp = Some (CObj P)).
    { eapply grows_lookup; [exact G2|]. simpl. rewrite <- Elp. apply lookup_alloc. }
    assert (EP : pfs' = P).
    { simpl in Hlp. rewrite (lookup_app_l_Some _ _ _ _ HlpP) in Hlp. now inversion Hlp. }
    subst pfs'.
    remember (<[lp := CObj (oset P (tf K2) cv)]> (heap_of w1 ++ [CObj F])) as hF
      eqn:EhF.
    assert (Hag : forall wa a b, grows wa w1 -> b <= length (heap_of wa) ->
              b <= lp \/ lp < a -> agreeOn a b (heap_of wa) hF).
    { intros wa a b Gw Hb Hout l Hl1 Hl2. rewrite EhF.
      rewrite list_lookup_insert_ne by lia.
      pose proof (grows_length _ _ Gw) as Lw.
      rewrite lookup_app_l by lia.
      apply (grows_lookup_lt _ _ _ Gw). lia. }
    unfold fieldsDenote in Hf0.
    apply Forall2_app_inv_l in Hf0 as (tfs1 & tfs2' & Hf1 & Hf2 & Etfs).
    apply Forall2_cons_inv_l in Hf2 as ([k2 t2] & tfs2 & [Ek Et] & Hf2' & ->).
    simpl in Ek. subst k2 tfs.
    assert (Hloc : forall n v w t w' v',
              reify n (heap_of w) v = Some t ->
              transformRec tf n v w = (w', Ok v') ->
              localTo (length (heap_of w)) (length (heap_of w')) n (heap_of w') v'
                (tmap tf t)).
    { intros. eapply transformRec_local; [reflexivity | eassumption | eassumption]. }
    assert (V1 : Forall2 (fun v' t => reify (length (heap_of w1)) hF v' = Some (tmap tf t))
                   vs1 (map snd tfs1)).
    { eapply local_values;
        [apply (Hag wj (length (heap_of w0)) (length (heap_of wj))) | |
         apply (runs_local tf n0 n0 (Hloc n0) _ _ _ _ R1);
         apply (fieldsDenote_values _ _ _ _ Hf1)].
      - eapply grows_trans; [exact Gj | exact Gj'].
      - reflexivity.
      - left. lia.
      - lia. }
    assert (V2 : Forall2 (fun v' t => reify (length (heap_of w1)) hF v' = Some (tmap tf t))
                   vs2 (map snd tfs2)).
    { eapply local_values;
        [apply (Hag w1 (length (heap_of wj1 ++ [CObj P])) (length (heap_of w1))) | |
         apply (runs_local tf n0 n0 (Hloc n0) _ _ _ _ R2)].
      - apply grows_refl.
      - reflexivity.
      - right. rewrite length_app. simpl. lia.
      - lia.
      - eapply Forall2_impl; [apply (fieldsDenote_values _ _ _ _ Hf2')|].
        intros x t Hx. eapply reify_grows; [|exact Hx].
        eapply grows_trans; [exact G1|]. eapply grows_trans; [exact Gj|].
        apply (grows_alloc wj1). }
    assert (V' : Forall2 (fun v' t => reify n1 hF v' = Some (tmap tf t))
                   vs' (map snd pfs)).
    { eapply local_values;
        [apply (Hag wj1 (length (heap_of wj)) (length (heap_of wj1))) | |
         apply (runs_local tf n1 n1 (Hloc n1) _ _ _ _ E0)].
      - exact Gj'.
      - reflexivity.
      - left. lia.
      - reflexivity.
      - eapply Forall2_impl; [apply (fieldsDenote_values _ _ _ _ Hfp)|].
        intros x t Hx. eapply reify_grows; [exact G1 | exact Hx]. }
    assert (Ew : denotes (World hF (log w1)) (VRef (length (heap_of w1)))
                   (TObj (oset cfs (tf K1) (TObj (oset cpfs (tf K2) y)))));
      [|rewrite EhF in Ew; simpl heap_of; simpl log; rewrite Elp; exact Ew].
    eapply (denotes_obj_intro _ _ F _ (length (heap_of w1))).
    + simpl. rewrite EhF. rewrite list_lookup_insert_ne by lia. apply lookup_alloc.
    + simpl heap_of.
      apply (fieldsDenote_override _ _ (tf K1) _ _ (VRef lp)).
      * unfold F, cfs. apply keyedRel_renameKeys. rewrite EC.
        rewrite map_app. simpl map. apply Forall2_app; [|constructor].
        -- eapply Forall2_impl;
             [apply (combine_denote tf _ hF fs1 tfs1 vs1
                       (fieldsDenote_keys _ _ _ _ Hf1) V1)|].
           intros kv kt [Ea Eb]. split; [exact Ea | right; exact Eb].
        -- split; [reflexivity | left; reflexivity].
        -- eapply Forall2_impl;
             [apply (combine_denote tf _ hF fs2 tfs2 vs2
                       (fieldsDenote_keys _ _ _ _ Hf2') V2)|].
           intros kv kt [Ea Eb]. split; [exact Ea | right; exact Eb].
      * apply NoDup_renameKeys.
      * exact Hp.
      * apply (reify_mono (S n1)); [lia|].
        eapply reify_obj_intro.
        -- rewrite EhF. apply list_lookup_insert_eq.
           rewrite length_app. simpl. lia.
        -- apply fieldsDenote_oset.
           ++ unfold P, cpfs. apply fieldsDenote_renameKeys.
              apply (combine_denote tf _ hF pfs0 pfs vs'
                       (fieldsDenote_keys _ _ _ _ Hfp) V').
           ++ eapply reify_transport; [| |exact Hrcv]; [|reflexivity].
              intros l c Hl. rewrite EhF.
              pose proof (lookup_lt_Some _ _ _ Hl) as Hlt.
              rewrite list_lookup_insert_ne by lia.
              apply lookup_app_l_Some. eapply grows_lookup; eassumption.
    + simpl. rewrite EhF, length_insert, length_app. simpl. lia.
Qed.
End ReapplyDocument.

Lemma fieldAt_odel K1 K2 k (tfs : list (string * tree)) :
  k <> K1 -> fieldAt K1 K2 (odel tfs k) = fieldAt K1 K2 tfs.
Proof. intros H. unfold fieldAt. now rewrite oget_odel_ne. Qed.

Lemma fieldAt_without K1 K2 ks (tfs : list (string * tree)) :
  mem K1 ks = false -> fieldAt K1 K2 (without ks tfs) = fieldAt K1 K2 tfs.
Proof. intros H. unfold fieldAt. now rewrite oget_without, H. Qed.

Section ConversationDocuments.
Variables camelCase snakeCase : string -> string.

Lemma apiToConversation_document_run w response tfs :
  denotes w response (TObj tfs) ->
  camelCase "properties" = "properties" ->
  camelCase "custom_data" = "customData" ->
  keyedAlone camelCase "properties" tfs ->
  (forall pfs, oget tfs "properties" = Some (TObj pfs) ->
     In "custom_data" (okeys pfs) -> keyedAlone camelCase "custom_data" pfs) ->
  exists w' conversation,
    apiToConversation camelCase response w = (w', Ok conversation)
    /\ freshFrom (length (heap_of w)) conversation
    /\ denotes w' conversation
         (keepAt "properties" "customData" (fieldAt "properties" "custom_data" tfs)
            (tmap camelCase (TObj (odel tfs "_links")))).
Proof.
  intros Hd Ec1 Ec2 Ka1 Ka2.
  destruct (denotes_obj_inv _ _ _ Hd) as (l & fs0 & n0 & -> & Hlen & Hl0 & Hf0).
  destruct (apiToConversation_run camelCase w l tfs Hd)
    as (fs & w2 & lo & w' & Hl & Hrun & Hg & Hd2 & Hfull & Hre).
  destruct (deleteProp_denotes w l tfs "_links" Hd) as (fs' & Hl' & _ & Hdd & _).
  rewrite Hl in Hl'. inversion Hl'; subst fs'. clear Hl'.
  exists w', (VRef lo). conjs; [exact Hfull | |].
  { apply transformObjectKeys_deep_fresh in Hrun as [Hfr _].
    simpl in Hfr. now rewrite length_insert in Hfr. }
  set (cdv := orUndef (oget (fieldsOf (heap_of w) (orUndef (oget fs "properties")))
                         "custom_data")) in *.
  rewrite <- Ec1 in Hre at 1. rewrite <- Ec2 in Hre.
  rewrite <- Ec1 at 1. rewrite <- Ec2.
  rewrite <- (fieldAt_odel "properties" "custom_data" "_links" tfs) by discriminate.
  eapply (reapply_document camelCase "properties" "custom_data" _ l _ w2 lo w' cdv);
    [exact Hdd | exact Hrun | | exact Hre | now apply keyedAlone_odel |].
  - subst cdv. simpl heap_of.
    assert (fieldsOf (<[l:=CObj (odel fs "_links")]> (heap_of w)) (VRef l)
            = odel fs "_links") as ->.
    { simpl. now rewrite list_lookup_insert_eq by (eapply lookup_lt_Some; eassumption). }
    rewrite oget_odel_ne by discriminate.
    destruct (oget fs "properties") as [p|] eqn:Hp; [|reflexivity].
    destruct p as [| | | | |lp]; try reflexivity.
    assert (lp <> l) as Hne.
    { eapply (reify_no_self _ _ l _ "properties"); [exact Hd|].
      simpl. now rewrite Hl. }
    simpl. now rewrite list_lookup_insert_ne by congruence.
  - intros pfs Hp Hin. apply Ka2; [|exact Hin].
    now rewrite oget_odel_ne in Hp by discriminate.
Qed.

Lemma conversationToApi_document_run w conversation tfs :
  denotes w conversation (TObj tfs) ->
  snakeCase "properties" = "properties" ->
  snakeCase "customData" = "custom_data" ->
  keyedAlone snakeCase "properties" (without serverOwned tfs) ->
  (forall pfs, oget tfs "properties" = Some (TObj pfs) ->
     In "customData" (okeys pfs) -> keyedAlone snakeCase "customData" pfs) ->
  exists w' request,
    conversationToApi snakeCase conversation w = (w', Ok request)
    /\ grows w w'
    /\ freshFrom (length (heap_of w)) request
    /\ denotes w' request
         (keepAt "properties" "custom_data" (fieldAt "properties" "customData" tfs)
            (tmap snakeCase (TObj (without serverOwned tfs)))).
Proof.
  intros Hd Ec1 Ec2 Ka1 Ka2.
  destruct (denotes_obj_inv _ _ _ Hd) as (l & fs0 & n0 & -> & Hlen & Hl0 & Hf0).
  destruct (conversationToApi_run snakeCase w l tfs Hd)
    as (fs & w2 & lo & w' & Hl & Hrun & Hg & Hd2 & Hfull & Hre).
  pose proof (omit_denotes serverOwned w l tfs Hd) as Hdo.
  simpl fieldsOf in Hdo. rewrite Hl in Hdo.
  exists w', (VRef lo). conjs; [exact Hfull | | |].
  { eapply conversationToApi_grows. exact Hfull. }
  { apply transformObjectKeys_deep_fresh in Hrun as [Hfr _].
    simpl in Hfr. rewrite length_app in Hfr. simpl in *. lia. }
  set (cdv := orUndef (oget (fieldsOf (heap_of w) (orUndef (oget fs "properties")))
                         "customData")) in *.
  rewrite <- Ec1 in Hre at 1. rewrite <- Ec2 in Hre.
  rewrite <- Ec1 at 1. rewrite <- Ec2.
  rewrite <- (fieldAt_without "properties" "customData" serverOwned tfs) by reflexivity.
  eapply (reapply_document snakeCase "properties" "customData" _ _ _ w2 lo w' cdv);
    [exact Hdo | exact Hrun | | exact Hre | exact Ka1 |].
  - subst cdv. simpl heap_of.
    assert (fieldsOf (heap_of w ++ [CObj (without serverOwned fs)])
              (VRef (length (heap_of w))) = without serverOwned fs) as ->.
    { simpl. now rewrite lookup_alloc. }
    rewrite oget_without. simpl mem. cbv iota.
    destruct (field_denoted _ _ _ _ "properties" Hd) as (t' & Ht').
    simpl fieldsOf in Ht'. rewrite Hl in Ht'.
    pose proof (grows_fieldsOf_denoted w
                  (World (heap_of w ++ [CObj (without serverOwned fs)]) (log w))
                  _ _ _ (grows_alloc _ _) Ht') as E.
    simpl heap_of in E. now rewrite E.
  - intros pfs Hp Hin. apply Ka2; [|exact Hin].
    now rewrite oget_without in Hp.
Qed.

(** The response [apiToConversation] was given, afterwards: it has lost
    its [_links] and is otherwise as it was. *)
Lemma apiToConversation_response_after w response tfs w' conversation :
  denotes w response (TObj tfs) ->
  apiToConversation camelCase response w = (w', Ok conversation) ->
  denotes w' response (TObj (odel tfs "_links")).
Proof.
  intros Hd Hfull'.
  destruct (denotes_obj_inv _ _ _ Hd) as (l & fs0 & n0 & -> & Hlen & Hl0 & Hf0).
  destruct (apiToConversation_run camelCase w l tfs Hd)
    as (fs & w2 & lo & w'' & Hl & Hrun & Hg & Hd2 & Hfull & Hre).
  rewrite Hfull in Hfull'. inversion Hfull'; subst w'' conversation. clear Hfull'.
  destruct (deleteProp_denotes w l tfs "_links" Hd) as (fs' & Hl' & _ & Hdd & _).
  rewrite Hl in Hl'. inversion Hl'; subst fs'. clear Hl'.
  eapply denotes_grows; [|exact Hdd].
  destruct Hre as [[-> _]|(lp & pfs & _ & Hp & Hlp & _ & ->)]; [exact Hg|].
  apply grows_insert_fresh; [exact Hg|].
  apply transformObjectKeys_deep_fresh in Hrun as [_ Hfr].
  exact (Forall_oget _ _ _ _ Hfr Hp).
Qed.

(** X1: what [apiToConversation] returns. For a wire conversation that
    denotes the object [tfs], it returns a new object that denotes [tfs]
    without [_links] with every key converted, except that the document
    under [properties.custom_data], if there is one, is kept as it was
    sent under [properties.customData]. The response it was given is
    left without its [_links]. *)
Theorem apiToConversation_document w response tfs :
  denotes w response (TObj tfs) ->
  camelCase "properties" = "properties" ->
  camelCase "custom_data" = "customData" ->
  keyedAlone camelCase "properties" tfs ->
  (forall pfs, oget tfs "properties" = Some (TObj pfs) ->
     In "custom_data" (okeys pfs) -> keyedAlone camelCase "custom_data" pfs) ->
  exists w' conversation,
    apiToConversation camelCase response w = (w', Ok conversation)
    /\ freshFrom (length (heap_of w)) conversation
    /\ denotes w' conversation
         (keepAt "properties" "customData" (fieldAt "properties" "custom_data" tfs)
            (tmap camelCase (TObj (odel tfs "_links"))))
    /\ denotes w' response (TObj (odel tfs "_links")).
Proof.
  intros Hd Ec1 Ec2 Ka1 Ka2.
  destruct (apiToConversation_document_run w response tfs Hd Ec1 Ec2 Ka1 Ka2)
    as (w' & conversation & Hrun & Hfresh & Hdoc).
  exists w', conversation. conjs; try assumption.
  eapply apiToConversation_response_after; eassumption.
Qed.

(** X2: what [conversationToApi] returns. For a conversation that denotes
    the object [tfs], it returns a new object that denotes [tfs] without
    the server-owned fields with every key converted, except that the
    document under [properties.customData], if there is one, is kept as
    it is under [properties.custom_data]. The conversation it was given
    denotes [tfs] as before. *)
Theorem conversationToApi_document w conversation tfs :
  denotes w conversation (TObj tfs) ->
  snakeCase "properties" = "properties" ->
  snakeCase "customData" = "custom_data" ->
  keyedAlone snakeCase "properties" (without serverOwned tfs) ->
  (forall pfs, oget tfs "properties" = Some (TObj pfs) ->
     In "customData" (okeys pfs) -> keyedAlone snakeCase "customData" pfs) ->
  exists w' request,
    conversationToApi snakeCase conversation w = (w', Ok request)
    /\ freshFrom (length (heap_of w)) request
    /\ denotes w' request
         (keepAt "properties" "custom_data" (fieldAt "properties" "customData" tfs)
            (tmap snakeCase (TObj (without serverOwned tfs))))
    /\ denotes w' conversation (TObj tfs).
Proof.
  intros Hd Ec1 Ec2 Ka1 Ka2.
  destruct (conversationToApi_document_run w conversation tfs Hd Ec1 Ec2 Ka1 Ka2)
    as (w' & request & Hrun & Hg & Hfresh & Hdoc).
  exists w', request. conjs; try assumption.
  eapply denotes_grows; eassumption.
Qed.
(** C2: the request built from a conversation is the conversation
    without [id], [sequenceNumber], [timestamp] and [state], every
    remaining field under its snake-cased key (the custom data kept as
    they are): the four fields are stripped first, and the request has
    none of them, under the domain name or under its wire spelling. The
    conversation is a finite document; no other key of it is converted
    to [properties], [custom_data] or a server-owned name. *)
Theorem request_omits_server_owned w conversation tfs :
  denotes w conversation (TObj tfs) ->
  snakeCase "properties" = "properties" ->
  snakeCase "customData" = "custom_data" ->
  keyedAlone snakeCase "properties" (without serverOwned tfs) ->
  (forall pfs, oget tfs "properties" = Some (TObj pfs) ->
     In "customData" (okeys pfs) -> keyedAlone snakeCase "customData" pfs) ->
  (forall k0, In k0 (okeys tfs) -> ~ In k0 serverOwned ->
     ~ In (snakeCase k0) (serverOwned ++ map snakeCase serverOwned)) ->
  exists w' request,
    conversationToApi snakeCase conversation w = (w', Ok request)
    /\ denotes w' request
         (keepAt "properties" "custom_data" (fieldAt "properties" "customData" tfs)
            (tmap snakeCase (TObj (without serverOwned tfs))))
    /\ (forall k0, In k0 (okeys tfs) -> ~ In k0 serverOwned ->
          In (snakeCase k0) (okeys (fieldsOf (heap_of w') request)))
    /\ (forall k, In k (okeys (fieldsOf (heap_of w') request)) ->
          exists k0, In k0 (okeys tfs) /\ ~ In k0 serverOwned /\ k = snakeCase k0)
    /\ forall K, In K (serverOwned ++ map snakeCase serverOwned) ->
         oget (fieldsOf (heap_of w') request) K = None.
Proof.
  intros Hd Ec1 Ec2 Ka1 Ka2 Hsep.
  destruct (conversationToApi_document_run w conversation tfs Hd Ec1 Ec2 Ka1 Ka2)
    as (w' & request & Hrun & Hg & Hfresh & Hdoc).
  destruct (conversationToApi_keys snakeCase w conversation tfs Hd)
    as (w'' & request' & Hrun' & Hkeys).
  rewrite Hrun in Hrun'. inversion Hrun'; subst w'' request'. clear Hrun'.
  exists w', request. conjs; [exact Hrun | exact Hdoc | | exact Hkeys |].
  - intros k0 Hin Hnot.
    assert (Hk : In (snakeCase k0)
                   (okeys (entries (tmap snakeCase (TObj (without serverOwned tfs)))))).
    { rewrite tmap_obj. simpl entries. apply okeys_renameKeys.
      rewrite okeys_map_vals. apply in_map. apply okeys_without. auto. }
    assert (Hk' : In (snakeCase k0)
                    (okeys (entries (keepAt "properties" "custom_data"
                                       (fieldAt "properties" "customData" tfs)
                                       (tmap snakeCase (TObj (without serverOwned tfs))))))).
    { destruct (fieldAt "properties" "customData" tfs) as [y|]; [|exact Hk].
      rewrite tmap_obj in *. simpl keepAt. simpl withPath. simpl entries in Hk.
      destruct (oget (renameKeys snakeCase
                        (map (fun kt => let '(k, x) := kt in (k, tmap snakeCase x))
                           (without serverOwned tfs))) "properties")
        as [[| | | | |pfs|]|]; try exact Hk.
      simpl entries. apply okeys_oset. now right. }
    destruct (keepAt "properties" "custom_data" (fieldAt "properties" "customData" tfs)
                (tmap snakeCase (TObj (without serverOwned tfs)))) as [| | | | |rfs|] eqn:Er;
      try contradiction.
    destruct (denotes_obj_inv _ _ _ Hdoc) as (l & fs & n & -> & _ & Hl & Hf).
    simpl fieldsOf. rewrite Hl. rewrite (fieldsDenote_keys _ _ _ _ Hf). exact Hk'.
  - intros K HK. apply oget_None. intros Hin.
    destruct (Hkeys K Hin) as (k0 & Hk0 & Hnot & ->).
    exact (Hsep k0 Hk0 Hnot HK).
Qed.
End ConversationDocuments.

(** ** Converting keys one to one *)

Section OneToOne.
Context {A B : Type}.
Variable g : string -> string.
Variable h : A -> B.

Lemma okeys_rekey (l : list (string * A)) :
  okeys (map (rekey g h) l) = map g (okeys l).
Proof. unfold okeys. rewrite !map_map. reflexivity. Qed.

Lemma oset_rekey (l : list (string * A)) K v :
  (forall k, In k (okeys l) -> g k = g K -> k = K) ->
  oset (map (rekey g h) l) (g K) (h v) = map (rekey g h) (oset l K v).
Proof.
  induction l as [|[k1 v1] r IH]; simpl; intros Hinj; [reflexivity|].
  destruct (String.eqb k1 K) eqn:E.
  - apply String.eqb_eq in E. subst k1. now rewrite String.eqb_refl.
  - destruct (String.eqb (g k1) (g K)) eqn:E'.
    + apply String.eqb_eq in E'. apply Hinj in E'; [|now left].
      subst k1. now rewrite String.eqb_refl in E.
    + simpl. unfold rekey at 1. simpl. f_equal. apply IH.
      intros k Hin. apply Hinj. now right.
Qed.

Lemma oget_rekey (l : list (string * A)) K :
  (forall k, In k (okeys l) -> g k = g K -> k = K) ->
  oget (map (rekey g h) l) (g K) = option_map h (oget l K).
Proof.
  induction l as [|[k1 v1] r IH]; simpl; intros Hinj; [reflexivity|].
  destruct (String.eqb k1 K) eqn:E.
  - apply String.eqb_eq in E. subst k1. now rewrite String.eqb_refl.
  - destruct (String.eqb (g k1) (g K)) eqn:E'.
    + apply String.eqb_eq in E'. apply Hinj in E'; [|now left].
      subst k1. now rewrite String.eqb_refl in E.
    + apply IH. intros k Hin. apply Hinj. now right.
Qed.
End OneToOne.

Lemma renameKeys_fold_distinct {A} (g : string -> string) (l : list (string * A)) :
  forall acc,
  List.NoDup (okeys acc ++ map g (okeys l)) ->
  fold_left (fun a kv => oset a (g (fst kv)) (snd kv)) l acc
  = acc ++ map (rekey g (fun x => x)) l.
Proof.
  induction l as [|[k v] r IH]; intros acc H; simpl.
  - now rewrite app_nil_r.
  - assert (Hk : ~ In (g k) (okeys acc)).
    { apply NoDup_remove_2 in H. intros Hin. apply H. apply in_or_app. now left. }
    rewrite (oset_fresh _ _ _ Hk). rewrite IH.
    + now rewrite <- app_assoc.
    + unfold okeys in *. rewrite map_app. simpl. rewrite <- app_assoc. exact H.
Qed.

Lemma renameKeys_distinct {A} (g : string -> string) (l : list (string * A)) :
  List.NoDup (map g (okeys l)) -> renameKeys g l = map (rekey g (fun x => x)) l.
Proof. intros H. unfold renameKeys. now rewrite renameKeys_fold_distinct. Qed.

Lemma tmap_distinct g fs :
  List.NoDup (map g (okeys fs)) ->
  tmap g (TObj fs) = TObj (map (rekey g (tmap g)) fs).
Proof.
  intros H. rewrite tmap_obj. rewrite renameKeys_distinct.
  - rewrite map_map. f_equal. apply map_ext. now intros [k x].
  - now rewrite okeys_map_vals.
Qed.

Lemma odel_absent {A} (l : list (string * A)) k :
  ~ In k (okeys l) -> odel l k = l.
Proof.
  induction l as [|[k1 v1] r IH]; simpl; intros Hn; [reflexivity|].
  destruct (String.eqb k1 k) eqn:E.
  - apply String.eqb_eq in E. tauto.
  - f_equal. apply IH. tauto.
Qed.

Lemma okeys_oset_present {A} (l : list (string * A)) k v :
  In k (okeys l) -> okeys (oset l k v) = okeys l.
Proof.
  induction l as [|[k1 v1] r IH]; simpl; intros Hin; [contradiction|].
  destruct (String.eqb k1 k) eqn:E.
  - apply String.eqb_eq in E. now subst.
  - simpl. f_equal. apply IH. destruct Hin as [->|]; [|assumption].
    now rewrite String.eqb_refl in E.
Qed.

(** ** Documents: a path overwritten *)

Lemma withPath_withPath K1 K2 y y' t :
  withPath K1 K2 y (withPath K1 K2 y' t) = withPath K1 K2 y t.
Proof.
  destruct t as [| | | | |fs|]; try reflexivity. simpl.
  destruct (oget fs K1) as [[| | | | |pfs|]|] eqn:E; simpl; rewrite ?E; try reflexivity.
  rewrite oget_oset_eq. now rewrite !oset_oset.
Qed.

Lemma withPath_same K1 K2 y fs :
  fieldAt K1 K2 fs = Some y -> withPath K1 K2 y (TObj fs) = TObj fs.
Proof.
  unfold fieldAt. simpl.
  destruct (oget fs K1) as [[| | | | |pfs|]|] eqn:E; try discriminate.
  intros H. rewrite (oset_same pfs _ _ H). now rewrite (oset_same fs _ _ E).
Qed.

Lemma NoDup_map_back (back there : string -> string) (ks : list string) :
  List.NoDup ks -> (forall k, In k ks -> back (there k) = k) ->
  List.NoDup (map there ks).
Proof.
  induction ks as [|k r IH]; simpl; intros Hnd Hb; [constructor|].
  inversion Hnd as [|? ? Hn Hr]; subst. constructor.
  - intros Hin. apply in_map_iff in Hin as (k' & E & Hin').
    apply Hn. rewrite <- (Hb k) by now left. rewrite <- E.
    rewrite Hb by now right. exact Hin'.
  - apply IH; [exact Hr|]. intros k' Hin. apply Hb. now right.
Qed.

Lemma roundTripsb_obj back there fs :
  roundTripsb back there (TObj fs) = true ->
  List.NoDup (okeys fs)
  /\ (forall k, In k (okeys fs) -> back (there k) = k)
  /\ Forall (fun kt => roundTripsb back there (snd kt) = true) fs.
Proof.
  simpl. intros H. apply andb_true_iff in H as [Hd Hf].
  split; [now apply distinct_NoDup|].
  rewrite forallb_forall in Hf. split.
  - intros k Hin. apply in_map_iff in Hin as ([k1 x] & <- & Hin).
    specialize (Hf _ Hin). simpl in Hf. apply andb_true_iff in Hf as [Hf _].
    now apply String.eqb_eq.
  - apply List.Forall_forall. intros [k x] Hin. specialize (Hf _ Hin). simpl in Hf.
    now apply andb_true_iff in Hf as [_ Hf].
Qed.

Lemma roundTripsb_there back there fs :
  roundTripsb back there (TObj fs) = true ->
  List.NoDup (map there (okeys fs))
  /\ List.NoDup (map back (map there (okeys fs)))
  /\ forall k K, In k (okeys fs) -> back (there k) = back K -> there k = there (back K).
Proof.
  intros H. apply roundTripsb_obj in H as (Hnd & Hb & _). split; [|split].
  - eapply NoDup_map_back; eassumption.
  - rewrite map_map. rewrite (map_ext_in _ (fun k => k)); [now rewrite map_id|].
    exact Hb.
  - intros k K Hin E. rewrite <- E. now rewrite Hb.
Qed.

Lemma tmap_round_trip back there t :
  roundTripsb back there t = true -> tmap back (tmap there t) = t.
Proof.
  induction t as [| | b | n | s | fs IH | xs IH] using tree_nested_ind;
    try reflexivity; intros H.
  - pose proof (roundTripsb_there _ _ _ H) as (Hn1 & Hn2 & _).
    apply roundTripsb_obj in H as (Hnd & Hb & Hf).
    rewrite (tmap_distinct there fs Hn1).
    rewrite tmap_distinct by now rewrite okeys_rekey.
    f_equal. rewrite map_map.
    rewrite <- (map_id fs) at 2. apply map_ext_in. intros [k x] Hin.
    unfold rekey. simpl. f_equal.
    + apply Hb. apply in_map_iff. now exists (k, x).
    + rewrite List.Forall_forall in IH, Hf. apply (IH _ Hin). apply (Hf _ Hin).
  - simpl in *. f_equal. rewrite map_map. rewrite <- (map_id xs) at 2.
    apply map_ext_in. intros x Hin. rewrite List.Forall_forall in IH.
    apply IH; [exact Hin|]. rewrite forallb_forall in H. now apply H.
Qed.

(** Key conversion commutes with overwriting a path whose keys are
    converted one to one. *)
Lemma tmap_withPath g K1 K2 y fs pfs :
  oget fs K1 = Some (TObj pfs) -> In K2 (okeys pfs) ->
  List.NoDup (map g (okeys fs)) -> List.NoDup (map g (okeys pfs)) ->
  tmap g (withPath K1 K2 y (TObj fs))
  = withPath (g K1) (g K2) (tmap g y) (tmap g (TObj fs)).
Proof.
  intros H1 H2 Hn1 Hn2.
  assert (Hinj : forall (ks : list string) K, List.NoDup (map g ks) -> In K ks ->
            forall k, In k ks -> g k = g K -> k = K).
  { clear. induction ks as [|k0 r IH]; simpl; intros K Hnd HK k Hk E; [contradiction|].
    inversion Hnd as [|? ? Hn Hr]; subst.
    destruct HK as [->|HK], Hk as [->|Hk]; try reflexivity.
    - exfalso. apply Hn. rewrite <- E. now apply in_map.
    - exfalso. apply Hn. rewrite E. now apply in_map.
    - eapply IH; eassumption. }
  pose proof (oget_Some_In _ _ _ H1) as HK1.
  rewrite (tmap_distinct g fs Hn1).
  unfold withPath. rewrite H1.
  rewrite tmap_distinct by now rewrite okeys_oset_present.
  rewrite (oget_rekey g (tmap g) fs K1) by (apply Hinj; assumption).
  rewrite H1. cbn [option_map].
  rewrite (tmap_distinct g pfs Hn2). cbv beta iota. f_equal.
  rewrite <- (oset_rekey g (tmap g) fs K1) by (apply Hinj; assumption).
  f_equal.
  rewrite tmap_distinct by now rewrite okeys_oset_present.
  f_equal. symmetry. apply oset_rekey. apply Hinj; assumption.
Qed.

Lemma oget_In_entry {A} (fs : list (string * A)) k v :
  oget fs k = Some v -> In (k, v) fs.
Proof.
  induction fs as [|[k1 v1] r IH]; simpl; [discriminate|].
  destruct (String.eqb k1 k) eqn:E.
  - intros H. inversion H; subst. apply String.eqb_eq in E. subst. now left.
  - intros H. right. now apply IH.
Qed.

(** Keys that come back: a key whose two spellings are known is the only
    one converted to either of them. *)
Lemma paired_there (back there : string -> string) ks K K' :
  (forall k, In k ks -> back (there k) = k) -> there K = K' -> back K' = K ->
  forall k, In k ks -> there k = there K -> k = K.
Proof.
  intros Hb E1 E2 k Hin E. rewrite <- (Hb k Hin), E, E1. exact E2.
Qed.

Lemma paired_back (back there : string -> string) ks K K' :
  (forall k, In k ks -> back (there k) = k) -> there K = K' -> back K' = K ->
  forall k', In k' (map there ks) -> back k' = back K' -> k' = K'.
Proof.
  intros Hb E1 E2 k' Hin E. apply in_map_iff in Hin as (k & <- & Hin).
  rewrite (Hb k Hin), E2 in E. subst k. exact E1.
Qed.

Section RoundTripAlgebra.
Variables back there : string -> string.
Variables P C C' : string.
Hypothesis there_P : there P = P.
Hypothesis back_P : back P = P.
Hypothesis there_C : there C = C'.
Hypothesis back_C : back C' = C.

(** The request-side document of an object whose keys come back. *)
Lemma there_keys fs :
  roundTripsb back there (TObj fs) = true ->
  tmap there (TObj fs) = TObj (map (rekey there (tmap there)) fs)
  /\ keyedAlone there P fs
  /\ keyedAlone back P (map (rekey there (tmap there)) fs)
  /\ oget (map (rekey there (tmap there)) fs) P = option_map (tmap there) (oget fs P).
Proof.
  intros H. pose proof (roundTripsb_there _ _ _ H) as (Hn1 & Hn2 & _).
  apply roundTripsb_obj in H as (Hnd & Hb & Hf).
  pose proof (paired_there back there _ P P Hb there_P back_P) as HiP.
  conjs.
  - now apply tmap_distinct.
  - split; assumption.
  - split; [now rewrite okeys_rekey|]. rewrite okeys_rekey.
    apply (paired_back back there _ P P Hb there_P back_P).
  - rewrite <- there_P at 1. now apply oget_rekey.
Qed.

Lemma there_inner pfs :
  roundTripsb back there (TObj pfs) = true ->
  tmap there (TObj pfs) = TObj (map (rekey there (tmap there)) pfs)
  /\ keyedAlone there C pfs
  /\ (forall k', In k' (map there (okeys pfs)) -> back k' = back C' -> k' = C')
  /\ (In C' (map there (okeys pfs)) -> In C (okeys pfs)).
Proof.
  intros H. pose proof (roundTripsb_there _ _ _ H) as (Hn1 & Hn2 & _).
  apply roundTripsb_obj in H as (Hnd & Hb & Hf).
  conjs.
  - now apply tmap_distinct.
  - split; [assumption|]. apply (paired_there back there _ C C' Hb there_C back_C).
  - apply (paired_back back there _ C C' Hb there_C back_C).
  - intros Hin. apply in_map_iff in Hin as (k & E & Hin).
    assert (k = C) as <-; [|exact Hin].
    rewrite <- (Hb k Hin), E. exact back_C.
Qed.

Lemma round_trip_algebra tfs :
  roundTripsb back there (blankAt P C (TObj tfs)) = true ->
  (forall k, In k (okeys tfs) -> there k <> "_links") ->
  keyedAlone there P tfs
  /\ (forall pfs, oget tfs P = Some (TObj pfs) -> In C (okeys pfs) ->
        keyedAlone there C pfs)
  /\ exists rfs,
       keepAt P C' (fieldAt P C tfs) (tmap there (TObj tfs)) = TObj rfs
       /\ keyedAlone back P rfs
       /\ (forall pfs, oget rfs P = Some (TObj pfs) -> In C' (okeys pfs) ->
             keyedAlone back C' pfs)
       /\ keepAt P C (fieldAt P C' rfs) (tmap back (TObj (odel rfs "_links")))
          = TObj tfs.
Proof.
  unfold blankAt. simpl entries.
  destruct (fieldAt P C tfs) as [cd|] eqn:Hcd; intros Hrt Hnl.
  - (* the conversation carries custom data *)
    pose proof Hcd as Hcd'. unfold fieldAt in Hcd'.
    destruct (oget tfs P) as [[| | | | |pfs0|]|] eqn:HP; try discriminate.
    pose proof (oget_Some_In _ _ _ HP) as HPin.
    pose proof (oget_Some_In _ _ _ Hcd') as HCin.
    unfold withPath in Hrt. rewrite HP in Hrt.
    set (pfsb := oset pfs0 C TNull) in *.
    set (fs0 := oset tfs P (TObj pfsb)) in *.
    assert (Hk0 : okeys fs0 = okeys tfs) by now apply okeys_oset_present.
    assert (Hkb : okeys pfsb = okeys pfs0) by now apply okeys_oset_present.
    assert (HP0 : oget fs0 P = Some (TObj pfsb)) by apply oget_oset_eq.
    assert (Hrtb : roundTripsb back there (TObj pfsb) = true).
    { apply roundTripsb_obj in Hrt as (_ & _ & Hf).
      rewrite List.Forall_forall in Hf. apply (Hf _ (oget_In_entry _ _ _ HP0)). }
    destruct (there_keys fs0 Hrt) as (Et0 & Ka & Kb & Eg).
    destruct (there_inner pfsb Hrtb) as (Etb & Kc & Kd & Ke).
    pose proof (roundTripsb_there _ _ _ Hrt) as (Hn1 & Hn2 & _).
    pose proof (roundTripsb_there _ _ _ Hrtb) as (Hm1 & Hm2 & _).
    assert (ET : TObj tfs = withPath P C cd (TObj fs0)).
    { change (TObj fs0) with (TObj (oset tfs P (TObj (oset pfs0 C TNull)))).
      transitivity (withPath P C cd (withPath P C TNull (TObj tfs))).
      - rewrite withPath_withPath. symmetry. now apply withPath_same.
      - unfold withPath at 2. now rewrite HP. }
    conjs.
    + destruct Ka as [Kn Ki]. split; rewrite <- Hk0; assumption.
    + intros pfs E Hin. inversion E; subst pfs.
      destruct Kc as [Kn Ki]. split; rewrite <- Hkb; assumption.
    + set (rfs0 := map (rekey there (tmap there)) fs0) in *.
      set (rpb := map (rekey there (tmap there)) pfsb) in *.
      assert (HrP : oget rfs0 P = Some (TObj rpb)).
      { rewrite Eg, HP0. cbn [option_map]. now rewrite Etb. }
      assert (HrC : In C' (okeys rpb)).
      { unfold rpb. rewrite okeys_rekey, Hkb. rewrite <- there_C. now apply in_map. }
      assert (ER : keepAt P C' (Some cd) (tmap there (TObj tfs))
                   = TObj (oset rfs0 P (TObj (oset rpb C' cd)))).
      { unfold keepAt. rewrite ET.
        rewrite (tmap_withPath there P C cd fs0 pfsb HP0); try assumption;
          [|rewrite Hkb; exact HCin].
        rewrite there_P, there_C, withPath_withPath, Et0.
        unfold withPath. fold rfs0. now rewrite HrP. }
      exists (oset rfs0 P (TObj (oset rpb C' cd))).
      assert (Hkr : okeys (oset rfs0 P (TObj (oset rpb C' cd))) = okeys rfs0).
      { apply okeys_oset_present. eapply oget_Some_In. exact HrP. }
      conjs.
      * exact ER.
      * destruct Kb as [Kn Ki]. split; rewrite Hkr; assumption.
      * intros pfs E Hin. rewrite oget_oset_eq in E. inversion E; subst pfs.
        unfold keyedAlone. rewrite (okeys_oset_present rpb C' cd HrC).
        unfold rpb. rewrite okeys_rekey. split; assumption.
      * assert (fieldAt P C' (oset rfs0 P (TObj (oset rpb C' cd))) = Some cd) as ->.
        { unfold fieldAt. now rewrite !oget_oset_eq. }
        rewrite odel_absent.
        2:{ rewrite Hkr. unfold rfs0. rewrite okeys_rekey, Hk0.
            intros Hin. apply in_map_iff in Hin as (k & E & Hin). now apply (Hnl k). }
        unfold keepAt.
        assert (TObj (oset rfs0 P (TObj (oset rpb C' cd)))
                = withPath P C' cd (TObj rfs0)) as ->
          by (unfold withPath; now rewrite HrP).
        rewrite (tmap_withPath back P C' cd rfs0 rpb HrP HrC).
        -- rewrite back_P, back_C, withPath_withPath.
           rewrite <- Et0. rewrite (tmap_round_trip _ _ _ Hrt).
           now rewrite <- ET.
        -- unfold rfs0. now rewrite okeys_rekey.
        -- unfold rpb. now rewrite okeys_rekey.
  - (* no custom data *)
    destruct (there_keys tfs Hrt) as (Et0 & Ka & Kb & Eg).
    assert (Hno : forall pfs, oget (map (rekey there (tmap there)) tfs) P = Some (TObj pfs) ->
                    In C' (okeys pfs) -> False).
    { intros pfs E Hin. rewrite Eg in E.
      destruct (oget tfs P) as [x|] eqn:HP; [|discriminate].
      simpl in E. inversion E as [Ex]. clear E.
      assert (Hrx : roundTripsb back there x = true).
      { apply roundTripsb_obj in Hrt as (_ & _ & Hf).
        rewrite List.Forall_forall in Hf. apply (Hf _ (oget_In_entry _ _ _ HP)). }
      destruct x as [| | | | |pfs0|]; try discriminate.
      destruct (there_inner pfs0 Hrx) as (Etb & _ & _ & Ke).
      rewrite Etb in Ex. inversion Ex; subst pfs. rewrite okeys_rekey in Hin.
      apply Ke in Hin. unfold fieldAt in Hcd. rewrite HP in Hcd.
      now apply oget_None in Hcd. }
    conjs.
    + exact Ka.
    + intros pfs E Hin. exfalso. unfold fieldAt in Hcd. rewrite E in Hcd.
      now apply oget_None in Hcd.
    + exists (map (rekey there (tmap there)) tfs). conjs.
      * exact Et0.
      * exact Kb.
      * intros pfs E Hin. exfalso. eapply Hno; eassumption.
      * assert (fieldAt P C' (map (rekey there (tmap there)) tfs) = None) as ->.
        { unfold fieldAt.
          destruct (oget (map (rekey there (tmap there)) tfs) P)
            as [[| | | | |pfs|]|] eqn:E; try reflexivity.
          destruct (oget pfs C') eqn:E'; [|reflexivity].
          exfalso. eapply Hno; [reflexivity|]. eapply oget_Some_In. exact E'. }
        rewrite odel_absent.
        2:{ rewrite okeys_rekey. intros Hin.
            apply in_map_iff in Hin as (k & E & Hin). now apply (Hnl k). }
        unfold keepAt. rewrite <- Et0. now apply tmap_round_trip.
Qed.
End RoundTripAlgebra.

Section ConversationRoundTrip.
Variables camelCase snakeCase : string -> string.

(** X3: a conversation sent and read back. Where the keys of a
    conversation outside [properties.customData] are distinct and come
    back from the wire spelling, and none of them is sent as [_links],
    [apiToConversation] applied to the result of [conversationToApi]
    gives the conversation again without its server-owned fields; its
    custom data come back untouched whatever keys they have. *)
Theorem conversation_round_trip w conversation tfs :
  denotes w conversation (TObj tfs) ->
  snakeCase "properties" = "properties" ->
  camelCase "properties" = "properties" ->
  snakeCase "customData" = "custom_data" ->
  camelCase "custom_data" = "customData" ->
  roundTripsb camelCase snakeCase
    (blankAt "properties" "customData" (TObj (without serverOwned tfs))) = true ->
  (forall k, In k (okeys (without serverOwned tfs)) -> snakeCase k <> "_links") ->
  exists w1 request w2 back,
    conversationToApi snakeCase conversation w = (w1, Ok request)
    /\ apiToConversation camelCase request w1 = (w2, Ok back)
    /\ denotes w2 back (TObj (without serverOwned tfs)).
Proof.
  intros Hd Es1 Ec1 Es2 Ec2 Hrt Hnl.
  destruct (round_trip_algebra camelCase snakeCase "properties" "customData"
              "custom_data" Es1 Ec1 Es2 Ec2 _ Hrt Hnl)
    as (Ka1 & Ka2 & rfs & ER & Kb1 & Kb2 & Eback).
  destruct (conversationToApi_document_run snakeCase w conversation tfs Hd Es1 Es2 Ka1)
    as (w1 & request & Hto & _ & _ & Hreq).
  { intros pfs HP. apply Ka2. now rewrite oget_without. }
  rewrite <- (fieldAt_without "properties" "customData" serverOwned tfs) in Hreq
    by reflexivity.
  rewrite ER in Hreq.
  destruct (apiToConversation_document_run camelCase w1 request rfs Hreq Ec1 Ec2 Kb1 Kb2)
    as (w2 & back & Hfrom & _ & Hback).
  rewrite Eback in Hback.
  exists w1, request, w2, back. auto.
Qed.
End ConversationRoundTrip.

Section Answers.
Variables camelCase snakeCase : string -> string.
Variable apiHost : string.
Variable server : list request -> res tree.
Variable numberText : Z -> string.

(** A request that is answered with an object: the parsed answer is a new
    object of the store. *)
Lemma send_object m u p w tfs :
  server (log w ++ [Request m u p]) = Ok (TObj tfs) ->
  exists w1 data dfs n,
    send server m u p w = (w1, Ok (VRef data))
    /\ log w1 = log w ++ [Request m u p]
    /\ heap_of w `prefix_of` heap_of w1
    /\ length (heap_of w) <= data
    /\ denotes w1 (VRef data) (TObj tfs)
    /\ heap_of w1 !! data = Some (CObj dfs)
    /\ length (heap_of w1) = S n
    /\ fieldsDenote n (heap_of w1) dfs tfs.
Proof.
  intros Hs. unfold send. rewrite Hs.
  destruct (allocTree_denotes (TObj tfs) (World (heap_of w) (log w ++ [Request m u p])))
    as (w1 & v & Hrun & Hg & Hlen & Hr).
  assert (Hd : denotes w1 v (TObj tfs)).
  { unfold denotes. eapply reify_mono; [|exact Hr]. lia. }
  destruct (denotes_obj_inv _ _ _ Hd) as (data & dfs & n & -> & Hn & Hl & Hf).
  assert (Hsend : send server m u p w = (w1, Ok (VRef data))).
  { unfold send. now rewrite Hs. }
  exists w1, data, dfs, n. conjs; try assumption.
  - now destruct Hg as [_ ->].
  - now destruct Hg as [Hp _].
  - apply send_closed in Hsend as [Hfr _]. exact Hfr.
Qed.

Lemma keeps_log_then_answers {A} (c : M A) w w1 a tfs :
  (forall rq, server (log w ++ [rq]) = Ok (TObj tfs)) ->
  c w = (w1, Ok a) -> grows w w1 ->
  forall rq, server (log w1 ++ [rq]) = Ok (TObj tfs).
Proof. intros Hs _ [_ ->]. exact Hs. Qed.

(** X6: [getConversation], [createConversation] and
    [updateConversation] return the answer of the server transcoded by
    [apiToConversation], whatever conversation was sent: when the
    server answers the object [tfs], each returns a value that denotes
    [tfs] without [_links], keys converted, custom data kept. *)
Theorem conversation_operations_return_answer (conversationId : string)
  (conversation : val) (cfs tfs : list (string * tree)) (w : world) :
  denotes w conversation (TObj cfs) ->
  (forall rq, server (log w ++ [rq]) = Ok (TObj tfs)) ->
  camelCase "properties" = "properties" ->
  camelCase "custom_data" = "customData" ->
  keyedAlone camelCase "properties" tfs ->
  (forall pfs, oget tfs "properties" = Some (TObj pfs) ->
     In "custom_data" (okeys pfs) -> keyedAlone camelCase "custom_data" pfs) ->
  let answer :=
    keepAt "properties" "customData" (fieldAt "properties" "custom_data" tfs)
      (tmap camelCase (TObj (odel tfs "_links"))) in
  (exists w' v, getConversation camelCase apiHost server conversationId w = (w', Ok v)
                /\ denotes w' v answer)
  /\ (exists w' v,
        createConversation camelCase snakeCase apiHost server conversation w
        = (w', Ok v)
        /\ denotes w' v answer)
  /\ (exists w' v,
        updateConversation camelCase snakeCase apiHost server numberText conversation w
        = (w', Ok v)
        /\ denotes w' v answer).
Proof.
  intros Hd Hs Ec1 Ec2 Ka1 Ka2 answer.
  assert (Hafter : forall m u p w0, (forall rq, server (log w0 ++ [rq]) = Ok (TObj tfs)) ->
            exists w' v, (let* data := send server m u p in
                          apiToConversation camelCase data) w0 = (w', Ok v)
                         /\ denotes w' v answer).
  { intros m u p w0 Hs0.
    destruct (send_object m u p w0 tfs (Hs0 _))
      as (w1 & data & dfs & n & Hsend & _ & _ & _ & Hdd & _).
    destruct (apiToConversation_document_run camelCase w1 (VRef data) tfs Hdd
                Ec1 Ec2 Ka1 Ka2) as (w' & v & Hrun & _ & Hv).
    exists w', v. split; [|exact Hv]. now rewrite (bind_run _ _ _ _ _ Hsend). }
  destruct (transcoders_return camelCase snakeCase w conversation cfs Hd)
    as (_ & (w1 & body & Hbody) & _).
  pose proof (conversationToApi_grows _ _ _ _ _ Hbody) as Hg.
  conjs.
  - apply Hafter, Hs.
  - unfold createConversation. rewrite (bind_run _ _ _ _ _ Hbody).
    apply Hafter. eapply keeps_log_then_answers; eassumption.
  - unfold updateConversation.
    destruct (denotes_obj_inv _ _ _ Hd) as (l & fs & n & -> & _).
    rewrite (bind_run _ _ _ _ _ (getProp_ref _ _ _)).
    rewrite (bind_run _ _ _ _ _ (templateText_run _ _ _)).
    rewrite (bind_run _ _ _ _ _ Hbody).
    apply Hafter. eapply keeps_log_then_answers; eassumption.
Qed.

(** X7: [getMember], [getMe], [createMember] and [updateMember]
    return the answer of the server transcoded by [apiToMember],
    whatever member was sent: when the server answers the object [tfs]
    with an embedded user, each returns a value that denotes the member
    made from [tfs]. *)
Theorem member_operations_return_answer (conversationId memberId : string)
  (member params : val) (mfs mufs tfs efs ufs : list (string * tree)) (w : world) :
  denotes w member (TObj mfs) ->
  oget mfs "user" = Some (TObj mufs) ->
  (forall rq, server (log w ++ [rq]) = Ok (TObj tfs)) ->
  oget tfs "_embedded" = Some (TObj efs) ->
  oget efs "user" = Some (TObj ufs) ->
  let answer :=
    TObj (oset (entries (tmap camelCase (TObj (without ["_embedded"; "_links"] tfs))))
            "user" (tmap camelCase (TObj (without ["_links"] ufs)))) in
  (exists w' v, getMember camelCase apiHost server conversationId memberId w
                = (w', Ok v)
                /\ denotes w' v answer)
  /\ (exists w' v, getMe camelCase apiHost server conversationId w = (w', Ok v)
                   /\ denotes w' v answer)
  /\ (exists w' v,
        createMember camelCase snakeCase apiHost server conversationId member w
        = (w', Ok v)
        /\ denotes w' v answer)
  /\ (exists w' v,
        updateMember camelCase apiHost server conversationId memberId params w
        = (w', Ok v)
        /\ denotes w' v answer).
Proof.
  intros Hd Hu Hs He Heu answer.
  assert (Hafter : forall m u p w0, (forall rq, server (log w0 ++ [rq]) = Ok (TObj tfs)) ->
            exists w' v, (let* data := send server m u p in
                          apiToMember camelCase data) w0 = (w', Ok v)
                         /\ denotes w' v answer).
  { intros m u p w0 Hs0.
    destruct (send_object m u p w0 tfs (Hs0 _))
      as (w1 & data & dfs & n & Hsend & _ & _ & _ & Hdd & _).
    destruct (apiToMember_run camelCase w1 (VRef data) tfs efs ufs Hdd He Heu)
      as (w' & v & Hrun & _ & Hv).
    exists w', v. split; [|exact Hv]. now rewrite (bind_run _ _ _ _ _ Hsend). }
  conjs.
  - apply Hafter, Hs.
  - apply Hafter, Hs.
  - destruct (memberToApi_document_run snakeCase w member mfs mufs Hd Hu)
      as (w1 & body & Hbody & _).
    pose proof (allocOnly_memberToApi _ _ _ _ _ Hbody) as Hg.
    unfold createMember. rewrite (bind_run _ _ _ _ _ Hbody).
    apply Hafter. eapply keeps_log_then_answers; eassumption.
  - apply Hafter, Hs.
Qed.
End Answers.

(** ** What a closed part of the store denotes *)

Lemma Forall2_impl_Forall {A B} (P : A -> Prop) (R R' : A -> B -> Prop) xs ys :
  Forall P xs -> Forall2 R xs ys ->
  (forall x y, P x -> R x y -> R' x y) -> Forall2 R' xs ys.
Proof.
  intros HP HR Himp. induction HR as [|x y xs ys Hxy _ IH]; constructor.
  - apply Himp; [now inversion HP | exact Hxy].
  - apply IH. now inversion HP.
Qed.

(** A value from [a] on denotes the same document in every store that
    keeps the cells from [a] on, when these refer to themselves only. *)
Lemma reify_frame a h h' :
  closedFrom a h ->
  (forall l c, a <= l -> h !! l = Some c -> h' !! l = Some c) ->
  forall n m v t, n <= m -> freshFrom a v ->
    reify n h v = Some t -> reify m h' v = Some t.
Proof.
  intros Hc Hsub. induction n as [|n IH]; intros m v t Hle Hv H.
  - destruct v; simpl in *; try discriminate; destruct m; exact H.
  - destruct v as [| | | | |l]; try (destruct m; exact H).
    apply reify_ref_inv in H as (n' & E & H). inversion E; subst n'.
    destruct m as [|m]; [lia|]. simpl in Hv.
    destruct H as [(fs & tfs & Hl & Hf & ->)|(xs & ts & Hl & Hf & ->)].
    + pose proof (Hc l _ Hv Hl) as Hvals. simpl in Hvals.
      eapply reify_obj_intro; [apply Hsub; [exact Hv | exact Hl]|].
      unfold fieldsDenote in *.
      eapply (Forall2_impl_Forall (fun kv => freshFrom a (snd kv))); [|exact Hf|].
      * apply (proj1 (List.Forall_map _ _ _)). exact Hvals.
      * intros kv kt Hfr [E1 E2]. split; [assumption|]. apply IH; [lia | assumption | assumption].
    + pose proof (Hc l _ Hv Hl) as Hvals. simpl in Hvals.
      eapply reify_arr_intro; [apply Hsub; [exact Hv | exact Hl]|].
      eapply (Forall2_impl_Forall (freshFrom a)); [exact Hvals | exact Hf |].
      intros x t' Hfr E2. apply IH; [lia | assumption | assumption].
Qed.

Lemma closedFrom_insert a h l c :
  closedFrom a h -> (a <= l -> Forall (freshFrom a) (cellVals c)) ->
  closedFrom a (<[l := c]> h).
Proof.
  intros Hc Hv l' c' Hl' Hlk.
  destruct (Nat.eq_dec l' l) as [->|Hne].
  - destruct (lt_dec l (length h)) as [Hlt|Hge].
    + rewrite list_lookup_insert_eq in Hlk by assumption. inversion Hlk; subst. auto.
    + rewrite list_insert_ge in Hlk by lia. eapply Hc; eassumption.
  - rewrite list_lookup_insert_ne in Hlk by congruence. eapply Hc; eassumption.
Qed.

Lemma Forall_snd_odel {A} (P : A -> Prop) (fs : list (string * A)) k :
  Forall P (map snd fs) -> Forall P (map snd (odel fs k)).
Proof.
  induction fs as [|[k1 v1] r IH]; simpl; intros H; [constructor|].
  inversion H; subst. destruct (String.eqb k1 k); [auto | constructor; auto].
Qed.

Lemma Forall_snd_oset {A} (P : A -> Prop) (fs : list (string * A)) k v :
  Forall P (map snd fs) -> P v -> Forall P (map snd (oset fs k v)).
Proof.
  induction fs as [|[k1 v1] r IH]; simpl; intros H Hv.
  - constructor; [exact Hv | constructor].
  - inversion H; subst. destruct (String.eqb k1 k); simpl; constructor; auto.
Qed.

Lemma closedFrom_deleteProp a v k w w' r :
  closedFrom a (heap_of w) -> deleteProp v k w = (w', r) ->
  closedFrom a (heap_of w') /\ length (heap_of w') = length (heap_of w).
Proof.
  intros Hc H. unfold deleteProp in H.
  destruct v as [| | | | |l]; try (inversion H; subst; auto).
  destruct (heap_of w !! l) as [[fs|xs]|] eqn:Hl; inversion H; subst; auto.
  simpl. split; [|apply length_insert].
  apply closedFrom_insert; [exact Hc|]. intros Hal. simpl.
  apply Forall_snd_odel. exact (Hc l _ Hal Hl).
Qed.

Lemma closedFrom_setProp a v k x w w' r :
  closedFrom a (heap_of w) -> freshFrom a x -> setProp v k x w = (w', r) ->
  closedFrom a (heap_of w') /\ length (heap_of w') = length (heap_of w).
Proof.
  intros Hc Hx H. unfold setProp in H.
  destruct v as [| | | | |l]; try (inversion H; subst; auto).
  destruct (heap_of w !! l) as [[fs|xs]|] eqn:Hl; inversion H; subst; auto.
  simpl. split; [|apply length_insert].
  apply closedFrom_insert; [exact Hc|]. intros Hal. simpl.
  apply Forall_snd_oset; [exact (Hc l _ Hal Hl) | exact Hx].
Qed.

Lemma Forall_fresh_weaken a b vs :
  a <= b -> Forall (freshFrom b) vs -> Forall (freshFrom a) vs.
Proof.
  intros Hle H. eapply Forall_impl; [exact H|]. intros [] Hv; simpl in *; auto. lia.
Qed.

Lemma Forall_snd_renameKeys {A} (P : A -> Prop) tf (fs : list (string * A)) :
  Forall P (map snd fs) -> Forall P (map snd (renameKeys tf fs)).
Proof.
  intros H. unfold renameKeys.
  assert (G : forall acc, Forall P (map snd acc) ->
            Forall P (map snd (fold_left (fun a kv => oset a (tf (fst kv)) (snd kv)) fs acc))).
  { induction fs as [|[k v] r IH]; intros acc Hacc; simpl; [exact Hacc|].
    inversion H; subst. apply IH; [assumption|].
    apply Forall_snd_oset; assumption. }
  apply G. constructor.
Qed.

Lemma traverse_closed {A B} a (f : A -> M B) xs :
  (forall x, allocOnly (f x)) ->
  (forall x w w' r, a <= length (heap_of w) -> closedFrom a (heap_of w) ->
     f x w = (w', r) -> closedFrom a (heap_of w')) ->
  forall w w' r, a <= length (heap_of w) -> closedFrom a (heap_of w) ->
    traverse f xs w = (w', r) -> closedFrom a (heap_of w').
Proof.
  intros Ha Hf. induction xs as [|x rest IH]; intros w w' r Hle Hc H; simpl in H.
  - inversion H; subst. exact Hc.
  - run_bind H; [|eapply Hf; eassumption].
    assert (Hle0 : a <= length (heap_of w0)).
    { apply Ha, grows_length in E. lia. }
    pose proof (Hf _ _ _ _ Hle Hc E) as Hc0.
    run_bind H; [|eapply IH; eassumption].
    inversion H; subst. eapply IH; eassumption.
Qed.

Lemma transformRec_closed a tf fuel : forall v w w' r,
  a <= length (heap_of w) -> closedFrom a (heap_of w) ->
  transformRec tf fuel v w = (w', r) -> closedFrom a (heap_of w').
Proof.
  induction fuel as [|n IH]; intros v w w' r Hle Hc H;
    destruct v as [| | | | |l]; simpl in H; try (inversion H; subst; exact Hc).
  destruct (heap_of w !! l) as [[fs|xs]|] eqn:Hl.
  - run_bind H.
    + pose proof (traverse_fresh _ _ _ _ _ _ E) as Hvs.
      pose proof (traverse_closed a (transformRec tf n) _
                    (allocOnly_transformRec tf n) IH _ _ _ Hle Hc E) as Hc0.
      inversion H; subst. simpl. apply closedFrom_alloc; [exact Hc0|]. simpl.
      apply Forall_snd_renameKeys. apply Forall_fresh_combine.
      eapply Forall_fresh_weaken; eassumption.
    + eapply (traverse_closed a (transformRec tf n)); try eassumption.
      apply allocOnly_transformRec.
  - run_bind H.
    + pose proof (traverse_fresh _ _ _ _ _ _ E) as Hvs.
      pose proof (traverse_closed a (transformRec tf n) _
                    (allocOnly_transformRec tf n) IH _ _ _ Hle Hc E) as Hc0.
      inversion H; subst. simpl. apply closedFrom_alloc; [exact Hc0|]. simpl.
      eapply Forall_fresh_weaken; eassumption.
    + eapply (traverse_closed a (transformRec tf n)); try eassumption.
      apply allocOnly_transformRec.
  - inversion H; subst. exact Hc.
Qed.

Lemma transformObjectKeys_deep_closed a tf v w w' r :
  a <= length (heap_of w) -> closedFrom a (heap_of w) ->
  transformObjectKeys tf v true w = (w', r) -> closedFrom a (heap_of w').
Proof.
  intros Hle Hc H. unfold transformObjectKeys in H.
  assert (Hempty : alloc (CObj []) w = (w', r) -> closedFrom a (heap_of w')).
  { intros E. inversion E; subst. simpl. apply closedFrom_alloc; [exact Hc | constructor]. }
  destruct v as [| | | | |l]; try (now apply Hempty).
  destruct (heap_of w !! l) as [[fs|xs]|]; try (now apply Hempty).
  eapply transformRec_closed; eassumption.
Qed.

Lemma reapply_step_closed a (b : bool) obj K1 K2 cd w w' (r : res unit) :
  closedFrom a (heap_of w) -> freshFrom a cd ->
  (if b then let* p := getProp obj K1 in setProp p K2 cd else ret tt) w = (w', r) ->
  closedFrom a (heap_of w').
Proof.
  intros Hc Hcd H. destruct b; [|inversion H; subst; exact Hc].
  unfold bind in H. destruct (getProp obj K1 w) as [w1 [p|e]] eqn:E;
    apply readOnly_getProp in E; subst w1.
  - eapply closedFrom_setProp; eassumption.
  - inversion H; subst. exact Hc.
Qed.

Section ClosedConversion.
Variable camelCase : string -> string.

(** [apiToConversation] on a value from [a] on keeps the cells from [a]
    on closed, and returns a value from [a] on. *)
Lemma apiToConversation_closed a v w w' r :
  a <= length (heap_of w) -> closedFrom a (heap_of w) -> freshFrom a v ->
  apiToConversation camelCase v w = (w', r) ->
  closedFrom a (heap_of w')
  /\ forall c, r = Ok c -> freshFrom a c.
Proof.
  intros Hle Hc Hv H. unfold apiToConversation in H.
  run_bind H; [|apply readOnly_getProp in E; subst; split; [exact Hc | intros; subst; discriminate]].
  pose proof (getProp_closed _ _ _ _ _ _ E Hc Hv) as Hprops.
  apply readOnly_getProp in E. subst w0.
  run_bind H; [|apply readOnly_optChain in E; subst; split; [exact Hc | intros; subst; discriminate]].
  assert (Hcd : freshFrom a a1).
  { pose proof E as E'. rewrite optChain_ok in E'. inversion E'; subst.
    now apply closed_field. }
  apply readOnly_optChain in E. subst w0.
  run_bind H.
  2:{ destruct (closedFrom_deleteProp _ _ _ _ _ _ Hc E) as [Hc' _].
      split; [exact Hc' | intros; subst; discriminate]. }
  destruct (closedFrom_deleteProp _ _ _ _ _ _ Hc E) as [Hc1 Hlen1].
  assert (Hle1 : a <= length (heap_of w0)) by lia.
  run_bind H.
  2:{ split; [|intros; subst; discriminate].
      eapply transformObjectKeys_deep_closed; eassumption. }
  pose proof (transformObjectKeys_deep_closed _ _ _ _ _ _ Hle1 Hc1 E0) as Hc2.
  destruct (transformObjectKeys_deep_fresh _ _ _ _ _ E0) as [Hfr2 _].
  assert (Hconv : freshFrom a a3).
  { destruct a3; simpl in *; auto. lia. }
  run_bind H; [|apply readOnly_optChain in E1; subst; split; [exact Hc2 | intros; subst; discriminate]].
  apply readOnly_optChain in E1. subst w2.
  run_bind H; [|apply readOnly_optChain in E1; subst; split; [exact Hc2 | intros; subst; discriminate]].
  apply readOnly_optChain in E1. subst w2.
  assert (Hfinal : forall w3, closedFrom a (heap_of w3) ->
            ret a3 w3 = (w', r) ->
            closedFrom a (heap_of w') /\ forall c, r = Ok c -> freshFrom a c).
  { intros w3 Hc3 E3. inversion E3; subst. split; [exact Hc3|].
    intros c Ec. inversion Ec; subst. exact Hconv. }
  run_bind H.
  - eapply (Hfinal w2); [|exact H].
    exact (reapply_step_closed a _ _ _ _ _ _ _ _ Hc2 Hcd E1).
  - split; [|intros; subst; discriminate].
    exact (reapply_step_closed a _ _ _ _ _ _ _ _ Hc2 Hcd E1).
Qed.
End ClosedConversion.

(** ** A page with one item of any shape *)

Lemma tnodes_elem_lt x xs : In x xs -> tnodes x < tnodes (TArr xs).
Proof.
  simpl. induction xs as [|y r IH]; simpl; [contradiction|].
  intros [->|Hin]; [lia|]. apply IH in Hin. lia.
Qed.

(** The one item of an answer that embeds a list of one object. *)
Lemma embedded_item w data tfs item :
  denotes w (VRef data) (TObj tfs) ->
  fieldAt "_embedded" "conversations" tfs = Some (TArr [TObj item]) ->
  exists emb arr r,
    oget (fieldsOf (heap_of w) (VRef data)) "_embedded" = Some (VRef emb)
    /\ oget (fieldsOf (heap_of w) (VRef emb)) "conversations" = Some (VRef arr)
    /\ heap_of w !! arr = Some (CArr [VRef r])
    /\ denotes w (VRef r) (TObj item)
    /\ r <> data.
Proof.
  intros Hd He. unfold fieldAt in He.
  destruct (oget tfs "_embedded") as [[| | | | |efs|]|] eqn:E1; try discriminate.
  destruct (denotes_obj_inv _ _ _ Hd) as (l & dfs & n & El & Hn & Hl & Hf).
  inversion El; subst l. clear El.
  destruct (denotes_field_obj w n dfs tfs "_embedded" efs Hf ltac:(lia) E1)
    as (emb & efs' & n' & Hemb & Hle & Hfe & Hn' & Hde).
  pose proof (fieldsDenote_oget _ _ _ _ "conversations" Hfe) as Hc.
  rewrite He in Hc. destruct Hc as (va & Hva & Hra).
  destruct n' as [|n'']; [destruct va; simpl in Hra; discriminate|].
  assert (exists arr, va = VRef arr) as [arr ->].
  { destruct va; simpl in Hra; try discriminate. eauto. }
  apply reify_ref_inv in Hra
    as (m & Em & [(fs0 & tfs0 & _ & _ & E0)|(xs & ts & Harr & Hxs & E0)]);
    [discriminate|].
  inversion Em; subst m. inversion E0; subst ts. clear E0 Em.
  inversion Hxs as [|x t xs' ts' Hx Hrest]; subst.
  inversion Hrest; subst.
  destruct (reify_obj_is_ref _ _ _ _ Hx) as [r ->].
  assert (Hdr : denotes w (VRef r) (TObj item)).
  { unfold denotes. eapply reify_mono; [|exact Hx]. lia. }
  exists emb, arr, r. conjs.
  - simpl. now rewrite Hl.
  - simpl. now rewrite Hle.
  - exact Harr.
  - exact Hdr.
  - intros ->. pose proof (reify_fuel_det _ _ _ _ _ _ Hd Hdr) as E.
    pose proof (tnodes_oget_lt _ _ _ E1) as H1.
    assert (H2 : tnodes (TArr [TObj item]) < tnodes (TObj efs))
      by (eapply tnodes_oget_lt; exact He).
    assert (H3 : tnodes (TObj item) < tnodes (TArr [TObj item]))
      by (apply tnodes_elem_lt; now left).
    rewrite E in H1. lia.
Qed.

Section OneItemPage.
Variables camelCase snakeCase : string -> string.
Variable apiHost : string.
Variable parseCursor : string -> option (option string).
Variable server : list request -> res tree.

Local Notation fetch := (getConversationPage camelCase snakeCase apiHost server).
Local Notation url := (apiHost ++ "/v1/conversations")%string.

(** What the properties other than [_links] of a value are once
    [apiToConversation] has run on another value. *)
Lemma fields_after_conversion v w w' r h' x n t k :
  apiToConversation camelCase v w = (w', r) ->
  heap_of w' `prefix_of` h' ->
  reify n (heap_of w) x = Some t -> k <> "_links" ->
  oget (fieldsOf h' x) k = oget (fieldsOf (heap_of w) x) k.
Proof.
  intros H Hpre Hx Hk. destruct x as [| | | | |l]; try reflexivity.
  apply apiToConversation_frame in H as [_ H].
  apply reify_ref_inv in Hx
    as (m & _ & [(fs0 & tfs0 & Hl & _ & _)|(xs & ts & Hl & _ & _)]);
    simpl; rewrite Hl, (prefix_lookup_Some _ _ _ _ (H _ _ Hl) Hpre);
    unfold afterDeleteLinks.
  - destruct v; try reflexivity. destruct (Nat.eqb l l0); [|reflexivity].
    apply oget_odel_ne. congruence.
  - destruct v; reflexivity.
Qed.

Lemma cell_after_conversion l w w' r c x :
  apiToConversation camelCase (VRef l) w = (w', r) ->
  heap_of w !! x = Some c -> x <> l -> heap_of w' !! x = Some c.
Proof.
  intros H Hx Hne. apply apiToConversation_frame in H as [_ H].
  rewrite (H _ _ Hx). unfold afterDeleteLinks. destruct c; [|reflexivity].
  destruct (Nat.eqb x l) eqn:E; [|reflexivity]. apply Nat.eqb_eq in E. contradiction.
Qed.

Lemma apiToConversation_length v w w' r :
  apiToConversation camelCase v w = (w', r) ->
  length (heap_of w) <= length (heap_of w').
Proof.
  intros H. apply apiToConversation_frame in H as [_ H].
  destruct (le_lt_dec (length (heap_of w)) (length (heap_of w'))) as [|Hlt]; [assumption|].
  destruct (lookup_lt_is_Some_2 (heap_of w) (length (heap_of w'))) as [c Hc]; [lia|].
  apply H in Hc. apply lookup_lt_Some in Hc. lia.
Qed.

(** Fetching a page whose answer embeds one conversation. *)
Lemma fetch_one p fs tfs item w :
  heap_of w !! p = Some (CObj fs) ->
  (forall rq, server (log w ++ [rq]) = Ok (TObj tfs)) ->
  fieldAt "_embedded" "conversations" tfs = Some (TArr [TObj item]) ->
  camelCase "properties" = "properties" ->
  camelCase "custom_data" = "customData" ->
  keyedAlone camelCase "properties" item ->
  (forall pfs, oget item "properties" = Some (TObj pfs) ->
     In "custom_data" (okeys pfs) -> keyedAlone camelCase "custom_data" pfs) ->
  exists w1 resp c,
    gen_step parseCursor fetch "conversations" (GFetch (VRef p)) w
    = (w1, Ok (ESilent, GItems (VRef p) (VRef resp) [c]))
    /\ log w1 = log w ++ [Request GET url (Query (renameKeys snakeCase fs))]
    /\ (forall l x, heap_of w !! l = Some x -> heap_of w1 !! l = Some x)
    /\ denotes w1 c (conversationOf camelCase item)
    /\ freshFrom (S (length (heap_of w))) c
    /\ closedFrom (S (length (heap_of w))) (heap_of w1)
    /\ (forall href, fieldAt "_links" "next" tfs = Some (linkTo href) ->
          nextCursor parseCursor (VRef resp) w1
          = (w1, match parseCursor href with
                 | Some (Some cur) => Ok (VStr cur)
                 | Some None => Ok VNull
                 | None => Throw TypeError
                 end))
    /\ (fieldAt "_links" "next" tfs = None ->
          nextCursor parseCursor (VRef resp) w1 = (w1, Ok VNull)).
Proof.
  intros Hp Hs Hemb Ec1 Ec2 Ka1 Ka2.
  set (q := renameKeys snakeCase fs).
  set (w0 := World (heap_of w ++ [CObj q]) (log w)).
  assert (Ha0 : length (heap_of w0) = S (length (heap_of w))).
  { unfold w0. simpl. rewrite length_app. simpl. lia. }
  destruct (send_object server GET url (Query q) w0 tfs (Hs _))
    as (w1 & data & dfs & n & Hsend & Hlog1 & Hpre1 & Hfr1 & Hd1 & Hl1 & Hn1 & Hf1).
  destruct (send_closed _ _ _ _ _ _ _ Hsend) as [_ Hc1].
  assert (Hle1 : length (heap_of w0) <= length (heap_of w1)) by now apply prefix_length.
  destruct (embedded_item w1 data tfs item Hd1 Hemb)
    as (emb & arr & r & Hemb1 & Harr1 & Harr & Hdr & Hne).
  (* where the item lives *)
  assert (Hfemb : freshFrom (length (heap_of w0)) (VRef emb)).
  { pose proof (closed_field _ _ (VRef data) "_embedded" Hc1 Hfr1) as H.
    now rewrite Hemb1 in H. }
  assert (Hfarr : freshFrom (length (heap_of w0)) (VRef arr)).
  { pose proof (closed_field _ _ (VRef emb) "conversations" Hc1 Hfemb) as H.
    now rewrite Harr1 in H. }
  assert (Hfr : freshFrom (length (heap_of w0)) (VRef r)).
  { pose proof (Hc1 arr _ Hfarr Harr) as H. simpl in H. now inversion H. }
  (* the conversion *)
  destruct (apiToConversation_document_run camelCase w1 (VRef r) item Hdr Ec1 Ec2 Ka1 Ka2)
    as (w2 & c & Hconv & Hfresh & Hdoc).
  destruct (apiToConversation_closed camelCase _ _ _ _ _ Hle1 Hc1 Hfr Hconv)
    as [Hc2 Hfc].
  specialize (Hfc c eq_refl).
  pose proof (apiToConversation_frame camelCase _ _ _ _ Hconv) as [Hlog2 _].
  pose proof (cell_after_conversion r w1 w2 _ _ data Hconv Hl1 ltac:(congruence)) as Hl2.
  pose proof (apiToConversation_length _ _ _ _ Hconv) as Hlen2.
  (* the page *)
  set (h3 := heap_of w2 ++ [CArr [c]]).
  set (psv := orUndef (oget dfs "page_size")).
  set (lkv := orUndef (oget dfs "_links")).
  set (pcell := CObj [("conversations", VRef (length (heap_of w2)));
                      ("pageSize", psv); ("links", lkv)]).
  set (w4 := World (h3 ++ [pcell]) (log w2)).
  assert (Hpage : fetch (VRef p) w = (w4, Ok (VRef (length h3)))).
  { unfold getConversationPage, snakeCaseObjectKeys.
    rewrite (bind_run _ _ _ _ _ (shallow_run _ _ _)).
    simpl fieldsOf at 1. rewrite Hp. fold q w0.
    unfold bind at 1. unfold ownFields at 1.
    simpl fieldsOf. rewrite lookup_alloc. fold w0.
    rewrite (bind_run _ _ _ _ _ Hsend).
    rewrite (bind_run _ _ _ _ _ (getProp_ref _ _ _)). rewrite Hemb1. cbn [orUndef].
    rewrite (bind_run _ _ _ _ _ (optChain_ok _ _ _)). rewrite Harr1. cbn [orUndef truthy].
    unfold arrayMap at 1. unfold bind at 1. rewrite Harr.
    simpl traverse. rewrite (bind_run _ _ _ _ _ Hconv).
    unfold bind at 1. unfold ret at 1. unfold bind at 1. unfold ret at 1.
    unfold alloc at 1.
    rewrite (bind_run _ _ _ _ _ (getProp_ref _ _ _)).
    rewrite (bind_run _ _ _ _ _ (getProp_ref _ _ _)).
    unfold alloc. simpl heap_of. simpl log.
    assert (Hfs : fieldsOf (heap_of w2 ++ [CArr [c]]) (VRef data) = dfs).
    { simpl. now rewrite (lookup_app_l_Some _ _ _ _ Hl2). }
    rewrite Hfs. reflexivity. }
  assert (Hg24 : grows w2 w4).
  { split; [|reflexivity]. unfold w4, h3. simpl.
    apply prefix_app_r. now apply prefix_app_r. }
  assert (Hresp : heap_of w4 !! length h3 = Some pcell) by apply lookup_alloc.
  assert (Hpre24 : heap_of w2 `prefix_of` heap_of w4) by apply Hg24.
  assert (Hkeep : forall x m t k, reify m (heap_of w1) x = Some t -> k <> "_links" ->
            oget (fieldsOf (heap_of w4) x) k = oget (fieldsOf (heap_of w1) x) k).
  { intros x m t k Hx Hk. eapply fields_after_conversion; eassumption. }
  assert (Hfdata : fieldsOf (heap_of w1) (VRef data) = dfs).
  { simpl. now rewrite Hl1. }
  assert (Hlinks : oget (fieldsOf (heap_of w4) (VRef (length h3))) "links" = Some lkv).
  { unfold fieldsOf. rewrite Hresp. reflexivity. }
  exists w4, (length h3), c. conjs.
  - simpl gen_step. rewrite (bind_run _ _ _ _ _ Hpage).
    rewrite (bind_run _ _ _ _ _ (getProp_ref _ _ _)).
    assert (Hconvs : oget (fieldsOf (heap_of w4) (VRef (length h3))) "conversations"
                     = Some (VRef (length (heap_of w2)))).
    { unfold fieldsOf. rewrite Hresp. reflexivity. }
    rewrite Hconvs. cbn [orUndef truthy].
    unfold iterate, bind, ret.
    assert (Hcarr : heap_of w4 !! length (heap_of w2) = Some (CArr [c])).
    { unfold w4, h3. simpl. apply lookup_app_l_Some, lookup_alloc. }
    now rewrite Hcarr.
  - simpl. rewrite Hlog2, Hlog1. reflexivity.
  - intros l x Hl.
    pose proof (getConversationPage_kept camelCase snakeCase apiHost server (VRef p) w) as K.
    rewrite Hpage in K. simpl in K. apply K; [|exact Hl].
    eapply lookup_lt_Some; eassumption.
  - unfold conversationOf. eapply denotes_grows; eassumption.
  - now rewrite <- Ha0.
  - rewrite <- Ha0. unfold w4, h3. cbn [heap_of].
    apply closedFrom_alloc; [apply closedFrom_alloc; [exact Hc2|]|].
    + cbn [cellVals]. constructor; [exact Hfc | constructor].
    + unfold pcell. cbn [cellVals map snd].
      constructor; [unfold freshFrom; lia|].
      constructor; [|constructor; [|constructor]].
      * unfold psv. rewrite <- Hfdata. now apply closed_field.
      * unfold lkv. rewrite <- Hfdata. now apply closed_field.
  - intros href Hnext. unfold fieldAt in Hnext.
    destruct (oget tfs "_links") as [[| | | | |lfs|]|] eqn:E1; try discriminate.
    destruct (denotes_field_obj w1 n dfs tfs "_links" lfs Hf1 ltac:(lia) E1)
      as (lk & lfs' & n' & Hlk & Hlkc & Hflk & Hn' & Hdlk).
    destruct (denotes_field_obj w1 n' lfs' lfs "next" _ Hflk ltac:(lia) Hnext)
      as (ln & nfs' & n'' & Hln & Hlnc & Hfln & Hn'' & Hdln).
    pose proof (fieldsDenote_oget _ _ _ _ "href" Hfln) as Hh. simpl in Hh.
    destruct Hh as (vh & Hvh & Hrh). apply reify_str_inv in Hrh. subst vh.
    apply (nextCursor_link parseCursor (VRef (length h3)) lkv (VRef ln) href w4).
    + exact Hlinks.
    + unfold lkv. rewrite Hlk. cbn [orUndef].
      rewrite (Hkeep (VRef lk) _ _ "next" Hdlk ltac:(discriminate)).
      simpl. now rewrite Hlkc.
    + reflexivity.
    + rewrite (Hkeep (VRef ln) _ _ "href" Hdln ltac:(discriminate)).
      simpl. now rewrite Hlnc.
  - intros Hnone.
    apply (nextCursor_last parseCursor (VRef (length h3)) lkv w4); [exact Hlinks|].
    pose proof (absent_path _ _ _ _ "_links" "next" Hd1 Hnone) as Habs.
    rewrite Hfdata in Habs. fold lkv in Habs.
    pose proof (fieldsDenote_tprop _ _ _ _ "_links" Hf1) as Hrl. fold lkv in Hrl.
    rewrite (Hkeep lkv _ _ "next" Hrl ltac:(discriminate)).
    destruct (oget (fieldsOf (heap_of w1) lkv) "next") as [x|]; [|reflexivity].
    simpl in Habs. now subst x.
Qed.


End OneItemPage.

(** ** Two pages of one conversation each *)

Section TwoPagesOfConversations.
Variables camelCase snakeCase : string -> string.
Variable apiHost : string.
Variable parseCursor : string -> option (option string).
Variable server : list request -> res tree.

Local Notation fetch := (getConversationPage camelCase snakeCase apiHost server).
Local Notation url := (apiHost ++ "/v1/conversations")%string.

(** The two pages, from the filter object at [p]. *)
Lemma drain_two_pages (item1 item2 tfs1 tfs2 : list (string * tree))
  (href cur : string) (p : nat) (fs : list (string * val)) (w : world) :
  heap_of w !! p = Some (CObj fs) ->
  camelCase "properties" = "properties" ->
  camelCase "custom_data" = "customData" ->
  fieldAt "_embedded" "conversations" tfs1 = Some (TArr [TObj item1]) ->
  fieldAt "_links" "next" tfs1 = Some (linkTo href) ->
  parseCursor href = Some (Some cur) -> cur <> "" ->
  fieldAt "_embedded" "conversations" tfs2 = Some (TArr [TObj item2]) ->
  fieldAt "_links" "next" tfs2 = None ->
  keyedAlone camelCase "properties" item1 ->
  (forall pfs, oget item1 "properties" = Some (TObj pfs) ->
     In "custom_data" (okeys pfs) -> keyedAlone camelCase "custom_data" pfs) ->
  keyedAlone camelCase "properties" item2 ->
  (forall pfs, oget item2 "properties" = Some (TObj pfs) ->
     In "custom_data" (okeys pfs) -> keyedAlone camelCase "custom_data" pfs) ->
  (forall rq, server (log w ++ [rq]) = Ok (TObj tfs1)) ->
  (forall rq1 rq2, server (log w ++ [rq1; rq2]) = Ok (TObj tfs2)) ->
  exists w' c1 c2,
    drain parseCursor fetch "conversations" 6 (GFetch (VRef p)) w
    = (w', Ok (Some [c1; c2]))
    /\ denotes w' c1 (conversationOf camelCase item1)
    /\ denotes w' c2 (conversationOf camelCase item2)
    /\ log w'
       = log w ++ [Request GET url (Query (renameKeys snakeCase fs));
                   Request GET url
                     (Query (renameKeys snakeCase (oset fs "cursor" (VStr cur))))].
Proof.
  intros Hp camel_properties camel_custom_data He1 Hn1 Hcur Hne He2 Hn2
    Ka1 Kb1 Ka2 Kb2 Hs1 Hs2.
  destruct (fetch_one camelCase snakeCase apiHost parseCursor server p fs tfs1 item1 w
              Hp Hs1 He1 camel_properties camel_custom_data Ka1 Kb1)
    as (wA & resp1 & c1 & Hstep1 & HlogA & HkeepA & Hd1 & Hfr1 & HclA & Hnext1 & _).
  specialize (Hnext1 href Hn1). rewrite Hcur in Hnext1.
  pose proof (HkeepA _ _ Hp) as HpA.
  pose proof (step_after_items parseCursor fetch "conversations" p fs (VRef resp1)
                (VStr cur) wA HpA Hnext1) as HstepB.
  assert (Htc : truthy (VStr cur) = true).
  { simpl. destruct (String.eqb cur "") eqn:E; [|reflexivity].
    apply String.eqb_eq in E. contradiction. }
  rewrite Htc in HstepB.
  set (fs2 := oset fs "cursor" (VStr cur)) in *.
  set (wB := World (<[p := CObj fs2]> (heap_of wA)) (log wA)) in *.
  assert (HpB : heap_of wB !! p = Some (CObj fs2)).
  { unfold wB. simpl. apply list_lookup_insert_eq. eapply lookup_lt_Some; eassumption. }
  assert (HsB : forall rq, server (log wB ++ [rq]) = Ok (TObj tfs2)).
  { intros rq. unfold wB. simpl. rewrite HlogA, <- app_assoc. apply Hs2. }
  destruct (fetch_one camelCase snakeCase apiHost parseCursor server p fs2 tfs2 item2 wB
              HpB HsB He2 camel_properties camel_custom_data Ka2 Kb2)
    as (wC & resp2 & c2 & Hstep2 & HlogC & HkeepC & Hd2 & Hfr2 & HclC & _ & Hlast).
  specialize (Hlast Hn2).
  pose proof (HkeepC _ _ HpB) as HpC.
  pose proof (step_after_items parseCursor fetch "conversations" p fs2 (VRef resp2)
                VNull wC HpC Hlast) as HstepD.
  cbn [truthy] in HstepD.
  set (wD := World (<[p := CObj (oset fs2 "cursor" (VStr ""))]> (heap_of wC)) (log wC)) in *.
  assert (Hplt : p < length (heap_of w)) by (eapply lookup_lt_Some; eassumption).
  assert (HlenAB : length (heap_of wB) = length (heap_of wA)).
  { unfold wB. simpl. apply length_insert. }
  assert (HlenA : length (heap_of w) <= length (heap_of wA)) by now apply kept_length.
  assert (HlenC : length (heap_of wB) <= length (heap_of wC)) by now apply kept_length.
  exists wD, c1, c2. conjs.
  - rewrite (drain_silent _ _ _ _ _ _ _ _ Hstep1).
    erewrite (drain_yield parseCursor fetch "conversations" 4 _ _ c1 wA wA wD (Some [c2]));
      [reflexivity | reflexivity |].
    rewrite (drain_silent _ _ _ _ _ _ _ _ HstepB).
    rewrite (drain_silent _ _ _ _ _ _ _ _ Hstep2).
    erewrite (drain_yield parseCursor fetch "conversations" 1 _ _ c2 wC wC wD (Some []));
      [reflexivity | reflexivity |].
    exact (drain_return _ _ _ _ _ _ _ _ HstepD).
  - unfold denotes.
    eapply (reify_frame (S (length (heap_of w))) (heap_of wA) (heap_of wD));
      [exact HclA | | | exact Hfr1 | exact Hd1].
    + intros l c Hl Hc. unfold wD. simpl.
      rewrite list_lookup_insert_ne by lia. apply HkeepC.
      unfold wB. simpl. rewrite list_lookup_insert_ne by lia. exact Hc.
    + unfold wD. simpl. rewrite length_insert. lia.
  - unfold denotes.
    eapply (reify_frame (S (length (heap_of wB))) (heap_of wC) (heap_of wD));
      [exact HclC | | | exact Hfr2 | exact Hd2].
    + intros l c Hl Hc. unfold wD. simpl.
      rewrite list_lookup_insert_ne by lia. exact Hc.
    + unfold wD. simpl. now rewrite length_insert.
  - unfold wD. simpl. rewrite HlogC. unfold wB. simpl. rewrite HlogA.
    now rewrite <- app_assoc.
Qed.

(** C3: against a server that answers the first page request with a
    page of one item and a next link whose address carries a cursor,
    and the second with a page of one item and no next link,
    [listAllConversations] yields the conversation made of the item of
    page 1, then the conversation made of the item of page 2, and ends;
    it has sent exactly two page requests, the first with the filter as
    given and the second with the cursor of the next link added. The
    items are objects of any shape, in which no other key is converted
    to [properties] or [customData]; the listing is called without a
    filter or with a filter object, from any store. *)
Theorem two_pages_listed_in_order (item1 item2 tfs1 tfs2 : list (string * tree))
  (href cur : string) (params : val) (fs : list (string * val)) (w : world) :
  (params = VUndef /\ fs = [])
  \/ (exists p, params = VRef p /\ heap_of w !! p = Some (CObj fs)) ->
  camelCase "properties" = "properties" ->
  camelCase "custom_data" = "customData" ->
  fieldAt "_embedded" "conversations" tfs1 = Some (TArr [TObj item1]) ->
  fieldAt "_links" "next" tfs1 = Some (linkTo href) ->
  parseCursor href = Some (Some cur) -> cur <> "" ->
  fieldAt "_embedded" "conversations" tfs2 = Some (TArr [TObj item2]) ->
  fieldAt "_links" "next" tfs2 = None ->
  keyedAlone camelCase "properties" item1 ->
  (forall pfs, oget item1 "properties" = Some (TObj pfs) ->
     In "custom_data" (okeys pfs) -> keyedAlone camelCase "custom_data" pfs) ->
  keyedAlone camelCase "properties" item2 ->
  (forall pfs, oget item2 "properties" = Some (TObj pfs) ->
     In "custom_data" (okeys pfs) -> keyedAlone camelCase "custom_data" pfs) ->
  (forall rq, server (log w ++ [rq]) = Ok (TObj tfs1)) ->
  (forall rq1 rq2, server (log w ++ [rq1; rq2]) = Ok (TObj tfs2)) ->
  exists w' c1 c2,
    collectAllConversations camelCase snakeCase apiHost parseCursor server 6 params w
    = (w', Ok (Some [c1; c2]))
    /\ denotes w' c1 (conversationOf camelCase item1)
    /\ denotes w' c2 (conversationOf camelCase item2)
    /\ log w'
       = log w ++ [Request GET (apiHost ++ "/v1/conversations")
                     (Query (renameKeys snakeCase fs));
                   Request GET (apiHost ++ "/v1/conversations")
                     (Query (renameKeys snakeCase (oset fs "cursor" (VStr cur))))].
Proof.
  intros Hparams Ec1 Ec2 He1 Hn1 Hcur Hne He2 Hn2 Ka1 Kb1 Ka2 Kb2 Hs1 Hs2.
  unfold collectAllConversations, listAllConversations.
  destruct Hparams as [[-> ->]|(p & -> & Hp)].
  - rewrite (bind_run _ _ _ _ _
               (eq_refl : startListing VUndef w
                          = (World (heap_of w ++ [CObj []]) (log w),
                             Ok (GFetch (VRef (length (heap_of w))))))).
    apply (drain_two_pages item1 item2 tfs1 tfs2 href cur (length (heap_of w)) []
             (World (heap_of w ++ [CObj []]) (log w))); try assumption.
    apply lookup_alloc.
  - rewrite (bind_run _ _ _ _ _
               (eq_refl : startListing (VRef p) w = (w, Ok (GFetch (VRef p))))).
    now apply (drain_two_pages item1 item2 tfs1 tfs2 href cur p fs w).
Qed.
End TwoPagesOfConversations.

(** ** The further statements on the fixtures of the test suite *)

Lemma two_pages_listed_in_order_witness :
  let second :=
    oset (entries exampleConversationResponse) "id"
      (TStr "CON-00000000-0000-0000-0000-000000000002") in
  exists w' c1 c2,
    collectAllConversations asciiCamelCase asciiSnakeCase exampleHost queryCursor
      (answeringPages
         (conversationPage [exampleConversationResponse]
            [("self", linkTo "https://api.nexmo.com/v1/conversations");
             ("next", linkTo "https://api.nexmo.com/v1/conversations?cursor=next")])
         (conversationPage [TObj second]
            [("self", linkTo "https://api.nexmo.com/v1/conversations")]))
      6 VUndef (World [] [])
    = (w', Ok (Some [c1; c2]))
    /\ denotes w' c1
         (conversationOf asciiCamelCase (entries exampleConversationResponse))
    /\ denotes w' c2 (conversationOf asciiCamelCase second)
    /\ log w'
       = [Request GET (exampleHost ++ "/v1/conversations") (Query []);
          Request GET (exampleHost ++ "/v1/conversations")
            (Query [("cursor", VStr "next")])].
Proof.
  intros second.
  apply (two_pages_listed_in_order asciiCamelCase asciiSnakeCase exampleHost queryCursor
           (answeringPages
              (conversationPage [exampleConversationResponse]
                 [("self", linkTo "https://api.nexmo.com/v1/conversations");
                  ("next", linkTo "https://api.nexmo.com/v1/conversations?cursor=next")])
              (conversationPage [TObj second]
                 [("self", linkTo "https://api.nexmo.com/v1/conversations")]))
           (entries exampleConversationResponse) second
           (entries (conversationPage [exampleConversationResponse]
                       [("self", linkTo "https://api.nexmo.com/v1/conversations");
                        ("next",
                         linkTo "https://api.nexmo.com/v1/conversations?cursor=next")]))
           (entries (conversationPage [TObj second]
                       [("self", linkTo "https://api.nexmo.com/v1/conversations")]))
           "https://api.nexmo.com/v1/conversations?cursor=next" "next"
           VUndef [] (World [] [])).
  - left. split; reflexivity.
  - reflexivity.
  - reflexivity.
  - reflexivity.
  - reflexivity.
  - vm_compute. reflexivity.
  - discriminate.
  - reflexivity.
  - reflexivity.
  - apply keyedAloneb_sound. vm_compute. reflexivity.
  - intros pfs E _. vm_compute in E. inversion E; subst pfs.
    apply keyedAloneb_sound. vm_compute. reflexivity.
  - apply keyedAloneb_sound. vm_compute. reflexivity.
  - intros pfs E _. vm_compute in E. inversion E; subst pfs.
    apply keyedAloneb_sound. vm_compute. reflexivity.
  - intros rq. reflexivity.
  - intros rq1 rq2. reflexivity.
Defined.

Lemma request_omits_server_owned_witness :
  exists w' request,
    conversationToApi asciiSnakeCase (rootOf exampleConversation)
      (storeOf exampleConversation) = (w', Ok request)
    /\ denotes w' request
         (TObj [("name", TStr "New Conversation");
                ("display_name", TStr "New Conversation");
                ("image_url", TStr "https://example.com/image.png");
                ("properties", TObj [("ttl", TNum 86400); ("type", TStr "public");
                                     ("custom_sort_key", TStr "foo");
                                     ("custom_data", exampleCustomData)])])
    /\ (forall k0, In k0 (okeys (entries exampleConversation)) ->
          ~ In k0 serverOwned ->
          In (asciiSnakeCase k0) (okeys (fieldsOf (heap_of w') request)))
    /\ (forall k, In k (okeys (fieldsOf (heap_of w') request)) ->
          exists k0,
            In k0 (okeys (entries exampleConversation))
            /\ ~ In k0 serverOwned /\ k = asciiSnakeCase k0)
    /\ forall K, In K (serverOwned ++ map asciiSnakeCase serverOwned) ->
         oget (fieldsOf (heap_of w') request) K = None.
Proof.
  apply (request_omits_server_owned asciiSnakeCase (storeOf exampleConversation)
           (rootOf exampleConversation) (entries exampleConversation)).
  - unfold denotes. vm_compute. reflexivity.
  - reflexivity.
  - reflexivity.
  - apply keyedAloneb_sound. vm_compute. reflexivity.
  - intros pfs E _. vm_compute in E. inversion E; subst pfs.
    apply keyedAloneb_sound. vm_compute. reflexivity.
  - intros k0 Hin Hnot Hbad. simpl in Hin.
    repeat (destruct Hin as [<-|Hin]; [try (apply Hnot; simpl; tauto);
      vm_compute in Hbad; intuition discriminate|]).
    exact Hin.
Defined.

Lemma apiToConversation_document_witness :
  exists w' conversation,
    apiToConversation asciiCamelCase (rootOf exampleConversationResponse)
      (storeOf exampleConversationResponse) = (w', Ok conversation)
    /\ freshFrom (length (heap_of (storeOf exampleConversationResponse))) conversation
    /\ denotes w' conversation
         (keepAt "properties" "customData"
            (fieldAt "properties" "custom_data" (entries exampleConversationResponse))
            (tmap asciiCamelCase
               (TObj (odel (entries exampleConversationResponse) "_links"))))
    /\ denotes w' (rootOf exampleConversationResponse)
         (TObj (odel (entries exampleConversationResponse) "_links")).
Proof.
  apply (apiToConversation_document asciiCamelCase
           (storeOf exampleConversationResponse) (rootOf exampleConversationResponse)
           (entries exampleConversationResponse)).
  - unfold denotes. vm_compute. reflexivity.
  - reflexivity.
  - reflexivity.
  - apply keyedAloneb_sound. vm_compute. reflexivity.
  - intros pfs E _. vm_compute in E. inversion E; subst pfs.
    apply keyedAloneb_sound. vm_compute. reflexivity.
Defined.

Lemma conversationToApi_document_witness :
  exists w' request,
    conversationToApi asciiSnakeCase (rootOf exampleConversation)
      (storeOf exampleConversation) = (w', Ok request)
    /\ freshFrom (length (heap_of (storeOf exampleConversation))) request
    /\ denotes w' request
         (keepAt "properties" "custom_data"
            (fieldAt "properties" "customData" (entries exampleConversation))
            (tmap asciiSnakeCase
               (TObj (without serverOwned (entries exampleConversation)))))
    /\ denotes w' (rootOf exampleConversation) exampleConversation.
Proof.
  apply (conversationToApi_document asciiSnakeCase
           (storeOf exampleConversation) (rootOf exampleConversation)
           (entries exampleConversation)).
  - unfold denotes. vm_compute. reflexivity.
  - reflexivity.
  - reflexivity.
  - apply keyedAloneb_sound. vm_compute. reflexivity.
  - intros pfs E _. vm_compute in E. inversion E; subst pfs.
    apply keyedAloneb_sound. vm_compute. reflexivity.
Defined.

Lemma conversation_round_trip_witness :
  exists w1 request w2 back,
    conversationToApi asciiSnakeCase (rootOf exampleConversation)
      (storeOf exampleConversation) = (w1, Ok request)
    /\ apiToConversation asciiCamelCase request w1 = (w2, Ok back)
    /\ denotes w2 back (TObj (without serverOwned (entries exampleConversation))).
Proof.
  apply (conversation_round_trip asciiCamelCase asciiSnakeCase
           (storeOf exampleConversation) (rootOf exampleConversation)
           (entries exampleConversation)).
  - unfold denotes. vm_compute. reflexivity.
  - reflexivity.
  - reflexivity.
  - reflexivity.
  - reflexivity.
  - vm_compute. reflexivity.
  - intros k Hin. vm_compute in Hin.
    repeat (destruct Hin as [<-|Hin]; [vm_compute; discriminate|]).
    contradiction.
Defined.

Lemma apiToMember_document_witness :
  exists w' member,
    apiToMember asciiCamelCase (rootOf exampleMemberResponse)
      (storeOf exampleMemberResponse) = (w', Ok member)
    /\ freshFrom (length (heap_of (storeOf exampleMemberResponse))) member
    /\ denotes w' member
         (TObj [("id", TStr "MEM-00000000-0000-0000-0000-000000000001");
                ("state", TStr "JOINED");
                ("knockingId", TStr "MEM-00000000-0000-0000-0000-000000000003");
                ("invitedBy", TStr "USR-00000000-0000-0000-0000-000000000003");
                ("user", TObj [("id", TStr "USR-00000000-0000-0000-0000-000000000001");
                               ("name", TStr "Alice Smith");
                               ("displayName", TStr "Alice")])])
    /\ denotes w' (rootOf exampleMemberResponse) exampleMemberResponse.
Proof.
  apply (apiToMember_document asciiCamelCase
           (storeOf exampleMemberResponse) (rootOf exampleMemberResponse)
           (entries exampleMemberResponse)
           [("user", TObj [("id", TStr "USR-00000000-0000-0000-0000-000000000001");
                           ("name", TStr "Alice Smith");
                           ("display_name", TStr "Alice")])]
           [("id", TStr "USR-00000000-0000-0000-0000-000000000001");
            ("name", TStr "Alice Smith");
            ("display_name", TStr "Alice")]).
  - unfold denotes. vm_compute. reflexivity.
  - reflexivity.
  - reflexivity.
Defined.

Lemma memberToApi_document_witness :
  exists w' body,
    memberToApi asciiSnakeCase (rootOf exampleMember) (storeOf exampleMember)
    = (w', Ok body)
    /\ freshFrom (length (heap_of (storeOf exampleMember))) body
    /\ denotes w' body
         (TObj [("state", TStr "JOINED");
                ("user", TObj [("id", TStr "USR-00000000-0000-0000-0000-000000000001");
                               ("name", TStr "Alice Smith")]);
                ("channel", TObj [("type", TStr "phone");
                                  ("number", TStr "447700900000")]);
                ("media", TObj [("audio_settings", TObj [("enabled", TBool true);
                                                         ("earmuffed", TBool false);
                                                         ("muted", TBool false)]);
                                ("audio", TBool true)]);
                ("knocking_id", TStr "MEM-00000000-0000-0000-0000-000000000003");
                ("member_id_inviting",
                 TStr "USR-00000000-0000-0000-0000-000000000003")])
    /\ denotes w' (rootOf exampleMember) exampleMember.
Proof.
  apply (memberToApi_document asciiSnakeCase
           (storeOf exampleMember) (rootOf exampleMember) (entries exampleMember)
           [("id", TStr "USR-00000000-0000-0000-0000-000000000001");
            ("name", TStr "Alice Smith");
            ("displayName", TStr "Alice")]).
  - unfold denotes. vm_compute. reflexivity.
  - reflexivity.
Defined.

Lemma conversation_operations_return_answer_witness :
  let answer :=
    keepAt "properties" "customData"
      (fieldAt "properties" "custom_data" (entries exampleConversationResponse))
      (tmap asciiCamelCase
         (TObj (odel (entries exampleConversationResponse) "_links"))) in
  (exists w' v,
     getConversation asciiCamelCase exampleHost (answering exampleConversationResponse)
       "CON-1" (storeOf exampleConversation) = (w', Ok v)
     /\ denotes w' v answer)
  /\ (exists w' v,
        createConversation asciiCamelCase asciiSnakeCase exampleHost
          (answering exampleConversationResponse)
          (rootOf exampleConversation) (storeOf exampleConversation) = (w', Ok v)
        /\ denotes w' v answer)
  /\ (exists w' v,
        updateConversation asciiCamelCase asciiSnakeCase exampleHost
          (answering exampleConversationResponse) decimalText
          (rootOf exampleConversation) (storeOf exampleConversation) = (w', Ok v)
        /\ denotes w' v answer).
Proof.
  apply (conversation_operations_return_answer asciiCamelCase asciiSnakeCase
           exampleHost (answering exampleConversationResponse) decimalText "CON-1"
           (rootOf exampleConversation) (entries exampleConversation)
           (entries exampleConversationResponse) (storeOf exampleConversation)).
  - unfold denotes. vm_compute. reflexivity.
  - intros rq. reflexivity.
  - reflexivity.
  - reflexivity.
  - apply keyedAloneb_sound. vm_compute. reflexivity.
  - intros pfs E _. vm_compute in E. inversion E; subst pfs.
    apply keyedAloneb_sound. vm_compute. reflexivity.
Defined.

Lemma member_operations_return_answer_witness :
  let answer :=
    TObj [("id", TStr "MEM-00000000-0000-0000-0000-000000000001");
          ("state", TStr "JOINED");
          ("knockingId", TStr "MEM-00000000-0000-0000-0000-000000000003");
          ("invitedBy", TStr "USR-00000000-0000-0000-0000-000000000003");
          ("user", TObj [("id", TStr "USR-00000000-0000-0000-0000-000000000001");
                         ("name", TStr "Alice Smith");
                         ("displayName", TStr "Alice")])] in
  (exists w' v,
     getMember asciiCamelCase exampleHost (answering exampleMemberResponse)
       "CON-1" "MEM-1" (storeOf exampleMember) = (w', Ok v)
     /\ denotes w' v answer)
  /\ (exists w' v,
        getMe asciiCamelCase exampleHost (answering exampleMemberResponse)
          "CON-1" (storeOf exampleMember) = (w', Ok v)
        /\ denotes w' v answer)
  /\ (exists w' v,
        createMember asciiCamelCase asciiSnakeCase exampleHost
          (answering exampleMemberResponse) "CON-1"
          (rootOf exampleMember) (storeOf exampleMember) = (w', Ok v)
        /\ denotes w' v answer)
  /\ (exists w' v,
        updateMember asciiCamelCase exampleHost (answering exampleMemberResponse)
          "CON-1" "MEM-1" (rootOf exampleMember) (storeOf exampleMember) = (w', Ok v)
        /\ denotes w' v answer).
Proof.
  apply (member_operations_return_answer asciiCamelCase asciiSnakeCase
           exampleHost (answering exampleMemberResponse) "CON-1" "MEM-1"
           (rootOf exampleMember) (rootOf exampleMember) (entries exampleMember)
           [("id", TStr "USR-00000000-0000-0000-0000-000000000001");
            ("name", TStr "Alice Smith");
            ("displayName", TStr "Alice")]
           (entries exampleMemberResponse)
           [("user", TObj [("id", TStr "USR-00000000-0000-0000-0000-000000000001");
                           ("name", TStr "Alice Smith");
                           ("display_name", TStr "Alice")])]
           [("id", TStr "USR-00000000-0000-0000-0000-000000000001");
            ("name", TStr "Alice Smith");
            ("display_name", TStr "Alice")]
           (storeOf exampleMember)).
  - unfold denotes. vm_compute. reflexivity.
  - reflexivity.
  - intros rq. reflexivity.
  - reflexivity.
  - reflexivity.
Defined.

Lemma transport_failure_propagates_witness :
  snd (getConversation asciiCamelCase exampleHost (failing TransportError)
         "CON-1" (storeOf exampleConversation)) = Throw TransportError
  /\ snd (getMemberPage asciiCamelCase asciiSnakeCase exampleHost
            (failing TransportError) "CON-1" VUndef (storeOf exampleConversation))
     = Throw TransportError
  /\ snd (createConversation asciiCamelCase asciiSnakeCase exampleHost
            (failing TransportError) (rootOf exampleConversation)
            (storeOf exampleConversation))
     = Throw TransportError.
Proof.
  destruct (transport_failure_propagates asciiCamelCase asciiSnakeCase exampleHost
              queryCursor (failing TransportError) decimalText TransportError
              "CON-1" "MEM-1"
              (rootOf exampleConversation) (rootOf exampleMember)
              (rootOf exampleMember) VUndef (storeOf exampleConversation))
    as (H1 & _ & _ & _ & _ & _ & H7 & _ & _ & H10 & _).
  - intros rq. reflexivity.
  - split; [exact H1|]. split; [exact H7|].
    refine (proj1 (H10 (fst (conversationToApi asciiSnakeCase (rootOf exampleConversation)
                               (storeOf exampleConversation))) (VRef 7) _)).
    vm_compute. reflexivity.
Defined.

Lemma unusable_next_link_ends_listing_witness :
  (let w := World [CObj [("pageSize", VNum 1)];
                   CObj [("href", VStr "https://api.nexmo.com/v1/conversations")];
                   CObj [("next", VRef 1)];
                   CObj [("conversations", VUndef); ("pageSize", VNum 1);
                         ("links", VRef 2)]] [] in
   let w' := World [CObj [("pageSize", VNum 1); ("cursor", VStr "")];
                    CObj [("href", VStr "https://api.nexmo.com/v1/conversations")];
                    CObj [("next", VRef 1)];
                    CObj [("conversations", VUndef); ("pageSize", VNum 1);
                          ("links", VRef 2)]] [] in
   listAllConversations_step asciiCamelCase asciiSnakeCase exampleHost queryCursor
     (answering exampleConversationResponse) (GItems (VRef 0) (VRef 3) []) w
   = (w', Ok (EReturn, GDone)))
  /\ (let w := World [CObj [("pageSize", VNum 1)];
                      CObj [("href", VStr "/v1/conversations?cursor=abc")];
                      CObj [("next", VRef 1)];
                      CObj [("conversations", VUndef); ("pageSize", VNum 1);
                            ("links", VRef 2)]] [] in
      listAllMembers_step asciiCamelCase asciiSnakeCase exampleHost queryCursor
        (answering exampleConversationResponse) "CON-1" (GItems (VRef 0) (VRef 3) []) w
      = (w, Throw TypeError)).
Proof.
  split.
  - intros w w'.
    exact (proj1 (proj1 (unusable_next_link_ends_listing asciiCamelCase asciiSnakeCase
                           exampleHost queryCursor (answering exampleConversationResponse)
                           "CON-1" 0 [("pageSize", VNum 1)] (VRef 3) (VRef 2) (VRef 1)
                           "https://api.nexmo.com/v1/conversations" w
                           eq_refl eq_refl eq_refl eq_refl eq_refl) eq_refl)).
  - intros w.
    exact (proj2 (proj2 (unusable_next_link_ends_listing asciiCamelCase asciiSnakeCase
                           exampleHost queryCursor (answering exampleConversationResponse)
                           "CON-1" 0 [("pageSize", VNum 1)] (VRef 3) (VRef 2) (VRef 1)
                           "/v1/conversations?cursor=abc" w
                           eq_refl eq_refl eq_refl eq_refl eq_refl) eq_refl)).
Defined.

Lemma updateConversation_puts_to_id_witness :
  (exists body,
     log (fst (updateConversation asciiCamelCase asciiSnakeCase exampleHost
                 (answering exampleConversationResponse) decimalText
                 (rootOf exampleConversation) (storeOf exampleConversation)))
     = [Request PUT
          "https://api.nexmo.com/v1/conversations/CON-00000000-0000-0000-0000-000000000001"
          (Body body)]
     /\ oget (fieldsOf
                (heap_of (fst (conversationToApi asciiSnakeCase
                                 (rootOf exampleConversation)
                                 (storeOf exampleConversation)))) body) "id" = None)
  /\ (exists body,
        log (fst (updateConversation asciiCamelCase asciiSnakeCase exampleHost
                    (answering exampleConversationResponse) decimalText
                    (VRef 0) (World [CObj [("name", VStr "New Conversation")]] [])))
        = [Request PUT "https://api.nexmo.com/v1/conversations/undefined" (Body body)]).
Proof.
  split.
  - destruct (updateConversation_puts_to_id asciiCamelCase asciiSnakeCase exampleHost
                (answering exampleConversationResponse) decimalText
                (storeOf exampleConversation) (rootOf exampleConversation)
                (entries exampleConversation))
      as (w1 & body & Hrun & Hid & Hput & _).
    + unfold denotes. vm_compute. reflexivity.
    + intros k0 Hin Hnot Hbad. simpl in Hin.
      repeat (destruct Hin as [<-|Hin]; [try (apply Hnot; simpl; tauto);
        vm_compute in Hbad; discriminate|]).
      exact Hin.
    + exists body. split.
      * exact (Hput "CON-00000000-0000-0000-0000-000000000001" eq_refl).
      * now rewrite Hrun.
  - destruct (updateConversation_puts_to_id asciiCamelCase asciiSnakeCase exampleHost
                (answering exampleConversationResponse) decimalText
                (World [CObj [("name", VStr "New Conversation")]] []) (VRef 0)
                [("name", TStr "New Conversation")])
      as (w1 & body & _ & _ & _ & Hput).
    + unfold denotes. vm_compute. reflexivity.
    + intros k0 Hin Hnot Hbad. simpl in Hin.
      repeat (destruct Hin as [<-|Hin]; [vm_compute in Hbad; discriminate|]).
      exact Hin.
    + exists body. exact (Hput eq_refl).
Defined.

Lemma all_pages_listed_in_order_witness :
  let item n := [("id", TStr n); ("display_name", TStr "New Conversation")] in
  let url := "https://api.nexmo.com/v1/conversations" in
  exists fuel w' cs,
    collectAllConversations asciiCamelCase asciiSnakeCase exampleHost queryCursor
      (answeringInTurn
         [conversationPage [TObj (item "CON-1"); TObj (item "CON-2")]
            (pageLinks url (Some "https://api.nexmo.com/v1/conversations?cursor=two"));
          conversationPage [TObj (item "CON-3")]
            (pageLinks url (Some "https://api.nexmo.com/v1/conversations?cursor=three"));
          conversationPage [TObj (item "CON-4")] (pageLinks url None)])
      fuel (VRef 0) (World [CObj [("pageSize", VNum 2)]] [])
    = (w', Ok (Some (map VRef cs)))
    /\ Forall2 (fun c it => heap_of w' !! c = Some (converted asciiCamelCase it))
         cs [item "CON-1"; item "CON-2"; item "CON-3"; item "CON-4"]
    /\ log w'
       = [Request GET url (Query [("page_size", VNum 2)]);
          Request GET url (Query [("page_size", VNum 2); ("cursor", VStr "two")]);
          Request GET url (Query [("page_size", VNum 2); ("cursor", VStr "three")])]
    /\ heap_of w' !! 0 = Some (CObj [("pageSize", VNum 2); ("cursor", VStr "")])
    /\ (forall l c, l <> 0 ->
          [CObj [("pageSize", VNum 2)]] !! l = Some c ->
          heap_of w' !! l = Some c).
Proof.
  intros item url.
  apply (all_pages_listed_in_order asciiCamelCase asciiSnakeCase exampleHost queryCursor
           (answeringInTurn
              [conversationPage [TObj (item "CON-1"); TObj (item "CON-2")]
                 (pageLinks url (Some "https://api.nexmo.com/v1/conversations?cursor=two"));
               conversationPage [TObj (item "CON-3")]
                 (pageLinks url (Some "https://api.nexmo.com/v1/conversations?cursor=three"));
               conversationPage [TObj (item "CON-4")] (pageLinks url None)])
           [WirePage [item "CON-1"; item "CON-2"]
              "https://api.nexmo.com/v1/conversations?cursor=two" "two";
            WirePage [item "CON-3"]
              "https://api.nexmo.com/v1/conversations?cursor=three" "three"]
           [item "CON-4"] url 0 [("pageSize", VNum 2)]
           (World [CObj [("pageSize", VNum 2)]] [])).
  - reflexivity.
  - repeat constructor; try (vm_compute; reflexivity); discriminate.
  - repeat constructor.
  - intros i pg rqs Hi Hlen.
    destruct i as [|[|i]]; simpl in Hi; inversion Hi; subst pg;
      destruct rqs as [|r1 [|r2 [|r3 rqs]]]; try discriminate; reflexivity.
  - intros rqs Hlen.
    destruct rqs as [|r1 [|r2 [|r3 [|r4 rqs]]]]; try discriminate; reflexivity.
Defined.
